(** * Romulus-N / Romulus-M / Romulus-T with first-order masking

    A shallow embedding of the C sources of the protected Romulus
    implementations (ARMv7-M, little endian) and the properties checked
    against their natural-language specification.

    Bytes ([uint8_t]) and 32-bit words ([uint32_t]) are integers of [Z];
    every wrap-around of the C code is written out ([u8], [u32]).  Byte
    buffers are lists of bytes; a 16-byte block is a list of length 16. *)

From Stdlib Require Import ZArith List Lia Bool Btauto.
From coqutil Require Import Z.bitblast.
Import ListNotations.
Local Open Scope Z_scope.

(** ** Machine integers and buffers *)

(** The conversions [(uint8_t) x] and [(uint32_t) x]. *)
Definition u8 (x : Z) : Z := x mod 2 ^ 8.
Definition u32 (x : Z) : Z := x mod 2 ^ 32.

Definition is_u8 (x : Z) : bool := (0 <=? x) && (x <? 256).
Definition is_u32 (x : Z) : bool := (0 <=? x) && (x <? 2 ^ 32).

(** A buffer of bytes, and a block of [BLOCKBYTES] bytes. *)
Definition is_bytes (b : list Z) : bool := forallb is_u8 b.
Definition BLOCKBYTES : nat := 16.
Definition TAGBYTES : nat := 16.
Definition is_block (b : list Z) : bool :=
  Nat.eqb (length b) BLOCKBYTES && is_bytes b.

(** [buf[i]] *)
Definition byte_at (b : list Z) (i : nat) : Z := nth i b 0.

(** [((uint32_t* )b)[i]] on a little-endian core. *)
Definition load32 (b : list Z) (i : nat) : Z :=
  Z.lor (Z.lor (Z.lor (byte_at b (4 * i))
                      (Z.shiftl (byte_at b (4 * i + 1)) 8))
               (Z.shiftl (byte_at b (4 * i + 2)) 16))
        (Z.shiftl (byte_at b (4 * i + 3)) 24).

(** The four bytes a 32-bit store writes, lowest first. *)
Definition bytes_of_u32 (w : Z) : list Z :=
  [ Z.land w 255; Z.land (Z.shiftr w 8) 255;
    Z.land (Z.shiftr w 16) 255; Z.land (Z.shiftr w 24) 255 ].

(** A block written as four 32-bit stores. *)
Definition block_of_words (w0 w1 w2 w3 : Z) : list Z :=
  bytes_of_u32 w0 ++ bytes_of_u32 w1 ++ bytes_of_u32 w2 ++ bytes_of_u32 w3.

(** [buf[i] = v]; a write past the end of the list is dropped (the C code
    never performs one on the buffers modelled as blocks). *)
Fixpoint set_byte (b : list Z) (i : nat) (v : Z) : list Z :=
  match b, i with
  | [], _ => []
  | _ :: t, O => v :: t
  | h :: t, S j => h :: set_byte t j v
  end.

(** Byte-wise exclusive or of two buffers, as long as the shorter one. *)
Fixpoint xor_bytes (a b : list Z) : list Z :=
  match a, b with
  | x :: a', y :: b' => Z.lxor x y :: xor_bytes a' b'
  | _, _ => []
  end.

(** [zeroize(buf, n)] as the value of the [n] bytes written. *)
Definition zeros (n : nat) : list Z := repeat 0 n.

(** ** The macros of romulus_n.h

    romulus_m.c uses the same macros through romulus_m.h, which is not among
    the sources at hand; the model of romulus_m.c uses the ones of
    romulus_n.h. *)

Module Macros.

(** [SET_DOMAIN(tk1, domain)]: [tk1[7] = domain]. *)
Definition SET_DOMAIN (tk1 : list Z) (domain : Z) : list Z :=
  set_byte tk1 7 domain.

(** One 32-bit lane of [G]. *)
Definition G_word (tmp : Z) : Z :=
  Z.lxor (Z.land (Z.shiftr tmp 1) 0x7f7f7f7f)
         (Z.land (Z.lxor tmp (u32 (Z.shiftl tmp 7))) 0x80808080).

(** [G(x, y)]: the value stored to [x], read from [y].  Each word of [y]
    is read before the same word of [x] is written, so [x] and [y] may be
    the same buffer. *)
Definition G (y : list Z) : list Z :=
  block_of_words (G_word (load32 y 0)) (G_word (load32 y 1))
                 (G_word (load32 y 2)) (G_word (load32 y 3)).

(** [UPDATE_CTR(tk1)]: words 0 and 1 of [tk1] are rewritten, the other
    eight bytes are not touched. *)
Definition UPDATE_CTR (tk1 : list Z) : list Z :=
  let tmp := load32 tk1 1 in
  let w1 := Z.land (u32 (Z.shiftl tmp 1)) 0x00ffffff in
  let w1 := Z.lor w1 (Z.shiftr (load32 tk1 0) 31) in
  let w1 := Z.lor w1 (Z.land tmp 0xff000000) in
  let w0 := u32 (Z.shiftl (load32 tk1 0) 1) in
  let w0 := if Z.eqb (Z.land (Z.shiftr tmp 23) 0x01) 0 then w0
            else Z.lxor w0 0x95 in
  bytes_of_u32 w0 ++ bytes_of_u32 w1 ++ skipn 8 tk1.

(** [XOR_BLOCK(x, y, z)]: the value stored to [x]. *)
Definition XOR_BLOCK (y z : list Z) : list Z :=
  block_of_words (Z.lxor (load32 y 0) (load32 z 0))
                 (Z.lxor (load32 y 1) (load32 z 1))
                 (Z.lxor (load32 y 2) (load32 z 2))
                 (Z.lxor (load32 y 3) (load32 z 3)).

(** [RHO] and [RHO_INV] are applied to five pointers to 16-byte blocks,
    and two of the pointers may be the same: the comment above the macros
    names [y = z], the call that works in place.  The blocks are therefore
    held in a store indexed by pointer, where a block stored through one
    pointer is what a load through an equal pointer returns.  Two pointers
    are equal or point to blocks that do not overlap. *)
Definition ptr : Type := nat.
Definition store : Type := ptr -> list Z.

(** A 16-byte store through [p]. *)
Definition put (m : store) (p : ptr) (v : list Z) : store :=
  fun q => if Nat.eqb q p then v else m q.

(** [G(x, y)] and [XOR_BLOCK(x, y, z)] as statements on the store. *)
Definition G_at (x y : ptr) (m : store) : store := put m x (G (m y)).
Definition XOR_BLOCK_at (x y z : ptr) (m : store) : store :=
  put m x (XOR_BLOCK (m y) (m z)).

(** [RHO(x, x_m, y, z, tmp)], statement by statement. *)
Definition RHO (x x_m y z tmp : ptr) (m : store) : store :=
  let m := G_at tmp x m in
  let m := XOR_BLOCK_at y tmp z m in
  let m := G_at tmp x_m m in
  let m := XOR_BLOCK_at y tmp y m in
  XOR_BLOCK_at x x z m.

(** [RHO_INV(x, x_m, y, z, tmp)], statement by statement. *)
Definition RHO_INV (x x_m y z tmp : ptr) (m : store) : store :=
  let m := G_at tmp x m in
  let m := XOR_BLOCK_at z tmp y m in
  let m := G_at tmp x_m m in
  let m := XOR_BLOCK_at z tmp z m in
  XOR_BLOCK_at x x z m.

End Macros.

(** ** The masked gadgets of the Skinny-128-384+ assembly *)

Module Gadgets.

(** ARM [orn rd, rn, rm]: [rn | ~rm] on 32 bits. *)
Definition orn (rn rm : Z) : Z := Z.lor rn (u32 (Z.lnot rm)).

(** [secand z1, z2, x1, x2, y1, y2, tmp] with output and temporary
    registers distinct from the inputs. *)
Definition secand (x1 x2 y1 y2 : Z) : Z * Z :=
  let tmp := orn x1 y2 in
  let z1 := Z.land x1 y1 in
  let z1 := Z.lxor tmp z1 in
  let tmp := orn x2 y2 in
  let z2 := Z.land x2 y1 in
  let z2 := Z.lxor z2 tmp in
  (z1, z2).

(** [secorr z1, z2, x1, x2, y1, y2, tmp]. *)
Definition secorr (x1 x2 y1 y2 : Z) : Z * Z :=
  let tmp := Z.lor x1 y2 in
  let z1 := Z.land x1 y1 in
  let z1 := Z.lxor tmp z1 in
  let tmp := Z.land x2 y2 in
  let z2 := Z.lor x2 y1 in
  let z2 := Z.lxor z2 tmp in
  (z1, z2).

(** [secxor z1, z2, x1, x2, y1, y2]. *)
Definition secxor (x1 x2 y1 y2 : Z) : Z * Z :=
  (Z.lxor x1 y1, Z.lxor x2 y2).

End Gadgets.

(** ** The interface of skinny128.h

    The cipher and the tweakey-schedule primitives are declared [extern] in
    skinny128.h and implemented in assembly; they are taken here as the
    operations of an interface.  Each returns the contents of the buffers
    it writes, computed from the buffers it reads. *)

Definition SKINNY128_384_ROUNDS : Z := 40.

Class Skinny128 : Type := {
  (** [skinny128_384_plus(ctext, ctext_m, ptext, ptext_m, rtk_23, rtk_3m, rtk1)]
      returns [(ctext, ctext_m)]. *)
  skinny128_384_plus :
    list Z -> list Z -> list Z -> list Z -> list Z -> list Z * list Z;
  (** [tks_lfsr_23(rtk_23, tk_2, tk_3, rounds)] returns [rtk_23]. *)
  tks_lfsr_23 : list Z -> list Z -> Z -> list Z;
  (** [tks_lfsr_3(rtk_3, tk_3, rounds)] returns [rtk_3]. *)
  tks_lfsr_3 : list Z -> Z -> list Z;
  (** [tks_perm_23(rtk_23)], in place. *)
  tks_perm_23 : list Z -> list Z;
  (** [tks_perm_23_norc(rtk_23)], in place. *)
  tks_perm_23_norc : list Z -> list Z;
  (** [tks_perm_1(rtk_1, tk_1)] returns [rtk_1]. *)
  tks_perm_1 : list Z -> list Z
}.

Section Schedule.
Context {C : Skinny128}.

(** [tk_schedule_1(rtk_1, tk_1)] *)
Definition tk_schedule_1 (tk_1 : list Z) : list Z := tks_perm_1 tk_1.

(** [tk_schedule_23(rtk_23, rtk_3m, tk_2, tk_3, tk_3m)] returns
    [(rtk_23, rtk_3m)]. *)
Definition tk_schedule_23 (tk_2 tk_3 tk_3m : list Z) : list Z * list Z :=
  let rtk_23 := tks_lfsr_23 tk_2 tk_3 SKINNY128_384_ROUNDS in
  let rtk_23 := tks_perm_23 rtk_23 in
  let rtk_3m := tks_lfsr_3 tk_3m SKINNY128_384_ROUNDS in
  let rtk_3m := tks_perm_23_norc rtk_3m in
  (rtk_23, rtk_3m).

(** [tk_schedule_123(rtk_23, rtk_3m, rtk_1, tk_1, tk_2, tk_3, tk_3m)]
    returns [(rtk_23, rtk_3m, rtk_1)]. *)
Definition tk_schedule_123 (tk_1 tk_2 tk_3 tk_3m : list Z)
  : list Z * list Z * list Z :=
  let rtk_1 := tks_perm_1 tk_1 in
  let rtk_23 := tks_lfsr_23 tk_2 tk_3 SKINNY128_384_ROUNDS in
  let rtk_23 := tks_perm_23 rtk_23 in
  let rtk_3m := tks_lfsr_3 tk_3m SKINNY128_384_ROUNDS in
  let rtk_3m := tks_perm_23_norc rtk_3m in
  (rtk_23, rtk_3m, rtk_1).

End Schedule.

(** ** The buffers of one AEAD call *)

(** The buffers the core functions update in place: the two shares of the
    internal state, [tk1], and the two round-tweakey tables. *)
Record ctx : Type := mkctx {
  state : list Z;
  state_m : list Z;
  tk1 : list Z;
  rtk : list Z;
  rtk_m : list Z
}.

Definition ENCRYPT_MODE : Z := 0.
Definition DECRYPT_MODE : Z := 1.

Section Core.
Context {C : Skinny128}.

(** The statement pair
    [tk_schedule_123(rtk, rtk_m, rtk1, tk1, tk_2, k, k_m);
     skinny128_384_plus(state, state_m, state, state_m, rtk, rtk_m, rtk1);] *)
Definition schedule_123_encrypt (s : ctx) (tk_2 k k_m : list Z) : ctx :=
  let '(rtk', rtk_m', rtk1) := tk_schedule_123 (tk1 s) tk_2 k k_m in
  let '(c, c_m) := skinny128_384_plus (state s) (state_m s) rtk' rtk_m' rtk1 in
  mkctx c c_m (tk1 s) rtk' rtk_m'.

(** The statement pair
    [tk_schedule_1(rtk1, tk1);
     skinny128_384_plus(state, state_m, state, state_m, rtk, rtk_m, rtk1);] *)
Definition schedule_1_encrypt (s : ctx) : ctx :=
  let rtk1 := tk_schedule_1 (tk1 s) in
  let '(c, c_m) :=
    skinny128_384_plus (state s) (state_m s) (rtk s) (rtk_m s) rtk1 in
  mkctx c c_m (tk1 s) (rtk s) (rtk_m s).

Definition set_state (s : ctx) (x : list Z) : ctx :=
  mkctx x (state_m s) (tk1 s) (rtk s) (rtk_m s).
Definition set_tk1 (s : ctx) (t : list Z) : ctx :=
  mkctx (state s) (state_m s) t (rtk s) (rtk_m s).

Definition update_ctr (s : ctx) : ctx := set_tk1 s (Macros.UPDATE_CTR (tk1 s)).
Definition set_domain (s : ctx) (d : Z) : ctx :=
  set_tk1 s (Macros.SET_DOMAIN (tk1 s) d).

(** [XOR_BLOCK(state, state, p)] for the 16 bytes at [p]. *)
Definition xor_state (s : ctx) (p : list Z) : ctx :=
  set_state s (Macros.XOR_BLOCK (state s) (firstn 16 p)).

(** [for (i = 0; i < n; i++) state[i] ^= p[i];] *)
Fixpoint xor_prefix (n : nat) (st p : list Z) : list Z :=
  match n, st, p with
  | S n', x :: st', y :: p' => u8 (Z.lxor x y) :: xor_prefix n' st' p'
  | _, _, _ => st
  end.

(** [for (i = 0; i < n; i++) state[i] ^= p[i]; state[15] ^= (uint8_t) n;] *)
Definition xor_partial (s : ctx) (p : list Z) (n : nat) : ctx :=
  let st := xor_prefix n (state s) p in
  set_state s (set_byte st 15 (u8 (Z.lxor (byte_at st 15) (u8 (Z.of_nat n))))).

(** [copy(pad, p, n); zeroize(pad + n, 15 - n); pad[15] = n;] *)
Definition pad_block (p : list Z) (n : nat) : list Z :=
  firstn n p ++ zeros (15 - n) ++ [u8 (Z.of_nat n)].

(** One byte of the linear transform as the last-block loops write it:
    [(s >> 1) ^ (s & 0x80) ^ (s << 7)], an [int]. *)
Definition G_int (s : Z) : Z :=
  Z.lxor (Z.lxor (Z.shiftr s 1) (Z.land s 0x80)) (Z.shiftl s 7).

(** The two assignments to [out[i]] of the last-block loops. *)
Definition out_byte (x s s_m : Z) : Z :=
  let o := u8 (Z.lxor (Z.lxor (Z.lxor x (Z.shiftr s 1)) (Z.land s 0x80))
                      (Z.shiftl s 7)) in
  u8 (Z.lxor o (G_int s_m)).

(** The last-block loop that feeds the input back:
    [for (i = 0; i < n; i++) { tmp = in[i]; out[i] = ...; out[i] ^= ...;
                               state[i] ^= (uint8_t)tmp; }]
    returns the new first share and the bytes written to [out]. *)
Fixpoint last_block_in (n : nat) (st st_m inb : list Z) : list Z * list Z :=
  match n, st, st_m, inb with
  | S n', s :: st', sm :: st_m', x :: inb' =>
      let o := out_byte x s sm in
      let '(st'', out) := last_block_in n' st' st_m' inb' in
      (u8 (Z.lxor s (u8 x)) :: st'', o :: out)
  | _, _, _, _ => (st, [])
  end.

(** The last-block loop that feeds the output back:
    [for (i = 0; i < n; i++) { out[i] = ...; out[i] ^= ...;
                               state[i] ^= out[i]; }] *)
Fixpoint last_block_out (n : nat) (st st_m inb : list Z) : list Z * list Z :=
  match n, st, st_m, inb with
  | S n', s :: st', sm :: st_m', x :: inb' =>
      let o := out_byte x s sm in
      let '(st'', out) := last_block_out n' st' st_m' inb' in
      (u8 (Z.lxor s o) :: st'', o :: out)
  | _, _, _, _ => (st, [])
  end.

(** [state[15] ^= (uint8_t) n;] *)
Definition xor_len (s : ctx) (n : nat) : ctx :=
  set_state s
    (set_byte (state s) 15
       (u8 (Z.lxor (byte_at (state s) 15) (u8 (Z.of_nat n))))).

(** [tk1[0] = 0x01; zeroize(tk1 + 1, 15);] *)
Definition tk1_init : list Z := 1 :: zeros 15.

(** The pointers the message loops hand to [RHO] and [RHO_INV]: the two
    state shares, the local [tmp_blk], and the blocks at [in] and at [out].
    [out] is the pointer [in] itself when the caller works in place
    ([out == in]), and points to a block that does not overlap it
    otherwise. *)
Definition p_state : Macros.ptr := 0%nat.
Definition p_state_m : Macros.ptr := 1%nat.
Definition p_tmp_blk : Macros.ptr := 2%nat.
Definition p_in : Macros.ptr := 3%nat.
Definition p_out (in_place : bool) : Macros.ptr :=
  if in_place then p_in else 4%nat.

(** The store when the macro is entered: the state shares of [s] and the
    16 bytes at [p] behind [in].  What [tmp_blk] and a separate [out] hold
    is overwritten before it is read. *)
Definition rho_store (s : ctx) (p : list Z) : Macros.store :=
  fun q =>
    if Nat.eqb q p_state then state s
    else if Nat.eqb q p_state_m then state_m s
    else if Nat.eqb q p_in then firstn 16 p
    else [].

(** [RHO(state, state_m, out, in, tmp_blk)] or
    [RHO_INV(state, state_m, in, out, tmp_blk)], by [mode], on the 16 bytes
    at [p]: returns the updated buffers and the block left at [out]. *)
Definition rho_step (in_place : bool) (mode : Z) (s : ctx) (p : list Z)
  : ctx * list Z :=
  let out := p_out in_place in
  let m := rho_store s p in
  let m :=
    if Z.eqb mode ENCRYPT_MODE
    then Macros.RHO p_state p_state_m out p_in p_tmp_blk m
    else Macros.RHO_INV p_state p_state_m p_in out p_tmp_blk m in
  (mkctx (m p_state) (m p_state_m) (tk1 s) (rtk s) (rtk_m s), m out).

End Core.

(** What the model asks of any implementation of the interface: the cipher
    stores two 16-byte blocks. *)
Definition cipher_blocks (C : Skinny128) : Prop :=
  forall p p_m rtk_23 rtk_3m rtk1,
    is_block (fst (skinny128_384_plus p p_m rtk_23 rtk_3m rtk1)) = true /\
    is_block (snd (skinny128_384_plus p p_m rtk_23 rtk_3m rtk1)) = true.

(** ** Code shared by the core functions of Romulus-N and Romulus-M *)

Section Shared.
Context {C : Skinny128}.

(** The loop over all double blocks but the last,
    [while (len > 2*BLOCKBYTES) { UPDATE_CTR(tk1); XOR_BLOCK(state, state, p);
       tk_schedule_123(rtk, rtk_m, rtk1, tk1, p + BLOCKBYTES, k, k_m);
       skinny128_384_plus(...); UPDATE_CTR(tk1); p += 32; len -= 32; }]
    It returns the buffers, the advanced pointer and the remaining length.
    Every iteration consumes 32 bytes, so [fuel = len] iterations are more
    than the loop can take. *)
Fixpoint double_blocks (fuel : nat) (s : ctx) (p : list Z) (len : nat)
    (k k_m : list Z) : ctx * list Z * nat :=
  match fuel with
  | O => (s, p, len)
  | S fuel' =>
      if (32 <? len)%nat then
        let s := update_ctr s in
        let s := xor_state s p in
        let s := schedule_123_encrypt s (firstn 16 (skipn 16 p)) k k_m in
        let s := update_ctr s in
        double_blocks fuel' s (skipn 32 p) (len - 32) k k_m
      else (s, p, len)
  end.

(** [G(state, state); G(state_m, state_m);
     for (i = 0; i < TAGBYTES; i++) c[i] = state[i] ^ state_m[i];]
    returns the buffers and the tag written to [c]. *)
Definition generate_tag (s : ctx) : ctx * list Z :=
  let st := Macros.G (state s) in
  let st_m := Macros.G (state_m s) in
  (mkctx st st_m (tk1 s) (rtk s) (rtk_m s), xor_bytes st st_m).

(** [tmp = 0; for (i = 0; i < TAGBYTES; i++)
       tmp |= state[i] ^ state_m[i] ^ tag[i];]
    with a 32-bit [tmp]: every one of the 16 bytes is accumulated. *)
Definition accumulate_diff (st st_m tag : list Z) : Z :=
  fold_left
    (fun tmp i =>
       u32 (Z.lor tmp (Z.lxor (Z.lxor (byte_at st i) (byte_at st_m i))
                              (byte_at tag i))))
    (seq 0 TAGBYTES) 0.

(** [G(state, state); G(state_m, state_m); tmp = ...; return tmp;] *)
Definition verify_tag (tag : list Z) (s : ctx) : ctx * Z :=
  let st := Macros.G (state s) in
  let st_m := Macros.G (state_m s) in
  (mkctx st st_m (tk1 s) (rtk s) (rtk_m s), accumulate_diff st st_m tag).

(** [tk1[0] = 0x01; zeroize(tk1+1, 15); zeroize(state, 16);
     zeroize(state_m, 16);] *)
Definition init (s : ctx) : ctx :=
  mkctx (zeros 16) (zeros 16) tk1_init (rtk s) (rtk_m s).

End Shared.

(** ** Romulus-N: romulus_n.c *)

Module RomulusN.
Section N.
Context {C : Skinny128}.

Definition romulusn_init (s : ctx) : ctx := init s.

Definition romulusn_process_ad (s : ctx) (ad : list Z) (adlen : nat)
    (npub k k_m : list Z) : ctx :=
  if (adlen =? 0)%nat then
    let s := update_ctr s in
    let s := set_domain s 0x1A in
    schedule_123_encrypt s npub k k_m
  else
    let s := set_domain s 0x08 in
    let '(s, ad, adlen) := double_blocks adlen s ad adlen k k_m in
    let s := update_ctr s in
    let s :=
      if (adlen =? 32)%nat then
        let s := xor_state s ad in
        let s := schedule_123_encrypt s (firstn 16 (skipn 16 ad)) k k_m in
        let s := update_ctr s in
        set_domain s 0x18
      else if (16 <? adlen)%nat then
        let adlen := (adlen - 16)%nat in
        let s := xor_state s ad in
        let pad := pad_block (skipn 16 ad) adlen in
        let s := schedule_123_encrypt s pad k k_m in
        let s := update_ctr s in
        set_domain s 0x1A
      else if (adlen =? 16)%nat then
        let s := xor_state s ad in
        set_domain s 0x18
      else
        let s := xor_partial s ad adlen in
        set_domain s 0x1A in
    schedule_123_encrypt s npub k k_m.

(** The loop over all blocks but the last of [romulusn_process_msg].
    [in_place] says that the caller passed the same pointer as [out] and as
    [in].  A block written to [out] is then a block of the input buffer
    that the loop has already passed, so the bytes read from [in] are in
    either case the caller's. *)
Fixpoint msg_blocks (in_place : bool) (fuel : nat) (mode : Z) (s : ctx)
    (inb : list Z) (inlen : nat) (out : list Z)
  : ctx * list Z * nat * list Z :=
  match fuel with
  | O => (s, inb, inlen, out)
  | S fuel' =>
      if (16 <? inlen)%nat then
        let '(s, y) := rho_step in_place mode s inb in
        let s := update_ctr s in
        let s := schedule_1_encrypt s in
        msg_blocks in_place fuel' mode s (skipn 16 inb) (inlen - 16)
                   (out ++ y)
      else (s, inb, inlen, out)
  end.

(** [romulusn_process_msg(out, in, inlen, state, state_m, rtk, rtk_m, tk1,
    mode)] returns the buffers and the [inlen] bytes written to [out];
    [in_place] says that [out == in].  The loops over the last, partial
    block read [in[i]] before they write [out[i]] and do not read it
    again. *)
Definition romulusn_process_msg (in_place : bool) (inb : list Z)
    (inlen : nat) (s : ctx) (mode : Z) : ctx * list Z :=
  let s := set_tk1 s tk1_init in
  if (inlen =? 0)%nat then
    let s := update_ctr s in
    let s := set_domain s 0x15 in
    (schedule_1_encrypt s, [])
  else
    let s := set_domain s 0x04 in
    let '(s, inb, inlen, out) :=
      msg_blocks in_place inlen mode s inb inlen [] in
    let s := update_ctr s in
    let '(s, o) :=
      if (inlen <? 16)%nat then
        let '(st, o) :=
          if Z.eqb mode ENCRYPT_MODE
          then last_block_in inlen (state s) (state_m s) inb
          else last_block_out inlen (state s) (state_m s) inb in
        let s := set_state s st in
        let s := xor_len s inlen in
        (set_domain s 0x15, o)
      else
        let '(s, y) := rho_step in_place mode s inb in
        (set_domain s 0x14, y) in
    (schedule_1_encrypt s, out ++ o).

Definition romulusn_generate_tag (s : ctx) : ctx * list Z := generate_tag s.

Definition romulusn_verify_tag (tag : list Z) (s : ctx) : ctx * Z :=
  verify_tag tag s.

End N.
End RomulusN.

(** ** The share-conversion wrapper (encrypt.c of Romulus-M and Romulus-T) *)

(** [buf[off .. off + |data|) = data]; the rest of [buf] is kept. *)
Definition write_bytes (buf : list Z) (off : nat) (data : list Z) : list Z :=
  firstn off buf ++ data ++ skipn (off + length data) buf.

(** [shares_to_bytearr_2(bytearr_0, bytearr_1, ks)]: [ks] holds four
    elements of two 32-bit shares each. *)
Definition shares_to_bytearr_2 (ks : list (Z * Z)) : list Z * list Z :=
  (flat_map (fun i => bytes_of_u32 (fst (nth i ks (0, 0)))) (seq 0 4),
   flat_map (fun i => bytes_of_u32 (snd (nth i ks (0, 0)))) (seq 0 4)).

(** [ms[i].shares[0] = v] on an array of one-share elements; a store past
    the end of the modelled array is dropped. *)
Fixpoint set_word (ms : list Z) (i : nat) (v : Z) : list Z :=
  match ms, i with
  | [], _ => []
  | _ :: t, O => v :: t
  | h :: t, S j => h :: set_word t j v
  end.

Definition word_at (ms : list Z) (i : nat) : Z := nth i ms 0.

(** The loop over the full words,
    [for (i = 0; i < len/4; i++) { ms[i].shares[0] = (uint32_t)(m[i*4+0] << 0);
       ms[i].shares[0] |= (uint32_t)(m[i*4+1] << 8); ... }] *)
Definition pack_full_words (m : list Z) (ms : list Z) : list Z :=
  fold_left
    (fun ms i =>
       let w := u32 (Z.shiftl (byte_at m (i * 4 + 0)) 0) in
       let w := Z.lor w (u32 (Z.shiftl (byte_at m (i * 4 + 1)) 8)) in
       let w := Z.lor w (u32 (Z.shiftl (byte_at m (i * 4 + 2)) 16)) in
       let w := Z.lor w (u32 (Z.shiftl (byte_at m (i * 4 + 3)) 24)) in
       set_word ms i w)
    (seq 0 (length m / 4)) ms.

(** The packing of the message (of the ciphertext, of the associated data)
    in [generate_shares_encrypt] and [generate_shares_decrypt]:
    the loop over the full words, then
    [if (r) { ms[len/4 + 1].shares[0] = 0x00000000;
              for (i = 0; i < r; i++)
                ms[len/4].shares[0] |= (uint32_t)(m[len - r + i] << 8*i); }]
    [ms] is the caller's array as it is when the function is entered. *)
Definition pack_bytes (m : list Z) (ms : list Z) : list Z :=
  let len := length m in
  let r := (len mod 4)%nat in
  let ms := pack_full_words m ms in
  if (r =? 0)%nat then ms
  else
    let ms := set_word ms (len / 4 + 1) 0 in
    fold_left
      (fun ms i =>
         set_word ms (len / 4)
           (Z.lor (word_at ms (len / 4))
                  (u32 (Z.shiftl (byte_at m (len - r + i))
                                 (8 * Z.of_nat i)))))
      (seq 0 r) ms.

(** What a call leaves behind: the return value, the length stored through
    the length pointer, and the output buffer. *)
Record outcome : Type := mkout {
  ret : Z;
  outlen : nat;
  outbuf : list Z
}.

(** ** Romulus-M: romulus_m.c and encrypt.c *)

Module RomulusM.

(** [final_ad_domain(adlen, mlen)] *)
Definition final_ad_domain (adlen mlen : Z) : Z :=
  let domain := 0 in
  let domain :=
    if adlen =? 0 then Z.lxor domain 0x02
    else
      let leftover := u32 (adlen mod (2 * 16)) in
      if leftover =? 0 then Z.lxor domain 0x08
      else if leftover <? 16 then Z.lxor domain 0x02
      else if 16 <? leftover then Z.lxor domain 0x0A
      else domain in
  let domain :=
    if mlen =? 0 then Z.lxor domain 0x01
    else
      let leftover := u32 (mlen mod (2 * 16)) in
      if leftover =? 0 then Z.lxor domain 0x04
      else if leftover <? 16 then Z.lxor domain 0x01
      else if 16 <? leftover then Z.lxor domain 0x05
      else domain in
  domain.

Section M.
Context {C : Skinny128}.

Definition romulusm_init (s : ctx) : ctx := init s.

(** [romulusm_process_ad(state, state_m, ad, adlen, m, mlen, rtk, rtk_m,
    tk1, npub, k, k_m)] *)
Definition romulusm_process_ad (s : ctx) (ad : list Z) (adlen : nat)
    (m : list Z) (mlen : nat) (npub k k_m : list Z) : ctx :=
  let final_domain :=
    u8 (Z.lxor 0x30 (final_ad_domain (Z.of_nat adlen) (Z.of_nat mlen))) in
  let s := set_domain s 0x28 in
  let '(s, ad, adlen) := double_blocks adlen s ad adlen k k_m in
  let '(s, m, mlen) :=
    if (adlen =? 32)%nat then
      let s := update_ctr s in
      let s := xor_state s ad in
      let s := schedule_123_encrypt s (firstn 16 (skipn 16 ad)) k k_m in
      let s := update_ctr s in
      (s, m, mlen)
    else if (16 <? adlen)%nat then
      let adlen := (adlen - 16)%nat in
      let s := update_ctr s in
      let s := xor_state s ad in
      let pad := pad_block (skipn 16 ad) adlen in
      let s := schedule_123_encrypt s pad k k_m in
      let s := update_ctr s in
      (s, m, mlen)
    else
      let s := set_domain s 0x2C in
      let s := update_ctr s in
      let s := if (adlen =? 16)%nat then xor_state s ad
               else xor_partial s ad adlen in
      if (16 <=? mlen)%nat then
        let s := schedule_123_encrypt s (firstn 16 m) k k_m in
        let s := if (16 <? mlen)%nat then update_ctr s else s in
        (s, skipn 16 m, (mlen - 16)%nat)
      else
        let pad := pad_block m mlen in
        let s := schedule_123_encrypt s pad k k_m in
        (s, m, 0%nat) in
  let s := set_domain s 0x2C in
  let '(s, m, mlen) := double_blocks mlen s m mlen k k_m in
  let s :=
    if (mlen =? 32)%nat then
      let s := update_ctr s in
      let s := xor_state s m in
      schedule_123_encrypt s (firstn 16 (skipn 16 m)) k k_m
    else if (16 <? mlen)%nat then
      let mlen := (mlen - 16)%nat in
      let s := update_ctr s in
      let s := xor_state s m in
      let pad := pad_block (skipn 16 m) mlen in
      schedule_123_encrypt s pad k k_m
    else if (mlen =? 16)%nat then xor_state s m
    else if (0 <? mlen)%nat then xor_partial s m mlen
    else s in
  let s := set_domain s final_domain in
  let s := update_ctr s in
  schedule_123_encrypt s npub k k_m.

(** The loop over all blocks but the last of [romulusm_process_msg].  This
    api.h declares [CRYPTO_NOOVERLAP 1]: [out] and [in] are buffers that do
    not overlap. *)
Fixpoint msg_blocks (fuel : nat) (mode : Z) (s : ctx) (inb : list Z)
    (inlen : nat) (out : list Z) : ctx * list Z * nat * list Z :=
  match fuel with
  | O => (s, inb, inlen, out)
  | S fuel' =>
      if (16 <? inlen)%nat then
        let s := schedule_1_encrypt s in
        let '(s, y) := rho_step false mode s inb in
        let s := update_ctr s in
        msg_blocks fuel' mode s (skipn 16 inb) (inlen - 16) (out ++ y)
      else (s, inb, inlen, out)
  end.

(** [romulusm_process_msg(out, in, inlen, state, state_m, rtk, rtk_m, tk1,
    mode)] returns the buffers and the [inlen] bytes written to [out].  In
    [DECRYPT_MODE] the 16 bytes that follow the [inlen] input bytes (the
    tag) are read as well. *)
Definition romulusm_process_msg (inb : list Z) (inlen : nat) (s : ctx)
    (mode : Z) : ctx * list Z :=
  let s :=
    if Z.eqb mode ENCRYPT_MODE then set_tk1 s tk1_init
    else set_state s (xor_bytes (firstn TAGBYTES (skipn inlen inb))
                                (state_m s)) in
  if (0 <? inlen)%nat then
    let s := set_domain s 0x24 in
    let '(s, inb, inlen, out) := msg_blocks inlen mode s inb inlen [] in
    let s := schedule_1_encrypt s in
    let '(st, o) := last_block_in inlen (state s) (state_m s) inb in
    let s := set_state s st in
    let s := xor_len s inlen in
    (s, out ++ o)
  else (s, []).

Definition romulusm_generate_tag (s : ctx) : ctx * list Z := generate_tag s.

Definition romulusm_verify_tag (tag : list Z) (s : ctx) : ctx * Z :=
  verify_tag tag s.

(** The local arrays of the wrapper before anything is stored to them;
    each is written before it is read. *)
Definition locals : ctx := mkctx [] [] [] [] [].

(** [crypto_aead_encrypt_shared(cs, clen, ms, mlen, ads, adlen, npubs, ks)].
    [cs0] is the output array as the caller passes it; [ms], [ads] and
    [npubs] are the byte images of the one-share arrays, which the wrapper
    hands to the core through [(uint8_t * )] casts. *)
Definition crypto_aead_encrypt_shared (cs0 : list Z) (ms : list Z)
    (mlen : nat) (ads : list Z) (adlen : nat) (npubs : list Z)
    (ks : list (Z * Z)) : outcome :=
  let '(k, k_m) := shares_to_bytearr_2 ks in
  let clen := (mlen + TAGBYTES)%nat in
  let s := romulusm_init locals in
  let s := romulusm_process_ad s ads adlen ms mlen npubs k k_m in
  let '(s, tag) := romulusm_generate_tag s in
  let cs := write_bytes cs0 mlen tag in
  let '(s, out) := romulusm_process_msg ms mlen s ENCRYPT_MODE in
  let cs := write_bytes cs 0 out in
  mkout 0 clen cs.

(** The body of [crypto_aead_decrypt_shared] between the length check and
    the tag verification, for [mlen = clen - TAGBYTES]: the message pass
    that stores the plaintext to [ms], then the pass over the associated
    data and the stored plaintext.  Returns the buffers as the tag
    verification finds them, and [ms]. *)
Definition decrypt_passes (ms0 : list Z) (cs : list Z) (mlen : nat)
    (ads : list Z) (adlen : nat) (npubs : list Z) (ks : list (Z * Z))
    : ctx * list Z :=
  let '(k, k_m) := shares_to_bytearr_2 ks in
  let s := romulusm_init locals in
  let '(rtk_23, rtk_3m) := tk_schedule_23 npubs k k_m in
  let s := mkctx (state s) (state_m s) (tk1 s) rtk_23 rtk_3m in
  let '(s, out) := romulusm_process_msg cs mlen s DECRYPT_MODE in
  let ms := write_bytes ms0 0 out in
  let s := romulusm_init s in
  let s := romulusm_process_ad s ads adlen ms mlen npubs k k_m in
  (s, ms).

(** [crypto_aead_decrypt_shared(ms, mlen, cs, clen, ads, adlen, npubs, ks)].
    [ms0] and [mlen0] are the output array and the length variable as the
    caller passes them. *)
Definition crypto_aead_decrypt_shared (ms0 : list Z) (mlen0 : nat)
    (cs : list Z) (clen : nat) (ads : list Z) (adlen : nat)
    (npubs : list Z) (ks : list (Z * Z)) : outcome :=
  if (clen <? TAGBYTES)%nat then mkout (-1) mlen0 ms0
  else
    let clen := (clen - TAGBYTES)%nat in
    let mlen := clen in
    let '(s, ms) := decrypt_passes ms0 cs clen ads adlen npubs ks in
    let '(_, r) := romulusm_verify_tag (skipn mlen cs) s in
    mkout r mlen ms.

End M.
End RomulusM.

(** ** Romulus-T: encrypt.c

    The core functions of Romulus-T ([romulust_kdf], [romulust_process_msg],
    [romulust_generate_tag], in romulus_t.c) are not part of the sources at
    hand; the wrapper is modelled over them as the operations of an
    interface.  Each one is given the buffers the wrapper passes it
    initialised, and returns the contents of those it may write. *)

Class RomulusT : Type := {
  (** [romulust_kdf(state, tk1, npub, npub_m, k, k_m)] is given [tk1],
      [npub], [npub_m], [k] and [k_m] ([state] is not initialised when the
      encrypting wrapper calls it); returns [(state, tk1, npub)]. *)
  romulust_kdf :
    list Z -> list Z -> list Z -> list Z -> list Z ->
    list Z * list Z * list Z;
  (** [romulust_process_msg(state, tk1, npub, out, in, inlen)] is given
      [state], [tk1], [npub], the array [out] as it is, [in] and [inlen];
      returns [(state, tk1, out)]. *)
  romulust_process_msg :
    list Z -> list Z -> list Z -> list Z -> list Z -> nat ->
    list Z * list Z * list Z;
  (** [romulust_generate_tag(t, tk1, ad, adlen, c, clen, npub, npub_m, k,
      k_m)] is given all but [t]; returns [(t, tk1)], [t] being the tag it
      stores. *)
  romulust_generate_tag :
    list Z -> list Z -> nat -> list Z -> nat ->
    list Z -> list Z -> list Z -> list Z ->
    list Z * list Z
}.

Module RomulusT.
Section T.
Context {T : RomulusT}.

(** The comparison loop of the wrapper, with an 8-bit accumulator:
    [for (i = 0; i < TAGBYTES; i++)
       tmp |= state[i] ^ ((uint8_t * )cs)[clen - TAGBYTES + i];] *)
Definition compare_tag (st cs : list Z) (clen : nat) : Z :=
  fold_left
    (fun tmp i =>
       u8 (Z.lor tmp (Z.lxor (byte_at st i)
                             (byte_at cs (clen - TAGBYTES + i)))))
    (seq 0 TAGBYTES) 0.

(** [crypto_aead_encrypt_shared(cs, clen, ms, mlen, ads, adlen, npubs, ks)];
    [npubs] holds four elements of two shares, like [ks]. *)
Definition crypto_aead_encrypt_shared (cs0 : list Z) (ms : list Z)
    (mlen : nat) (ads : list Z) (adlen : nat) (npubs ks : list (Z * Z))
    : outcome :=
  let '(k, k_m) := shares_to_bytearr_2 ks in
  let '(npub, npub_m) := shares_to_bytearr_2 npubs in
  let clen := (mlen + TAGBYTES)%nat in
  let tk1 := zeros BLOCKBYTES in
  let '(st, tk1, npub) := romulust_kdf tk1 npub npub_m k k_m in
  let '(st, tk1, cs) := romulust_process_msg st tk1 npub cs0 ms mlen in
  let '(tag, tk1) :=
    romulust_generate_tag tk1 ads adlen cs mlen npub npub_m k k_m in
  mkout 0 clen (write_bytes cs mlen tag).

(** The tag [crypto_aead_decrypt_shared] recomputes into [state] before it
    touches the plaintext: the nonce is unmasked, [tk1] zeroized, and
    [romulust_generate_tag] run over the associated data and the
    ciphertext. *)
Definition recomputed_tag (cs : list Z) (mlen : nat) (ads : list Z)
    (adlen : nat) (npubs ks : list (Z * Z)) : list Z :=
  let '(k, k_m) := shares_to_bytearr_2 ks in
  let '(npub, npub_m) := shares_to_bytearr_2 npubs in
  let npub := xor_bytes npub npub_m in
  let tk1 := zeros BLOCKBYTES in
  fst (romulust_generate_tag tk1 ads adlen cs mlen npub npub_m k k_m).

(** [crypto_aead_decrypt_shared(ms, mlen, cs, clen, ads, adlen, npubs, ks)] *)
Definition crypto_aead_decrypt_shared (ms0 : list Z) (mlen0 : nat)
    (cs : list Z) (clen : nat) (ads : list Z) (adlen : nat)
    (npubs ks : list (Z * Z)) : outcome :=
  if (clen <? TAGBYTES)%nat then mkout (-1) mlen0 ms0
  else
    let '(k, k_m) := shares_to_bytearr_2 ks in
    let '(npub, npub_m) := shares_to_bytearr_2 npubs in
    let mlen := (clen - TAGBYTES)%nat in
    let npub := xor_bytes npub npub_m in
    let st := recomputed_tag cs mlen ads adlen npubs ks in
    let tmp := compare_tag st cs clen in
    if negb (Z.eqb tmp 0) then mkout (-1) mlen ms0
    else
      let tk1 := zeros BLOCKBYTES in
      let '(st, tk1, npub) := romulust_kdf tk1 npub npub_m k k_m in
      let '(st, tk1, ms) := romulust_process_msg st tk1 npub ms0 cs mlen in
      mkout 0 mlen ms.

End T.
End RomulusT.

(** ** Vocabulary of the statements *)

(** One byte of the linear transform [G]. *)
Definition G_byte (s : Z) : Z := u8 (G_int s).

(** The integer a little-endian byte string stands for. *)
Fixpoint le_value (b : list Z) : Z :=
  match b with
  | [] => 0
  | x :: t => x + 256 * le_value t
  end.

(** Bytes 0..6 of [tk1] read as the 56-bit block counter. *)
Definition counter (tk1 : list Z) : Z := le_value (firstn 7 tk1).

(** The same integer, assembled with shifts. *)
Fixpoint le_lor (b : list Z) : Z :=
  match b with
  | [] => 0
  | x :: t => Z.lor x (Z.shiftl (le_lor t) 8)
  end.

(** The counter held by the words [w0], [w1] of [tk1]. *)
Definition counter_of_words (w0 w1 : Z) : Z :=
  Z.lor (Z.land w0 (Z.ones 32)) (Z.shiftl w1 32).

(** Output share [i] of the secure AND as the specification words it,
    [(NOT(x_other) AND y_same)] combined with [(x_same AND y_same)];
    [combine] is the operation that joins the two terms.  This follows the
    specification, not the code: it is what [Gadgets.secand] is compared
    with. *)
Definition secand_share_claimed (combine : Z -> Z -> Z)
    (x_same x_other y_same : Z) : Z :=
  combine (Z.land (u32 (Z.lnot x_other)) y_same) (Z.land x_same y_same).

(** The cases [final_ad_domain] tells apart, for the associated data and
    for the message alike: by the bytes left over after the last full
    double block.  An empty input goes with the partial single block. *)
Inductive length_case : Type :=
  | PartialSingle | FullSingle | FullDouble | PartialDouble.

Definition length_case_of (n : Z) : length_case :=
  if n =? 0 then PartialSingle
  else if n mod 32 =? 0 then FullDouble
  else if n mod 32 <? 16 then PartialSingle
  else if n mod 32 =? 16 then FullSingle
  else PartialDouble.

Definition ad_bits (c : length_case) : Z :=
  match c with
  | PartialSingle => 0x02
  | FullSingle => 0x00
  | FullDouble => 0x08
  | PartialDouble => 0x0A
  end.

Definition msg_bits (c : length_case) : Z :=
  match c with
  | PartialSingle => 0x01
  | FullSingle => 0x00
  | FullDouble => 0x04
  | PartialDouble => 0x05
  end.

(** The structural cases as the specification lists them: no input, an
    odd or an even number of full 16-byte blocks, a trailing partial
    block. *)
Inductive structural_case : Type :=
  | Empty | OddFull | EvenFull | TrailingPartial.

Definition structural_case_of (n : Z) : structural_case :=
  if n =? 0 then Empty
  else if negb (n mod 16 =? 0) then TrailingPartial
  else if Z.odd (n / 16) then OddFull
  else EvenFull.

(** The masking contract of the cipher: with the round tweakeys of
    [tk_schedule_123], the exclusive or of the two output shares is a
    function [E] of the unmasked input block, of [tk1], of [tk2] and of the
    unmasked key, whatever the masks are. *)
Definition masking_correct (C : Skinny128)
    (E : list Z -> list Z -> list Z -> list Z -> list Z) : Prop :=
  forall p p_m t1 t2 k k_m,
    is_block p = true -> is_block p_m = true ->
    is_block t1 = true -> is_block t2 = true ->
    is_block k = true -> is_block k_m = true ->
    let '(rtk_23, rtk_3m, rtk_1) := tk_schedule_123 t1 t2 k k_m in
    let '(c, c_m) := skinny128_384_plus p p_m rtk_23 rtk_3m rtk_1 in
    xor_bytes c c_m = E (xor_bytes p p_m) t1 t2 (xor_bytes k k_m).

(** The unmasked internal state. *)
Definition unmasked (s : ctx) : list Z := xor_bytes (state s) (state_m s).

(** Two runs of the core on the same public data, each with its own
    sharing of the state: same [tk1], same unmasked state. *)
Definition same_unmasked (s s' : ctx) : Prop :=
  tk1 s = tk1 s' /\ is_block (tk1 s) = true /\
  is_block (state s) = true /\ is_block (state_m s) = true /\
  is_block (state s') = true /\ is_block (state_m s') = true /\
  unmasked s = unmasked s'.

(** The round-tweakey tables hold the schedule of [npub] and of the key
    shares [k], [k_m]. *)
Definition tables_of {C : Skinny128} (s : ctx) (npub k k_m : list Z) : Prop :=
  (rtk s, rtk_m s) = tk_schedule_23 npub k k_m.

(** The block a partial single block adds to the state: its [n] bytes,
    zeros, and [n] in the last byte. *)
Definition partial_block (p : list Z) (n : nat) : list Z :=
  xor_bytes (firstn n p ++ zeros (16 - n)) (zeros 15 ++ [u8 (Z.of_nat n)]).

(** The state shares and the temporary block handed to [RHO] or [RHO_INV]
    are three buffers of their own: neither [y] nor [z] points to one of
    them.  [y] and [z] may be the same pointer. *)
Definition rho_pointers (x x_m y z tmp : Macros.ptr) : bool :=
  negb (Nat.eqb x x_m) && negb (Nat.eqb x tmp) && negb (Nat.eqb x_m tmp) &&
  negb (Nat.eqb y x) && negb (Nat.eqb y x_m) && negb (Nat.eqb y tmp) &&
  negb (Nat.eqb z x) && negb (Nat.eqb z x_m) && negb (Nat.eqb z tmp).

(** ** A small instance of the interfaces

    Used to run the model on concrete inputs.  The cipher adds the first
    block of each round-tweakey table to the share it belongs to; the
    schedule keeps the tweakeys as they are. *)

Module Toy.

(** The first 16 bytes of [l], padded with zeros, each reduced to a byte. *)
Definition fit16 (l : list Z) : list Z := map u8 (firstn 16 (l ++ zeros 16)).

#[local] Instance cipher : Skinny128 := {|
  skinny128_384_plus p p_m rtk_23 rtk_3m rtk1 :=
    (xor_bytes (xor_bytes (fit16 p) (fit16 rtk_23)) (fit16 rtk1),
     xor_bytes (fit16 p_m) (fit16 rtk_3m));
  tks_lfsr_23 tk_2 tk_3 _ := xor_bytes (fit16 tk_2) (fit16 tk_3);
  tks_lfsr_3 tk_3 _ := fit16 tk_3;
  tks_perm_23 t := t;
  tks_perm_23_norc t := t;
  tks_perm_1 tk_1 := fit16 tk_1
|}.

(** What the two output shares of [cipher] add up to. *)
Definition E (x t1 t2 key : list Z) : list Z :=
  xor_bytes (xor_bytes (xor_bytes x t2) key) t1.

#[local] Instance core_t : RomulusT := {|
  romulust_kdf tk1 npub npub_m k k_m :=
    (xor_bytes (fit16 npub) (fit16 k), tk1, npub);
  romulust_process_msg st tk1 npub out inb inlen :=
    (st, tk1, write_bytes out 0 (xor_bytes (firstn inlen inb) (fit16 st)));
  romulust_generate_tag tk1 ad adlen c clen npub npub_m k k_m :=
    (xor_bytes (fit16 (firstn clen c)) (xor_bytes (fit16 npub) (fit16 k)), tk1)
|}.

End Toy.

(** ** The masked Skinny-128-384+ of Romulus-T: the ARMv7-M assembly

    [skinny128_384_plus_m] is modelled instruction by instruction on a
    register file.  A register holds a 32-bit value, or the byte offset of
    a pointer into the array it addresses; every pointer argument is the
    offset 0 into its array.  The macros take register names, as in the
    source, so that a macro called with the same register twice behaves as
    the instructions do. *)

Module Asm.

Inductive reg : Type :=
  | r0 | r1 | r2 | r3 | r4 | r5 | r6 | r7 | r8 | r9 | r10 | r11 | r12 | r14.

Definition reg_index (r : reg) : nat :=
  match r with
  | r0 => 0 | r1 => 1 | r2 => 2 | r3 => 3 | r4 => 4 | r5 => 5 | r6 => 6
  | r7 => 7 | r8 => 8 | r9 => 9 | r10 => 10 | r11 => 11 | r12 => 12
  | r14 => 14
  end.

Definition reg_eqb (a b : reg) : bool := Nat.eqb (reg_index a) (reg_index b).

(** The register file, and the two stack slots the function keeps pointers
    in: [[sp, #60]] (into [rtk_m]) and [[sp, #64]] (into [rtk1]). *)
Record cpu : Type := mkcpu {
  R : reg -> Z;
  sp60 : Z;
  sp64 : Z
}.

Definition set (m : cpu) (rd : reg) (v : Z) : cpu :=
  mkcpu (fun r => if reg_eqb r rd then v else R m r) (sp60 m) (sp64 m).

(** The shift applied to the second operand of a data-processing
    instruction.  A shift by [#0] leaves the operand as it is. *)
Inductive shift : Type :=
  | asis
  | lsl (n : Z)
  | lsr (n : Z)
  | ror (n : Z).

Definition shifted (v : Z) (s : shift) : Z :=
  match s with
  | asis => v
  | lsl n => u32 (Z.shiftl v n)
  | lsr n => Z.shiftr v n
  | ror n => Z.lor (Z.shiftr v n) (u32 (Z.shiftl v (32 - n)))
  end.

(** [eor rd, rn, rm, <shift>] *)
Definition eor (rd rn rm : reg) (s : shift) (m : cpu) : cpu :=
  set m rd (Z.lxor (R m rn) (shifted (R m rm) s)).

(** [and rd, rn, rm, <shift>] *)
Definition and_ (rd rn rm : reg) (s : shift) (m : cpu) : cpu :=
  set m rd (Z.land (R m rn) (shifted (R m rm) s)).

(** [orr rd, rn, rm] *)
Definition orr (rd rn rm : reg) (m : cpu) : cpu :=
  set m rd (Z.lor (R m rn) (R m rm)).

(** [orn rd, rn, rm] *)
Definition orn (rd rn rm : reg) (m : cpu) : cpu :=
  set m rd (Gadgets.orn (R m rn) (R m rm)).

(** [mvn rd, rm] *)
Definition mvn (rd rm : reg) (m : cpu) : cpu :=
  set m rd (u32 (Z.lnot (R m rm))).

(** [movw rd, #imm16] and [movt rd, #imm16] *)
Definition movw (rd : reg) (imm : Z) (m : cpu) : cpu := set m rd imm.
Definition movt (rd : reg) (imm : Z) (m : cpu) : cpu :=
  set m rd (Z.lor (Z.land (R m rd) 0xffff) (Z.shiftl imm 16)).

(** [sub rd, rn, #imm], on a byte offset. *)
Definition sub (rd rn : reg) (imm : Z) (m : cpu) : cpu :=
  set m rd (R m rn - imm).

(** The little-endian word at byte offset [o] of the array [a]. *)
Definition mem32 (a : list Z) (o : Z) : Z :=
  let i := Z.to_nat o in
  Z.lor (Z.lor (Z.lor (byte_at a i) (Z.shiftl (byte_at a (i + 1)) 8))
               (Z.shiftl (byte_at a (i + 2)) 16))
        (Z.shiftl (byte_at a (i + 3)) 24).

(** [ldr.w rd, [rn, #off]], [rn] pointing into [a]. *)
Definition ldr (rd : reg) (a : list Z) (rn : reg) (off : Z) (m : cpu) : cpu :=
  set m rd (mem32 a (R m rn + off)).

(** [ldr.w rd, [rn], #inc], [rn] pointing into [a]. *)
Definition ldr_post (rd : reg) (a : list Z) (rn : reg) (inc : Z) (m : cpu)
  : cpu :=
  set (set m rd (mem32 a (R m rn))) rn (R m rn + inc).

(** [ldr.w rd, [sp, #60]], [str.w rs, [sp, #60]], and the same for
    [[sp, #64]]. *)
Definition ldr_sp60 (rd : reg) (m : cpu) : cpu := set m rd (sp60 m).
Definition str_sp60 (rs : reg) (m : cpu) : cpu := mkcpu (R m) (R m rs) (sp64 m).
Definition ldr_sp64 (rd : reg) (m : cpu) : cpu := set m rd (sp64 m).
Definition str_sp64 (rs : reg) (m : cpu) : cpu := mkcpu (R m) (sp60 m) (R m rs).

(** [.macro swpmv in0, in1, tmp, mask, sh0, sh1] *)
Definition swpmv (in0 in1 tmp mask : reg) (sh0 sh1 : Z) (m : cpu) : cpu :=
  let m := eor tmp in1 in0 (lsr sh0) m in
  let m := and_ tmp tmp mask (lsr sh1) m in
  let m := eor in1 in1 tmp asis m in
  eor in0 in0 tmp (lsl sh0) m.

(** [.macro secand z1, z2, x1, x2, y1, y2, tmp] *)
Definition secand (z1 z2 x1 x2 y1 y2 tmp : reg) (m : cpu) : cpu :=
  let m := orn tmp x1 y2 m in
  let m := and_ z1 x1 y1 asis m in
  let m := eor z1 tmp z1 asis m in
  let m := orn tmp x2 y2 m in
  let m := and_ z2 x2 y1 asis m in
  eor z2 z2 tmp asis m.

(** [.macro secorr z1, z2, x1, x2, y1, y2, tmp] *)
Definition secorr (z1 z2 x1 x2 y1 y2 tmp : reg) (m : cpu) : cpu :=
  let m := orr tmp x1 y2 m in
  let m := and_ z1 x1 y1 asis m in
  let m := eor z1 tmp z1 asis m in
  let m := and_ tmp x2 y2 asis m in
  let m := orr z2 x2 y1 m in
  eor z2 z2 tmp asis m.

(** [.macro secxor z1, z2, x1, x2, y1, y2] *)
Definition secxor (z1 z2 x1 x2 y1 y2 : reg) (m : cpu) : cpu :=
  let m := eor z1 x1 y1 asis m in
  eor z2 x2 y2 asis m.

(** [.macro sbox in0, in1, in2, in3, in0m, in1m, in2m, in3m, tmp, tmpm, mask] *)
Definition sbox (in0 in1 in2 in3 in0m in1m in2m in3m tmp tmpm mask : reg)
    (m : cpu) : cpu :=
  (* 1st layer *)
  let m := secorr tmp tmpm in0 in0m in1 in1m r0 m in
  let m := secxor in3 in3m in3 in3m tmp tmpm m in
  let m := mvn in3 in3 m in
  let m := swpmv in2 in1 tmp mask 1 0 m in
  let m := swpmv in3 in2 tmp mask 1 0 m in
  let m := swpmv in2m in1m tmp mask 1 0 m in
  let m := swpmv in3m in2m tmp mask 1 0 m in
  (* 2nd layer *)
  let m := secorr tmp tmpm in2 in2m in3 in3m r0 m in
  let m := secxor in1 in1m in1 in1m tmp tmpm m in
  let m := mvn in1 in1 m in
  let m := swpmv in1 in0 tmp mask 1 0 m in
  let m := swpmv in0 in3 tmp mask 1 0 m in
  let m := swpmv in1m in0m tmp mask 1 0 m in
  let m := swpmv in0m in3m tmp mask 1 0 m in
  (* 3rd layer *)
  let m := secorr tmp tmpm in0 in0m in1 in1m r0 m in
  let m := secxor in3 in3m in3 in3m tmp tmpm m in
  let m := mvn in3 in3 m in
  let m := swpmv in2 in1 tmp mask 1 0 m in
  let m := swpmv in3 in2 tmp mask 1 0 m in
  let m := swpmv in2m in1m tmp mask 1 0 m in
  let m := swpmv in3m in2m tmp mask 1 0 m in
  (* 4th layer *)
  let m := secorr tmp tmpm in2 in2m in3 in3m r0 m in
  let m := secxor in1 in1m in1 in1m tmp tmpm m in
  let m := swpmv in0 in3 tmp mask 0 0 m in
  swpmv in0m in3m tmp mask 0 0 m.

(** The six instructions of [mixcol] on one register:
    [and r8, r7, in, ror idx0; eor in, in, r8, ror idx1; ...] *)
Definition mixcol_reg (rx : reg) (idx0 idx1 idx2 idx3 idx4 idx5 : Z) (m : cpu)
  : cpu :=
  let m := and_ r8 r7 rx (ror idx0) m in
  let m := eor rx rx r8 (ror idx1) m in
  let m := and_ r8 r7 rx (ror idx2) m in
  let m := eor rx rx r8 (ror idx3) m in
  let m := and_ r8 r7 rx (ror idx4) m in
  eor rx rx r8 (ror idx5) m.

(** [.macro mixcol in0, in1, in2, in3, idx0, idx1, idx2, idx3, idx4, idx5] *)
Definition mixcol (in0 in1 in2 in3 : reg) (idx0 idx1 idx2 idx3 idx4 idx5 : Z)
    (m : cpu) : cpu :=
  let m := mixcol_reg in0 idx0 idx1 idx2 idx3 idx4 idx5 m in
  let m := mixcol_reg in1 idx0 idx1 idx2 idx3 idx4 idx5 m in
  let m := mixcol_reg in2 idx0 idx1 idx2 idx3 idx4 idx5 m in
  mixcol_reg in3 idx0 idx1 idx2 idx3 idx4 idx5 m.

(** [.macro rtk_123]: [r1] points into [rtk], [[sp, #64]] into [rtk1]. *)
Definition rtk_123 (rtk rtk1 : list Z) (m : cpu) : cpu :=
  let m := ldr_sp64 r9 m in
  let m := ldr_post r0 rtk r1 4 m in
  let m := ldr_post r8 rtk1 r9 4 m in
  let m := eor r2 r2 r0 asis m in
  let m := eor r2 r2 r8 asis m in
  let m := ldr_post r0 rtk r1 4 m in
  let m := ldr_post r8 rtk1 r9 4 m in
  let m := eor r3 r3 r0 asis m in
  let m := eor r3 r3 r8 asis m in
  let m := ldr_post r0 rtk r1 4 m in
  let m := ldr_post r8 rtk1 r9 4 m in
  let m := eor r4 r4 r0 asis m in
  let m := eor r4 r4 r8 asis m in
  let m := ldr_post r8 rtk1 r9 4 m in
  let m := ldr_post r0 rtk r1 4 m in
  let m := str_sp64 r9 m in
  let m := eor r5 r5 r0 asis m in
  eor r5 r5 r8 asis m.

(** [.macro rtk_3m]: [[sp, #60]] points into [rtk_m]. *)
Definition rtk_3m (rtk_m : list Z) (m : cpu) : cpu :=
  let m := ldr_sp60 r0 m in
  let m := ldr r9 rtk_m r0 4 m in
  let m := ldr_post r8 rtk_m r0 8 m in
  let m := eor r11 r11 r9 asis m in
  let m := eor r10 r10 r8 asis m in
  let m := ldr r9 rtk_m r0 4 m in
  let m := ldr_post r8 rtk_m r0 8 m in
  let m := str_sp60 r0 m in
  let m := eor r14 r14 r9 asis m in
  eor r12 r12 r8 asis m.

(** [.macro quadruple_round] *)
Definition quadruple_round (rtk rtk_m rtk1 : list Z) (m : cpu) : cpu :=
  let m := sbox r2 r3 r4 r5 r10 r11 r12 r14 r8 r9 r6 m in
  let m := rtk_123 rtk rtk1 m in
  let m := rtk_3m rtk_m m in
  let m := mixcol r2 r3 r4 r5 30 24 18 2 6 4 m in
  let m := mixcol r10 r11 r12 r14 30 24 18 2 6 4 m in
  let m := sbox r4 r5 r2 r3 r12 r14 r10 r11 r8 r9 r6 m in
  let m := rtk_123 rtk rtk1 m in
  let m := rtk_3m rtk_m m in
  let m := mixcol r2 r3 r4 r5 16 30 28 0 16 2 m in
  let m := mixcol r10 r11 r12 r14 16 30 28 0 16 2 m in
  let m := sbox r2 r3 r4 r5 r10 r11 r12 r14 r8 r9 r6 m in
  let m := rtk_123 rtk rtk1 m in
  let m := rtk_3m rtk_m m in
  let m := mixcol r2 r3 r4 r5 10 4 6 6 26 0 m in
  let m := mixcol r10 r11 r12 r14 10 4 6 6 26 0 m in
  let m := sbox r4 r5 r2 r3 r12 r14 r10 r11 r8 r9 r6 m in
  let m := rtk_123 rtk rtk1 m in
  let m := rtk_3m rtk_m m in
  let m := mixcol r2 r3 r4 r5 4 26 0 4 4 22 m in
  mixcol r10 r11 r12 r14 4 26 0 4 4 22 m.

(** [.macro dec_rtk1] *)
Definition dec_rtk1 (m : cpu) : cpu :=
  let m := ldr_sp64 r9 m in
  let m := sub r9 r9 256 m in
  str_sp64 r9 m.

(** The ten [swpmv] that pack one share held in [a], [b], [c], [d] into
    the bitsliced representation ([r6] holds [0x0a0a0a0a], [r7] holds
    [0x30303030]). *)
Definition pack (a b c d : reg) (m : cpu) : cpu :=
  let m := swpmv a a r8 r6 3 0 m in
  let m := swpmv b b r8 r6 3 0 m in
  let m := swpmv c c r8 r6 3 0 m in
  let m := swpmv d d r8 r6 3 0 m in
  let m := swpmv c a r8 r7 2 0 m in
  let m := swpmv b a r8 r7 4 2 m in
  let m := swpmv d a r8 r7 6 4 m in
  let m := swpmv b c r8 r7 2 2 m in
  let m := swpmv d c r8 r7 4 4 m in
  swpmv d b r8 r7 2 4 m.

(** The ten [swpmv] that unpack one share. *)
Definition unpack (a b c d : reg) (m : cpu) : cpu :=
  let m := swpmv d b r8 r7 2 4 m in
  let m := swpmv d c r8 r7 4 4 m in
  let m := swpmv b c r8 r7 2 2 m in
  let m := swpmv d a r8 r7 6 4 m in
  let m := swpmv b a r8 r7 4 2 m in
  let m := swpmv c a r8 r7 2 0 m in
  let m := swpmv d d r8 r6 3 0 m in
  let m := swpmv c c r8 r6 3 0 m in
  let m := swpmv b b r8 r6 3 0 m in
  swpmv a a r8 r6 3 0 m.

(** The registers when the function is entered: the pointer arguments
    ([r0] to [r3]) and the pointers on the stack are the offset 0 into the
    arrays they address. *)
Definition entry : cpu := mkcpu (fun _ => 0) 0 0.

(** The instructions before the rounds: the two shares of the plaintext
    are loaded and packed. *)
Definition load_and_pack (p p_m : list Z) : cpu :=
  let m := entry in
  (* load ptext mask *)
  let m := ldr r10 p_m r3 0 m in
  let m := ldr r11 p_m r3 8 m in
  let m := ldr r12 p_m r3 4 m in
  let m := ldr r14 p_m r3 12 m in
  (* load rtk address in r1: ldr.w r1, [sp, #56] *)
  let m := set m r1 0 in
  (* load boolean masked ptext *)
  let m := ldr r3 p r2 8 m in
  let m := ldr r4 p r2 4 m in
  let m := ldr r5 p r2 12 m in
  let m := ldr r2 p r2 0 m in
  (* preload bitmask for swapmove *)
  let m := movw r6 0x0a0a m in
  let m := movt r6 0x0a0a m in
  let m := movw r7 0x3030 m in
  let m := movt r7 0x3030 m in
  let m := pack r2 r3 r4 r5 m in
  let m := pack r10 r11 r12 r14 m in
  (* preload bitmasks for swapmove (s-box) *)
  let m := movw r6 0x5555 m in
  movt r6 0x5555 m.

(** The 40 rounds. *)
Definition rounds (rtk rtk_m rtk1 : list Z) (m : cpu) : cpu :=
  let m := quadruple_round rtk rtk_m rtk1 m in
  let m := quadruple_round rtk rtk_m rtk1 m in
  let m := quadruple_round rtk rtk_m rtk1 m in
  let m := quadruple_round rtk rtk_m rtk1 m in
  let m := dec_rtk1 m in
  let m := quadruple_round rtk rtk_m rtk1 m in
  let m := quadruple_round rtk rtk_m rtk1 m in
  let m := quadruple_round rtk rtk_m rtk1 m in
  let m := quadruple_round rtk rtk_m rtk1 m in
  let m := dec_rtk1 m in
  let m := quadruple_round rtk rtk_m rtk1 m in
  quadruple_round rtk rtk_m rtk1 m.

(** The instructions after the rounds, up to the stores. *)
Definition unpack_shares (m : cpu) : cpu :=
  let m := movw r6 0x0a0a m in
  let m := movt r6 0x0a0a m in
  let m := unpack r2 r3 r4 r5 m in
  unpack r10 r11 r12 r14 m.

(** [skinny128_384_plus_m(c, c_m, p, p_m, rtk, rtk_m, rtk1)] returns
    [(c, c_m)]: the eight [str.w] store [r2], [r4], [r3], [r5] to [c] and
    [r10], [r12], [r11], [r14] to [c_m]. *)
Definition skinny128_384_plus_m (p p_m rtk rtk_m rtk1 : list Z)
  : list Z * list Z :=
  let m := load_and_pack p p_m in
  let m := rounds rtk rtk_m rtk1 m in
  let m := unpack_shares m in
  (block_of_words (R m r2) (R m r4) (R m r3) (R m r5),
   block_of_words (R m r10) (R m r12) (R m r11) (R m r14)).

End Asm.

(** ** Values the macros of the assembly compute

    What the registers of a macro hold after it, as functions of what they
    held before, for a call with distinct registers. *)

(** [swpmv in0, in1, tmp, mask, sh0, sh1]: [tmp], [in0] and [in1]
    afterwards, from [a = in0], [b = in1] and [k = mask]. *)
Definition swp_t (a b k sh0 sh1 : Z) : Z :=
  Z.land (Z.lxor b (Z.shiftr a sh0)) (Z.shiftr k sh1).
Definition swp_a (a b k sh0 sh1 : Z) : Z :=
  Z.lxor a (u32 (Z.shiftl (swp_t a b k sh0 sh1) sh0)).
Definition swp_b (a b k sh0 sh1 : Z) : Z :=
  Z.lxor b (swp_t a b k sh0 sh1).

(** [swpmv in, in, tmp, mask, sh0, sh1]: the one register afterwards. *)
Definition swp_s (x k sh0 sh1 : Z) : Z :=
  let t := Z.land (Z.lxor x (Z.shiftr x sh0)) (Z.shiftr k sh1) in
  Z.lxor (Z.lxor x t) (u32 (Z.shiftl t sh0)).

(** The operand [x, ror n]. *)
Definition rorv (x n : Z) : Z :=
  Z.lor (Z.shiftr x n) (u32 (Z.shiftl x (32 - n))).

(** One pair of instructions of [mixcol]:
    [and r8, r7, in, ror i; eor in, in, r8, ror j]. *)
Definition mix1 (k i j x : Z) : Z := Z.lxor x (rorv (Z.land k (rorv x i)) j).

(** The six instructions of [mixcol] on one register. *)
Definition mixv (k i0 i1 i2 i3 i4 i5 x : Z) : Z :=
  mix1 k i4 i5 (mix1 k i2 i3 (mix1 k i0 i1 x)).

(** Two runs of the function, on two sharings of the same plaintext and
    with round-tweakey tables whose exclusive or is the same: the register
    pairs that hold the two shares have the same exclusive or in both runs,
    the pointers and the constants agree, and the pointers into [rtk] and
    [rtk_m] advance together. *)
Definition paired (A B : Asm.cpu) : Prop :=
  Z.lxor (Asm.R A Asm.r2) (Asm.R A Asm.r10) = Z.lxor (Asm.R B Asm.r2) (Asm.R B Asm.r10) /\
  Z.lxor (Asm.R A Asm.r3) (Asm.R A Asm.r11) = Z.lxor (Asm.R B Asm.r3) (Asm.R B Asm.r11) /\
  Z.lxor (Asm.R A Asm.r4) (Asm.R A Asm.r12) = Z.lxor (Asm.R B Asm.r4) (Asm.R B Asm.r12) /\
  Z.lxor (Asm.R A Asm.r5) (Asm.R A Asm.r14) = Z.lxor (Asm.R B Asm.r5) (Asm.R B Asm.r14).

Definition same_control (A B : Asm.cpu) : Prop :=
  Asm.R A Asm.r1 = Asm.R B Asm.r1 /\
  Asm.R A Asm.r6 = Asm.R B Asm.r6 /\
  Asm.R A Asm.r7 = Asm.R B Asm.r7 /\
  Asm.sp60 A = Asm.R A Asm.r1 /\
  Asm.sp60 B = Asm.R B Asm.r1 /\
  Asm.sp64 A = Asm.sp64 B.

(** The data registers hold 32-bit values. *)
Definition in_range (m : Asm.cpu) : Prop :=
  is_u32 (Asm.R m Asm.r2) = true /\ is_u32 (Asm.R m Asm.r3) = true /\
  is_u32 (Asm.R m Asm.r4) = true /\ is_u32 (Asm.R m Asm.r5) = true /\
  is_u32 (Asm.R m Asm.r10) = true /\ is_u32 (Asm.R m Asm.r11) = true /\
  is_u32 (Asm.R m Asm.r12) = true /\ is_u32 (Asm.R m Asm.r14) = true.

Definition sim (A B : Asm.cpu) : Prop :=
  paired A B /\ same_control A B /\ in_range A /\ in_range B.

(** Two states of the registers that hold the same values in the
    registers of [l]. *)
Definition agree_on (l : list Asm.reg) (m m' : Asm.cpu) : Prop :=
  forall r, In r l -> Asm.R m r = Asm.R m' r.

(** The tables of two runs: the same [rtk1], and [rtk ^ rtk_m] the same. *)
Definition tables_agree (rtk rtk_m rtk' rtk_m' rtk1 : list Z) : Prop :=
  (forall o, Z.lxor (Asm.mem32 rtk o) (Asm.mem32 rtk_m o) =
             Z.lxor (Asm.mem32 rtk' o) (Asm.mem32 rtk_m' o)) /\
  is_bytes rtk = true /\ is_bytes rtk_m = true /\
  is_bytes rtk' = true /\ is_bytes rtk_m' = true /\ is_bytes rtk1 = true.

(** Bytes [a * i + b mod 256] for [i < n], to run the model on. *)
Definition ramp (a b : Z) (n : nat) : list Z :=
  map (fun i => (a * Z.of_nat i + b) mod 256) (seq 0 n).

(** ** The conversions between bytes and shares (encrypt.c) *)

(** [shares_to_bytearr(bytearr, ms, mlen)]: the [mlen] bytes stored to
    [bytearr[0 .. mlen)], in order; the second loop stores to
    [bytearr[mlen - r + i]], right after the bytes of the full words. *)
Definition shares_to_bytearr (ms : list Z) (mlen : nat) : list Z :=
  let r := (mlen mod 4)%nat in
  flat_map
    (fun i =>
       [ u8 (Z.land (Z.shiftr (word_at ms i) 0) 0xff);
         u8 (Z.land (Z.shiftr (word_at ms i) 8) 0xff);
         u8 (Z.land (Z.shiftr (word_at ms i) 16) 0xff);
         u8 (Z.land (Z.shiftr (word_at ms i) 24) 0xff) ])
    (seq 0 (mlen / 4)) ++
  map (fun i =>
         u8 (Z.land (Z.shiftr (word_at ms (mlen / 4)) (8 * Z.of_nat i)) 0xff))
      (seq 0 r).

(** [combine_shares_encrypt(cs, c, clen)] and
    [combine_shares_decrypt(ms, m, mlen)]: the bytes stored to [c], to [m]. *)
Definition combine_shares_encrypt (cs : list Z) (clen : nat) : list Z :=
  shares_to_bytearr cs clen.
Definition combine_shares_decrypt (ms : list Z) (mlen : nat) : list Z :=
  shares_to_bytearr ms mlen.

(** The splitting of a 16-byte value into two shares,
    [randombytes((uint8_t * )(&(ks[i].shares[1])), 4);] for [i = 0..3], then
    [ks[i].shares[0] = ks[i].shares[1] ^ ((uint32_t * )k)[i];].
    [rnd] holds the sixteen bytes the four calls of [randombytes] deliver;
    an element is the pair of [shares[0]] and [shares[1]]. *)
Definition split_shares (k rnd : list Z) : list (Z * Z) :=
  map (fun i => (Z.lxor (load32 rnd i) (load32 k i), load32 rnd i)) (seq 0 4).

(** The packing of the nonce,
    [for (i = 0; i < BLOCKBYTES/4; i++) { npubs[i].shares[0] = ...; }] *)
Definition pack_npub (npub : list Z) (npubs : list Z) : list Z :=
  fold_left
    (fun ms i =>
       let w := u32 (Z.shiftl (byte_at npub (i * 4 + 0)) 0) in
       let w := Z.lor w (u32 (Z.shiftl (byte_at npub (i * 4 + 1)) 8)) in
       let w := Z.lor w (u32 (Z.shiftl (byte_at npub (i * 4 + 2)) 16)) in
       let w := Z.lor w (u32 (Z.shiftl (byte_at npub (i * 4 + 3)) 24)) in
       set_word ms i w)
    (seq 0 (BLOCKBYTES / 4)) npubs.

(** The arrays [generate_shares_encrypt] and [generate_shares_decrypt] of
    Romulus-M fill: message (or ciphertext), associated data, nonce, key. *)
Record shared_inputs : Type := mkshared {
  sh_ms : list Z;
  sh_ads : list Z;
  sh_npubs : list Z;
  sh_ks : list (Z * Z)
}.

(** [generate_shares_encrypt(m, ms, mlen, ad, ads, adlen, npub, npubs, k, ks)]
    of Romulus-M; [ms0], [ads0] and [npubs0] are the caller's arrays as they
    are when the function is entered. *)
Definition generate_shares_encrypt (m ms0 ad ads0 npub npubs0 k rnd : list Z)
  : shared_inputs :=
  mkshared (pack_bytes m ms0) (pack_bytes ad ads0) (pack_npub npub npubs0)
           (split_shares k rnd).

(** [generate_shares_decrypt(c, cs, clen, ad, ads, adlen, npub, npubs, k, ks)]
    of Romulus-M: the same statements, on the ciphertext. *)
Definition generate_shares_decrypt (c cs0 ad ads0 npub npubs0 k rnd : list Z)
  : shared_inputs :=
  mkshared (pack_bytes c cs0) (pack_bytes ad ads0) (pack_npub npub npubs0)
           (split_shares k rnd).

(** The bytes of an array of one-share elements, as a [(uint8_t * )] cast
    reads them, and the elements of an array given by its bytes. *)
Definition bytes_of_words (ws : list Z) : list Z := flat_map bytes_of_u32 ws.
Definition words_of_bytes (b : list Z) : list Z :=
  map (load32 b) (seq 0 (length b / 4)).

(** The word at index [q] after the loop that ors the trailing [r] bytes
    of [m] into it, from its value [w] before the loop. *)
Definition or_tail (m : list Z) (q r : nat) (w : Z) : Z :=
  fold_left
    (fun w i => Z.lor w (u32 (Z.shiftl (byte_at m (4 * q + i)) (8 * Z.of_nat i))))
    (seq 0 r) w.

(** An array of one-share elements has room for [len] bytes: it has the
    [len/4] full words and, when [len] is not a multiple of 4, the two words
    that follow, the first of them with its low [len mod 4] bytes zero. *)
Definition room_for (len : nat) (ws : list Z) : Prop :=
  (len / 4 <= length ws)%nat /\
  ((len mod 4 <> 0)%nat ->
   (len / 4 + 1 < length ws)%nat /\
   Z.land (word_at ws (len / 4)) (Z.ones (8 * Z.of_nat (len mod 4))) = 0).

(** * Properties

    ** Bytes, words and blocks *)

Lemma u32_land x : u32 x = Z.land x (Z.ones 32).
Proof. unfold u32. rewrite Z.land_ones by lia. reflexivity. Qed.
Lemma u8_land x : u8 x = Z.land x (Z.ones 8).
Proof. unfold u8. rewrite Z.land_ones by lia. reflexivity. Qed.

Lemma is_u8_range b : is_u8 b = true <-> 0 <= b < 256.
Proof. unfold is_u8. rewrite andb_true_iff, Z.leb_le, Z.ltb_lt. tauto. Qed.

Lemma is_u8_land b : is_u8 b = true -> b = Z.land b (Z.ones 8).
Proof.
  intros H. apply is_u8_range in H. rewrite Z.land_ones by lia.
  rewrite Z.mod_small; [reflexivity | change (2 ^ 8) with 256; lia ].
Qed.

Lemma is_u8_u8 x : is_u8 (u8 x) = true.
Proof. apply is_u8_range. unfold u8. change (2 ^ 8) with 256. apply Z.mod_pos_bound. lia. Qed.

Lemma u8_id b : is_u8 b = true -> u8 b = b.
Proof. intros H. apply is_u8_range in H. unfold u8. apply Z.mod_small. change (2^8) with 256. lia. Qed.

Lemma bits_eq_below (n : nat) (a b : Z) :
  (forall i, Z.of_nat n <= i -> Z.testbit a i = Z.testbit b i) ->
  (forall k, (k < n)%nat -> Z.testbit a (Z.of_nat k) = Z.testbit b (Z.of_nat k)) ->
  a = b.
Proof.
  intros Hhi Hlo. apply Z.bits_inj'. intros i Hi.
  destruct (Z.ltb_spec i (Z.of_nat n)); [ | auto ].
  rewrite <- (Z2Nat.id i) by lia. apply Hlo. lia.
Qed.

Ltac enum_nat k H :=
  lazymatch type of H with
  | (k < 0)%nat => exfalso; inversion H
  | (k < S _)%nat =>
      destruct k as [|k]; [ clear H | apply PeanoNat.lt_S_n in H; enum_nat k H ]
  end.

Ltac testbits :=
  repeat (autorewrite with z_bitwise_no_hyps;
          rewrite ?Z.shiftr_spec', ?Z.shiftl_spec', ?Z.testbit_ones_nonneg' by lia).

Ltac byte_bits :=
  apply (bits_eq_below 8);
  [ intros ?i ?Hi; Z.bitblast_core
  | let j := fresh "j" in let Hj := fresh "Hj" in
    intros j Hj; enum_nat j Hj;
    cbn [Z.of_nat Pos.of_succ_nat Pos.succ];
    testbits; cbn; try reflexivity; try btauto ].

(** [Z.bitblast], then the bits at negative positions. *)
Ltac bitblast_neg :=
  Z.bitblast;
  repeat match goal with
         | |- context [Z.testbit ?a ?l] => rewrite (Z.testbit_neg_r a l) by lia
         end;
  try btauto.

Lemma cons_eq (A : Type) (a b : A) (l l' : list A) :
  a = b -> l = l' -> a :: l = b :: l'.
Proof. intros; subst; reflexivity. Qed.

Ltac list_eq := repeat (apply cons_eq; [ | ]); try reflexivity.

Lemma bytes_of_u32_G w :
  bytes_of_u32 (Macros.G_word w) = map G_byte (bytes_of_u32 w).
Proof.
  unfold bytes_of_u32, Macros.G_word, G_byte, G_int; cbn [map].
  rewrite !u8_land, u32_land.
  change 255 with (Z.ones 8). change 128 with (Z.shiftl 1 7).
  list_eq; byte_bits.
Qed.

Lemma bytes_of_u32_xor w v :
  bytes_of_u32 (Z.lxor w v) = xor_bytes (bytes_of_u32 w) (bytes_of_u32 v).
Proof.
  unfold bytes_of_u32; cbn [xor_bytes]. change 255 with (Z.ones 8).
  list_eq; Z.bitblast.
Qed.

Lemma bytes_of_u32_load b0 b1 b2 b3 :
  is_u8 b0 = true -> is_u8 b1 = true -> is_u8 b2 = true -> is_u8 b3 = true ->
  bytes_of_u32 (Z.lor (Z.lor (Z.lor b0 (Z.shiftl b1 8)) (Z.shiftl b2 16)) (Z.shiftl b3 24))
  = [b0; b1; b2; b3].
Proof.
  intros H0 H1 H2 H3.
  rewrite (is_u8_land b0 H0), (is_u8_land b1 H1), (is_u8_land b2 H2), (is_u8_land b3 H3).
  unfold bytes_of_u32. change 255 with (Z.ones 8).
  list_eq; Z.bitblast.
Qed.

Lemma is_block_inv b :
  is_block b = true -> length b = 16%nat /\ Forall (fun x => is_u8 x = true) b.
Proof.
  unfold is_block, is_bytes. rewrite andb_true_iff, Nat.eqb_eq, forallb_forall, Forall_forall.
  tauto.
Qed.

Lemma is_block_intro b :
  length b = 16%nat -> Forall (fun x => is_u8 x = true) b -> is_block b = true.
Proof.
  unfold is_block, is_bytes. rewrite andb_true_iff, Nat.eqb_eq, forallb_forall, Forall_forall.
  tauto.
Qed.

Ltac destruct_list b n :=
  lazymatch n with
  | O => destruct b; [ | discriminate ]
  | S ?n' => let x := fresh "b" in destruct b as [ | x b ]; [ discriminate | destruct_list b n' ]
  end.

Ltac inv_Forall H :=
  repeat match type of H with
         | Forall _ (_ :: _) =>
             let Hx := fresh "Hb" in let Ht := fresh "Hf" in
             apply Forall_cons_iff in H; destruct H as [Hx H]
         end; clear H.

Ltac destruct_block H :=
  let b := lazymatch type of H with is_block ?b = true => b end in
  let Hl := fresh "Hl" in let Hf := fresh "Hf" in
  apply is_block_inv in H; destruct H as [Hl Hf];
  destruct_list b 16%nat; clear Hl; inv_Forall Hf.

Lemma block_words y :
  is_block y = true ->
  block_of_words (load32 y 0) (load32 y 1) (load32 y 2) (load32 y 3) = y.
Proof.
  intros H. destruct_block H.
  unfold block_of_words, load32, byte_at; cbn [nth Nat.mul Nat.add].
  rewrite !bytes_of_u32_load by assumption. reflexivity.
Qed.

Lemma xor_bytes_app a a' b b' :
  length a = length a' ->
  xor_bytes (a ++ b) (a' ++ b') = xor_bytes a a' ++ xor_bytes b b'.
Proof.
  revert a'. induction a as [|x a IH]; intros [|x' a'] Hl; try discriminate; cbn.
  - reflexivity.
  - f_equal. apply IH. now injection Hl.
Qed.

Lemma G_bytes y : is_block y = true -> Macros.G y = map G_byte y.
Proof.
  intros H. rewrite <- (block_words y H) at 2.
  unfold Macros.G, block_of_words. rewrite !map_app, !bytes_of_u32_G. reflexivity.
Qed.

Lemma XOR_BLOCK_bytes y z :
  is_block y = true -> is_block z = true -> Macros.XOR_BLOCK y z = xor_bytes y z.
Proof.
  intros Hy Hz. rewrite <- (block_words y Hy) at 2. rewrite <- (block_words z Hz) at 2.
  unfold Macros.XOR_BLOCK, block_of_words.
  rewrite !xor_bytes_app, !bytes_of_u32_xor by reflexivity. reflexivity.
Qed.

Lemma is_u8_lxor a b : is_u8 a = true -> is_u8 b = true -> is_u8 (Z.lxor a b) = true.
Proof.
  intros Ha Hb. rewrite (is_u8_land a Ha), (is_u8_land b Hb).
  replace (Z.lxor (Z.land a (Z.ones 8)) (Z.land b (Z.ones 8)))
    with (Z.land (Z.lxor a b) (Z.ones 8)) by Z.bitblast.
  rewrite <- u8_land. apply is_u8_u8.
Qed.

Lemma xor_bytes_length a b : length a = length b -> length (xor_bytes a b) = length a.
Proof.
  revert b; induction a as [|x a IH]; intros [|y b] Hl; try discriminate; cbn; auto.
Qed.

Lemma xor_bytes_u8 a b :
  Forall (fun x => is_u8 x = true) a -> Forall (fun x => is_u8 x = true) b ->
  Forall (fun x => is_u8 x = true) (xor_bytes a b).
Proof.
  intros Ha; revert b. induction Ha as [|x a Hx Ha IH]; intros b Hb; cbn; [constructor|].
  destruct Hb as [|y b Hy Hb]; constructor; auto using is_u8_lxor.
Qed.

Lemma is_block_xor a b : is_block a = true -> is_block b = true -> is_block (xor_bytes a b) = true.
Proof.
  intros Ha Hb. apply is_block_inv in Ha, Hb. destruct Ha, Hb.
  apply is_block_intro; [ rewrite xor_bytes_length; congruence | now apply xor_bytes_u8 ].
Qed.

Lemma is_block_G y : is_block y = true -> is_block (map G_byte y) = true.
Proof.
  intros H. apply is_block_inv in H. destruct H as [Hl Hf].
  apply is_block_intro; [ now rewrite length_map | ].
  apply Forall_map. apply Forall_forall. intros. apply is_u8_u8.
Qed.

Lemma xor_bytes_comm a b : xor_bytes a b = xor_bytes b a.
Proof.
  revert b; induction a as [|x a IH]; intros [|y b]; cbn; try reflexivity.
  now rewrite Z.lxor_comm, IH.
Qed.

Lemma xor_bytes_assoc a b c :
  xor_bytes (xor_bytes a b) c = xor_bytes a (xor_bytes b c).
Proof.
  revert b c; induction a as [|x a IH]; intros [|y b] [|z c]; cbn; try reflexivity.
  now rewrite Z.lxor_assoc, IH.
Qed.

(** *** The store of [RHO] and [RHO_INV] *)

Lemma put_same m p v : Macros.put m p v p = v.
Proof. unfold Macros.put. now rewrite Nat.eqb_refl. Qed.

Lemma put_other m p q v : q <> p -> Macros.put m p v q = m q.
Proof.
  intros H. unfold Macros.put. destruct (Nat.eqb_spec q p); [ contradiction | reflexivity ].
Qed.

Lemma rho_pointers_neq x x_m y z tmp :
  rho_pointers x x_m y z tmp = true ->
  x <> x_m /\ x <> tmp /\ x_m <> tmp /\ y <> x /\ y <> x_m /\ y <> tmp /\
  z <> x /\ z <> x_m /\ z <> tmp.
Proof.
  unfold rho_pointers. rewrite !andb_true_iff, !negb_true_iff, !Nat.eqb_neq. tauto.
Qed.

Ltac store_simpl :=
  repeat first [ rewrite put_same
               | rewrite put_other by (assumption || (apply not_eq_sym; assumption)) ].

(** What the five statements of [RHO] leave in the store, block by block.
    The last statement loads [z] after the two stores to [y]. *)
Lemma RHO_store (x x_m y z tmp : Macros.ptr) (m : Macros.store) :
  rho_pointers x x_m y z tmp = true ->
  let m' := Macros.RHO x x_m y z tmp m in
  let c := Macros.XOR_BLOCK (Macros.G (m x_m))
             (Macros.XOR_BLOCK (Macros.G (m x)) (m z)) in
  m' y = c /\
  m' x = Macros.XOR_BLOCK (m x) (if Nat.eqb y z then c else m z) /\
  m' x_m = m x_m /\
  m' z = (if Nat.eqb y z then c else m z).
Proof.
  intros H. apply rho_pointers_neq in H.
  destruct H as (H1 & H2 & H3 & H4 & H5 & H6 & H7 & H8 & H9).
  unfold Macros.RHO, Macros.G_at, Macros.XOR_BLOCK_at. cbv zeta.
  destruct (Nat.eqb_spec y z) as [->|Hyz].
  - store_simpl. repeat split.
  - store_simpl. repeat split.
Qed.

(** The same for [RHO_INV]; its last statement loads [z], the block it has
    just stored. *)
Lemma RHO_INV_store (x x_m y z tmp : Macros.ptr) (m : Macros.store) :
  rho_pointers x x_m y z tmp = true ->
  let m' := Macros.RHO_INV x x_m y z tmp m in
  let p := Macros.XOR_BLOCK (Macros.G (m x_m))
             (Macros.XOR_BLOCK (Macros.G (m x)) (m y)) in
  m' z = p /\
  m' x = Macros.XOR_BLOCK (m x) p /\
  m' x_m = m x_m.
Proof.
  intros H. apply rho_pointers_neq in H.
  destruct H as (H1 & H2 & H3 & H4 & H5 & H6 & H7 & H8 & H9).
  unfold Macros.RHO_INV, Macros.G_at, Macros.XOR_BLOCK_at. cbv zeta.
  destruct (Nat.eqb_spec y z) as [->|Hyz].
  - store_simpl. repeat split.
  - store_simpl. repeat split.
Qed.

Lemma rho_pointers_step ip :
  rho_pointers p_state p_state_m (p_out ip) p_in p_tmp_blk = true /\
  rho_pointers p_state p_state_m p_in (p_out ip) p_tmp_blk = true /\
  Nat.eqb (p_out ip) p_in = ip /\ Nat.eqb p_in (p_out ip) = ip.
Proof. destruct ip; repeat split. Qed.

(** [RHO] as the message loops call it, on bytes. *)
Lemma rho_step_RHO ip (s : ctx) (p : list Z) :
  is_block (state s) = true -> is_block (state_m s) = true ->
  is_block (firstn 16 p) = true ->
  rho_step ip ENCRYPT_MODE s p =
  let z := firstn 16 p in
  let y := xor_bytes (map G_byte (state_m s))
             (xor_bytes (map G_byte (state s)) z) in
  (mkctx (xor_bytes (state s) (if ip then y else z)) (state_m s)
         (tk1 s) (rtk s) (rtk_m s), y).
Proof.
  intros Hx Hm Hz. unfold rho_step.
  change (ENCRYPT_MODE =? ENCRYPT_MODE) with true. cbv iota zeta.
  destruct (rho_pointers_step ip) as (P & _ & E & _).
  destruct (RHO_store _ _ _ _ _ (rho_store s p) P) as (Ry & Rx & Rm & _).
  rewrite Ry, Rx, Rm, E.
  change (rho_store s p p_state) with (state s).
  change (rho_store s p p_state_m) with (state_m s).
  change (rho_store s p p_in) with (firstn 16 p).
  rewrite (G_bytes _ Hx), (G_bytes _ Hm).
  assert (Hgx := is_block_G _ Hx). assert (Hgm := is_block_G _ Hm).
  rewrite (XOR_BLOCK_bytes (map G_byte (state s)) (firstn 16 p)) by assumption.
  rewrite (XOR_BLOCK_bytes (map G_byte (state_m s))) by auto using is_block_xor.
  rewrite XOR_BLOCK_bytes by (destruct ip; auto using is_block_xor).
  reflexivity.
Qed.

(** [RHO_INV] as the message loops call it, on bytes: the same whether
    [out] is [in] or not. *)
Lemma rho_step_RHO_INV ip (s : ctx) (p : list Z) :
  is_block (state s) = true -> is_block (state_m s) = true ->
  is_block (firstn 16 p) = true ->
  rho_step ip DECRYPT_MODE s p =
  let y := firstn 16 p in
  let z := xor_bytes (map G_byte (state_m s))
             (xor_bytes (map G_byte (state s)) y) in
  (mkctx (xor_bytes (state s) z) (state_m s) (tk1 s) (rtk s) (rtk_m s), z).
Proof.
  intros Hx Hm Hz. unfold rho_step.
  change (DECRYPT_MODE =? ENCRYPT_MODE) with false. cbv iota zeta.
  destruct (rho_pointers_step ip) as (_ & P & _ & _).
  destruct (RHO_INV_store _ _ _ _ _ (rho_store s p) P) as (Rz & Rx & Rm).
  rewrite Rz, Rx, Rm.
  change (rho_store s p p_state) with (state s).
  change (rho_store s p p_state_m) with (state_m s).
  change (rho_store s p p_in) with (firstn 16 p).
  rewrite (G_bytes _ Hx), (G_bytes _ Hm).
  assert (Hgx := is_block_G _ Hx). assert (Hgm := is_block_G _ Hm).
  rewrite (XOR_BLOCK_bytes (map G_byte (state s)) (firstn 16 p)) by assumption.
  rewrite (XOR_BLOCK_bytes (map G_byte (state_m s))) by auto using is_block_xor.
  rewrite XOR_BLOCK_bytes by auto using is_block_xor.
  reflexivity.
Qed.

(** Whatever the blocks hold, [RHO_INV] leaves the same state shares and
    the same block at [out] whether it runs in place or not. *)
Lemma rho_step_RHO_INV_in_place mode (s : ctx) (p : list Z) :
  (mode =? ENCRYPT_MODE) = false ->
  rho_step true mode s p = rho_step false mode s p.
Proof.
  intros H. unfold rho_step. rewrite H. cbv zeta.
  destruct (rho_pointers_step true) as (_ & P1 & _ & _).
  destruct (rho_pointers_step false) as (_ & P0 & _ & _).
  destruct (RHO_INV_store _ _ _ _ _ (rho_store s p) P1) as (Rz & Rx & Rm).
  destruct (RHO_INV_store _ _ _ _ _ (rho_store s p) P0) as (Rz' & Rx' & Rm').
  rewrite Rz, Rx, Rm, Rz', Rx', Rm'. reflexivity.
Qed.

(** Whatever the blocks hold, the step stores [XOR_BLOCK] results to the
    first share and to [out], and nothing else of the buffers changes. *)
Lemma rho_step_shape ip mode (s : ctx) (p : list Z) :
  exists a b c,
    rho_step ip mode s p =
    (mkctx (Macros.XOR_BLOCK (state s) c) (state_m s) (tk1 s) (rtk s) (rtk_m s),
     Macros.XOR_BLOCK a b).
Proof.
  unfold rho_step. cbv zeta.
  destruct (rho_pointers_step ip) as (P & P' & _ & _).
  destruct (mode =? ENCRYPT_MODE).
  - destruct (RHO_store _ _ _ _ _ (rho_store s p) P) as (Ry & Rx & Rm & _).
    rewrite Ry, Rx, Rm. do 3 eexists. reflexivity.
  - destruct (RHO_INV_store _ _ _ _ _ (rho_store s p) P') as (Rz & Rx & Rm).
    rewrite Rz, Rx, Rm. do 3 eexists. reflexivity.
Qed.

(** ** The forward transform [RHO] *)

(** Claim C5, as the code has it.  [RHO(x, x_m, y, z, tmp)] on 16-byte
    blocks, with the state shares [x], [x_m] and [tmp] three buffers of
    their own, stores to [y] the block [G(x) ^ z ^ G(x_m)], computed from
    the state shares and the plaintext block as they are when the macro is
    entered, and leaves the mask share [x_m] as it was.  When [y] and [z]
    are different buffers, [x] becomes [x ^ z] and [z] is not changed.  When
    [y] and [z] are the same buffer (the call in place) the last statement
    loads the block just stored: [x] becomes [x ^ z ^ G(x) ^ G(x_m)]. *)
Theorem RHO_forward (x x_m y z tmp : Macros.ptr) (m : Macros.store) :
  rho_pointers x x_m y z tmp = true ->
  is_block (m x) = true -> is_block (m x_m) = true -> is_block (m z) = true ->
  let m' := Macros.RHO x x_m y z tmp m in
  m' y = xor_bytes (xor_bytes (Macros.G (m x)) (m z)) (Macros.G (m x_m)) /\
  m' x_m = m x_m /\
  m' x = (if Nat.eqb y z
          then xor_bytes (xor_bytes (m x) (m z))
                 (xor_bytes (Macros.G (m x)) (Macros.G (m x_m)))
          else xor_bytes (m x) (m z)) /\
  m' z = (if Nat.eqb y z then m' y else m z).
Proof.
  intros P Hx Hm Hz. cbv zeta.
  destruct (RHO_store _ _ _ _ _ m P) as (Ry & Rx & Rm & Rz).
  rewrite Ry, Rx, Rm, Rz.
  assert (Hgx := is_block_G _ Hx). assert (Hgm := is_block_G _ Hm).
  rewrite (G_bytes _ Hx), (G_bytes _ Hm).
  rewrite (XOR_BLOCK_bytes (map G_byte (m x)) (m z)) by assumption.
  rewrite (XOR_BLOCK_bytes (map G_byte (m x_m))) by auto using is_block_xor.
  rewrite XOR_BLOCK_bytes by (destruct (Nat.eqb y z); auto using is_block_xor).
  split; [ apply xor_bytes_comm | ]. split; [ reflexivity | ].
  split; [ | reflexivity ].
  destruct (Nat.eqb y z); [ | reflexivity ].
  rewrite (xor_bytes_comm (map G_byte (m x_m))).
  rewrite (xor_bytes_comm (map G_byte (m x)) (m z)).
  now rewrite !xor_bytes_assoc.
Qed.

Lemma RHO_forward_witness :
  let x := [1;2;3;4;5;6;7;8;9;10;11;12;13;14;15;16] in
  let x_m := [0x80;0x41;0x22;0x13;0x0c;0x05;0x06;0x07;
              0xf8;0xe9;0xda;0xcb;0xbc;0xad;0x9e;0x8f] in
  let z := repeat 255 16 in
  let m : Macros.store :=
    fun q => match q with 0%nat => x | 1%nat => x_m | 3%nat => z | _ => [] end in
  let m' := Macros.RHO 0%nat 1%nat 3%nat 3%nat 2%nat m in
  m' 3%nat = xor_bytes (xor_bytes (Macros.G x) z) (Macros.G x_m) /\
  m' 1%nat = x_m /\
  m' 0%nat = xor_bytes (xor_bytes x z) (xor_bytes (Macros.G x) (Macros.G x_m)) /\
  m' 3%nat = m' 3%nat.
Proof.
  intros x x_m z m.
  apply (RHO_forward 0%nat 1%nat 3%nat 3%nat 2%nat m); reflexivity.
Defined.

(** The call in place, as [romulusn_process_msg] makes it when its caller
    passes [out == in].  For the state shares [x], [x_m] and the plaintext
    block [z] below, [RHO(x, x_m, z, z, tmp)] stores the block
    [G(x) ^ z ^ G(x_m)] = [50 81 a0 ..] and leaves the first share as
    [51 83 a3 ..], which is [x] xor that block, where [x ^ z] is
    [11 22 33 ..]; with [y] a buffer of its own the first share is
    [x ^ z]. *)
Example RHO_in_place_state :
  let x := [1;2;3;4;5;6;7;8;9;10;11;12;13;14;15;16] in
  let x_m := [0x80;0x41;0x22;0x13;0x0c;0x05;0x06;0x07;
              0xf8;0xe9;0xda;0xcb;0xbc;0xad;0x9e;0x8f] in
  let z := [0x10;0x20;0x30;0x40;0x50;0x60;0x70;0x80;
            0x90;0xa0;0xb0;0xc0;0xd0;0xe0;0xf0;0xff] in
  let m : Macros.store :=
    fun q => match q with 0%nat => x | 1%nat => x_m | 3%nat => z | _ => [] end in
  Macros.RHO 0%nat 1%nat 3%nat 3%nat 2%nat m 3%nat =
    [0x50;0x81;0xa0;0xcb;0xd4;0xe1;0xf0;0x07;
     0xe8;0xd1;0xd8;0xa3;0x88;0xb1;0xb8;0xb0] /\
  Macros.RHO 0%nat 1%nat 3%nat 3%nat 2%nat m 0%nat =
    [0x51;0x83;0xa3;0xcf;0xd1;0xe7;0xf7;0x0f;
     0xe1;0xdb;0xd3;0xaf;0x85;0xbf;0xb7;0xa0] /\
  xor_bytes x z =
    [0x11;0x22;0x33;0x44;0x55;0x66;0x77;0x88;
     0x99;0xaa;0xbb;0xcc;0xdd;0xee;0xff;0xef] /\
  Macros.RHO 0%nat 1%nat 4%nat 3%nat 2%nat m 0%nat = xor_bytes x z /\
  state (fst (rho_step true ENCRYPT_MODE (mkctx x x_m [] [] []) z)) =
    Macros.RHO 0%nat 1%nat 3%nat 3%nat 2%nat m 0%nat.
Proof. vm_compute. repeat split. Qed.

(** ** The masked gadgets *)

Lemma small_land n x : 0 <= n -> 0 <= x < 2 ^ n -> x = Z.land x (Z.ones n).
Proof. intros. rewrite Z.land_ones by lia. rewrite Z.mod_small; lia. Qed.

(** Claim C6, amended.  On 32-bit registers [secand] computes
    [z1 = (x1 | ~y2) ^ (x1 & y1)] and [z2 = (x2 & y1) ^ (x2 | ~y2)]; both are
    32-bit values, and the exclusive or of the two output shares is the AND
    of the unmasked inputs, [(x1 ^ x2) & (y1 ^ y2)]. *)
Theorem secand_masked_and (x1 x2 y1 y2 : Z) :
  0 <= x1 < 2 ^ 32 -> 0 <= x2 < 2 ^ 32 -> 0 <= y1 < 2 ^ 32 -> 0 <= y2 < 2 ^ 32 ->
  let '(z1, z2) := Gadgets.secand x1 x2 y1 y2 in
  z1 = Z.lxor (Z.lor x1 (u32 (Z.lnot y2))) (Z.land x1 y1) /\
  z2 = Z.lxor (Z.land x2 y1) (Z.lor x2 (u32 (Z.lnot y2))) /\
  Z.lxor z1 z2 = Z.land (Z.lxor x1 x2) (Z.lxor y1 y2) /\
  0 <= z1 < 2 ^ 32 /\ 0 <= z2 < 2 ^ 32.
Proof.
  intros H1 H2 H3 H4. unfold Gadgets.secand, Gadgets.orn.
  split; [reflexivity|]. split; [reflexivity|].
  rewrite (small_land 32 x1), (small_land 32 x2), (small_land 32 y1), (small_land 32 y2) by lia.
  rewrite !u32_land.
  split; [ Z.bitblast | ].
  split.
  - replace (Z.lxor _ _) with (Z.land (Z.lxor (Z.lor x1 (Z.lnot y2)) (Z.land x1 y1)) (Z.ones 32)) by Z.bitblast.
    rewrite Z.land_ones by lia. apply Z.mod_pos_bound. lia.
  - replace (Z.lxor _ _) with (Z.land (Z.lxor (Z.land x2 y1) (Z.lor x2 (Z.lnot y2))) (Z.ones 32)) by Z.bitblast.
    rewrite Z.land_ones by lia. apply Z.mod_pos_bound. lia.
Qed.

Lemma secand_masked_and_witness :
  let '(z1, z2) := Gadgets.secand 0xF0F0F0F0 0x12345678 0xFFFF0000 0x0F0F0F0F in
  z1 = Z.lxor (Z.lor 0xF0F0F0F0 (u32 (Z.lnot 0x0F0F0F0F))) (Z.land 0xF0F0F0F0 0xFFFF0000) /\
  z2 = Z.lxor (Z.land 0x12345678 0xFFFF0000) (Z.lor 0x12345678 (u32 (Z.lnot 0x0F0F0F0F))) /\
  Z.lxor z1 z2 = Z.land (Z.lxor 0xF0F0F0F0 0x12345678) (Z.lxor 0xFFFF0000 0x0F0F0F0F) /\
  0 <= z1 < 2 ^ 32 /\ 0 <= z2 < 2 ^ 32.
Proof.
  apply (secand_masked_and 0xF0F0F0F0 0x12345678 0xFFFF0000 0x0F0F0F0F); lia.
Defined.

(** The shares [secand] computes are not the ones of the worded formula.
    For [x1 = 0], [x2 = 0xFFFFFFFF], [y1 = 0xFFFFFFFF], [y2 = 0] the first
    output share is [0xFFFFFFFF], while the worded formula, with
    [x_same = x1], [x_other = x2] and [y_same = y1], gives [0], whichever of
    xor and or joins its two terms.  With [y2 = 0xFFFFFFFF] instead, the
    first output share becomes [0]: it depends on [y2], which the worded
    formula does not read. *)
Lemma secand_formula_counterexample :
  Gadgets.secand 0 0xFFFFFFFF 0xFFFFFFFF 0 = (0xFFFFFFFF, 0) /\
  secand_share_claimed Z.lxor 0 0xFFFFFFFF 0xFFFFFFFF = 0 /\
  secand_share_claimed Z.lor 0 0xFFFFFFFF 0xFFFFFFFF = 0 /\
  fst (Gadgets.secand 0 0xFFFFFFFF 0xFFFFFFFF 0xFFFFFFFF) = 0.
Proof. vm_compute. repeat split. Qed.

(** ** The final domain byte of Romulus-M *)

Lemma final_ad_domain_value (adlen mlen : Z) :
  RomulusM.final_ad_domain adlen mlen =
  Z.lxor (ad_bits (length_case_of adlen)) (msg_bits (length_case_of mlen)).
Proof.
  unfold RomulusM.final_ad_domain, length_case_of, u32.
  change (2 * 16) with 32.
  assert (Ha := Z.mod_pos_bound adlen 32 eq_refl).
  assert (Hm := Z.mod_pos_bound mlen 32 eq_refl).
  rewrite (Z.mod_small (adlen mod 32)), (Z.mod_small (mlen mod 32)) by lia.
  destruct (Z.eqb_spec adlen 0), (Z.eqb_spec mlen 0);
  destruct (Z.eqb_spec (adlen mod 32) 0), (Z.eqb_spec (mlen mod 32) 0);
  destruct (Z.ltb_spec (adlen mod 32) 16), (Z.ltb_spec (mlen mod 32) 16);
  destruct (Z.ltb_spec 16 (adlen mod 32)), (Z.ltb_spec 16 (mlen mod 32));
  destruct (Z.eqb_spec (adlen mod 32) 16), (Z.eqb_spec (mlen mod 32) 16);
  try lia; reflexivity.
Qed.

(** Claim C7, amended.  [final_ad_domain] returns the same byte for two
    pairs of lengths exactly when the associated-data lengths fall in the
    same case and the message lengths fall in the same case, the cases being
    those of [length_case_of]: a partial single block at the end (an empty
    input included), a full single block, a full double block, a partial
    double block. *)
Theorem final_ad_domain_separates (adlen mlen adlen' mlen' : Z) :
  RomulusM.final_ad_domain adlen mlen = RomulusM.final_ad_domain adlen' mlen' <->
  length_case_of adlen = length_case_of adlen' /\
  length_case_of mlen = length_case_of mlen'.
Proof.
  rewrite !final_ad_domain_value.
  split.
  - destruct (length_case_of adlen), (length_case_of adlen'),
             (length_case_of mlen), (length_case_of mlen'); cbn; intros H;
      first [ discriminate H | split; reflexivity ].
  - intros [-> ->]. reflexivity.
Qed.

(** Empty associated data and associated data of one byte (a trailing
    partial block) are different structural cases, and get the same domain
    byte. *)
Lemma final_ad_domain_collision :
  structural_case_of 0 = Empty /\ structural_case_of 1 = TrailingPartial /\
  RomulusM.final_ad_domain 0 0 = 3 /\ RomulusM.final_ad_domain 1 0 = 3.
Proof. repeat split. Qed.

(** ** The counter bytes of [tk1] as an integer *)

Lemma land_ones_eq (n : nat) a b :
  (forall k, (k < n)%nat -> Z.testbit a (Z.of_nat k) = Z.testbit b (Z.of_nat k)) ->
  Z.land a (Z.ones (Z.of_nat n)) = Z.land b (Z.ones (Z.of_nat n)).
Proof.
  intros H. apply Z.bits_inj'. intros i Hi.
  rewrite !Z.land_spec, Z.testbit_ones_nonneg by lia.
  destruct (Z.ltb_spec i (Z.of_nat n)); [ | now rewrite !andb_false_r ].
  rewrite !andb_true_r. rewrite <- (Z2Nat.id i) by lia. apply H. lia.
Qed.

Ltac bits_upto n :=
  apply (land_ones_eq n);
  let j := fresh "j" in let Hj := fresh "Hj" in
  intros j Hj; enum_nat j Hj;
  cbn [Z.of_nat Pos.of_succ_nat Pos.succ];
  testbits; cbn; try reflexivity; try btauto.

Lemma UPDATE_CTR_byte7 a0 a1 a2 a3 a4 a5 a6 a7 rest :
  let b0 := Z.land a0 (Z.ones 8) in let b1 := Z.land a1 (Z.ones 8) in
  let b2 := Z.land a2 (Z.ones 8) in let b3 := Z.land a3 (Z.ones 8) in
  let b4 := Z.land a4 (Z.ones 8) in let b5 := Z.land a5 (Z.ones 8) in
  let b6 := Z.land a6 (Z.ones 8) in let b7 := Z.land a7 (Z.ones 8) in
  byte_at (Macros.UPDATE_CTR (b0 :: b1 :: b2 :: b3 :: b4 :: b5 :: b6 :: b7 :: rest)) 7 = b7.
Proof.
  cbv zeta.
  unfold Macros.UPDATE_CTR, load32, byte_at, bytes_of_u32.
  cbn [nth Nat.mul Nat.add skipn app].
  rewrite !u32_land.
  change 255 with (Z.ones 8). change 16777215 with (Z.ones 24).
  change 4278190080 with (Z.shiftl (Z.ones 8) 24).
  bits_upto 8%nat.
Qed.

Lemma land_1_testbit x : Z.land x 1 = Z.b2z (Z.testbit x 0).
Proof.
  change 1 with (Z.ones 1). rewrite Z.land_ones by lia.
  rewrite Z.bit0_mod. reflexivity.
Qed.

Lemma add_lor_byte a v :
  Z.land a (Z.ones 8) + 256 * v = Z.lor (Z.land a (Z.ones 8)) (Z.shiftl v 8).
Proof.
  rewrite Z.or_to_plus.
  - rewrite Z.shiftl_mul_pow2 by lia. change (2 ^ 8) with 256. lia.
  - bitblast_neg.
Qed.

Lemma le_value_lor b :
  Forall (fun x => is_u8 x = true) b -> le_value b = le_lor b.
Proof.
  induction 1 as [|x t Hx Ht IH]; cbn [le_value le_lor]; [reflexivity|].
  rewrite IH, (is_u8_land x Hx). apply add_lor_byte.
Qed.

Lemma le_value_range b :
  Forall (fun x => is_u8 x = true) b -> 0 <= le_value b < 2 ^ (8 * Z.of_nat (length b)).
Proof.
  induction 1 as [|x t Hx Ht IH]; cbn [le_value length]; [ cbn; lia | ].
  apply is_u8_range in Hx.
  replace (8 * Z.of_nat (S (length t))) with (8 + 8 * Z.of_nat (length t)) by lia.
  rewrite Z.pow_add_r by lia. change (2 ^ 8) with 256. lia.
Qed.


Ltac bits56 E :=
  apply (land_ones_eq 56);
  let j := fresh "j" in let Hj := fresh "Hj" in
  intros j Hj; enum_nat j Hj;
  cbn [Z.of_nat Pos.of_succ_nat Pos.succ];
  testbits; cbn; rewrite ?E; try reflexivity; try btauto.

Lemma counter_of_stored_words w0 w1 :
  Z.land (le_lor (firstn 7 (bytes_of_u32 w0 ++ bytes_of_u32 w1))) (Z.ones 56) =
  Z.land (counter_of_words w0 w1) (Z.ones 56).
Proof.
  unfold bytes_of_u32, counter_of_words. cbn [app firstn le_lor].
  change 255 with (Z.ones 8).
  bits56 I.
Qed.

(** The two stores of [UPDATE_CTR] on the words [w0], [w1]. *)
Lemma UPDATE_CTR_words x0 x1 :
  let w0 := Z.land x0 (Z.ones 32) in
  let w1 := Z.land x1 (Z.ones 32) in
  let w1' := Z.lor (Z.lor (Z.land (u32 (Z.shiftl w1 1)) 0x00ffffff)
                          (Z.shiftr w0 31)) (Z.land w1 0xff000000) in
  let w0' := if Z.eqb (Z.land (Z.shiftr w1 23) 0x01) 0
             then u32 (Z.shiftl w0 1)
             else Z.lxor (u32 (Z.shiftl w0 1)) 0x95 in
  Z.land (counter_of_words w0' w1') (Z.ones 56) =
  Z.land (Z.lxor (Z.shiftl (counter_of_words w0 w1) 1)
                 (if Z.testbit x1 23 then 0x95 else 0)) (Z.ones 56).
Proof.
  cbv zeta. unfold counter_of_words.
  rewrite land_1_testbit.
  replace (Z.testbit (Z.shiftr _ 23) 0) with (Z.testbit x1 23)
    by (testbits; cbn; btauto).
  rewrite !u32_land.
  change 16777215 with (Z.ones 24).
  change 4278190080 with (Z.shiftl (Z.ones 8) 24).
  destruct (Z.testbit x1 23) eqn:E; cbn [Z.b2z Z.eqb]; bits56 E.
Qed.

Lemma load32_u32 b0 b1 b2 b3 :
  is_u8 b0 = true -> is_u8 b1 = true -> is_u8 b2 = true -> is_u8 b3 = true ->
  let w := Z.lor (Z.lor (Z.lor b0 (Z.shiftl b1 8)) (Z.shiftl b2 16)) (Z.shiftl b3 24) in
  w = Z.land w (Z.ones 32).
Proof.
  intros H0 H1 H2 H3.
  rewrite (is_u8_land b0 H0), (is_u8_land b1 H1), (is_u8_land b2 H2), (is_u8_land b3 H3).
  cbv zeta. Z.bitblast.
Qed.

Lemma land_small n x : 0 <= n -> 0 <= x < 2 ^ n -> Z.land x (Z.ones n) = x.
Proof. intros. rewrite Z.land_ones by lia. apply Z.mod_small. lia. Qed.

Lemma counter_step_mask a v :
  Z.land (Z.lxor (Z.shiftl a 1) v) (Z.ones 56) =
  Z.land (Z.lxor (Z.shiftl (Z.land a (Z.ones 56)) 1) v) (Z.ones 56).
Proof. bitblast_neg. Qed.

Lemma land_lxor_distr a b m :
  Z.land (Z.lxor a b) m = Z.lxor (Z.land a m) (Z.land b m).
Proof. Z.bitblast. Qed.

Lemma testbit55 c : 0 <= c < 2 ^ 56 -> Z.testbit c 55 = (2 ^ 55 <=? c).
Proof.
  intros Hc. rewrite Z.testbit_odd, Z.shiftr_div_pow2 by lia.
  destruct (Z.leb_spec (2 ^ 55) c).
  - replace (c / 2 ^ 55) with 1; [ reflexivity | ].
    apply Z.div_unique with (r := c - 2 ^ 55); lia.
  - rewrite Z.div_small by lia. reflexivity.
Qed.

(** The arithmetic reading of one LFSR step on a 56-bit value. *)
Lemma lfsr_step_value c :
  0 <= c < 2 ^ 56 ->
  Z.land (Z.lxor (Z.shiftl c 1) (if Z.testbit c 55 then 0x95 else 0)) (Z.ones 56) =
  if c <? 2 ^ 55 then 2 * c else Z.lxor (2 * c - 2 ^ 56) 0x95.
Proof.
  intros Hc. rewrite testbit55 by assumption.
  rewrite land_lxor_distr, Z.land_ones, Z.shiftl_mul_pow2 by lia.
  change (2 ^ 1) with 2.
  destruct (Z.leb_spec (2 ^ 55) c), (Z.ltb_spec c (2 ^ 55)); try lia.
  - replace ((c * 2) mod 2 ^ 56) with (2 * c - 2 ^ 56).
    + reflexivity.
    + apply Z.mod_unique with (q := 1); lia.
  - rewrite Z.mod_small by lia. cbn [Z.land]. rewrite Z.lxor_0_r. lia.
Qed.

Lemma counter_words_of_block (tk1 : list Z) :
  is_block tk1 = true ->
  0 <= counter tk1 < 2 ^ 56 /\
  counter tk1 = Z.land (counter_of_words (load32 tk1 0) (load32 tk1 1)) (Z.ones 56).
Proof.
  intros H. destruct_block H.
  assert (Hf : Forall (fun x => is_u8 x = true) [b; b0; b1; b2; b3; b4; b5])
    by (repeat constructor; assumption).
  unfold counter. cbn [firstn].
  split; [ apply (le_value_range _ Hf) | ].
  rewrite <- counter_of_stored_words.
  unfold load32, byte_at; cbn [nth Nat.mul Nat.add].
  rewrite !bytes_of_u32_load by assumption. cbn [app firstn].
  rewrite <- (le_value_lor _ Hf).
  symmetry. apply land_small; [ lia | apply (le_value_range _ Hf) ].
Qed.

Lemma UPDATE_CTR_is_block tk1 :
  is_block tk1 = true -> is_block (Macros.UPDATE_CTR tk1) = true.
Proof.
  intros H. destruct_block H.
  unfold Macros.UPDATE_CTR, bytes_of_u32. cbn [skipn app].
  apply is_block_intro; [ reflexivity | ].
  change 255 with (Z.ones 8). rewrite <- !u8_land.
  repeat constructor; try apply is_u8_u8; assumption.
Qed.

Theorem UPDATE_CTR_counter (tk1 : list Z) :
  is_block tk1 = true ->
  let c := counter tk1 in
  counter (Macros.UPDATE_CTR tk1) =
    (if c <? 2 ^ 55 then 2 * c else Z.lxor (2 * c - 2 ^ 56) 0x95).
Proof.
  intros H. cbv zeta.
  destruct (counter_words_of_block tk1 H) as [Hr Hc].
  destruct (counter_words_of_block _ (UPDATE_CTR_is_block tk1 H)) as [Hr' Hc'].
  rewrite <- lfsr_step_value by assumption.
  rewrite Hc' at 1.
  (* the stored words *)
  destruct_block H.
  set (T := [b; b0; b1; b2; b3; b4; b5; b6; b7; b8; b9; b10; b11; b12; b13; b14]) in *.
  assert (HW0 := load32_u32 b b0 b1 b2 Hb Hb0 Hb1 Hb2).
  assert (HW1 := load32_u32 b3 b4 b5 b6 Hb3 Hb4 Hb5 Hb6).
  cbv zeta in HW0, HW1.
  change (Z.lor (Z.lor (Z.lor b (Z.shiftl b0 8)) (Z.shiftl b1 16)) (Z.shiftl b2 24))
    with (load32 T 0) in HW0.
  change (Z.lor (Z.lor (Z.lor b3 (Z.shiftl b4 8)) (Z.shiftl b5 16)) (Z.shiftl b6 24))
    with (load32 T 1) in HW1.
  rewrite <- counter_of_stored_words.
  assert (Hfirst : firstn 7 (bytes_of_u32 (load32 (Macros.UPDATE_CTR T) 0) ++
                            bytes_of_u32 (load32 (Macros.UPDATE_CTR T) 1)) =
                   firstn 7 (Macros.UPDATE_CTR T)).
  { assert (Hb' := UPDATE_CTR_is_block T).
    generalize (block_words _ (Hb' (is_block_intro T eq_refl
       ltac:(repeat constructor; assumption)))).
    unfold block_of_words. intros Hw. rewrite <- Hw at 3.
    reflexivity. }
  rewrite Hfirst.
  unfold Macros.UPDATE_CTR at 1.
  cbv zeta.
  rewrite HW0, HW1.
  set (x0 := load32 T 0) in *. set (x1 := load32 T 1) in *.
  change (firstn 7 (bytes_of_u32 ?A ++ bytes_of_u32 ?B ++ skipn 8 T))
    with (firstn 7 (bytes_of_u32 A ++ bytes_of_u32 B)).
  rewrite counter_of_stored_words.
  rewrite (UPDATE_CTR_words x0 x1).
  rewrite <- HW0, <- HW1.
  rewrite Hc.
  rewrite <- counter_step_mask.
  replace (Z.testbit (Z.land (counter_of_words x0 x1) (Z.ones 56)) 55)
    with (Z.testbit x1 23); [ reflexivity | ].
  unfold counter_of_words. testbits. cbn.
  rewrite HW0. testbits. cbn. btauto.
Qed.

(** ** Tag verification *)

Lemma is_u8_lor a b : is_u8 a = true -> is_u8 b = true -> is_u8 (Z.lor a b) = true.
Proof.
  intros Ha Hb. rewrite (is_u8_land a Ha), (is_u8_land b Hb).
  replace (Z.lor (Z.land a (Z.ones 8)) (Z.land b (Z.ones 8)))
    with (Z.land (Z.lor a b) (Z.ones 8)) by Z.bitblast.
  rewrite <- u8_land. apply is_u8_u8.
Qed.

Lemma u32_u8 x : is_u8 x = true -> u32 x = x.
Proof.
  intros H. apply is_u8_range in H. unfold u32. apply Z.mod_small.
  change (2 ^ 32) with 4294967296. lia.
Qed.

(** Accumulating in-range bytes into a 32-bit or an 8-bit variable never
    wraps. *)
Lemma fold_or_bytes (wrap : Z -> Z) (ds : list Z) :
  (forall x, is_u8 x = true -> wrap x = x) ->
  Forall (fun x => is_u8 x = true) ds ->
  forall acc, is_u8 acc = true ->
  fold_left (fun tmp d => wrap (Z.lor tmp d)) ds acc = fold_left Z.lor ds acc /\
  is_u8 (fold_left Z.lor ds acc) = true.
Proof.
  intros Hw Hds. induction Hds as [|d ds Hd Hds IH]; intros acc Hacc; cbn [fold_left].
  - split; [reflexivity | assumption].
  - rewrite Hw by (apply is_u8_lor; assumption).
    apply IH. apply is_u8_lor; assumption.
Qed.

Lemma fold_lor_zero (ds : list Z) acc :
  fold_left Z.lor ds acc = 0 <-> acc = 0 /\ Forall (fun d => d = 0) ds.
Proof.
  revert acc. induction ds as [|d ds IH]; intros acc; cbn [fold_left].
  - split; [ intros ->; split; [reflexivity | constructor] | tauto ].
  - rewrite IH, Z.lor_eq_0_iff. split.
    + intros [[-> ->] H]. split; [reflexivity | constructor; auto].
    + intros [-> H]. inversion H; subst. auto.
Qed.

Lemma xor_bytes_zero a b :
  length a = length b ->
  Forall (fun d => d = 0) (xor_bytes a b) <-> a = b.
Proof.
  revert b. induction a as [|x a IH]; intros [|y b] Hl; try discriminate; cbn [xor_bytes].
  - split; [reflexivity | constructor].
  - injection Hl as Hl. split.
    + intros H. inversion H as [|? ? Hxy Hr]; subst.
      apply Z.lxor_eq in Hxy. subst. f_equal. now apply IH.
    + intros [= -> ->]. constructor; [ apply Z.lxor_nilpotent | now apply IH ].
Qed.

Lemma accumulate_diff_bytes st st_m tag :
  is_block st = true -> is_block st_m = true -> is_block tag = true ->
  accumulate_diff st st_m tag =
  fold_left (fun tmp d => u32 (Z.lor tmp d)) (xor_bytes (xor_bytes st st_m) tag) 0.
Proof.
  intros H1 H2 H3. destruct_block H1. destruct_block H2. destruct_block H3.
  unfold accumulate_diff, byte_at, TAGBYTES.
  cbn [seq fold_left nth xor_bytes]. reflexivity.
Qed.

Lemma accumulate_diff_zero st st_m tag :
  is_block st = true -> is_block st_m = true -> is_block tag = true ->
  accumulate_diff st st_m tag = fold_left Z.lor (xor_bytes (xor_bytes st st_m) tag) 0 /\
  (accumulate_diff st st_m tag = 0 <-> xor_bytes st st_m = tag).
Proof.
  intros H1 H2 H3. rewrite accumulate_diff_bytes by assumption.
  assert (Hx := is_block_xor _ _ H1 H2).
  assert (Hd := is_block_xor _ _ Hx H3).
  apply is_block_inv in Hd. destruct Hd as [_ Hd].
  destruct (fold_or_bytes u32 _ u32_u8 Hd 0 eq_refl) as [-> _].
  split; [reflexivity|].
  rewrite fold_lor_zero. rewrite xor_bytes_zero.
  - tauto.
  - apply is_block_inv in Hx, H3. destruct Hx, H3. congruence.
Qed.

(** Claim C4.  For 16-byte state shares and a 16-byte candidate tag,
    [romulusn_verify_tag] and [romulusm_verify_tag] return the same value:
    the bitwise or, over all 16 byte positions, of
    [G(state)[i] ^ G(state_m)[i] ^ tag[i]].  Every position enters the
    accumulator, whatever the earlier ones were.  The value is 0 exactly when
    the unmasked tag [G(state) ^ G(state_m)], which is the tag
    [romulusn_generate_tag] stores, equals the candidate byte for byte. *)
Theorem verify_tag_constant_time (tag : list Z) (s : ctx) :
  is_block tag = true -> is_block (state s) = true -> is_block (state_m s) = true ->
  let r := snd (RomulusN.romulusn_verify_tag tag s) in
  snd (RomulusM.romulusm_verify_tag tag s) = r /\
  r = fold_left Z.lor
        (xor_bytes (xor_bytes (Macros.G (state s)) (Macros.G (state_m s))) tag) 0 /\
  (r = 0 <-> xor_bytes (Macros.G (state s)) (Macros.G (state_m s)) = tag) /\
  snd (RomulusN.romulusn_generate_tag s) =
    xor_bytes (Macros.G (state s)) (Macros.G (state_m s)).
Proof.
  intros Ht Hs Hm. cbv zeta.
  unfold RomulusN.romulusn_verify_tag, RomulusM.romulusm_verify_tag, verify_tag,
    RomulusN.romulusn_generate_tag, generate_tag. cbn [snd].
  split; [reflexivity|].
  rewrite !G_bytes by assumption.
  destruct (accumulate_diff_zero (map G_byte (state s)) (map G_byte (state_m s)) tag)
    as [He Hz]; auto using is_block_G.
Qed.

Lemma verify_tag_constant_time_witness :
  let tag := [1; 2; 3; 4; 5; 6; 7; 8; 9; 10; 11; 12; 13; 14; 15; 16] in
  let s := mkctx (repeat 0x80 16) (repeat 0x01 16) tk1_init [] [] in
  let r := snd (RomulusN.romulusn_verify_tag tag s) in
  snd (RomulusM.romulusm_verify_tag tag s) = r /\
  r = fold_left Z.lor
        (xor_bytes (xor_bytes (Macros.G (state s)) (Macros.G (state_m s))) tag) 0 /\
  (r = 0 <-> xor_bytes (Macros.G (state s)) (Macros.G (state_m s)) = tag) /\
  snd (RomulusN.romulusn_generate_tag s) =
    xor_bytes (Macros.G (state s)) (Macros.G (state_m s)).
Proof. apply verify_tag_constant_time; reflexivity. Defined.

(** ** The small instance stores blocks *)

Lemma fit16_block l : is_block (Toy.fit16 l) = true.
Proof.
  unfold Toy.fit16. apply is_block_intro.
  - rewrite length_map, length_firstn, length_app. unfold zeros.
    rewrite repeat_length. lia.
  - apply Forall_map, Forall_forall. intros. apply is_u8_u8.
Qed.

Lemma toy_cipher_blocks : cipher_blocks Toy.cipher.
Proof.
  intros p p_m r23 r3m r1.
  lazy beta iota delta [skinny128_384_plus Toy.cipher fst snd].
  split; repeat apply is_block_xor; apply fit16_block.
Qed.

(** ** The length check of decryption *)

(** Claim C3.  [crypto_aead_decrypt_shared], of Romulus-M and of Romulus-T
    alike, whatever the cipher and the Romulus-T core compute: when
    [clen < 16] the call returns -1 and leaves the plaintext array and the
    length variable as the caller passed them, so that nothing it may have
    computed is stored; when [clen >= 16] the length it stores through
    [mlen] is [clen - 16]. *)
Theorem decrypt_length_check {C : Skinny128} {T : RomulusT}
    (ms0 : list Z) (mlen0 : nat) (cs : list Z) (clen : nat)
    (ads : list Z) (adlen : nat) (npubs : list Z) (npubs2 ks : list (Z * Z)) :
  ((clen < 16)%nat ->
     RomulusM.crypto_aead_decrypt_shared ms0 mlen0 cs clen ads adlen npubs ks
       = mkout (-1) mlen0 ms0 /\
     RomulusT.crypto_aead_decrypt_shared ms0 mlen0 cs clen ads adlen npubs2 ks
       = mkout (-1) mlen0 ms0) /\
  ((16 <= clen)%nat ->
     outlen (RomulusM.crypto_aead_decrypt_shared ms0 mlen0 cs clen ads adlen npubs ks)
       = (clen - 16)%nat /\
     outlen (RomulusT.crypto_aead_decrypt_shared ms0 mlen0 cs clen ads adlen npubs2 ks)
       = (clen - 16)%nat).
Proof.
  unfold RomulusM.crypto_aead_decrypt_shared, RomulusT.crypto_aead_decrypt_shared, TAGBYTES.
  split; intros Hc.
  - apply Nat.ltb_lt in Hc. rewrite Hc. split; reflexivity.
  - apply Nat.ltb_ge in Hc. rewrite Hc. split.
    + destruct (RomulusM.decrypt_passes _ _ _ _ _ _ _) as [s ms].
      destruct (RomulusM.romulusm_verify_tag _ _). reflexivity.
    + destruct (shares_to_bytearr_2 ks), (shares_to_bytearr_2 npubs2).
      destruct (negb _); [ reflexivity | ].
      destruct (romulust_kdf _ _ _ _ _) as [[? ?] ?].
      destruct (romulust_process_msg _ _ _ _ _ _) as [[? ?] ?]. reflexivity.
Qed.

Lemma decrypt_length_check_witness :
  RomulusM.crypto_aead_decrypt_shared (C := Toy.cipher)
      [0x55] 7 [1; 2; 3] 3 [] 0 (zeros 16) [(1, 2); (3, 4); (5, 6); (7, 8)]
    = mkout (-1) 7 [0x55] /\
  RomulusT.crypto_aead_decrypt_shared (T := Toy.core_t)
      [0x55] 7 [1; 2; 3] 3 [] 0
      [(1, 2); (3, 4); (5, 6); (7, 8)] [(1, 2); (3, 4); (5, 6); (7, 8)]
    = mkout (-1) 7 [0x55].
Proof.
  apply (proj1 (decrypt_length_check (C := Toy.cipher) (T := Toy.core_t)
                  [0x55] 7%nat [1; 2; 3] 3%nat [] 0%nat (zeros 16)
                  [(1, 2); (3, 4); (5, 6); (7, 8)] [(1, 2); (3, 4); (5, 6); (7, 8)])).
  cbn; lia.
Defined.

(** ** Lengths of what the core functions store *)

Section Lengths.
Context {C : Skinny128} (HC : cipher_blocks C).

Lemma schedule_1_encrypt_blocks s :
  is_block (state (schedule_1_encrypt s)) = true /\
  is_block (state_m (schedule_1_encrypt s)) = true /\
  tk1 (schedule_1_encrypt s) = tk1 s /\
  rtk (schedule_1_encrypt s) = rtk s /\ rtk_m (schedule_1_encrypt s) = rtk_m s.
Proof.
  unfold schedule_1_encrypt.
  destruct (HC (state s) (state_m s) (rtk s) (rtk_m s) (tk_schedule_1 (tk1 s))) as [H1 H2].
  destruct (skinny128_384_plus _ _ _ _ _) as [c cm]. cbn in *. auto.
Qed.

Lemma schedule_123_encrypt_blocks s t k km :
  is_block (state (schedule_123_encrypt s t k km)) = true /\
  is_block (state_m (schedule_123_encrypt s t k km)) = true /\
  tk1 (schedule_123_encrypt s t k km) = tk1 s.
Proof.
  unfold schedule_123_encrypt, tk_schedule_123.
  match goal with |- context [skinny128_384_plus ?a ?b ?c ?d ?e] =>
    destruct (HC a b c d e) as [H1 H2]; destruct (skinny128_384_plus a b c d e) as [x y] end.
  cbn in *. auto.
Qed.

Lemma block_of_words_length a b c d : length (block_of_words a b c d) = 16%nat.
Proof. reflexivity. Qed.

Lemma rho_step_length ip mode s p :
  length (snd (rho_step ip mode s p)) = 16%nat.
Proof.
  destruct (rho_step_shape ip mode s p) as (a & b & c & ->). reflexivity.
Qed.

Lemma rho_step_frame ip mode s p :
  tk1 (fst (rho_step ip mode s p)) = tk1 s /\
  rtk (fst (rho_step ip mode s p)) = rtk s /\
  rtk_m (fst (rho_step ip mode s p)) = rtk_m s /\
  state_m (fst (rho_step ip mode s p)) = state_m s.
Proof.
  destruct (rho_step_shape ip mode s p) as (a & b & c & ->). cbn. auto.
Qed.

Lemma last_block_in_length n st st_m inb :
  (n <= length st)%nat -> (n <= length st_m)%nat -> (n <= length inb)%nat ->
  length (snd (last_block_in n st st_m inb)) = n.
Proof.
  revert st st_m inb. induction n as [|n IH]; intros st st_m inb H1 H2 H3.
  - reflexivity.
  - destruct st as [|s st]; [cbn in H1; lia|].
    destruct st_m as [|sm st_m]; [cbn in H2; lia|].
    destruct inb as [|x inb]; [cbn in H3; lia|].
    cbn [last_block_in length] in *.
    specialize (IH st st_m inb ltac:(lia) ltac:(lia) ltac:(lia)).
    destruct (last_block_in n st st_m inb) as [st' out]. cbn in *. lia.
Qed.

Lemma M_msg_blocks_length fuel mode s inb inlen out :
  (inlen <= fuel)%nat -> (inlen <= length inb)%nat ->
  let '(s', inb', inlen', out') := RomulusM.msg_blocks fuel mode s inb inlen out in
  (inlen' <= 16)%nat /\ (inlen' <= inlen)%nat /\ (inlen' <= length inb')%nat /\
  (inlen = 0 -> inlen' = 0)%nat /\ (0 < inlen -> 0 < inlen')%nat /\
  length out' = (length out + (inlen - inlen'))%nat /\
  inb' = skipn (inlen - inlen') inb.
Proof.
  revert s inb inlen out. induction fuel as [|fuel IH]; intros s inb inlen out Hf Hl.
  - cbn. assert (inlen = 0)%nat by lia. subst. repeat split; lia.
  - cbn [RomulusM.msg_blocks].
    destruct (Nat.ltb_spec 16 inlen) as [Hlt|Hge].
    + destruct (rho_step false mode (schedule_1_encrypt s) inb) as [s1 y] eqn:Er.
      assert (Hy : length y = 16%nat)
        by (change y with (snd (s1, y)); rewrite <- Er; apply rho_step_length).
      specialize (IH (update_ctr s1) (skipn 16 inb) (inlen - 16)%nat (out ++ y)).
      rewrite length_skipn in IH.
      specialize (IH ltac:(lia) ltac:(lia)).
      destruct (RomulusM.msg_blocks fuel mode (update_ctr s1) (skipn 16 inb) (inlen - 16) (out ++ y))
        as [[[s' inb'] inlen'] out'].
      destruct IH as (I1 & I0 & I2 & I3 & I4 & I5 & I6).
      rewrite length_app in I5. rewrite skipn_skipn in I6.
      split; [lia|]. split; [lia|]. split; [lia|]. split; [lia|]. split; [lia|]. split; [lia|].
      rewrite I6. f_equal. lia.
    + replace (inlen - inlen)%nat with 0%nat by lia. repeat split; lia.
Qed.

Lemma M_process_msg_length inb inlen s mode :
  (inlen <= length inb)%nat ->
  length (snd (RomulusM.romulusm_process_msg inb inlen s mode)) = inlen.
Proof.
  intros Hl. unfold RomulusM.romulusm_process_msg.
  set (s0 := if mode =? ENCRYPT_MODE then _ else _).
  destruct (Nat.ltb_spec 0 inlen) as [Hpos|Hz]; [ | cbn; lia ].
  assert (Hloop := M_msg_blocks_length inlen mode (set_domain s0 36) inb inlen []
                     (Nat.le_refl _) Hl).
  destruct (RomulusM.msg_blocks inlen mode (set_domain s0 36) inb inlen [])
    as [[[s1 inb1] inlen1] out1].
  destruct Hloop as (I1 & I0 & I2 & I3 & I4 & I5 & I6).
  destruct (schedule_1_encrypt_blocks s1) as (B1 & B2 & _).
  apply is_block_inv in B1, B2. destruct B1 as [B1 _], B2 as [B2 _].
  assert (Hlast := last_block_in_length inlen1 (state (schedule_1_encrypt s1))
                     (state_m (schedule_1_encrypt s1)) inb1
                     ltac:(lia) ltac:(lia) I2).
  destruct (last_block_in inlen1 _ _ inb1) as [st o].
  cbn [snd] in *. rewrite length_app. cbn [length] in I5. lia.
Qed.

Lemma M_process_ad_blocks s ad adlen m mlen npub k km :
  is_block (state (RomulusM.romulusm_process_ad s ad adlen m mlen npub k km)) = true /\
  is_block (state_m (RomulusM.romulusm_process_ad s ad adlen m mlen npub k km)) = true.
Proof.
  unfold RomulusM.romulusm_process_ad.
  repeat match goal with
         | |- context [let '(_, _) := ?e in _] => destruct e
         end.
  match goal with
  | |- context [schedule_123_encrypt ?s ?t ?k ?km] =>
      destruct (schedule_123_encrypt_blocks s t k km) as (H1 & H2 & _)
  end.
  auto.
Qed.

End Lengths.

(** ** Tag mismatch in decryption *)

Lemma byte_at_tag cs n i :
  (i < 16)%nat -> byte_at cs (n + i) = byte_at (firstn 16 (skipn n cs)) i.
Proof.
  intros Hi. unfold byte_at. rewrite nth_firstn.
  destruct (Nat.ltb_spec i 16); [ | lia ].
  rewrite nth_skipn. reflexivity.
Qed.

Lemma compare_tag_bytes st cs clen :
  is_block st = true -> is_block (firstn 16 (skipn (clen - 16) cs)) = true ->
  RomulusT.compare_tag st cs clen =
  fold_left (fun tmp d => u8 (Z.lor tmp d))
            (xor_bytes st (firstn 16 (skipn (clen - 16) cs))) 0.
Proof.
  intros H1 H2.
  unfold RomulusT.compare_tag, TAGBYTES. cbn [seq fold_left].
  rewrite !byte_at_tag by lia.
  set (tag := firstn 16 (skipn (clen - 16) cs)) in *. clearbody tag.
  destruct_block H1. destruct_block H2.
  unfold byte_at. cbn [nth xor_bytes fold_left]. reflexivity.
Qed.

Lemma compare_tag_zero st cs clen :
  is_block st = true -> is_block (firstn 16 (skipn (clen - 16) cs)) = true ->
  RomulusT.compare_tag st cs clen = 0 <-> st = firstn 16 (skipn (clen - 16) cs).
Proof.
  intros H1 H2. rewrite compare_tag_bytes by assumption.
  assert (Hd := is_block_xor _ _ H1 H2).
  apply is_block_inv in Hd. destruct Hd as [_ Hd].
  destruct (fold_or_bytes u8 _ u8_id Hd 0 eq_refl) as [-> _].
  rewrite fold_lor_zero, xor_bytes_zero.
  - tauto.
  - apply is_block_inv in H1, H2. destruct H1, H2. congruence.
Qed.

Lemma accumulate_diff_firstn st st_m p :
  accumulate_diff st st_m p = accumulate_diff st st_m (firstn 16 p).
Proof.
  unfold accumulate_diff, TAGBYTES. cbn [seq fold_left].
  rewrite <- !(byte_at_tag p 0) by lia. reflexivity.
Qed.

(** Claim C2, amended.  For a ciphertext of at least 16 bytes whose last 16
    bytes are the supplied tag:
    - Romulus-T recomputes the tag over the associated data and the
      ciphertext before it decrypts.  When the recomputed tag differs from
      the supplied one the call returns -1, the length stored through [mlen]
      is [clen - 16], and the plaintext array is as the caller passed it.
    - Romulus-M decrypts before it verifies.  The call returns 0 exactly
      when the tag recomputed over the associated data and the decrypted
      message equals the supplied one; whether it does or not, the
      [clen - 16] bytes of the message pass are in the plaintext array when
      the call returns, and they are the same whatever the array held. *)
Theorem decrypt_tag_mismatch {C : Skinny128} {T : RomulusT}
    (ms0 : list Z) (mlen0 : nat) (cs : list Z) (clen : nat)
    (ads : list Z) (adlen : nat) (npubs : list Z) (npubs2 ks : list (Z * Z)) :
  cipher_blocks C ->
  (16 <= clen <= length cs)%nat ->
  let mlen := (clen - 16)%nat in
  let tag := firstn 16 (skipn mlen cs) in
  is_block tag = true ->
  (* Romulus-T: verify, then decrypt *)
  (is_block (RomulusT.recomputed_tag cs mlen ads adlen npubs2 ks) = true ->
   RomulusT.recomputed_tag cs mlen ads adlen npubs2 ks <> tag ->
   RomulusT.crypto_aead_decrypt_shared ms0 mlen0 cs clen ads adlen npubs2 ks
     = mkout (-1) mlen ms0) /\
  (* Romulus-M: decrypt, then verify *)
  (let r := RomulusM.crypto_aead_decrypt_shared ms0 mlen0 cs clen ads adlen npubs ks in
   let s := fst (RomulusM.decrypt_passes ms0 cs mlen ads adlen npubs ks) in
   (ret r = 0 <-> snd (RomulusM.romulusm_generate_tag s) = tag) /\
   exists out, length out = mlen /\
     outbuf r = write_bytes ms0 0 out /\
     forall b, snd (RomulusM.decrypt_passes b cs mlen ads adlen npubs ks)
               = write_bytes b 0 out).
Proof.
  intros HC Hlen mlen tag Htag. split.
  - intros Hb Hne.
    unfold RomulusT.crypto_aead_decrypt_shared, TAGBYTES.
    destruct (Nat.ltb_spec clen 16); [ lia | ].
    destruct (shares_to_bytearr_2 ks), (shares_to_bytearr_2 npubs2).
    fold mlen.
    destruct (Z.eqb_spec (RomulusT.compare_tag (RomulusT.recomputed_tag cs mlen ads adlen npubs2 ks) cs clen) 0)
      as [Hz|Hnz]; [ | reflexivity ].
    exfalso. apply Hne. apply compare_tag_zero in Hz; assumption.
  - cbv zeta.
    unfold RomulusM.crypto_aead_decrypt_shared, TAGBYTES.
    destruct (Nat.ltb_spec clen 16); [ lia | ].
    fold mlen.
    unfold RomulusM.decrypt_passes.
    destruct (shares_to_bytearr_2 ks) as [k km].
    destruct (tk_schedule_23 npubs k km) as [r23 r3m].
    set (s1 := mkctx _ _ _ r23 r3m).
    assert (Hout := M_process_msg_length HC cs mlen s1 DECRYPT_MODE ltac:(lia)).
    destruct (RomulusM.romulusm_process_msg cs mlen s1 DECRYPT_MODE) as [s2 out].
    cbn [snd fst] in *.
    set (sF := RomulusM.romulusm_process_ad _ _ _ _ _ _ _ _).
    destruct (M_process_ad_blocks HC (RomulusM.romulusm_init s2) ads adlen
                (write_bytes ms0 0 out) mlen npubs k km) as [B1 B2].
    fold sF in B1, B2.
    unfold RomulusM.romulusm_verify_tag, RomulusM.romulusm_generate_tag, verify_tag, generate_tag.
    cbn [snd fst ret outbuf].
    split.
    + rewrite !G_bytes by assumption.
      rewrite accumulate_diff_firstn. fold tag.
      destruct (accumulate_diff_zero (map G_byte (state sF)) (map G_byte (state_m sF)) tag)
        as [_ Hz]; auto using is_block_G.
    + exists out. split; [assumption|]. split; [reflexivity|].
      intros b. reflexivity.
Qed.

Lemma decrypt_tag_mismatch_witness :
  RomulusT.crypto_aead_decrypt_shared (T := Toy.core_t)
      [0x55] 0 (0 :: zeros 16) 17 [] 0
      [(1, 2); (3, 4); (5, 6); (7, 8)] [(1, 2); (3, 4); (5, 6); (7, 8)]
    = mkout (-1) 1 [0x55].
Proof.
  apply (proj1 (decrypt_tag_mismatch (C := Toy.cipher) (T := Toy.core_t)
                  [0x55] 0%nat (0 :: zeros 16) 17%nat [] 0%nat (zeros 16)
                  [(1, 2); (3, 4); (5, 6); (7, 8)] [(1, 2); (3, 4); (5, 6); (7, 8)]
                  toy_cipher_blocks ltac:(cbn; lia) eq_refl)).
  - reflexivity.
  - vm_compute. discriminate.
Defined.

(** Romulus-M on a one-byte ciphertext followed by an all-zero tag: the
    recomputed tag is not the supplied one and the call returns 143, not 0;
    the plaintext array, which held [0x55], holds the decrypted byte 1. *)
Lemma decrypt_M_overwrites_before_verifying :
  let ks := [(1, 2); (3, 4); (5, 6); (7, 8)] in
  let cs := 0 :: zeros 16 in
  let r := RomulusM.crypto_aead_decrypt_shared (C := Toy.cipher)
             [0x55] 0 cs 17 [] 0 (zeros 16) ks in
  snd (RomulusM.romulusm_generate_tag
         (fst (RomulusM.decrypt_passes (C := Toy.cipher)
                 [0x55] cs 1 [] 0 (zeros 16) ks)))
    = [131; 0; 0; 0; 0; 0; 0; 143; 0; 0; 0; 0; 0; 0; 0; 128] /\
  firstn 16 (skipn 1 cs) = zeros 16 /\
  ret r = 143 /\ outbuf r = [0x01].
Proof. vm_compute. repeat split. Qed.

(** ** The block counter *)

(** Claim C9.  For every 16-byte [tk1], [UPDATE_CTR] leaves the domain byte
    [tk1[7]] and the bytes [tk1[8..15]] as they were, and [tk1] is still 16
    bytes: only the seven counter bytes [tk1[0..6]] can change. *)
Theorem UPDATE_CTR_frame (tk1 : list Z) :
  is_block tk1 = true ->
  byte_at (Macros.UPDATE_CTR tk1) 7 = byte_at tk1 7 /\
  skipn 8 (Macros.UPDATE_CTR tk1) = skipn 8 tk1 /\
  is_block (Macros.UPDATE_CTR tk1) = true.
Proof.
  intros H. split; [ | split; [ | apply UPDATE_CTR_is_block; exact H ] ].
  - destruct_block H.
    rewrite (is_u8_land b Hb), (is_u8_land b0 Hb0), (is_u8_land b1 Hb1),
      (is_u8_land b2 Hb2), (is_u8_land b3 Hb3), (is_u8_land b4 Hb4),
      (is_u8_land b5 Hb5), (is_u8_land b6 Hb6).
    apply UPDATE_CTR_byte7.
  - destruct_block H. reflexivity.
Qed.

Lemma UPDATE_CTR_frame_witness :
  let tk1 := [1; 2; 3; 4; 5; 6; 0x87; 0x2C; 8; 9; 10; 11; 12; 13; 14; 15] in
  byte_at (Macros.UPDATE_CTR tk1) 7 = byte_at tk1 7 /\
  skipn 8 (Macros.UPDATE_CTR tk1) = skipn 8 tk1 /\
  is_block (Macros.UPDATE_CTR tk1) = true.
Proof. apply UPDATE_CTR_frame. reflexivity. Defined.





(** ** Packing bytes into words *)

Lemma set_word_length ms i v : length (set_word ms i v) = length ms.
Proof.
  revert i. induction ms as [|h t IH]; intros [|i]; cbn; try reflexivity.
  now rewrite IH.
Qed.

Lemma word_at_set_word_same ms i v :
  (i < length ms)%nat -> word_at (set_word ms i v) i = v.
Proof.
  unfold word_at. revert i.
  induction ms as [|h t IH]; intros [|i] H; cbn in *; try lia; try reflexivity.
  apply IH. lia.
Qed.

Lemma word_at_set_word_other ms i j v :
  i <> j -> word_at (set_word ms i v) j = word_at ms j.
Proof.
  unfold word_at. revert i j.
  induction ms as [|h t IH]; intros [|i] [|j] H; cbn; try reflexivity;
    try contradiction.
  apply IH. congruence.
Qed.

Lemma set_words_frame (f : list Z -> nat -> Z) l ms j :
  ~ In j l ->
  word_at (fold_left (fun ms i => set_word ms i (f ms i)) l ms) j = word_at ms j /\
  length (fold_left (fun ms i => set_word ms i (f ms i)) l ms) = length ms.
Proof.
  revert ms. induction l as [|i l IH]; intros ms Hj; cbn [fold_left].
  - split; reflexivity.
  - destruct (IH (set_word ms i (f ms i))) as [H1 H2].
    { intros Hin. apply Hj. now right. }
    rewrite H1, H2, set_word_length. split; [ | reflexivity ].
    apply word_at_set_word_other. intros ->. apply Hj. now left.
Qed.

Lemma pack_full_words_frame m ms j :
  (length m / 4 <= j)%nat ->
  word_at (pack_full_words m ms) j = word_at ms j /\
  length (pack_full_words m ms) = length ms.
Proof.
  intros Hj. unfold pack_full_words.
  apply (set_words_frame
           (fun _ i =>
              Z.lor (Z.lor (Z.lor (u32 (Z.shiftl (byte_at m (i * 4 + 0)) 0))
                                  (u32 (Z.shiftl (byte_at m (i * 4 + 1)) 8)))
                           (u32 (Z.shiftl (byte_at m (i * 4 + 2)) 16)))
                    (u32 (Z.shiftl (byte_at m (i * 4 + 3)) 24)))).
  rewrite in_seq. lia.
Qed.

(** Claim C10, as the code has it.  For an input of bytes whose length is
    not a multiple of 4, packed into an array that has the words [len/4] and
    [len/4 + 1]: the word at index [len/4] ends as the bitwise or of what
    that word held when the function was entered and of the trailing
    [len mod 4] bytes in little-endian order; the word that is set to zero
    is the one at index [len/4 + 1]. *)
Theorem pack_bytes_last_word (m ms : list Z) :
  is_bytes m = true ->
  (length m mod 4 <> 0)%nat ->
  (length m / 4 + 1 < length ms)%nat ->
  let q := (length m / 4)%nat in
  word_at (pack_bytes m ms) q = Z.lor (word_at ms q) (le_lor (skipn (4 * q) m)) /\
  word_at (pack_bytes m ms) (q + 1) = 0.
Proof.
  intros Hm Hr Hlen q.
  unfold pack_bytes.
  destruct (Nat.eqb_spec (length m mod 4) 0) as [E|_]; [ contradiction | ].
  fold q.
  destruct (pack_full_words_frame m ms q (Nat.le_refl _)) as [F1 L1].
  destruct (pack_full_words_frame m ms (q + 1) ltac:(unfold q; lia)) as [_ _].
  set (ms1 := pack_full_words m ms) in *.
  set (ms2 := set_word ms1 (q + 1) 0).
  assert (L2 : length ms2 = length ms) by (unfold ms2; now rewrite set_word_length).
  assert (F2 : word_at ms2 q = word_at ms q).
  { unfold ms2. rewrite word_at_set_word_other by lia. exact F1. }
  assert (Z2 : word_at ms2 (q + 1) = 0).
  { unfold ms2. apply word_at_set_word_same. lia. }
  assert (Hdiv := Nat.div_mod_eq (length m) 4). fold q in Hdiv.
  assert (Hlt := Nat.mod_upper_bound (length m) 4 ltac:(lia)).
  replace (length m - length m mod 4)%nat with (4 * q)%nat by lia.
  set (t := skipn (4 * q) m).
  assert (Ht : length t = (length m mod 4)%nat) by (unfold t; rewrite length_skipn; lia).
  assert (Hbyte : forall i, byte_at m (4 * q + i) = nth i t 0).
  { intros i. unfold byte_at, t. now rewrite nth_skipn. }
  assert (Hbt : Forall (fun x => is_u8 x = true) t).
  { apply Forall_forall. intros x Hx. unfold is_bytes in Hm.
    rewrite forallb_forall in Hm. apply Hm.
    unfold t in Hx. rewrite <- (firstn_skipn (4 * q) m). apply in_or_app. now right. }
  clearbody t ms2 ms1.
  destruct (length m mod 4)%nat as [|[|[|[|r]]]] eqn:Er; try lia; clear Hlt;
    destruct t as [|b0 [|b1 [|b2 [|b3 t]]]]; try discriminate Ht;
    inv_Forall Hbt;
    cbn [seq fold_left]; rewrite !Hbyte; cbn [nth];
    repeat (rewrite ?word_at_set_word_same, ?set_word_length by (rewrite ?set_word_length; lia);
            rewrite ?word_at_set_word_other by lia);
    rewrite F2, Z2; (split; [ | reflexivity ]);
    cbn [le_lor Z.of_nat Z.mul Pos.mul Pos.of_succ_nat Pos.succ];
    rewrite !u32_land, Z.shiftl_0_l, Z.lor_0_r.
  - rewrite (is_u8_land _ Hb). Z.bitblast.
  - rewrite (is_u8_land _ Hb), (is_u8_land _ Hb0). Z.bitblast.
  - rewrite Z.shiftl_lor, Z.shiftl_shiftl by lia. change (8 + 8) with 16.
    rewrite (is_u8_land _ Hb), (is_u8_land _ Hb0), (is_u8_land _ Hb1). Z.bitblast.
Qed.

Lemma pack_bytes_last_word_witness :
  word_at (pack_bytes [1; 2; 3; 4; 5] [7; 0xFFFFFF00; 9]) 1
    = Z.lor 0xFFFFFF00 (le_lor [5]) /\
  word_at (pack_bytes [1; 2; 3; 4; 5] [7; 0xFFFFFF00; 9]) 2 = 0.
Proof.
  apply (pack_bytes_last_word [1; 2; 3; 4; 5] [7; 0xFFFFFF00; 9]).
  - reflexivity.
  - cbn. lia.
  - cbn. lia.
Defined.

(** An array that does not hold zeros when the function is entered: after
    packing one byte [0x01], word 0 is [0xAABBCC01] and not [0x00000001];
    after packing five bytes, word 1 is [0xFFFFFF05] and not [0x00000005].
    The word set to zero is the one after. *)
Example pack_bytes_stale_word :
  pack_bytes [0x01] [0xAABBCC00; 0x11111111] = [0xAABBCC01; 0] /\
  pack_bytes [1; 2; 3; 4; 5] [7; 0xFFFFFF00; 9] = [0x04030201; 0xFFFFFF05; 0].
Proof. vm_compute. split; reflexivity. Qed.

(** ** Decryption inverts encryption *)

(** *** Bytes of buffers *)

Lemma is_bytes_Forall b : is_bytes b = true <-> Forall (fun x => is_u8 x = true) b.
Proof. unfold is_bytes. rewrite forallb_forall, Forall_forall. tauto. Qed.

Lemma is_bytes_split n b :
  is_bytes b = is_bytes (firstn n b) && is_bytes (skipn n b).
Proof.
  unfold is_bytes. rewrite <- forallb_app, firstn_skipn. reflexivity.
Qed.

Lemma is_bytes_firstn n b : is_bytes b = true -> is_bytes (firstn n b) = true.
Proof. rewrite (is_bytes_split n b), andb_true_iff. tauto. Qed.

Lemma is_bytes_skipn n b : is_bytes b = true -> is_bytes (skipn n b) = true.
Proof. rewrite (is_bytes_split n b), andb_true_iff. tauto. Qed.

Lemma is_bytes_app a b : is_bytes a = true -> is_bytes b = true -> is_bytes (a ++ b) = true.
Proof. unfold is_bytes. rewrite forallb_app. intros -> ->. reflexivity. Qed.

Lemma is_bytes_zeros n : is_bytes (zeros n) = true.
Proof. induction n; cbn; auto. Qed.

Lemma is_block_bytes b : is_block b = true -> is_bytes b = true.
Proof. unfold is_block. rewrite andb_true_iff. tauto. Qed.

Lemma is_block_of_bytes b : length b = 16%nat -> is_bytes b = true -> is_block b = true.
Proof. unfold is_block, BLOCKBYTES. intros -> ->. reflexivity. Qed.

Lemma is_block_length b : is_block b = true -> length b = 16%nat.
Proof. intros H. apply is_block_inv in H. tauto. Qed.

Lemma is_block_firstn p : is_bytes p = true -> (16 <= length p)%nat -> is_block (firstn 16 p) = true.
Proof.
  intros Hb Hl. apply is_block_of_bytes; [ rewrite length_firstn; lia | now apply is_bytes_firstn ].
Qed.

Lemma is_block_second p :
  is_bytes p = true -> (32 <= length p)%nat -> is_block (firstn 16 (skipn 16 p)) = true.
Proof.
  intros Hb Hl. apply is_block_firstn; [ now apply is_bytes_skipn | rewrite length_skipn; lia ].
Qed.

Lemma is_block_pad p n :
  is_bytes p = true -> (n <= length p)%nat -> (n <= 15)%nat -> is_block (pad_block p n) = true.
Proof.
  intros Hb Hl Hn. unfold pad_block. apply is_block_of_bytes.
  - rewrite !length_app, length_firstn. unfold zeros. rewrite repeat_length. cbn [length]. lia.
  - apply is_bytes_app; [ now apply is_bytes_firstn | ].
    apply is_bytes_app; [ apply is_bytes_zeros | ]. cbn. now rewrite is_u8_u8.
Qed.

Lemma is_block_partial p n :
  is_bytes p = true -> (n <= length p)%nat -> (n <= 15)%nat -> is_block (partial_block p n) = true.
Proof.
  intros Hb Hl Hn. unfold partial_block. apply is_block_xor.
  - apply is_block_of_bytes.
    + rewrite length_app, length_firstn. unfold zeros. rewrite repeat_length. lia.
    + apply is_bytes_app; [ now apply is_bytes_firstn | apply is_bytes_zeros ].
  - apply is_block_of_bytes; [ reflexivity | ].
    apply is_bytes_app; [ apply is_bytes_zeros | ]. cbn. now rewrite is_u8_u8.
Qed.

Lemma is_block_set_byte b i v :
  is_block b = true -> is_u8 v = true -> is_block (set_byte b i v) = true.
Proof.
  intros Hb Hv. apply is_block_inv in Hb. destruct Hb as [Hl Hf].
  assert (H : length (set_byte b i v) = length b /\ Forall (fun x => is_u8 x = true) (set_byte b i v)).
  { clear Hl. revert i. induction Hf as [|x t Hx Ht IH]; intros i; cbn.
    - split; [reflexivity | constructor].
    - destruct i; cbn.
      + split; [reflexivity | constructor; assumption].
      + destruct (IH i) as [IH1 IH2]. split; [ now rewrite IH1 | constructor; assumption ]. }
  destruct H. apply is_block_intro; [ congruence | assumption ].
Qed.

Lemma is_block_zeros : is_block (zeros 16) = true.
Proof. reflexivity. Qed.

Lemma is_block_tk1_init : is_block tk1_init = true.
Proof. reflexivity. Qed.

(** *** Exclusive or of buffers *)

Lemma xor_bytes_nilpotent a : Forall (fun x => is_u8 x = true) a -> xor_bytes a a = zeros (length a).
Proof. induction 1; cbn; [reflexivity|]. rewrite Z.lxor_nilpotent. f_equal. assumption. Qed.

Lemma xor_bytes_zeros_r a n : (length a <= n)%nat -> xor_bytes a (zeros n) = a.
Proof.
  revert n. induction a as [|x a IH]; intros [|n] Hl; cbn in *; try reflexivity; try lia.
  rewrite Z.lxor_0_r. f_equal. apply IH. lia.
Qed.

Lemma xor_bytes_cancel a b :
  length a = length b -> xor_bytes (xor_bytes a b) b = a.
Proof.
  revert b. induction a as [|x a IH]; intros [|y b] Hl; try discriminate; cbn; [reflexivity|].
  rewrite Z.lxor_assoc, Z.lxor_nilpotent, Z.lxor_0_r. f_equal. apply IH. now injection Hl.
Qed.

(** Moving a block from one side of an equation of exclusive ors. *)
Lemma xor_bytes_swap a b c :
  xor_bytes (xor_bytes a c) b = xor_bytes (xor_bytes a b) c.
Proof. rewrite !xor_bytes_assoc. f_equal. apply xor_bytes_comm. Qed.

Lemma G_byte_linear a b : G_byte (Z.lxor a b) = Z.lxor (G_byte a) (G_byte b).
Proof.
  unfold G_byte, G_int. rewrite !u8_land. change 128 with (Z.shiftl 1 7).
  bitblast_neg.
Qed.

Lemma map_G_byte_xor a b :
  map G_byte (xor_bytes a b) = xor_bytes (map G_byte a) (map G_byte b).
Proof.
  revert b. induction a as [|x a IH]; intros [|y b]; cbn; try reflexivity.
  now rewrite G_byte_linear, IH.
Qed.

Lemma out_byte_value x s sm :
  out_byte x s sm = Z.lxor (u8 x) (G_byte (Z.lxor s sm)).
Proof.
  unfold out_byte, G_byte, G_int. rewrite !u8_land. change 128 with (Z.shiftl 1 7).
  bitblast_neg.
Qed.

(** *** The steps of the core on the first share *)

Lemma xor_state_bytes {C : Skinny128} s p :
  is_block (state s) = true -> is_block (firstn 16 p) = true ->
  xor_state s p = set_state s (xor_bytes (state s) (firstn 16 p)).
Proof.
  intros Hs Hp. unfold xor_state. now rewrite XOR_BLOCK_bytes.
Qed.

Lemma xor_prefix_bytes n st p :
  Forall (fun x => is_u8 x = true) st -> Forall (fun x => is_u8 x = true) p ->
  (n <= length p)%nat -> (n <= length st)%nat ->
  xor_prefix n st p = xor_bytes st (firstn n p ++ zeros (length st - n)).
Proof.
  intros Hst. revert n p. induction Hst as [|x st Hx Hst IH]; intros n p Hp Hn Hl.
  - destruct n; [ reflexivity | cbn in Hl; lia ].
  - destruct n as [|n].
    + cbn [xor_prefix firstn app]. rewrite Nat.sub_0_r.
      symmetry. apply xor_bytes_zeros_r. lia.
    + destruct Hp as [|y p Hy Hp]; [ cbn in Hn; lia | ].
      cbn [xor_prefix firstn app xor_bytes length Nat.sub].
      rewrite u8_id by (apply is_u8_lxor; assumption).
      f_equal. apply IH; [ assumption | cbn in Hn; lia | cbn in Hl; lia ].
Qed.

Lemma set_last_byte st v :
  is_block st = true -> is_u8 v = true ->
  set_byte st 15 (u8 (Z.lxor (byte_at st 15) v)) = xor_bytes st (zeros 15 ++ [v]).
Proof.
  intros H Hv. destruct_block H.
  unfold byte_at. cbn [set_byte nth zeros repeat app xor_bytes].
  rewrite !Z.lxor_0_r. rewrite u8_id by (apply is_u8_lxor; assumption). reflexivity.
Qed.

Lemma xor_partial_bytes {C : Skinny128} s p n :
  is_block (state s) = true -> is_bytes p = true ->
  (n <= length p)%nat -> (n <= 15)%nat ->
  xor_partial s p n = set_state s (xor_bytes (state s) (partial_block p n)).
Proof.
  intros Hs Hp Hl Hn. unfold xor_partial, partial_block.
  assert (Hs' := Hs). apply is_block_inv in Hs'. destruct Hs' as [Hlen Hf].
  rewrite xor_prefix_bytes by (try assumption; try (now apply is_bytes_Forall); lia).
  rewrite Hlen.
  assert (Hb : is_block (firstn n p ++ zeros (16 - n)) = true).
  { apply is_block_of_bytes.
    - rewrite length_app, length_firstn. unfold zeros. rewrite repeat_length. lia.
    - apply is_bytes_app; [ now apply is_bytes_firstn | apply is_bytes_zeros ]. }
  rewrite set_last_byte by (auto using is_block_xor, is_u8_u8).
  now rewrite xor_bytes_assoc.
Qed.

Lemma xor_bytes_cancel_l c z :
  length c = length z -> xor_bytes c (xor_bytes c z) = z.
Proof.
  revert z. induction c as [|x c IH]; intros [|y z] Hl; try discriminate; cbn; [reflexivity|].
  rewrite <- Z.lxor_assoc, Z.lxor_nilpotent, Z.lxor_0_l. f_equal. apply IH. now injection Hl.
Qed.

Lemma xor_bytes_four a b a' b' p :
  length a = length p -> length b = length p ->
  xor_bytes a b = xor_bytes a' b' ->
  xor_bytes b' (xor_bytes a' (xor_bytes b (xor_bytes a p))) = p.
Proof.
  intros La Lb H.
  rewrite <- (xor_bytes_assoc b' a'), (xor_bytes_comm b' a'), <- H.
  rewrite <- (xor_bytes_assoc b a), (xor_bytes_comm b a).
  apply xor_bytes_cancel_l. rewrite xor_bytes_length; congruence.
Qed.

Lemma firstn_block_app (y X : list Z) : length y = 16%nat -> firstn 16 (y ++ X) = y.
Proof.
  intros H. rewrite firstn_app, H, Nat.sub_diag, firstn_O.
  rewrite app_nil_r. rewrite <- H. apply firstn_all.
Qed.

Lemma skipn_block_app (y X : list Z) : length y = 16%nat -> skipn 16 (y ++ X) = X.
Proof.
  intros H. rewrite skipn_app, H, Nat.sub_diag, skipn_O.
  rewrite <- H, skipn_all. reflexivity.
Qed.

Lemma firstn_firstn_skipn (A : Type) a b (l : list A) :
  firstn a l ++ firstn b (skipn a l) = firstn (a + b) l.
Proof.
  revert l. induction a as [|a IH]; intros l; cbn; [reflexivity|].
  destruct l; cbn; [ now rewrite firstn_nil | ]. f_equal. apply IH.
Qed.

(** Decrypting the last block of the ciphertext that [last_block_in]
    produced, from a state with the same unmasked value. *)
Lemma last_block_round_trip n :
  forall st stm st' stm' m X,
    xor_bytes st stm = xor_bytes st' stm' ->
    length st = length stm -> length st' = length stm' -> length st = length st' ->
    Forall (fun x => is_u8 x = true) st -> Forall (fun x => is_u8 x = true) stm ->
    Forall (fun x => is_u8 x = true) m ->
    (n <= length m)%nat -> (n <= length st)%nat ->
    snd (last_block_in n st' stm' (snd (last_block_in n st stm m) ++ X)) = firstn n m.
Proof.
  induction n as [|n IH]; intros st stm st' stm' m X HU L1 L2 L3 F1 F2 Fm Hm Hs.
  - reflexivity.
  - destruct st as [|s st]; [ cbn in Hs; lia | ].
    destruct stm as [|sm stm]; [ discriminate | ].
    destruct st' as [|s' st']; [ discriminate | ].
    destruct stm' as [|sm' stm']; [ discriminate | ].
    destruct m as [|x m]; [ cbn in Hm; lia | ].
    cbn [last_block_in].
    destruct (last_block_in n st stm m) as [st1 o] eqn:E1. cbn [snd app].
    cbn [last_block_in].
    destruct (last_block_in n st' stm' (o ++ X)) as [st1' o'] eqn:E2. cbn [snd firstn].
    cbn [xor_bytes] in HU. injection HU as Hh Ht.
    inversion F1; inversion F2; inversion Fm; subst.
    f_equal.
    + rewrite !out_byte_value, <- Hh.
      set (g := G_byte (Z.lxor s sm)).
      assert (Hg : is_u8 g = true) by apply is_u8_u8.
      rewrite (u8_id x) by assumption.
      rewrite u8_id by (apply is_u8_lxor; assumption).
      rewrite Z.lxor_assoc, Z.lxor_nilpotent. apply Z.lxor_0_r.
    + change o' with (snd (st1', o')). rewrite <- E2.
      change o with (snd (st1, o)). rewrite <- E1.
      cbn [length] in *.
      apply IH; auto; lia.
Qed.

(** The last partial block of Romulus-N: [last_block_out] on what
    [last_block_in] produced, from a state with the same unmasked value,
    gives the input back and leaves the same unmasked state. *)
Lemma last_block_in_out n :
  forall st stm st' stm' m X,
    xor_bytes st stm = xor_bytes st' stm' ->
    length st = length stm -> length st' = length stm' -> length st = length st' ->
    Forall (fun x => is_u8 x = true) st -> Forall (fun x => is_u8 x = true) stm ->
    Forall (fun x => is_u8 x = true) st' -> Forall (fun x => is_u8 x = true) stm' ->
    Forall (fun x => is_u8 x = true) m ->
    (n <= length m)%nat -> (n <= length st)%nat ->
    let '(stE, o) := last_block_in n st stm m in
    let '(stD, o') := last_block_out n st' stm' (o ++ X) in
    o' = firstn n m /\ length o = n /\
    xor_bytes stE stm = xor_bytes stD stm' /\
    length stE = length st /\ length stD = length st' /\
    Forall (fun x => is_u8 x = true) stE /\ Forall (fun x => is_u8 x = true) stD.
Proof.
  induction n as [|n IH]; intros st stm st' stm' m X HU L1 L2 L3 F1 F2 F3 F4 Fm Hm Hs.
  - cbn. repeat split; auto.
  - destruct st as [|s st]; [ cbn in Hs; lia | ].
    destruct stm as [|sm stm]; [ discriminate | ].
    destruct st' as [|s' st']; [ discriminate | ].
    destruct stm' as [|sm' stm']; [ discriminate | ].
    destruct m as [|x m]; [ cbn in Hm; lia | ].
    cbn [xor_bytes] in HU. injection HU as Hh Ht.
    inversion F1; inversion F2; inversion F3; inversion F4; inversion Fm; subst.
    cbn [length] in *.
    specialize (IH st stm st' stm' m X Ht ltac:(lia) ltac:(lia) ltac:(lia)
                  ltac:(assumption) ltac:(assumption) ltac:(assumption)
                  ltac:(assumption) ltac:(assumption) ltac:(lia) ltac:(lia)).
    cbn [last_block_in].
    destruct (last_block_in n st stm m) as [st1 o]. cbn [app].
    cbn [last_block_out].
    destruct (last_block_out n st' stm' (o ++ X)) as [st1' o'].
    destruct IH as (I1 & I2 & I3 & I4 & I5 & I6 & I7).
    assert (Ho : out_byte (out_byte x s sm) s' sm' = x).
    { rewrite !out_byte_value, <- Hh.
      set (g := G_byte (Z.lxor s sm)).
      assert (Hg : is_u8 g = true) by apply is_u8_u8.
      rewrite (u8_id x) by assumption.
      rewrite u8_id by (apply is_u8_lxor; assumption).
      rewrite Z.lxor_assoc, Z.lxor_nilpotent. apply Z.lxor_0_r. }
    rewrite Ho. cbn [firstn length xor_bytes].
    rewrite (u8_id x) by assumption.
    rewrite !u8_id by (apply is_u8_lxor; assumption).
    split; [ now f_equal | ]. split; [ now f_equal | ].
    split.
    { f_equal; [ | assumption ].
      rewrite !(Z.lxor_comm _ x), !Z.lxor_assoc. now f_equal. }
    split; [ now f_equal | ]. split; [ now f_equal | ].
    split; constructor; auto using is_u8_lxor.
Qed.

Ltac splits := repeat match goal with |- _ /\ _ => split end.

Ltac ctx_simpl :=
  unfold same_unmasked, unmasked, tables_of, update_ctr, set_domain, set_tk1, set_state in *;
  cbn [tk1 state state_m rtk rtk_m] in *.

Section Relational.
Context {C : Skinny128} (E : list Z -> list Z -> list Z -> list Z -> list Z).
Hypothesis HC : cipher_blocks C.
Hypothesis HM : masking_correct C E.
Variables k km k' km' : list Z.
Hypothesis Hk : is_block k = true.
Hypothesis Hkm : is_block km = true.
Hypothesis Hk' : is_block k' = true.
Hypothesis Hkm' : is_block km' = true.
Hypothesis Hkey : xor_bytes k km = xor_bytes k' km'.

Lemma same_update_ctr s s' :
  same_unmasked s s' -> same_unmasked (update_ctr s) (update_ctr s').
Proof.
  intros (H1 & H2 & H3 & H4 & H5 & H6 & H7).
  ctx_simpl. rewrite <- H1.
  repeat split; auto using UPDATE_CTR_is_block.
Qed.

Lemma same_set_domain d s s' :
  is_u8 d = true ->
  same_unmasked s s' -> same_unmasked (set_domain s d) (set_domain s' d).
Proof.
  intros Hd (H1 & H2 & H3 & H4 & H5 & H6 & H7).
  ctx_simpl. unfold Macros.SET_DOMAIN. rewrite <- H1.
  repeat split; auto using is_block_set_byte.
Qed.

Lemma same_set_tk1 t s s' :
  is_block t = true ->
  same_unmasked s s' -> same_unmasked (set_tk1 s t) (set_tk1 s' t).
Proof.
  intros Ht (H1 & H2 & H3 & H4 & H5 & H6 & H7).
  ctx_simpl. repeat split; auto.
Qed.

Lemma same_xor_block D s s' :
  is_block D = true ->
  same_unmasked s s' ->
  same_unmasked (set_state s (xor_bytes (state s) D))
                (set_state s' (xor_bytes (state s') D)).
Proof.
  intros HD (H1 & H2 & H3 & H4 & H5 & H6 & H7).
  ctx_simpl.
  repeat split; auto using is_block_xor.
  rewrite (xor_bytes_swap (state s)), (xor_bytes_swap (state s')). now rewrite H7.
Qed.

Lemma same_xor_state p s s' :
  is_block (firstn 16 p) = true ->
  same_unmasked s s' -> same_unmasked (xor_state s p) (xor_state s' p).
Proof.
  intros Hp H. assert (H' := H). destruct H' as (H1 & H2 & H3 & H4 & H5 & H6 & H7).
  rewrite !xor_state_bytes by assumption. now apply same_xor_block.
Qed.

Lemma same_xor_partial p n s s' :
  is_bytes p = true -> (n <= length p)%nat -> (n <= 15)%nat ->
  same_unmasked s s' -> same_unmasked (xor_partial s p n) (xor_partial s' p n).
Proof.
  intros Hp Hl Hn H. assert (H' := H). destruct H' as (H1 & H2 & H3 & H4 & H5 & H6 & H7).
  rewrite !xor_partial_bytes by assumption.
  apply same_xor_block; auto using is_block_partial.
Qed.

Lemma same_schedule_123 t2 s s' :
  is_block t2 = true ->
  same_unmasked s s' ->
  same_unmasked (schedule_123_encrypt s t2 k km) (schedule_123_encrypt s' t2 k' km') /\
  tables_of (schedule_123_encrypt s t2 k km) t2 k km /\
  tables_of (schedule_123_encrypt s' t2 k' km') t2 k' km'.
Proof.
  intros Ht (H1 & H2 & H3 & H4 & H5 & H6 & H7).
  assert (M1 := HM (state s) (state_m s) (tk1 s) t2 k km H3 H4 H2 Ht Hk Hkm).
  assert (M2 := HM (state s') (state_m s') (tk1 s') t2 k' km' H5 H6
                   ltac:(now rewrite <- H1) Ht Hk' Hkm').
  unfold schedule_123_encrypt, tables_of, same_unmasked, unmasked in *.
  unfold tk_schedule_123, tk_schedule_23 in *.
  match goal with |- context [skinny128_384_plus ?a ?b ?c ?d ?e] =>
    destruct (HC a b c d e) as [B1 B2];
    destruct (skinny128_384_plus a b c d e) as [x y] end.
  match goal with |- context [skinny128_384_plus ?a ?b ?c ?d ?e] =>
    destruct (HC a b c d e) as [B3 B4];
    destruct (skinny128_384_plus a b c d e) as [x' y'] end.
  cbn [fst snd tk1 state state_m rtk rtk_m] in *. repeat split; auto.
  rewrite M1, M2, H1, H7, Hkey. reflexivity.
Qed.

Lemma same_schedule_1 npub s s' :
  is_block npub = true ->
  tables_of s npub k km -> tables_of s' npub k' km' ->
  same_unmasked s s' ->
  same_unmasked (schedule_1_encrypt s) (schedule_1_encrypt s') /\
  tables_of (schedule_1_encrypt s) npub k km /\
  tables_of (schedule_1_encrypt s') npub k' km'.
Proof.
  intros Hn T1 T2 (H1 & H2 & H3 & H4 & H5 & H6 & H7).
  assert (M1 := HM (state s) (state_m s) (tk1 s) npub k km H3 H4 H2 Hn Hk Hkm).
  assert (M2 := HM (state s') (state_m s') (tk1 s') npub k' km' H5 H6
                   ltac:(now rewrite <- H1) Hn Hk' Hkm').
  unfold schedule_1_encrypt, tables_of, same_unmasked, unmasked in *.
  unfold tk_schedule_123, tk_schedule_23, tk_schedule_1 in *.
  injection T1 as T1a T1b. injection T2 as T2a T2b.
  rewrite <- T1a, <- T1b in M1. rewrite <- T2a, <- T2b in M2.
  match goal with |- context [skinny128_384_plus ?a ?b ?c ?d ?e] =>
    destruct (HC a b c d e) as [B1 B2];
    destruct (skinny128_384_plus a b c d e) as [x y] end.
  match goal with |- context [skinny128_384_plus ?a ?b ?c ?d ?e] =>
    destruct (HC a b c d e) as [B3 B4];
    destruct (skinny128_384_plus a b c d e) as [x' y'] end.
  cbn [fst snd tk1 state state_m rtk rtk_m] in *. repeat split; auto; congruence.
Qed.

Lemma same_schedule_123_rel t2 s s' :
  is_block t2 = true -> same_unmasked s s' ->
  same_unmasked (schedule_123_encrypt s t2 k km) (schedule_123_encrypt s' t2 k' km').
Proof. intros Ht H. now apply same_schedule_123. Qed.

(** The loop over the double blocks keeps the two runs together. *)
Lemma same_double_blocks fuel s s' p len :
  same_unmasked s s' -> is_bytes p = true -> (len <= length p)%nat ->
  let '(s1, p1, l1) := double_blocks fuel s p len k km in
  let '(s1', p1', l1') := double_blocks fuel s' p len k' km' in
  same_unmasked s1 s1' /\ p1' = p1 /\ l1' = l1 /\
  is_bytes p1 = true /\ (l1 <= length p1)%nat /\
  ((len <= fuel)%nat -> (l1 <= 32)%nat) /\
  (l1 <= len)%nat /\ ((0 < len)%nat -> (0 < l1)%nat).
Proof.
  revert s s' p len. induction fuel as [|fuel IH]; intros s s' p len HR Hp Hl.
  - cbn [double_blocks]. split; [assumption|]. repeat split; auto; lia.
  - cbn [double_blocks].
    destruct (Nat.ltb_spec 32 len) as [Hlt|Hge].
    + set (t := update_ctr (schedule_123_encrypt (xor_state (update_ctr s) p)
                              (firstn 16 (skipn 16 p)) k km)).
      set (t' := update_ctr (schedule_123_encrypt (xor_state (update_ctr s') p)
                               (firstn 16 (skipn 16 p)) k' km')).
      assert (Ht : same_unmasked t t').
      { apply same_update_ctr, same_schedule_123_rel;
          [ apply is_block_second; [assumption|lia] | ].
        apply same_xor_state; [ apply is_block_firstn; [assumption|lia] | ].
        now apply same_update_ctr. }
      specialize (IH t t' (skipn 32 p) (len - 32)%nat Ht (is_bytes_skipn 32 p Hp)).
      rewrite length_skipn in IH. specialize (IH ltac:(lia)).
      destruct (double_blocks fuel t (skipn 32 p) (len - 32) k km) as [[s1 p1] l1].
      destruct (double_blocks fuel t' (skipn 32 p) (len - 32) k' km') as [[s1' p1'] l1'].
      destruct IH as (I1 & I2 & I3 & I4 & I5 & I6 & I7 & I8).
      split; [assumption|]. repeat split; auto; lia.
    + split; [assumption|]. repeat split; auto; lia.
Qed.

Ltac blocks :=
  first
    [ assumption
    | apply is_u8_u8
    | reflexivity
    | apply is_block_firstn; [ assumption | lia ]
    | apply is_block_second; [ assumption | lia ]
    | apply is_block_pad;
        [ first [ assumption | apply is_bytes_skipn; assumption ]
        | rewrite ?length_skipn; lia | lia ] ].

Ltac same_steps :=
  repeat first
    [ assumption
    | apply same_update_ctr
    | apply same_set_domain; [ blocks | ]
    | apply same_schedule_123_rel; [ blocks | ]
    | apply same_xor_state; [ blocks | ]
    | apply same_xor_partial; [ assumption | lia | lia | ] ].

(** Take the two loops of the goal through [same_double_blocks]. *)
Ltac same_loop :=
  match goal with
  | |- context [double_blocks ?f ?s ?p ?l k km] =>
      match goal with
      | |- context [double_blocks f ?s' p l k' km'] =>
          let L := fresh "L" in
          let Hb := fresh "Hb" in
          let Hl := fresh "Hl" in
          assert (L : same_unmasked s s') by same_steps;
          assert (Hb : is_bytes p = true)
            by (first [ assumption | apply is_bytes_skipn; assumption ]);
          assert (Hl : (l <= length p)%nat) by (rewrite ?length_skipn; lia);
          generalize (same_double_blocks f s s' p l L Hb Hl);
          destruct (double_blocks f s p l k km) as [[? ?] ?];
          destruct (double_blocks f s' p l k' km') as [[? ?] ?];
          intros (? & ? & ? & ? & ? & ? & ? & ?); subst
      end
  end.

Lemma same_process_ad s s' ad adlen m mlen npub :
  same_unmasked s s' ->
  is_bytes ad = true -> is_bytes m = true ->
  (adlen <= length ad)%nat -> (mlen <= length m)%nat ->
  is_block npub = true ->
  same_unmasked (RomulusM.romulusm_process_ad s ad adlen m mlen npub k km)
                (RomulusM.romulusm_process_ad s' ad adlen m mlen npub k' km') /\
  tables_of (RomulusM.romulusm_process_ad s ad adlen m mlen npub k km) npub k km /\
  tables_of (RomulusM.romulusm_process_ad s' ad adlen m mlen npub k' km') npub k' km'.
Proof.
  intros HR Had Hm Hla Hlm Hn.
  unfold RomulusM.romulusm_process_ad.
  cbv zeta.
  same_loop.
  match goal with H : (?l <= ?f)%nat -> (_ <= 32)%nat |- _ => specialize (H (Nat.le_refl _)) end.
  match goal with
  | |- context [(?a =? 32)%nat] =>
      destruct (Nat.eqb_spec a 32);
      [ | destruct (Nat.ltb_spec 16 a);
          [ | destruct (Nat.eqb_spec a 16);
              (destruct (Nat.leb_spec 16 mlen); [ destruct (Nat.ltb_spec 16 mlen) | ]) ] ]
  end.
  all: cbv beta iota.
  all: same_loop.
  all: match goal with H : (?l <= ?f)%nat -> (_ <= 32)%nat |- _ =>
         specialize (H (Nat.le_refl _)) end.
  all: match goal with
       | |- context [(?a =? 32)%nat] =>
           destruct (Nat.eqb_spec a 32);
           [ | destruct (Nat.ltb_spec 16 a);
               [ | destruct (Nat.eqb_spec a 16); [ | destruct (Nat.ltb_spec 0 a) ] ] ]
       end.
  all: apply same_schedule_123; [ assumption | same_steps ].
Qed.

(** [RHO_INV] on the block that [RHO] produced, from a state with the
    same unmasked value, gives the input block back and keeps the two
    runs together. *)
Lemma rho_round_trip s s' z X :
  same_unmasked s s' -> is_block (firstn 16 z) = true ->
  let '(s1, y) := rho_step false ENCRYPT_MODE s z in
  let '(s1', z') := rho_step false DECRYPT_MODE s' (y ++ X) in
  z' = firstn 16 z /\ length y = 16%nat /\ same_unmasked s1 s1'.
Proof.
  intros (H1 & H2 & H3 & H4 & H5 & H6 & H7) Hz.
  rewrite rho_step_RHO by assumption. cbv zeta iota.
  set (p := firstn 16 z) in *.
  assert (G1 := is_block_G _ H3). assert (G2 := is_block_G _ H4).
  assert (G3 := is_block_G _ H5). assert (G4 := is_block_G _ H6).
  set (y := xor_bytes (map G_byte (state_m s)) (xor_bytes (map G_byte (state s)) p)).
  assert (Hy : is_block y = true) by (unfold y; auto using is_block_xor).
  assert (Hf : firstn 16 (y ++ X) = y)
    by (apply firstn_block_app; now apply is_block_length).
  rewrite rho_step_RHO_INV by (rewrite ?Hf; assumption).
  cbv zeta. rewrite Hf.
  assert (Hz' : xor_bytes (map G_byte (state_m s')) (xor_bytes (map G_byte (state s')) y) = p).
  { unfold y. apply xor_bytes_four.
    - rewrite length_map. apply is_block_length in H3, Hz. congruence.
    - rewrite length_map. apply is_block_length in H4, Hz. congruence.
    - rewrite <- !map_G_byte_xor. unfold unmasked in H7. now rewrite H7. }
  rewrite Hz'.
  split; [ reflexivity | ]. split; [ now apply is_block_length | ].
  unfold same_unmasked, unmasked in *. cbn [tk1 state state_m rtk rtk_m].
  repeat split; auto using is_block_xor.
  rewrite (xor_bytes_swap (state s)), (xor_bytes_swap (state s')). now rewrite H7.
Qed.

Lemma rho_step_tables ip mode s p npub ka kb :
  tables_of s npub ka kb -> tables_of (fst (rho_step ip mode s p)) npub ka kb.
Proof.
  unfold tables_of.
  destruct (rho_step_shape ip mode s p) as (a & b & c & ->). cbn. auto.
Qed.

(** The loop of [romulusm_process_msg]: decrypting what the loop encrypted,
    whatever follows it in the input buffer. *)
Lemma M_msg_blocks_round_trip npub fuel :
  forall s s' m len acc acc' X,
    is_block npub = true ->
    same_unmasked s s' ->
    tables_of s npub k km -> tables_of s' npub k' km' ->
    is_bytes m = true -> (len <= length m)%nat ->
    let '(sE, mE, lE, outE) := RomulusM.msg_blocks fuel ENCRYPT_MODE s m len acc in
    exists c,
      outE = acc ++ c /\ mE = skipn (len - lE) m /\ (lE <= len)%nat /\
      is_bytes mE = true /\
      let '(sD, cD, lD, outD) :=
        RomulusM.msg_blocks fuel DECRYPT_MODE s' (c ++ X) len acc' in
      cD = X /\ lD = lE /\ outD = acc' ++ firstn (len - lE) m /\
      same_unmasked sE sD /\
      tables_of sE npub k km /\ tables_of sD npub k' km'.
Proof.
  induction fuel as [|fuel IH]; intros s s' m len acc acc' X Hn HR T1 T2 Hm Hl.
  - cbn [RomulusM.msg_blocks]. exists []. rewrite Nat.sub_diag, !app_nil_r.
    cbn [app firstn skipn]. splits; auto.
  - cbn [RomulusM.msg_blocks].
    destruct (Nat.ltb_spec 16 len) as [Hlt|Hge].
    + destruct (same_schedule_1 npub s s' Hn T1 T2 HR) as (R1 & T1' & T2').
      assert (Hz : is_block (firstn 16 m) = true)
        by (apply is_block_firstn; [assumption|lia]).
      assert (T1'' := rho_step_tables false ENCRYPT_MODE (schedule_1_encrypt s) m npub k km T1').
      destruct (rho_step false ENCRYPT_MODE (schedule_1_encrypt s) m) as [s1 y] eqn:Ey.
      cbn [fst] in T1''.
      specialize (IH (update_ctr s1)).
      (* the run on the ciphertext *)
      assert (Hstep : forall Y,
                 let '(s1', z') := rho_step false DECRYPT_MODE (schedule_1_encrypt s') (y ++ Y) in
                 z' = firstn 16 m /\ length y = 16%nat /\ same_unmasked s1 s1' /\
                 tables_of s1' npub k' km').
      { intros Y.
        assert (Hr := rho_round_trip (schedule_1_encrypt s) (schedule_1_encrypt s') m Y R1 Hz).
        rewrite Ey in Hr.
        assert (T2'' := rho_step_tables false DECRYPT_MODE (schedule_1_encrypt s') (y ++ Y)
                          npub k' km' T2').
        destruct (rho_step false DECRYPT_MODE (schedule_1_encrypt s') (y ++ Y)) as [s1' z'].
        cbn [fst] in T2''. cbv beta iota in Hr.
        destruct Hr as (? & ? & ?). splits; assumption. }
      assert (Hy : length y = 16%nat).
      { specialize (Hstep []). destruct (rho_step _ _ _ _). apply Hstep. }
      specialize (fun s2 R T => IH s2 (skipn 16 m) (len - 16)%nat (acc ++ y)
                                   (acc' ++ firstn 16 m) X Hn R T).
      destruct (RomulusM.msg_blocks fuel ENCRYPT_MODE (update_ctr s1) (skipn 16 m)
                  (len - 16) (acc ++ y)) as [[[sE mE] lE] outE] eqn:EE.
      (* the tail of the ciphertext *)
      assert (Hc : exists c, outE = (acc ++ y) ++ c /\ (lE <= len - 16)%nat).
      { specialize (Hstep []).
        destruct (rho_step false DECRYPT_MODE (schedule_1_encrypt s') (y ++ [])) as [s1' z'].
        destruct Hstep as (_ & _ & R2 & T3).
        specialize (IH (update_ctr s1') (same_update_ctr _ _ R2) T1'' T3
                      (is_bytes_skipn 16 m Hm)).
        rewrite length_skipn in IH. specialize (IH ltac:(lia)).
        destruct IH as (c & Hc1 & _ & Hc3 & _). eauto. }
      destruct Hc as (c & -> & Hle).
      exists (y ++ c). rewrite <- !app_assoc.
      specialize (Hstep (c ++ X)).
      destruct (rho_step false DECRYPT_MODE (schedule_1_encrypt s') (y ++ c ++ X)) as [s1' z'].
      destruct Hstep as (-> & _ & R2 & T3).
      rewrite (skipn_block_app y (c ++ X) Hy).
      specialize (IH (update_ctr s1') (same_update_ctr _ _ R2) T1'' T3
                    (is_bytes_skipn 16 m Hm)).
      rewrite length_skipn in IH. specialize (IH ltac:(lia)).
      destruct IH as (c0 & Hc1 & Hc2 & Hc3 & Hc4 & IH).
      apply app_inv_head in Hc1. subst c0.
      destruct (RomulusM.msg_blocks fuel DECRYPT_MODE (update_ctr s1') (c ++ X)
                  (len - 16) (acc' ++ firstn 16 m)) as [[[sD cD] lD] outD].
      destruct IH as (-> & -> & -> & R3 & T4 & T5).
      rewrite skipn_skipn in Hc2.
      split; [ reflexivity | ].
      split; [ rewrite Hc2; f_equal; lia | ].
      split; [ lia | ]. split; [ assumption | ].
      split; [ reflexivity | ]. split; [ reflexivity | ].
      split; [ | auto ].
      rewrite <- app_assoc. f_equal.
      rewrite firstn_firstn_skipn. f_equal. lia.
    + exists []. rewrite Nat.sub_diag, !app_nil_r.
      cbn [app firstn skipn].
      destruct (Nat.ltb_spec 16 len) as [?|_]; [ lia | ].
      splits; auto.
Qed.

(** [romulusm_process_msg] in [DECRYPT_MODE] on the ciphertext and tag that
    [ENCRYPT_MODE] produced returns the message.  The encrypting run starts
    from a masked state whose unmasked value is the tag; the decrypting run
    masks the tag it reads with its own second share. *)
Lemma M_process_msg_round_trip npub s s' m mlen tag junk :
  is_block npub = true ->
  is_block (state s) = true -> is_block (state_m s) = true ->
  unmasked s = tag ->
  tables_of s npub k km ->
  is_block (state_m s') = true -> tk1 s' = tk1_init ->
  tables_of s' npub k' km' ->
  is_bytes m = true -> (mlen <= length m)%nat ->
  let '(sE, c) := RomulusM.romulusm_process_msg m mlen s ENCRYPT_MODE in
  length c = mlen /\
  snd (RomulusM.romulusm_process_msg (c ++ tag ++ junk) mlen s' DECRYPT_MODE)
    = firstn mlen m.
Proof.
  intros Hn B1 B2 HU T1 B3 Htk T2 Hm Hl.
  assert (Htag : is_block tag = true) by (subst tag; unfold unmasked; auto using is_block_xor).
  assert (Hlen := M_process_msg_length HC m mlen s ENCRYPT_MODE Hl).
  destruct (RomulusM.romulusm_process_msg m mlen s ENCRYPT_MODE) as [sE c] eqn:EE.
  cbn [snd] in Hlen. split; [ exact Hlen | ].
  unfold RomulusM.romulusm_process_msg in *.
  change (ENCRYPT_MODE =? ENCRYPT_MODE) with true in EE.
  change (DECRYPT_MODE =? ENCRYPT_MODE) with false.
  cbv iota in EE. cbv iota.
  (* the tag read after the ciphertext *)
  assert (Hread : firstn TAGBYTES (skipn mlen (c ++ tag ++ junk)) = tag).
  { rewrite skipn_app, Hlen, Nat.sub_diag, skipn_O.
    rewrite <- Hlen at 1. rewrite skipn_all. cbn [app].
    apply firstn_block_app. now apply is_block_length. }
  rewrite Hread.
  set (s0 := set_tk1 s tk1_init) in *.
  set (s0' := set_state s' (xor_bytes tag (state_m s'))).
  assert (R0 : same_unmasked s0 s0').
  { unfold same_unmasked, unmasked, s0, s0', set_tk1, set_state.
    cbn [tk1 state state_m rtk rtk_m]. splits; auto using is_block_xor.
    rewrite xor_bytes_cancel by (apply is_block_length in Htag, B3; congruence).
    exact HU. }
  destruct (Nat.ltb_spec 0 mlen) as [Hpos|Hz].
  - assert (R1 := same_set_domain 36 s0 s0' eq_refl R0).
    assert (T1' : tables_of (set_domain s0 36) npub k km) by exact T1.
    assert (T2' : tables_of (set_domain s0' 36) npub k' km') by exact T2.
    assert (Hloop := M_msg_blocks_length mlen ENCRYPT_MODE (set_domain s0 36) m mlen []
                       (Nat.le_refl _) Hl).
    destruct (RomulusM.msg_blocks mlen ENCRYPT_MODE (set_domain s0 36) m mlen [])
      as [[[s1 m1] l1] out1] eqn:E1.
    destruct Hloop as (I1 & I0 & I2 & I3 & I4 & I5 & I6).
    destruct (last_block_in l1 (state (schedule_1_encrypt s1))
                (state_m (schedule_1_encrypt s1)) m1) as [st o] eqn:E2.
    injection EE as _ Hc.
    assert (Hrt := M_msg_blocks_round_trip npub mlen (set_domain s0 36) (set_domain s0' 36)
                     m mlen [] [] (o ++ tag ++ junk) Hn R1 T1' T2' Hm Hl).
    rewrite E1 in Hrt. destruct Hrt as (c1 & Hc1 & Hm1 & Hl1 & Hb1 & Hrt).
    cbn [app] in Hc1. subst out1. subst c. rewrite <- app_assoc.
    destruct (RomulusM.msg_blocks mlen DECRYPT_MODE (set_domain s0' 36)
                (c1 ++ o ++ tag ++ junk) mlen []) as [[[sD cD] lD] outD].
    destruct Hrt as (-> & -> & -> & R2 & T3 & T4).
    destruct (same_schedule_1 npub s1 sD Hn T3 T4 R2) as (R3 & _ & _).
    destruct R3 as (_ & _ & C1 & C2 & C3 & C4 & C5). unfold unmasked in C5.
    assert (Hlast := last_block_round_trip l1
                       (state (schedule_1_encrypt s1)) (state_m (schedule_1_encrypt s1))
                       (state (schedule_1_encrypt sD)) (state_m (schedule_1_encrypt sD))
                       m1 (tag ++ junk) C5).
    rewrite E2 in Hlast. cbn [snd] in Hlast.
    apply is_block_inv in C1, C2, C3, C4.
    destruct C1 as [L1 F1], C2 as [L2 F2], C3 as [L3 F3], C4 as [L4 F4].
    specialize (Hlast ltac:(congruence) ltac:(congruence) ltac:(congruence) F1 F2
                  ltac:(now apply is_bytes_Forall) I2 ltac:(lia)).
    destruct (last_block_in l1 (state (schedule_1_encrypt sD))
                (state_m (schedule_1_encrypt sD)) (o ++ tag ++ junk)) as [stD oD].
    cbn [snd app] in *. subst oD. rewrite Hm1.
    rewrite firstn_firstn_skipn. f_equal. lia.
  - cbn [snd]. replace mlen with 0%nat by lia. reflexivity.
Qed.

(** *** Romulus-N *)

Lemma same_xor_len n s s' :
  same_unmasked s s' -> same_unmasked (xor_len s n) (xor_len s' n).
Proof.
  intros H. assert (H' := H). destruct H' as (H1 & H2 & H3 & H4 & H5 & H6 & H7).
  unfold xor_len. rewrite !set_last_byte by auto using is_u8_u8.
  apply same_xor_block; [ | assumption ].
  apply is_block_of_bytes; [ reflexivity | ].
  apply is_bytes_app; [ apply is_bytes_zeros | ].
  cbn. now rewrite is_u8_u8.
Qed.

Lemma N_same_process_ad s s' ad adlen npub :
  same_unmasked s s' ->
  is_bytes ad = true -> (adlen <= length ad)%nat -> is_block npub = true ->
  same_unmasked (RomulusN.romulusn_process_ad s ad adlen npub k km)
                (RomulusN.romulusn_process_ad s' ad adlen npub k' km') /\
  tables_of (RomulusN.romulusn_process_ad s ad adlen npub k km) npub k km /\
  tables_of (RomulusN.romulusn_process_ad s' ad adlen npub k' km') npub k' km'.
Proof.
  intros HR Had Hla Hn.
  unfold RomulusN.romulusn_process_ad.
  destruct (Nat.eqb_spec adlen 0).
  - apply same_schedule_123; [ assumption | same_steps ].
  - cbv zeta. same_loop.
    match goal with H : (?l <= ?f)%nat -> (_ <= 32)%nat |- _ =>
      specialize (H (Nat.le_refl _)) end.
    match goal with
    | |- context [(?a =? 32)%nat] =>
        destruct (Nat.eqb_spec a 32);
        [ | destruct (Nat.ltb_spec 16 a); [ | destruct (Nat.eqb_spec a 16) ] ]
    end.
    all: apply same_schedule_123; [ assumption | same_steps ].
Qed.

(** The loop of [romulusn_process_msg]: decrypting what the loop encrypted,
    whatever follows it in the input buffer. *)
Lemma N_msg_blocks_round_trip npub fuel :
  forall s s' m len acc acc' X,
    is_block npub = true ->
    same_unmasked s s' ->
    tables_of s npub k km -> tables_of s' npub k' km' ->
    is_bytes m = true -> (len <= length m)%nat ->
    let '(sE, mE, lE, outE) := RomulusN.msg_blocks false fuel ENCRYPT_MODE s m len acc in
    exists c,
      outE = acc ++ c /\ mE = skipn (len - lE) m /\ (lE <= len)%nat /\
      is_bytes mE = true /\ length c = (len - lE)%nat /\
      ((len <= fuel)%nat -> (lE <= 16)%nat) /\ ((0 < len)%nat -> (0 < lE)%nat) /\
      let '(sD, cD, lD, outD) :=
        RomulusN.msg_blocks false fuel DECRYPT_MODE s' (c ++ X) len acc' in
      cD = X /\ lD = lE /\ outD = acc' ++ firstn (len - lE) m /\
      same_unmasked sE sD /\
      tables_of sE npub k km /\ tables_of sD npub k' km'.
Proof.
  induction fuel as [|fuel IH]; intros s s' m len acc acc' X Hn HR T1 T2 Hm Hl.
  - cbn [RomulusN.msg_blocks]. exists []. rewrite Nat.sub_diag, !app_nil_r.
    cbn [app firstn skipn length]. splits; auto; lia.
  - cbn [RomulusN.msg_blocks].
    destruct (Nat.ltb_spec 16 len) as [Hlt|Hge].
    + assert (Hz : is_block (firstn 16 m) = true)
        by (apply is_block_firstn; [assumption|lia]).
      assert (T1' := rho_step_tables false ENCRYPT_MODE s m npub k km T1).
      destruct (rho_step false ENCRYPT_MODE s m) as [s1 y] eqn:Ey.
      cbn [fst] in T1'.
      (* the run on the ciphertext *)
      assert (Hstep : forall Y,
                 let '(s1', z') := rho_step false DECRYPT_MODE s' (y ++ Y) in
                 z' = firstn 16 m /\ length y = 16%nat /\
                 same_unmasked (schedule_1_encrypt (update_ctr s1))
                               (schedule_1_encrypt (update_ctr s1')) /\
                 tables_of (schedule_1_encrypt (update_ctr s1)) npub k km /\
                 tables_of (schedule_1_encrypt (update_ctr s1')) npub k' km').
      { intros Y.
        assert (Hr := rho_round_trip s s' m Y HR Hz).
        rewrite Ey in Hr.
        assert (T2' := rho_step_tables false DECRYPT_MODE s' (y ++ Y) npub k' km' T2).
        destruct (rho_step false DECRYPT_MODE s' (y ++ Y)) as [s1' z'].
        cbn [fst] in T2'. cbv beta iota in Hr.
        destruct Hr as (? & ? & R).
        split; [ assumption | ]. split; [ assumption | ].
        apply (same_schedule_1 npub (update_ctr s1) (update_ctr s1') Hn T1' T2').
        now apply same_update_ctr. }
      assert (Hy : length y = 16%nat).
      { specialize (Hstep []). destruct (rho_step _ _ _ _). apply Hstep. }
      specialize (fun s2 R T => IH (schedule_1_encrypt (update_ctr s1)) s2
                                   (skipn 16 m) (len - 16)%nat (acc ++ y)
                                   (acc' ++ firstn 16 m) X Hn R T).
      destruct (RomulusN.msg_blocks false fuel ENCRYPT_MODE (schedule_1_encrypt (update_ctr s1))
                  (skipn 16 m) (len - 16) (acc ++ y)) as [[[sE mE] lE] outE] eqn:EE.
      (* the tail of the ciphertext *)
      assert (Hc : exists c, outE = (acc ++ y) ++ c /\ (lE <= len - 16)%nat).
      { specialize (Hstep []).
        destruct (rho_step false DECRYPT_MODE s' (y ++ [])) as [s1' z'].
        destruct Hstep as (_ & _ & R2 & T3 & T4).
        specialize (IH (schedule_1_encrypt (update_ctr s1')) R2 T3 T4
                      (is_bytes_skipn 16 m Hm)).
        rewrite length_skipn in IH. specialize (IH ltac:(lia)).
        destruct IH as (c & Hc1 & _ & Hc3 & _). eauto. }
      destruct Hc as (c & -> & Hle).
      exists (y ++ c). rewrite <- !app_assoc.
      specialize (Hstep (c ++ X)).
      destruct (rho_step false DECRYPT_MODE s' (y ++ c ++ X)) as [s1' z'].
      destruct Hstep as (-> & _ & R2 & T3 & T4).
      rewrite (skipn_block_app y (c ++ X) Hy).
      specialize (IH (schedule_1_encrypt (update_ctr s1')) R2 T3 T4
                    (is_bytes_skipn 16 m Hm)).
      rewrite length_skipn in IH. specialize (IH ltac:(lia)).
      destruct IH as (c0 & Hc1 & Hc2 & Hc3 & Hc4 & Hc5 & Hc6 & Hc7 & IH).
      apply app_inv_head in Hc1. subst c0.
      destruct (RomulusN.msg_blocks false fuel DECRYPT_MODE (schedule_1_encrypt (update_ctr s1'))
                  (c ++ X) (len - 16) (acc' ++ firstn 16 m)) as [[[sD cD] lD] outD].
      destruct IH as (-> & -> & -> & R3 & T5 & T6).
      rewrite skipn_skipn in Hc2.
      split; [ reflexivity | ].
      split; [ rewrite Hc2; f_equal; lia | ].
      split; [ lia | ]. split; [ assumption | ].
      split; [ rewrite length_app; lia | ].
      split; [ lia | ]. split; [ lia | ].
      split; [ reflexivity | ]. split; [ reflexivity | ].
      split; [ | auto ].
      rewrite <- app_assoc. f_equal.
      rewrite firstn_firstn_skipn. f_equal. lia.
    + exists []. rewrite Nat.sub_diag, !app_nil_r.
      cbn [app firstn skipn length].
      destruct (Nat.ltb_spec 16 len) as [?|_]; [ lia | ].
      splits; auto; lia.
Qed.

(** [romulusn_process_msg] in [DECRYPT_MODE] on the ciphertext that
    [ENCRYPT_MODE] produced returns the message, and the two runs end with
    the same unmasked state. *)
Lemma N_process_msg_round_trip npub s s' m mlen X :
  is_block npub = true ->
  same_unmasked s s' ->
  tables_of s npub k km -> tables_of s' npub k' km' ->
  is_bytes m = true -> (mlen <= length m)%nat ->
  let '(sE, c) := RomulusN.romulusn_process_msg false m mlen s ENCRYPT_MODE in
  let '(sD, m') := RomulusN.romulusn_process_msg false (c ++ X) mlen s' DECRYPT_MODE in
  length c = mlen /\ m' = firstn mlen m /\ same_unmasked sE sD.
Proof.
  intros Hn HR T1 T2 Hm Hl.
  unfold RomulusN.romulusn_process_msg.
  change (ENCRYPT_MODE =? ENCRYPT_MODE) with true.
  change (DECRYPT_MODE =? ENCRYPT_MODE) with false.
  cbv zeta.
  assert (R0 := same_set_tk1 tk1_init s s' is_block_tk1_init HR).
  assert (T1' : tables_of (set_tk1 s tk1_init) npub k km) by exact T1.
  assert (T2' : tables_of (set_tk1 s' tk1_init) npub k' km') by exact T2.
  set (s0 := set_tk1 s tk1_init) in *. set (s0' := set_tk1 s' tk1_init) in *.
  destruct (Nat.eqb_spec mlen 0) as [Hz|Hpos].
  - subst mlen. cbn [app length firstn]. splits; try reflexivity.
    apply (same_schedule_1 npub _ _ Hn); [ exact T1' | exact T2' | ].
    now apply same_set_domain, same_update_ctr.
  - assert (R1 := same_set_domain 4 s0 s0' eq_refl R0).
    assert (T1'' : tables_of (set_domain s0 4) npub k km) by exact T1'.
    assert (T2'' : tables_of (set_domain s0' 4) npub k' km') by exact T2'.
    assert (Hloop : forall Y,
               let '(sE, mE, lE, outE) :=
                 RomulusN.msg_blocks false mlen ENCRYPT_MODE (set_domain s0 4) m mlen [] in
               exists c, _) by
      (intros Y; exact (N_msg_blocks_round_trip npub mlen (set_domain s0 4) (set_domain s0' 4)
                          m mlen [] [] Y Hn R1 T1'' T2'' Hm Hl)).
    destruct (RomulusN.msg_blocks false mlen ENCRYPT_MODE (set_domain s0 4) m mlen [])
      as [[[s1 m1] l1] out1] eqn:E1.
    (* the ciphertext of the loop *)
    destruct (Hloop []) as (c1 & Hc1 & Hm1 & Hl1 & Hb1 & Hlen1 & Hle & Hpos1 & _).
    cbn [app] in Hc1. subst out1.
    specialize (Hle (Nat.le_refl _)). specialize (Hpos1 ltac:(lia)).
    assert (Hloop' : forall Y,
               let '(sD, cD, lD, outD) :=
                 RomulusN.msg_blocks false mlen DECRYPT_MODE (set_domain s0' 4) (c1 ++ Y) mlen [] in
               cD = Y /\ lD = l1 /\ outD = [] ++ firstn (mlen - l1) m /\
               same_unmasked s1 sD /\ tables_of s1 npub k km /\ tables_of sD npub k' km').
    { intros Y. destruct (Hloop Y) as (c & Hc & _ & _ & _ & _ & _ & _ & H).
      cbn [app] in Hc. subst c. exact H. }
    clear Hloop.
    assert (Hm1len : (l1 <= length m1)%nat).
    { rewrite Hm1, length_skipn. lia. }
    destruct (Nat.ltb_spec l1 16) as [Hpart|Hfull].
    + (* the last block is partial *)
      destruct (last_block_in l1 (state (update_ctr s1)) (state_m (update_ctr s1)) m1)
        as [stE o] eqn:E2.
      rewrite <- app_assoc.
      specialize (Hloop' (o ++ X)).
      destruct (RomulusN.msg_blocks false mlen DECRYPT_MODE (set_domain s0' 4)
                  (c1 ++ o ++ X) mlen []) as [[[sD cD] lD] outD].
      destruct Hloop' as (-> & -> & -> & R2 & T3 & T4).
      destruct (Nat.ltb_spec l1 16) as [_|?]; [ | lia ].
      assert (R3 := same_update_ctr _ _ R2).
      assert (R3' := R3).
      destruct R3' as (K1 & K2 & C1 & C2 & C3 & C4 & C5). unfold unmasked in C5.
      assert (C1' := C1). assert (C2' := C2). assert (C3' := C3). assert (C4' := C4).
      apply is_block_inv in C1', C2', C3', C4'.
      destruct C1' as [L1 F1], C2' as [L2 F2], C3' as [L3 F3], C4' as [L4 F4].
      assert (Hlast := last_block_in_out l1
                         (state (update_ctr s1)) (state_m (update_ctr s1))
                         (state (update_ctr sD)) (state_m (update_ctr sD))
                         m1 X C5 ltac:(congruence) ltac:(congruence) ltac:(congruence)
                         F1 F2 F3 F4 ltac:(now apply is_bytes_Forall) Hm1len ltac:(lia)).
      rewrite E2 in Hlast.
      destruct (last_block_out l1 (state (update_ctr sD)) (state_m (update_ctr sD)) (o ++ X))
        as [stD o'].
      destruct Hlast as (-> & Ho & HU & LE & LD & FE & FD).
      split; [ rewrite length_app; lia | ].
      split.
      { cbn [app]. rewrite Hm1. rewrite firstn_firstn_skipn. f_equal. lia. }
      apply (same_schedule_1 npub _ _ Hn); [ exact T3 | exact T4 | ].
      apply same_set_domain; [ reflexivity | ].
      apply same_xor_len.
      unfold same_unmasked, unmasked, set_state.
      cbn [tk1 state state_m rtk rtk_m].
      splits; auto; apply is_block_intro; auto; congruence.
    + (* the last block is full *)
      assert (l1 = 16)%nat by lia. subst l1.
      assert (Hz : is_block (firstn 16 m1) = true)
        by (apply is_block_firstn; assumption).
      assert (R2E := rho_step_tables false ENCRYPT_MODE (update_ctr s1) m1 npub k km).
      destruct (rho_step false ENCRYPT_MODE (update_ctr s1) m1) as [s2 y] eqn:Ey.
      rewrite <- app_assoc.
      specialize (Hloop' (y ++ X)).
      destruct (RomulusN.msg_blocks false mlen DECRYPT_MODE (set_domain s0' 4)
                  (c1 ++ y ++ X) mlen []) as [[[sD cD] lD] outD].
      destruct Hloop' as (-> & -> & -> & R2 & T3 & T4).
      destruct (Nat.ltb_spec 16 16) as [?|_]; [ lia | ].
      assert (Hr := rho_round_trip (update_ctr s1) (update_ctr sD) m1 X
                      (same_update_ctr _ _ R2) Hz).
      rewrite Ey in Hr.
      assert (R2D := rho_step_tables false DECRYPT_MODE (update_ctr sD) (y ++ X) npub k' km' T4).
      destruct (rho_step false DECRYPT_MODE (update_ctr sD) (y ++ X)) as [s2' z'].
      cbn [fst] in *. cbv beta iota in Hr.
      destruct Hr as (-> & Hy & R3).
      split; [ rewrite length_app; lia | ].
      split.
      { cbn [app]. rewrite Hm1. rewrite firstn_firstn_skipn. f_equal. lia. }
      apply (same_schedule_1 npub _ _ Hn); [ exact (R2E T3) | exact R2D | ].
      apply same_set_domain; [ reflexivity | assumption ].
Qed.

End Relational.

(** *** The message pass of Romulus-N in place *)

Section InPlace.
Context {C : Skinny128}.

(** In [DECRYPT_MODE] the message pass stores the same bytes and leaves
    the same buffers whether [out] is [in] or a buffer of its own. *)
Lemma N_msg_blocks_decrypt_in_place mode fuel :
  (mode =? ENCRYPT_MODE) = false ->
  forall s inb inlen out,
    RomulusN.msg_blocks true fuel mode s inb inlen out =
    RomulusN.msg_blocks false fuel mode s inb inlen out.
Proof.
  intros Hmode. induction fuel as [|fuel IH]; intros s inb inlen out.
  - reflexivity.
  - cbn [RomulusN.msg_blocks].
    rewrite (rho_step_RHO_INV_in_place mode s inb Hmode).
    destruct (16 <? inlen)%nat; [ | reflexivity ].
    destruct (rho_step false mode s inb) as [s1 y]. apply IH.
Qed.

Lemma N_process_msg_decrypt_in_place mode inb inlen s :
  (mode =? ENCRYPT_MODE) = false ->
  RomulusN.romulusn_process_msg true inb inlen s mode =
  RomulusN.romulusn_process_msg false inb inlen s mode.
Proof.
  intros Hmode. unfold RomulusN.romulusn_process_msg. cbv zeta.
  destruct (inlen =? 0)%nat; [ reflexivity | ].
  rewrite (N_msg_blocks_decrypt_in_place mode inlen Hmode).
  destruct (RomulusN.msg_blocks false inlen mode _ inb inlen [])
    as [[[s1 inb1] inlen1] out1].
  rewrite (rho_step_RHO_INV_in_place mode _ inb1 Hmode). reflexivity.
Qed.

(** A message shorter than one block never reaches [RHO]: the message
    pass is the same in place. *)
Lemma N_process_msg_short_in_place mode inb inlen s :
  (inlen < 16)%nat ->
  RomulusN.romulusn_process_msg true inb inlen s mode =
  RomulusN.romulusn_process_msg false inb inlen s mode.
Proof.
  intros Hlen. unfold RomulusN.romulusn_process_msg. cbv zeta.
  destruct (inlen =? 0)%nat; [ reflexivity | ].
  assert (E : forall ip s0, RomulusN.msg_blocks ip inlen mode s0 inb inlen [] =
                            (s0, inb, inlen, [])).
  { intros ip s0. destruct inlen as [|n]; [ reflexivity | ].
    cbn [RomulusN.msg_blocks].
    destruct (Nat.ltb_spec 16 (S n)); [ lia | reflexivity ]. }
  rewrite !E.
  destruct (Nat.ltb_spec inlen 16); [ reflexivity | lia ].
Qed.

End InPlace.

(** *** The round trips *)

Lemma bytes_of_u32_bytes w : is_bytes (bytes_of_u32 w) = true.
Proof.
  unfold bytes_of_u32, is_bytes. cbn [forallb].
  change 255 with (Z.ones 8). rewrite <- !u8_land, !is_u8_u8. reflexivity.
Qed.

Lemma shares_to_bytearr_2_blocks ks :
  is_block (fst (shares_to_bytearr_2 ks)) = true /\
  is_block (snd (shares_to_bytearr_2 ks)) = true.
Proof.
  unfold shares_to_bytearr_2. cbn [fst snd seq flat_map].
  split; apply is_block_of_bytes; try reflexivity;
    repeat (apply is_bytes_app; [ apply bytes_of_u32_bytes | ]); reflexivity.
Qed.

Lemma write_bytes_front buf data :
  write_bytes buf 0 data = data ++ skipn (length data) buf.
Proof. reflexivity. Qed.

(** Round trip of Romulus-M.  For every cipher that stores blocks and meets
    the masking contract, every message and associated data (of any length,
    zero included), every 16-byte nonce, and any two sharings [ks], [ks'] of
    the same key: [crypto_aead_encrypt_shared] returns 0 and stores
    [mlen + 16] as the ciphertext length, and [crypto_aead_decrypt_shared]
    on that ciphertext, with the same nonce and associated data, returns 0,
    stores [mlen] through the length pointer and leaves the message in the
    plaintext array. *)
Theorem romulusm_round_trip {C : Skinny128}
    (E : list Z -> list Z -> list Z -> list Z -> list Z)
    (ms ads npubs : list Z) (ks ks' : list (Z * Z))
    (cs0 ms0 : list Z) (mlen0 : nat) :
  cipher_blocks C -> masking_correct C E ->
  is_bytes ms = true -> is_bytes ads = true -> is_block npubs = true ->
  xor_bytes (fst (shares_to_bytearr_2 ks)) (snd (shares_to_bytearr_2 ks)) =
  xor_bytes (fst (shares_to_bytearr_2 ks')) (snd (shares_to_bytearr_2 ks')) ->
  (length ms + 16 <= length cs0)%nat -> length ms0 = length ms ->
  let r := RomulusM.crypto_aead_encrypt_shared cs0 ms (length ms) ads (length ads)
             npubs ks in
  ret r = 0 /\ outlen r = (length ms + 16)%nat /\
  RomulusM.crypto_aead_decrypt_shared ms0 mlen0 (outbuf r) (outlen r) ads (length ads)
    npubs ks' = mkout 0 (length ms) ms.
Proof.
  intros HC HM Hms Hads Hn Hkey Hcs Hms0.
  destruct (shares_to_bytearr_2_blocks ks) as [Bk Bkm].
  destruct (shares_to_bytearr_2_blocks ks') as [Bk' Bkm'].
  unfold RomulusM.crypto_aead_encrypt_shared, RomulusM.crypto_aead_decrypt_shared,
    RomulusM.decrypt_passes.
  destruct (shares_to_bytearr_2 ks) as [k km].
  destruct (shares_to_bytearr_2 ks') as [k' km'].
  cbn [fst snd] in *. cbv zeta.
  set (mlen := length ms) in *.
  set (s0 := RomulusM.romulusm_init RomulusM.locals).
  (* encryption: the pass over the associated data and the message *)
  assert (R0 : same_unmasked s0 s0).
  { unfold same_unmasked, unmasked. cbn. splits; reflexivity. }
  destruct (same_process_ad E HC HM k km k km Bk Bkm Bk Bkm eq_refl
              s0 s0 ads (length ads) ms mlen npubs R0 Hads Hms (Nat.le_refl _)
              (Nat.le_refl _) Hn) as (RA & TA & _).
  set (sA := RomulusM.romulusm_process_ad s0 ads (length ads) ms mlen npubs k km) in *.
  destruct RA as (_ & BA0 & BA1 & BA2 & _ & _ & _).
  unfold RomulusM.romulusm_generate_tag, generate_tag.
  rewrite (G_bytes _ BA1), (G_bytes _ BA2).
  set (tag := xor_bytes (map G_byte (state sA)) (map G_byte (state_m sA))).
  set (sG := mkctx (map G_byte (state sA)) (map G_byte (state_m sA)) (tk1 sA) (rtk sA) (rtk_m sA)).
  assert (Htag : is_block tag = true) by (unfold tag; auto using is_block_xor, is_block_G).
  (* the decrypting run, up to its message pass *)
  destruct (tk_schedule_23 npubs k' km') as [r23 r3m] eqn:ET.
  set (sD0 := mkctx (state s0) (state_m s0) (tk1 s0) r23 r3m).
  assert (Hrt := M_process_msg_round_trip E HC HM k km k' km' Bk Bkm Bk' Bkm' Hkey
                   npubs sG sD0 ms mlen tag (skipn (mlen + 16) cs0) Hn
                   (is_block_G _ BA1) (is_block_G _ BA2) eq_refl TA
                   eq_refl eq_refl (eq_sym ET) Hms (Nat.le_refl _)).
  destruct (RomulusM.romulusm_process_msg ms mlen sG ENCRYPT_MODE) as [sE c] eqn:EE.
  destruct Hrt as (Hc & Hrt).
  replace (firstn mlen ms) with ms in Hrt by (symmetry; apply firstn_all).
  cbn [ret outlen outbuf].
  split; [ reflexivity | ]. split; [ reflexivity | ].
  (* the ciphertext buffer *)
  assert (Hbuf : write_bytes (write_bytes cs0 mlen tag) 0 c = c ++ tag ++ skipn (mlen + 16) cs0).
  { rewrite write_bytes_front. f_equal. unfold write_bytes.
    rewrite skipn_app, length_firstn, Hc.
    replace (Init.Nat.min mlen (length cs0)) with mlen by lia.
    rewrite Nat.sub_diag, skipn_O.
    rewrite (skipn_all2 (firstn mlen cs0)) by (rewrite length_firstn; lia).
    cbn [app]. do 2 f_equal. apply is_block_length in Htag. now rewrite Htag. }
  rewrite Hbuf.
  unfold TAGBYTES.
  replace (mlen + 16 <? 16)%nat with false by (symmetry; apply Nat.ltb_ge; lia).
  replace (mlen + 16 - 16)%nat with mlen by lia.
  destruct (RomulusM.romulusm_process_msg (c ++ tag ++ skipn (mlen + 16) cs0) mlen sD0
              DECRYPT_MODE) as [sD out] eqn:ED.
  cbn [snd] in Hrt. subst out.
  assert (Hw : write_bytes ms0 0 ms = ms).
  { rewrite write_bytes_front. rewrite skipn_all2 by (fold mlen; lia). apply app_nil_r. }
  rewrite Hw.
  (* decryption: the pass over the associated data and the plaintext *)
  assert (R1 : same_unmasked s0 (RomulusM.romulusm_init sD)).
  { unfold same_unmasked, unmasked. cbn. splits; reflexivity. }
  destruct (same_process_ad E HC HM k km k' km' Bk Bkm Bk' Bkm' Hkey
              s0 (RomulusM.romulusm_init sD) ads (length ads) ms mlen npubs R1 Hads Hms
              (Nat.le_refl _) (Nat.le_refl _) Hn) as (RB & _ & _).
  fold sA in RB.
  set (sB := RomulusM.romulusm_process_ad (RomulusM.romulusm_init sD) ads (length ads) ms
               mlen npubs k' km') in *.
  destruct RB as (_ & _ & _ & _ & BB1 & BB2 & HU). unfold unmasked in HU.
  unfold RomulusM.romulusm_verify_tag, verify_tag.
  rewrite (G_bytes _ BB1), (G_bytes _ BB2).
  f_equal.
  rewrite accumulate_diff_firstn.
  replace (firstn 16 (skipn mlen (c ++ tag ++ skipn (mlen + 16) cs0))) with tag.
  - apply accumulate_diff_zero; auto using is_block_G.
    unfold tag. rewrite <- !map_G_byte_xor. now rewrite HU.
  - rewrite skipn_app, Hc, Nat.sub_diag, skipn_O.
    rewrite <- Hc at 1. rewrite skipn_all. cbn [app].
    symmetry. apply firstn_block_app. now apply is_block_length.
Qed.

(** Round trip of the Romulus-N core.  For every cipher that stores blocks
    and meets the masking contract, any two sharings of the same key, and
    the same nonce and associated data: the message pass in [DECRYPT_MODE],
    run on the ciphertext the message pass in [ENCRYPT_MODE] stored
    (whatever follows it in the buffer), stores the message, and
    [romulusn_verify_tag] returns 0 on the tag [romulusn_generate_tag]
    stored.  The encrypting pass has an output buffer of its own, or a
    message shorter than one block; the decrypting pass may run in place.
    An encrypting pass in place over 16 bytes or more reaches [RHO] with
    [out == in], which this statement leaves out. *)
Theorem romulusn_core_round_trip {C : Skinny128}
    (E : list Z -> list Z -> list Z -> list Z -> list Z)
    (in_place_enc in_place_dec : bool)
    (m ad npub k km k' km' X : list Z) (s0 s0' : ctx) :
  cipher_blocks C -> masking_correct C E ->
  in_place_enc = false \/ (length m < 16)%nat ->
  is_bytes m = true -> is_bytes ad = true -> is_block npub = true ->
  is_block k = true -> is_block km = true ->
  is_block k' = true -> is_block km' = true ->
  xor_bytes k km = xor_bytes k' km' ->
  let sA := RomulusN.romulusn_process_ad (RomulusN.romulusn_init s0)
              ad (length ad) npub k km in
  let '(sE, c) := RomulusN.romulusn_process_msg in_place_enc m (length m) sA
                    ENCRYPT_MODE in
  let tag := snd (RomulusN.romulusn_generate_tag sE) in
  let sA' := RomulusN.romulusn_process_ad (RomulusN.romulusn_init s0')
               ad (length ad) npub k' km' in
  let '(sD, m') := RomulusN.romulusn_process_msg in_place_dec (c ++ X)
                     (length m) sA' DECRYPT_MODE in
  length c = length m /\ m' = m /\
  snd (RomulusN.romulusn_verify_tag tag sD) = 0.
Proof.
  intros HC HM Hplace Hm Had Hn Bk Bkm Bk' Bkm' Hkey. cbv zeta.
  assert (EE : forall s, RomulusN.romulusn_process_msg in_place_enc m (length m) s
                           ENCRYPT_MODE =
                         RomulusN.romulusn_process_msg false m (length m) s
                           ENCRYPT_MODE).
  { intros s. destruct in_place_enc; [ | reflexivity ].
    destruct Hplace as [Hp|Hp]; [ discriminate Hp | ].
    now apply N_process_msg_short_in_place. }
  assert (ED : forall c s, RomulusN.romulusn_process_msg in_place_dec c (length m) s
                             DECRYPT_MODE =
                           RomulusN.romulusn_process_msg false c (length m) s
                             DECRYPT_MODE).
  { intros c s. destruct in_place_dec; [ | reflexivity ].
    now apply N_process_msg_decrypt_in_place. }
  rewrite EE.
  assert (R0 : same_unmasked (RomulusN.romulusn_init s0) (RomulusN.romulusn_init s0')).
  { unfold same_unmasked, unmasked. cbn. splits; reflexivity. }
  destruct (N_same_process_ad E HC HM k km k' km' Bk Bkm Bk' Bkm' Hkey
              _ _ ad (length ad) npub R0 Had (Nat.le_refl _) Hn) as (RA & TA & TA').
  assert (Hrt := N_process_msg_round_trip E HC HM k km k' km' Bk Bkm Bk' Bkm' Hkey
                   npub _ _ m (length m) X Hn RA TA TA' Hm (Nat.le_refl _)).
  destruct (RomulusN.romulusn_process_msg false m (length m) _ ENCRYPT_MODE) as [sE c].
  rewrite ED.
  destruct (RomulusN.romulusn_process_msg false (c ++ X) (length m) _ DECRYPT_MODE) as [sD m'].
  destruct Hrt as (Hc & Hm' & RB).
  split; [ exact Hc | ]. split; [ now rewrite Hm', firstn_all | ].
  destruct RB as (_ & _ & B1 & B2 & B3 & B4 & HU). unfold unmasked in HU.
  unfold RomulusN.romulusn_verify_tag, RomulusN.romulusn_generate_tag,
    verify_tag, generate_tag. cbn [snd].
  rewrite (G_bytes _ B1), (G_bytes _ B2), (G_bytes _ B3), (G_bytes _ B4).
  apply accumulate_diff_zero; auto using is_block_G, is_block_xor.
  rewrite <- !map_G_byte_xor. now rewrite HU.
Qed.

(** *** The small instance meets the masking contract *)

Lemma map_u8_id l : Forall (fun x => is_u8 x = true) l -> map u8 l = l.
Proof.
  induction 1 as [|x t Hx Ht IH]; cbn [map]; [ reflexivity | ].
  now rewrite (u8_id x Hx), IH.
Qed.

Lemma fit16_id b : is_block b = true -> Toy.fit16 b = b.
Proof.
  intros H. unfold Toy.fit16.
  assert (Hl := is_block_length b H).
  rewrite firstn_app, Hl, Nat.sub_diag, firstn_O, app_nil_r.
  rewrite <- Hl, firstn_all.
  apply is_block_inv in H. destruct H as [_ Hf]. now apply map_u8_id.
Qed.

Lemma toy_masking_correct : masking_correct Toy.cipher Toy.E.
Proof.
  intros p pm t1 t2 k km Hp Hpm H1 H2 Hk Hkm.
  unfold tk_schedule_123.
  lazy beta iota delta [skinny128_384_plus tks_perm_1 tks_lfsr_23 tks_perm_23
                        tks_lfsr_3 tks_perm_23_norc Toy.cipher].
  rewrite !(fit16_id p), !(fit16_id pm), !(fit16_id t1), !(fit16_id t2),
    !(fit16_id k), !(fit16_id km) by assumption.
  rewrite (fit16_id (xor_bytes t2 k)) by auto using is_block_xor.
  unfold Toy.E.
  rewrite <- !xor_bytes_assoc.
  (* ((((p + t2) + k) + t1) + pm) + km  =  ((((p + pm) + t2) + k) + km) + t1 *)
  rewrite (xor_bytes_swap _ pm t1), (xor_bytes_swap _ pm k), (xor_bytes_swap _ pm t2).
  rewrite (xor_bytes_swap _ km t1).
  reflexivity.
Qed.

Lemma romulusm_round_trip_witness :
  let ms := [0x52; 0x6F; 0x6D; 0x75; 0x6C; 0x75; 0x73; 0x2D; 0x4D; 0x20;
             0x6D; 0x61; 0x73; 0x6B; 0x65; 0x64; 0x21; 0x00; 0xFF] in
  let ads := [0xA0; 0xA1; 0xA2] in
  let npubs := [0; 1; 2; 3; 4; 5; 6; 7; 8; 9; 10; 11; 12; 13; 14; 15] in
  let ks := [(1, 2); (3, 4); (5, 6); (7, 8)] in
  let ks' := [(9, 10); (0, 7); (5, 6); (8, 7)] in
  let r := RomulusM.crypto_aead_encrypt_shared (C := Toy.cipher)
             (zeros 40) ms 19 ads 3 npubs ks in
  ret r = 0 /\ outlen r = 35%nat /\
  RomulusM.crypto_aead_decrypt_shared (C := Toy.cipher)
      (zeros 19) 0 (outbuf r) (outlen r) ads 3 npubs ks' = mkout 0 19 ms.
Proof.
  apply (romulusm_round_trip (C := Toy.cipher) Toy.E
           [0x52; 0x6F; 0x6D; 0x75; 0x6C; 0x75; 0x73; 0x2D; 0x4D; 0x20;
            0x6D; 0x61; 0x73; 0x6B; 0x65; 0x64; 0x21; 0x00; 0xFF]
           [0xA0; 0xA1; 0xA2]
           [0; 1; 2; 3; 4; 5; 6; 7; 8; 9; 10; 11; 12; 13; 14; 15]
           [(1, 2); (3, 4); (5, 6); (7, 8)] [(9, 10); (0, 7); (5, 6); (8, 7)]
           (zeros 40) (zeros 19) 0%nat
           toy_cipher_blocks toy_masking_correct).
  - reflexivity.
  - reflexivity.
  - reflexivity.
  - reflexivity.
  - cbn. lia.
  - reflexivity.
Defined.

Lemma romulusn_core_round_trip_witness :
  let m := [0x52; 0x6F; 0x6D; 0x75; 0x6C; 0x75; 0x73; 0x2D; 0x4E; 0x20;
            0x6D; 0x61; 0x73; 0x6B; 0x65; 0x64; 0x21; 0x00; 0xFF] in
  let ad := [0xA0; 0xA1; 0xA2] in
  let npub := [0; 1; 2; 3; 4; 5; 6; 7; 8; 9; 10; 11; 12; 13; 14; 15] in
  let k := repeat 0x11 16 in
  let km := repeat 0x22 16 in
  let k' := repeat 0x30 16 in
  let km' := repeat 0x03 16 in
  let sA := RomulusN.romulusn_process_ad (C := Toy.cipher)
              (RomulusN.romulusn_init RomulusM.locals) ad (length ad) npub k km in
  let '(sE, c) := RomulusN.romulusn_process_msg (C := Toy.cipher) false m
                    (length m) sA ENCRYPT_MODE in
  let tag := snd (RomulusN.romulusn_generate_tag sE) in
  let sA' := RomulusN.romulusn_process_ad (C := Toy.cipher)
               (RomulusN.romulusn_init RomulusM.locals) ad (length ad) npub k' km' in
  let '(sD, m') := RomulusN.romulusn_process_msg (C := Toy.cipher) true
                     (c ++ zeros 16) (length m) sA' DECRYPT_MODE in
  length c = length m /\ m' = m /\
  snd (RomulusN.romulusn_verify_tag tag sD) = 0.
Proof.
  exact (romulusn_core_round_trip (C := Toy.cipher) Toy.E false true
           [0x52; 0x6F; 0x6D; 0x75; 0x6C; 0x75; 0x73; 0x2D; 0x4E; 0x20;
            0x6D; 0x61; 0x73; 0x6B; 0x65; 0x64; 0x21; 0x00; 0xFF]
           [0xA0; 0xA1; 0xA2]
           [0; 1; 2; 3; 4; 5; 6; 7; 8; 9; 10; 11; 12; 13; 14; 15]
           (repeat 0x11 16) (repeat 0x22 16) (repeat 0x30 16) (repeat 0x03 16)
           (zeros 16) RomulusM.locals RomulusM.locals
           toy_cipher_blocks toy_masking_correct (or_introl eq_refl)
           eq_refl eq_refl eq_refl eq_refl eq_refl eq_refl eq_refl eq_refl).
Defined.

(** ** Further properties of the macros and gadgets *)

(** The masked OR and the masked XOR are correct: the exclusive or of the
    two output shares of [secorr] is the OR of the unmasked inputs, and that
    of [secxor] is their exclusive or. *)
Theorem secorr_masked_or (x1 x2 y1 y2 : Z) :
  (let '(z1, z2) := Gadgets.secorr x1 x2 y1 y2 in
   Z.lxor z1 z2 = Z.lor (Z.lxor x1 x2) (Z.lxor y1 y2)) /\
  (let '(z1, z2) := Gadgets.secxor x1 x2 y1 y2 in
   Z.lxor z1 z2 = Z.lxor (Z.lxor x1 x2) (Z.lxor y1 y2)).
Proof.
  unfold Gadgets.secorr, Gadgets.secxor. split; Z.bitblast.
Qed.

(** [G] is linear on blocks: it can be applied share by share. *)
Theorem G_linear (a b : list Z) :
  is_block a = true -> is_block b = true ->
  Macros.G (xor_bytes a b) = xor_bytes (Macros.G a) (Macros.G b).
Proof.
  intros Ha Hb.
  rewrite !G_bytes by auto using is_block_xor.
  apply map_G_byte_xor.
Qed.

Lemma G_linear_witness :
  Macros.G (xor_bytes (repeat 0x81 16) (repeat 0x0F 16)) =
  xor_bytes (Macros.G (repeat 0x81 16)) (Macros.G (repeat 0x0F 16)).
Proof. apply G_linear; reflexivity. Defined.

(** [RHO_INV] undoes [RHO] across two sharings of the same state.  [RHO]
    runs on the store [m], [RHO_INV] on a store [n] that holds at [y'] the
    block [RHO] stored to [y] and at [x'], [x_m'] shares with
    [x' ^ x_m' = x ^ x_m]; in both calls the state shares and the temporary
    are buffers of their own.  [RHO_INV] stores the plaintext block [z],
    whether either macro runs in place or not.  When [RHO] had [y] and [z]
    in different buffers, [RHO_INV] leaves the same unmasked state as [RHO]
    did; when [RHO] ran in place ([y = z]), the two unmasked states differ
    by [G(x ^ x_m)]. *)
Theorem RHO_INV_inverts_RHO
    (x x_m y z tmp : Macros.ptr) (m : Macros.store)
    (x' x_m' y' z' tmp' : Macros.ptr) (n : Macros.store) :
  rho_pointers x x_m y z tmp = true ->
  rho_pointers x' x_m' y' z' tmp' = true ->
  is_block (m x) = true -> is_block (m x_m) = true -> is_block (m z) = true ->
  is_block (n x') = true -> is_block (n x_m') = true ->
  xor_bytes (m x) (m x_m) = xor_bytes (n x') (n x_m') ->
  let m1 := Macros.RHO x x_m y z tmp m in
  n y' = m1 y ->
  let n1 := Macros.RHO_INV x' x_m' y' z' tmp' n in
  n1 z' = m z /\
  (if Nat.eqb y z
   then xor_bytes (n1 x') (n1 x_m') =
        xor_bytes (xor_bytes (m1 x) (m1 x_m))
                  (Macros.G (xor_bytes (m x) (m x_m)))
   else xor_bytes (n1 x') (n1 x_m') = xor_bytes (m1 x) (m1 x_m)).
Proof.
  intros P P' Hx Hm Hz Hx' Hm' HU. cbv zeta. intros Hy.
  destruct (RHO_store _ _ _ _ _ m P) as (Ry & Rx & Rm & _).
  destruct (RHO_INV_store _ _ _ _ _ n P') as (Sz & Sx & Sm).
  cbv zeta in Ry, Rx, Sz, Sx.
  rewrite Sz, Sx, Sm, Rx, Rm, Hy, Ry. clear Ry Rx Rm Sz Sx Sm Hy.
  assert (Hgx := is_block_G _ Hx). assert (Hgm := is_block_G _ Hm).
  assert (Hgx' := is_block_G _ Hx'). assert (Hgm' := is_block_G _ Hm').
  rewrite (G_bytes _ Hx), (G_bytes _ Hm), (G_bytes _ Hx'), (G_bytes _ Hm').
  rewrite (G_bytes (xor_bytes (m x) (m x_m))) by auto using is_block_xor.
  rewrite (XOR_BLOCK_bytes (map G_byte (m x)) (m z)) by assumption.
  rewrite (XOR_BLOCK_bytes (map G_byte (m x_m))) by auto using is_block_xor.
  set (c := xor_bytes (map G_byte (m x_m)) (xor_bytes (map G_byte (m x)) (m z))).
  assert (Hc : is_block c = true) by (unfold c; auto using is_block_xor).
  rewrite (XOR_BLOCK_bytes (map G_byte (n x')) c) by assumption.
  rewrite (XOR_BLOCK_bytes (map G_byte (n x_m'))) by auto using is_block_xor.
  assert (Hp : xor_bytes (map G_byte (n x_m')) (xor_bytes (map G_byte (n x')) c) = m z).
  { unfold c. apply xor_bytes_four.
    - rewrite length_map. apply is_block_length in Hx, Hz. congruence.
    - rewrite length_map. apply is_block_length in Hm, Hz. congruence.
    - rewrite <- !map_G_byte_xor. now rewrite HU. }
  rewrite Hp. rewrite (XOR_BLOCK_bytes (n x') (m z)) by assumption.
  split; [ reflexivity | ].
  rewrite (xor_bytes_swap (n x')), <- HU.
  destruct (Nat.eqb y z).
  - rewrite (XOR_BLOCK_bytes (m x) c) by assumption.
    rewrite (xor_bytes_swap (m x) (m x_m) c).
    rewrite (xor_bytes_assoc (xor_bytes (m x) (m x_m)) c). f_equal.
    rewrite map_G_byte_xor.
    rewrite (xor_bytes_comm c), xor_bytes_assoc. unfold c.
    symmetry. apply xor_bytes_four.
    + rewrite length_map. apply is_block_length in Hx, Hz. congruence.
    + rewrite length_map. apply is_block_length in Hm, Hz. congruence.
    + apply xor_bytes_comm.
  - rewrite (XOR_BLOCK_bytes (m x) (m z)) by assumption.
    apply xor_bytes_swap.
Qed.

Lemma RHO_INV_inverts_RHO_witness :
  let x := [1; 2; 3; 4; 5; 6; 7; 8; 9; 10; 11; 12; 13; 14; 15; 16] in
  let x_m := repeat 0xA5 16 in
  let z := repeat 0x7E 16 in
  let m : Macros.store :=
    fun q => match q with 0%nat => x | 1%nat => x_m | 3%nat => z | _ => [] end in
  let m1 := Macros.RHO 0%nat 1%nat 4%nat 3%nat 2%nat m in
  let n : Macros.store :=
    fun q => match q with
             | 0%nat => xor_bytes x (repeat 0x3C 16)
             | 1%nat => xor_bytes x_m (repeat 0x3C 16)
             | 3%nat => m1 4%nat
             | _ => []
             end in
  let n1 := Macros.RHO_INV 0%nat 1%nat 3%nat 3%nat 2%nat n in
  n1 3%nat = z /\
  xor_bytes (n1 0%nat) (n1 1%nat) = xor_bytes (m1 0%nat) (m1 1%nat).
Proof.
  intros x x_m z m m1 n n1.
  apply (RHO_INV_inverts_RHO 0%nat 1%nat 4%nat 3%nat 2%nat m
                             0%nat 1%nat 3%nat 3%nat 2%nat n); reflexivity.
Defined.

(** The two byte arrays [shares_to_bytearr_2] fills are a sharing of the
    key bytes: their exclusive or is the little-endian image of the
    exclusive or of the two shares of each element. *)
Theorem shares_to_bytearr_2_unmasks (ks : list (Z * Z)) :
  xor_bytes (fst (shares_to_bytearr_2 ks)) (snd (shares_to_bytearr_2 ks)) =
  flat_map (fun i => bytes_of_u32 (Z.lxor (fst (nth i ks (0, 0)))
                                          (snd (nth i ks (0, 0)))))
           (seq 0 4).
Proof.
  unfold shares_to_bytearr_2. cbn [fst snd seq flat_map].
  rewrite !bytes_of_u32_xor, !app_nil_r.
  repeat (rewrite xor_bytes_app by reflexivity). reflexivity.
Qed.

(** ** Padding *)

(** The padded block of a partial block of [n <= 15] bytes: 16 bytes, the
    [n] bytes first, zeros up to byte 14, and the count [n] in byte 15. *)
Theorem pad_block_layout (p : list Z) (n : nat) :
  is_bytes p = true -> (n <= length p)%nat -> (n <= 15)%nat ->
  is_block (pad_block p n) = true /\
  firstn n (pad_block p n) = firstn n p /\
  (forall i, (n <= i < 15)%nat -> byte_at (pad_block p n) i = 0) /\
  byte_at (pad_block p n) 15 = Z.of_nat n.
Proof.
  intros Hp Hl Hn.
  assert (Hf : length (firstn n p) = n) by (rewrite length_firstn; lia).
  split; [ now apply is_block_pad | ].
  unfold pad_block, byte_at.
  split; [ | split ].
  - rewrite firstn_app, Hf, Nat.sub_diag, firstn_O, app_nil_r.
    rewrite <- Hf at 1. apply firstn_all.
  - intros i Hi. rewrite app_nth2 by lia. rewrite Hf.
    rewrite app_nth1 by (unfold zeros; rewrite repeat_length; lia).
    unfold zeros. apply nth_repeat.
  - rewrite app_nth2 by lia. rewrite Hf.
    rewrite app_nth2 by (unfold zeros; rewrite repeat_length; lia).
    unfold zeros. rewrite repeat_length.
    replace (15 - n - (15 - n))%nat with 0%nat by lia. cbn [nth].
    unfold u8. apply Z.mod_small. lia.
Qed.

Lemma pad_block_layout_witness :
  is_block (pad_block [7; 8; 9; 10] 3) = true /\
  firstn 3 (pad_block [7; 8; 9; 10] 3) = firstn 3 [7; 8; 9; 10] /\
  (forall i, (3 <= i < 15)%nat -> byte_at (pad_block [7; 8; 9; 10] 3) i = 0) /\
  byte_at (pad_block [7; 8; 9; 10] 3) 15 = Z.of_nat 3.
Proof.
  apply (pad_block_layout [7; 8; 9; 10] 3).
  - reflexivity.
  - cbn. lia.
  - lia.
Defined.

(** ** The decision of Romulus-T's decryption *)

(** For a ciphertext of at least 16 bytes and a core that stores a 16-byte
    tag, Romulus-T's [crypto_aead_decrypt_shared] returns 0 when the tag it
    recomputes over the associated data and the ciphertext equals the last
    16 bytes of the ciphertext, and -1 otherwise: the comparison takes all
    16 bytes into its 8-bit accumulator. *)
Theorem romulust_decrypt_decision {T : RomulusT}
    (ms0 : list Z) (mlen0 : nat) (cs : list Z) (clen : nat)
    (ads : list Z) (adlen : nat) (npubs ks : list (Z * Z)) :
  (16 <= clen)%nat ->
  let tag := firstn 16 (skipn (clen - 16) cs) in
  let t := RomulusT.recomputed_tag cs (clen - 16) ads adlen npubs ks in
  let r := RomulusT.crypto_aead_decrypt_shared ms0 mlen0 cs clen ads adlen npubs ks in
  is_block tag = true -> is_block t = true ->
  RomulusT.compare_tag t cs clen =
    fold_left (fun tmp d => u8 (Z.lor tmp d)) (xor_bytes t tag) 0 /\
  (t = tag -> ret r = 0) /\
  (t <> tag -> ret r = -1).
Proof.
  intros Hc tag t r Htag Ht.
  split; [ now apply compare_tag_bytes | ].
  assert (Hz := compare_tag_zero t cs clen Ht Htag). fold tag in Hz.
  unfold r, RomulusT.crypto_aead_decrypt_shared, TAGBYTES.
  destruct (Nat.ltb_spec clen 16); [ lia | ].
  destruct (shares_to_bytearr_2 ks), (shares_to_bytearr_2 npubs).
  fold t.
  destruct (Z.eqb_spec (RomulusT.compare_tag t cs clen) 0) as [E|E]; cbn [negb].
  - split; [ intros _ | intros Hne; exfalso; apply Hne; now apply Hz ].
    destruct (romulust_kdf _ _ _ _ _) as [[? ?] ?].
    destruct (romulust_process_msg _ _ _ _ _ _) as [[? ?] ?]. reflexivity.
  - split; [ intros He; exfalso; apply E; now apply Hz | reflexivity ].
Qed.

Lemma romulust_decrypt_decision_witness :
  let ks := [(1, 2); (3, 4); (5, 6); (7, 8)] in
  let cs := 0 :: zeros 16 in
  let tag := firstn 16 (skipn (17 - 16) cs) in
  let t := RomulusT.recomputed_tag (T := Toy.core_t) cs (17 - 16) [] 0 ks ks in
  let r := RomulusT.crypto_aead_decrypt_shared (T := Toy.core_t)
             [0x55] 0 cs 17 [] 0 ks ks in
  RomulusT.compare_tag t cs 17 =
    fold_left (fun tmp d => u8 (Z.lor tmp d)) (xor_bytes t tag) 0 /\
  (t = tag -> ret r = 0) /\
  (t <> tag -> ret r = -1).
Proof.
  apply (romulust_decrypt_decision (T := Toy.core_t) [0x55] 0%nat (0 :: zeros 16) 17%nat
           [] 0%nat [(1, 2); (3, 4); (5, 6); (7, 8)] [(1, 2); (3, 4); (5, 6); (7, 8)]).
  - lia.
  - reflexivity.
  - reflexivity.
Defined.

(** ** Bytes to shares and back *)

Lemma set_word_app a b j v :
  set_word (a ++ b) (length a + j) v = a ++ set_word b j v.
Proof. induction a as [|x a IH]; cbn; [ reflexivity | now rewrite IH ]. Qed.

Lemma set_word_app_here P x t q v :
  length P = q -> set_word (P ++ x :: t) q v = P ++ v :: t.
Proof.
  intros <-. replace (length P) with (length P + 0)%nat at 1 by lia.
  now rewrite set_word_app.
Qed.

Lemma skipn_cons_nth (l : list Z) n :
  (n < length l)%nat -> skipn n l = nth n l 0 :: skipn (S n) l.
Proof.
  revert n. induction l as [|x l IH]; intros [|n] H; cbn in *; try lia; try reflexivity.
  apply IH. lia.
Qed.

Lemma fold_set_word_seq (f : nat -> Z) n ms :
  (n <= length ms)%nat ->
  fold_left (fun ms i => set_word ms i (f i)) (seq 0 n) ms =
  map f (seq 0 n) ++ skipn n ms.
Proof.
  induction n as [|n IH]; intros H; [ reflexivity | ].
  rewrite seq_S, fold_left_app, IH by lia. cbn [fold_left Nat.add].
  rewrite map_app. cbn [map]. rewrite <- app_assoc. cbn [app].
  rewrite (skipn_cons_nth ms n) by lia.
  rewrite set_word_app_here by (rewrite length_map, length_seq; lia).
  reflexivity.
Qed.

Lemma is_u8_byte_at_bytes a i : is_bytes a = true -> is_u8 (byte_at a i) = true.
Proof.
  intros H. unfold byte_at.
  destruct (Nat.ltb_spec i (length a)) as [Hi|Hi].
  - apply is_bytes_Forall in H. rewrite Forall_forall in H. apply H. now apply nth_In.
  - rewrite nth_overflow by lia. reflexivity.
Qed.

Lemma packed_word_load32 m i :
  is_bytes m = true ->
  Z.lor (Z.lor (Z.lor (u32 (Z.shiftl (byte_at m (i * 4 + 0)) 0))
                      (u32 (Z.shiftl (byte_at m (i * 4 + 1)) 8)))
               (u32 (Z.shiftl (byte_at m (i * 4 + 2)) 16)))
        (u32 (Z.shiftl (byte_at m (i * 4 + 3)) 24)) = load32 m i.
Proof.
  intros H. unfold load32.
  replace (i * 4 + 0)%nat with (4 * i)%nat by lia.
  replace (i * 4 + 1)%nat with (4 * i + 1)%nat by lia.
  replace (i * 4 + 2)%nat with (4 * i + 2)%nat by lia.
  replace (i * 4 + 3)%nat with (4 * i + 3)%nat by lia.
  rewrite (is_u8_land _ (is_u8_byte_at_bytes m (4 * i) H)),
    (is_u8_land _ (is_u8_byte_at_bytes m (4 * i + 1) H)),
    (is_u8_land _ (is_u8_byte_at_bytes m (4 * i + 2) H)),
    (is_u8_land _ (is_u8_byte_at_bytes m (4 * i + 3) H)).
  rewrite !u32_land. Z.bitblast.
Qed.

Lemma pack_full_words_value m ms :
  is_bytes m = true -> (length m / 4 <= length ms)%nat ->
  pack_full_words m ms = map (load32 m) (seq 0 (length m / 4)) ++ skipn (length m / 4) ms.
Proof.
  intros Hm Hl. unfold pack_full_words. cbv zeta.
  rewrite (fold_set_word_seq
             (fun i =>
                Z.lor (Z.lor (Z.lor (u32 (Z.shiftl (byte_at m (i * 4 + 0)) 0))
                                    (u32 (Z.shiftl (byte_at m (i * 4 + 1)) 8)))
                             (u32 (Z.shiftl (byte_at m (i * 4 + 2)) 16)))
                      (u32 (Z.shiftl (byte_at m (i * 4 + 3)) 24)))) by assumption.
  f_equal. apply map_ext. intros i. now apply packed_word_load32.
Qed.

Lemma pack_npub_value npub npubs :
  is_block npub = true -> (4 <= length npubs)%nat ->
  pack_npub npub npubs = map (load32 npub) (seq 0 4) ++ skipn 4 npubs.
Proof.
  intros Hn Hl. unfold pack_npub. cbv zeta.
  change (BLOCKBYTES / 4)%nat with 4%nat.
  rewrite (fold_set_word_seq
             (fun i =>
                Z.lor (Z.lor (Z.lor (u32 (Z.shiftl (byte_at npub (i * 4 + 0)) 0))
                                    (u32 (Z.shiftl (byte_at npub (i * 4 + 1)) 8)))
                             (u32 (Z.shiftl (byte_at npub (i * 4 + 2)) 16)))
                      (u32 (Z.shiftl (byte_at npub (i * 4 + 3)) 24)))) by assumption.
  f_equal. apply map_ext. intros i. apply packed_word_load32.
  now apply is_block_bytes.
Qed.

Lemma fold_or_word q (g : nat -> Z) l P w rest :
  length P = q ->
  fold_left (fun ms i => set_word ms q (Z.lor (word_at ms q) (g i))) l
            (P ++ w :: rest) =
  P ++ fold_left (fun w i => Z.lor w (g i)) l w :: rest.
Proof.
  intros HP. revert w. induction l as [|i l IH]; intros w; cbn [fold_left].
  - reflexivity.
  - replace (word_at (P ++ w :: rest) q) with w.
    + rewrite set_word_app_here by assumption. apply IH.
    + unfold word_at. rewrite app_nth2 by lia.
      replace (q - length P)%nat with 0%nat by lia. reflexivity.
Qed.

Lemma pack_bytes_value m ms :
  is_bytes m = true ->
  (length m / 4 <= length ms)%nat ->
  ((length m mod 4 <> 0)%nat -> (length m / 4 + 1 < length ms)%nat) ->
  let q := (length m / 4)%nat in
  let r := (length m mod 4)%nat in
  pack_bytes m ms =
  map (load32 m) (seq 0 q) ++
  (if (r =? 0)%nat then skipn q ms
   else or_tail m q r (word_at ms q) :: 0 :: skipn (q + 2) ms).
Proof.
  intros Hm Hl Hr q r. unfold pack_bytes. fold q. fold r.
  rewrite pack_full_words_value by assumption. fold q.
  destruct (Nat.eqb_spec r 0) as [E|E]; [ reflexivity | ].
  specialize (Hr E). fold q in Hr.
  assert (HP : length (map (load32 m) (seq 0 q)) = q)
    by (rewrite length_map, length_seq; reflexivity).
  rewrite (skipn_cons_nth ms q) by lia.
  rewrite (skipn_cons_nth ms (S q)) by lia.
  replace (q + 1)%nat with (length (map (load32 m) (seq 0 q)) + 1)%nat by lia.
  rewrite set_word_app. cbn [set_word].
  assert (Hdiv := Nat.div_mod_eq (length m) 4). fold q in Hdiv. fold r in Hdiv.
  replace (length m - r)%nat with (4 * q)%nat by lia.
  rewrite (fold_or_word q
             (fun i => u32 (Z.shiftl (byte_at m (4 * q + i)) (8 * Z.of_nat i))))
    by assumption.
  replace (q + 2)%nat with (S (S q)) by lia. reflexivity.
Qed.

(** Four bytes of [m] from a packed word. *)
Lemma load32_cons4 a b c d m i :
  load32 (a :: b :: c :: d :: m) (S i) = load32 m i.
Proof.
  unfold load32, byte_at.
  replace (4 * S i)%nat with (S (S (S (S (4 * i))))) by lia.
  cbn [nth Nat.add]. reflexivity.
Qed.

Lemma bytes_of_loaded_words m q :
  is_bytes m = true -> (4 * q <= length m)%nat ->
  flat_map bytes_of_u32 (map (load32 m) (seq 0 q)) = firstn (4 * q) m.
Proof.
  revert m. induction q as [|q IH]; intros m Hm Hl; [ reflexivity | ].
  destruct m as [|a [|b [|c [|d m]]]]; cbn [length] in Hl; try lia.
  rewrite <- cons_seq, <- seq_shift.
  cbn [map flat_map]. rewrite map_map.
  rewrite (map_ext _ (load32 m) (load32_cons4 a b c d m)).
  rewrite IH.
  - replace (4 * S q)%nat with (S (S (S (S (4 * q))))) by lia. cbn [firstn app].
    apply is_bytes_Forall in Hm. inv_Forall Hm.
    unfold load32, byte_at. cbn [nth Nat.mul Nat.add].
    now rewrite bytes_of_u32_load by assumption.
  - apply is_bytes_Forall in Hm. apply is_bytes_Forall.
    now do 4 apply Forall_inv_tail in Hm.
  - lia.
Qed.

Lemma stored_bytes_of_word w :
  [ u8 (Z.land (Z.shiftr w 0) 0xff); u8 (Z.land (Z.shiftr w 8) 0xff);
    u8 (Z.land (Z.shiftr w 16) 0xff); u8 (Z.land (Z.shiftr w 24) 0xff) ] =
  bytes_of_u32 w.
Proof.
  unfold bytes_of_u32. rewrite Z.shiftr_0_r. rewrite !u8_land.
  change 255 with (Z.ones 8). list_eq; Z.bitblast.
Qed.

Lemma flat_map_word_at (f : Z -> list Z) ws q rest :
  length ws = q ->
  flat_map (fun i => f (word_at (ws ++ rest) i)) (seq 0 q) = flat_map f ws.
Proof.
  intros <-. revert rest.
  induction ws as [|w ws IH] using rev_ind; intros rest; [ reflexivity | ].
  rewrite length_app. cbn [length]. rewrite Nat.add_1_r, seq_S, !flat_map_app.
  cbn [flat_map Nat.add]. rewrite app_nil_r. f_equal.
  - rewrite <- app_assoc. apply IH.
  - rewrite app_nil_r. unfold word_at. rewrite <- app_assoc, app_nth2 by lia.
    rewrite Nat.sub_diag. reflexivity.
Qed.

(** The low [r] bytes of the last word. *)
Lemma or_tail_bytes m q r w :
  is_bytes m = true -> (r < 4)%nat ->
  Z.land w (Z.ones (8 * Z.of_nat r)) = 0 ->
  map (fun i => u8 (Z.land (Z.shiftr (or_tail m q r w) (8 * Z.of_nat i)) 0xff))
      (seq 0 r) =
  map (fun i => byte_at m (4 * q + i)) (seq 0 r).
Proof.
  intros Hm Hr Hw. unfold or_tail.
  assert (B0 := is_u8_land _ (is_u8_byte_at_bytes m (4 * q + 0) Hm)).
  assert (B1 := is_u8_land _ (is_u8_byte_at_bytes m (4 * q + 1) Hm)).
  assert (B2 := is_u8_land _ (is_u8_byte_at_bytes m (4 * q + 2) Hm)).
  assert (Ew : w = Z.lxor w (Z.land w (Z.ones (8 * Z.of_nat r))))
    by (now rewrite Hw, Z.lxor_0_r).
  clear Hw.
  destruct r as [|[|[|[|r]]]]; try lia;
    cbn [seq map fold_left Z.of_nat Z.mul Pos.of_succ_nat Pos.succ Pos.mul] in *;
    [ reflexivity | | | ];
    revert B0 B1 B2;
    generalize (byte_at m (4 * q + 0)), (byte_at m (4 * q + 1)),
      (byte_at m (4 * q + 2));
    intros b0 b1 b2 B0 B1 B2;
    rewrite ?u8_land, ?u32_land; change 255 with (Z.ones 8);
    try rewrite B0; try rewrite B1; try rewrite B2; rewrite Ew; clear B0 B1 B2 Ew;
    list_eq; bitblast_neg.
Qed.

Lemma map_byte_at_skipn m n r :
  length m = (n + r)%nat ->
  map (fun i => byte_at m (n + i)) (seq 0 r) = skipn n m.
Proof.
  intros Hl.
  apply (nth_ext _ _ 0 0).
  - rewrite length_map, length_seq, length_skipn. lia.
  - intros i Hi. rewrite length_map, length_seq in Hi.
    rewrite (nth_indep _ 0 (byte_at m (n + 0)))
      by (rewrite length_map, length_seq; exact Hi).
    rewrite (map_nth (fun i => byte_at m (n + i)) (seq 0 r) 0%nat i).
    rewrite seq_nth by exact Hi. rewrite nth_skipn. reflexivity.
Qed.

Lemma stored_bytes_ext ms q :
  flat_map
    (fun i =>
       [ u8 (Z.land (Z.shiftr (word_at ms i) 0) 0xff);
         u8 (Z.land (Z.shiftr (word_at ms i) 8) 0xff);
         u8 (Z.land (Z.shiftr (word_at ms i) 16) 0xff);
         u8 (Z.land (Z.shiftr (word_at ms i) 24) 0xff) ]) (seq 0 q) =
  flat_map (fun i => bytes_of_u32 (word_at ms i)) (seq 0 q).
Proof. apply flat_map_ext. intros i. apply stored_bytes_of_word. Qed.

Lemma word_at_app_here P x t q : length P = q -> word_at (P ++ x :: t) q = x.
Proof.
  intros <-. unfold word_at. rewrite app_nth2 by lia.
  now rewrite Nat.sub_diag.
Qed.

(** X10.  [shares_to_bytearr] undoes the packing of [generate_shares_encrypt]
    and [generate_shares_decrypt]: for [len] bytes packed into an array that
    has room for them, the [len] bytes read back are the bytes packed, when
    [len] is a multiple of 4 or the low [len mod 4] bytes of the word at
    index [len/4] were zero when the array was handed in. *)
Theorem shares_to_bytearr_pack_bytes (m ms0 : list Z) :
  is_bytes m = true ->
  (length m / 4 <= length ms0)%nat ->
  ((length m mod 4 <> 0)%nat ->
   (length m / 4 + 1 < length ms0)%nat /\
   Z.land (word_at ms0 (length m / 4))
          (Z.ones (8 * Z.of_nat (length m mod 4))) = 0) ->
  shares_to_bytearr (pack_bytes m ms0) (length m) = m.
Proof.
  intros Hm Hl Hr.
  rewrite pack_bytes_value by (try assumption; intros E; now apply Hr).
  unfold shares_to_bytearr. cbv zeta.
  set (q := (length m / 4)%nat) in *. set (r := (length m mod 4)%nat) in *.
  assert (Hdiv : length m = (4 * q + r)%nat) by apply Nat.div_mod_eq.
  assert (Hlt : (r < 4)%nat) by (apply Nat.mod_upper_bound; lia).
  assert (HP : length (map (load32 m) (seq 0 q)) = q)
    by (rewrite length_map, length_seq; reflexivity).
  rewrite stored_bytes_ext.
  rewrite (flat_map_word_at bytes_of_u32) by exact HP.
  rewrite bytes_of_loaded_words by (assumption || lia).
  transitivity (firstn (4 * q) m ++ skipn (4 * q) m); [ | apply firstn_skipn ].
  f_equal.
  destruct (Nat.eqb_spec r 0) as [E|E].
  - rewrite E. cbn [seq map]. symmetry. apply skipn_all2. lia.
  - destruct (Hr E) as [_ Hw].
    rewrite word_at_app_here by exact HP.
    rewrite or_tail_bytes by assumption.
    now apply map_byte_at_skipn.
Qed.

Lemma shares_to_bytearr_pack_bytes_witness :
  shares_to_bytearr (pack_bytes [1; 2; 3; 4; 5; 6] [7; 0xABCD0000; 9]) 6
  = [1; 2; 3; 4; 5; 6].
Proof.
  apply (shares_to_bytearr_pack_bytes [1; 2; 3; 4; 5; 6] [7; 0xABCD0000; 9]).
  - reflexivity.
  - cbn. lia.
  - intros _. split; [ cbn; lia | reflexivity ].
Defined.

(** X11.  The two shares [generate_shares_encrypt] and
    [generate_shares_decrypt] split a 16-byte key (or, in Romulus-T, nonce)
    into recombine to it: read back by [shares_to_bytearr_2], the second
    share is the sixteen random bytes and the exclusive or of the two
    shares is the key, whatever the random bytes are. *)
Theorem split_shares_recombine (k rnd : list Z) :
  is_block k = true -> is_block rnd = true ->
  snd (shares_to_bytearr_2 (split_shares k rnd)) = rnd /\
  xor_bytes (fst (shares_to_bytearr_2 (split_shares k rnd)))
            (snd (shares_to_bytearr_2 (split_shares k rnd))) = k.
Proof.
  intros Hk Hr.
  assert (E2 : snd (shares_to_bytearr_2 (split_shares k rnd)) = rnd).
  { unfold shares_to_bytearr_2, split_shares. cbn [snd seq map flat_map nth fst].
    rewrite app_nil_r. apply (block_words rnd Hr). }
  assert (E1 : fst (shares_to_bytearr_2 (split_shares k rnd)) = xor_bytes rnd k).
  { rewrite <- (XOR_BLOCK_bytes rnd k Hr Hk).
    unfold shares_to_bytearr_2, split_shares, Macros.XOR_BLOCK, block_of_words.
    cbn [snd seq map flat_map nth fst]. rewrite app_nil_r. reflexivity. }
  split; [ exact E2 | ].
  rewrite E1, E2.
  rewrite (xor_bytes_comm rnd k).
  apply xor_bytes_cancel.
  now rewrite (is_block_length rnd Hr), (is_block_length k Hk).
Qed.

Lemma split_shares_recombine_witness :
  let k := [1; 2; 3; 4; 5; 6; 7; 8; 9; 10; 11; 12; 13; 14; 15; 16] in
  let rnd := [0xF0; 0xE1; 0xD2; 0xC3; 0xB4; 0xA5; 0x96; 0x87;
              0x78; 0x69; 0x5A; 0x4B; 0x3C; 0x2D; 0x1E; 0x0F] in
  snd (shares_to_bytearr_2 (split_shares k rnd)) = rnd /\
  xor_bytes (fst (shares_to_bytearr_2 (split_shares k rnd)))
            (snd (shares_to_bytearr_2 (split_shares k rnd))) = k.
Proof.
  apply (split_shares_recombine
           [1; 2; 3; 4; 5; 6; 7; 8; 9; 10; 11; 12; 13; 14; 15; 16]
           [0xF0; 0xE1; 0xD2; 0xC3; 0xB4; 0xA5; 0x96; 0x87;
            0x78; 0x69; 0x5A; 0x4B; 0x3C; 0x2D; 0x1E; 0x0F]);
    reflexivity.
Defined.

(** ** The block counter never merges two values *)

Lemma lfsr_step_injective c c' :
  0 <= c < 2 ^ 56 -> 0 <= c' < 2 ^ 56 ->
  (if c <? 2 ^ 55 then 2 * c else Z.lxor (2 * c - 2 ^ 56) 0x95) =
  (if c' <? 2 ^ 55 then 2 * c' else Z.lxor (2 * c' - 2 ^ 56) 0x95) ->
  c = c'.
Proof.
  intros Hc Hc' H.
  assert (Odd : forall x, Z.odd (Z.lxor (2 * x - 2 ^ 56) 0x95) = true).
  { intros x. rewrite <- Z.bit0_odd, Z.lxor_spec, !Z.bit0_odd.
    replace (2 * x - 2 ^ 56) with (2 * (x - 2 ^ 55)) by lia.
    now rewrite Z.odd_mul. }
  assert (Even : forall x, Z.odd (2 * x) = false)
    by (intros x; now rewrite Z.odd_mul).
  destruct (Z.ltb_spec c (2 ^ 55)), (Z.ltb_spec c' (2 ^ 55)).
  - lia.
  - apply (f_equal Z.odd) in H. rewrite Odd, Even in H. discriminate.
  - apply (f_equal Z.odd) in H. rewrite Odd, Even in H. discriminate.
  - apply (f_equal (fun z => Z.lxor z 0x95)) in H.
    rewrite !Z.lxor_assoc, !Z.lxor_nilpotent, !Z.lxor_0_r in H. lia.
Qed.

Lemma le_value_inj a b :
  Forall (fun x => is_u8 x = true) a -> Forall (fun x => is_u8 x = true) b ->
  length a = length b -> le_value a = le_value b -> a = b.
Proof.
  intros Ha. revert b. induction Ha as [|x a Hx Ha IH]; intros b Hb Hl Hv.
  - destruct b; [ reflexivity | discriminate ].
  - destruct Hb as [|y b Hy Hb]; [ discriminate | ].
    cbn [le_value] in Hv. apply is_u8_range in Hx, Hy.
    assert (x = y /\ le_value a = le_value b) as [-> Hv'] by lia.
    f_equal. apply IH; [ assumption | now injection Hl | assumption ].
Qed.

(** X12.  [UPDATE_CTR] never merges two values of [tk1]: two 16-byte
    [tk1] that it takes to the same bytes are the same, and the counter it
    leaves is zero only if the counter was zero. *)
Theorem UPDATE_CTR_injective (t t' : list Z) :
  is_block t = true -> is_block t' = true ->
  (Macros.UPDATE_CTR t = Macros.UPDATE_CTR t' -> t = t') /\
  (counter (Macros.UPDATE_CTR t) = 0 -> counter t = 0).
Proof.
  intros Ht Ht'.
  destruct (counter_words_of_block t Ht) as [Rc _].
  destruct (counter_words_of_block t' Ht') as [Rc' _].
  assert (Hc := UPDATE_CTR_counter t Ht).
  assert (Hc' := UPDATE_CTR_counter t' Ht').
  cbv zeta in Hc, Hc'.
  split.
  - intros HU.
    assert (Ec : counter t = counter t').
    { apply lfsr_step_injective; try assumption.
      rewrite <- Hc, <- Hc'. now rewrite HU. }
    assert (E7 : byte_at (Macros.UPDATE_CTR t) 7 = byte_at (Macros.UPDATE_CTR t') 7)
      by now rewrite HU.
    assert (E8 : skipn 8 (Macros.UPDATE_CTR t) = skipn 8 (Macros.UPDATE_CTR t'))
      by now rewrite HU.
    clear HU Hc Hc' Rc Rc'.
    unfold counter in Ec.
    destruct_block Ht. destruct_block Ht'.
    assert (F : firstn 7 [b; b0; b1; b2; b3; b4; b5; b6; b7; b8; b9; b10; b11; b12; b13; b14] =
                firstn 7 [b15; b16; b17; b18; b19; b20; b21; b22; b23; b24; b25; b26; b27; b28;
                          b29; b30]).
    { apply le_value_inj; [ | | reflexivity | exact Ec ];
        cbn [firstn]; repeat constructor; assumption. }
    cbn [firstn] in F.
    rewrite (is_u8_land b Hb), (is_u8_land b0 Hb0), (is_u8_land b1 Hb1),
      (is_u8_land b2 Hb2), (is_u8_land b3 Hb3), (is_u8_land b4 Hb4),
      (is_u8_land b5 Hb5), (is_u8_land b6 Hb6) in E7.
    rewrite UPDATE_CTR_byte7 in E7.
    rewrite (is_u8_land b15 Hb15), (is_u8_land b16 Hb16), (is_u8_land b17 Hb17),
      (is_u8_land b18 Hb18), (is_u8_land b19 Hb19), (is_u8_land b20 Hb20),
      (is_u8_land b21 Hb21), (is_u8_land b22 Hb22) in E7.
    rewrite UPDATE_CTR_byte7 in E7.
    unfold byte_at in E7. cbn [nth] in E7.
    rewrite <- (is_u8_land b6 Hb6), <- (is_u8_land b22 Hb22) in E7.
    cbn [Macros.UPDATE_CTR skipn app bytes_of_u32] in E8.
    congruence.
  - intros Hz. apply lfsr_step_injective; try assumption; [ lia | ].
    rewrite <- Hc, Hz. reflexivity.
Qed.

Lemma UPDATE_CTR_injective_witness :
  let t := [0x21; 0; 0; 0; 0; 0; 0x80; 0x2C; 0; 0; 0; 0; 0; 0; 0; 0] in
  (Macros.UPDATE_CTR t = Macros.UPDATE_CTR tk1_init -> t = tk1_init) /\
  (counter (Macros.UPDATE_CTR t) = 0 -> counter t = 0).
Proof.
  apply (UPDATE_CTR_injective
           [0x21; 0; 0; 0; 0; 0; 0x80; 0x2C; 0; 0; 0; 0; 0; 0; 0; 0] tk1_init);
    reflexivity.
Defined.

(** ** The ciphertext does not depend on the masks *)

Lemma last_block_in_same n :
  forall st stm st' stm' m,
    xor_bytes st stm = xor_bytes st' stm' ->
    length st = length stm -> length st' = length stm' -> length st = length st' ->
    snd (last_block_in n st stm m) = snd (last_block_in n st' stm' m).
Proof.
  induction n as [|n IH]; intros st stm st' stm' m HU L1 L2 L3; [ reflexivity | ].
  destruct st as [|s st], stm as [|sm stm], st' as [|s' st'], stm' as [|sm' stm'];
    try discriminate; try reflexivity.
  destruct m as [|x m]; [ reflexivity | ].
  cbn [xor_bytes] in HU. injection HU as Hh Ht.
  cbn [last_block_in length] in *.
  specialize (IH st stm st' stm' m Ht ltac:(lia) ltac:(lia) ltac:(lia)).
  destruct (last_block_in n st stm m) as [st1 o].
  destruct (last_block_in n st' stm' m) as [st1' o'].
  cbn [snd] in *. rewrite !out_byte_value, Hh, IH. reflexivity.
Qed.

Section SameKey.
Context {C : Skinny128} (E : list Z -> list Z -> list Z -> list Z -> list Z).
Hypothesis HC : cipher_blocks C.
Hypothesis HM : masking_correct C E.
Variables k km k' km' : list Z.
Hypothesis Hk : is_block k = true.
Hypothesis Hkm : is_block km = true.
Hypothesis Hk' : is_block k' = true.
Hypothesis Hkm' : is_block km' = true.
Hypothesis Hkey : xor_bytes k km = xor_bytes k' km'.

Lemma rho_encrypt_same ip s s' z :
  same_unmasked s s' -> is_block (firstn 16 z) = true ->
  snd (rho_step ip ENCRYPT_MODE s z) = snd (rho_step ip ENCRYPT_MODE s' z) /\
  same_unmasked (fst (rho_step ip ENCRYPT_MODE s z))
                (fst (rho_step ip ENCRYPT_MODE s' z)).
Proof.
  intros (H1 & H2 & H3 & H4 & H5 & H6 & H7) Hz.
  rewrite !rho_step_RHO by assumption. cbv zeta.
  cbn [fst snd].
  unfold unmasked in H7.
  assert (G1 := is_block_G _ H3). assert (G2 := is_block_G _ H4).
  assert (G3 := is_block_G _ H5). assert (G4 := is_block_G _ H6).
  assert (Ey : xor_bytes (map G_byte (state_m s))
                 (xor_bytes (map G_byte (state s)) (firstn 16 z)) =
               xor_bytes (map G_byte (state_m s'))
                 (xor_bytes (map G_byte (state s')) (firstn 16 z))).
  { rewrite <- !xor_bytes_assoc.
    rewrite (xor_bytes_comm (map G_byte (state_m s))),
      (xor_bytes_comm (map G_byte (state_m s'))).
    rewrite <- !map_G_byte_xor. now rewrite H7. }
  split; [ exact Ey | ].
  rewrite <- Ey.
  set (w := if ip then _ else _).
  assert (Hw : is_block w = true)
    by (unfold w; destruct ip; auto using is_block_xor).
  unfold same_unmasked, unmasked. cbn [tk1 state state_m rtk rtk_m].
  repeat split; auto using is_block_xor.
  rewrite (xor_bytes_swap (state s)), (xor_bytes_swap (state s')). now rewrite H7.
Qed.

Lemma M_msg_blocks_same npub fuel :
  forall s s' m len acc,
    is_block npub = true ->
    same_unmasked s s' ->
    tables_of s npub k km -> tables_of s' npub k' km' ->
    is_bytes m = true -> (len <= length m)%nat ->
    let '(s1, m1, l1, out1) := RomulusM.msg_blocks fuel ENCRYPT_MODE s m len acc in
    let '(s1', m1', l1', out1') := RomulusM.msg_blocks fuel ENCRYPT_MODE s' m len acc in
    m1' = m1 /\ l1' = l1 /\ out1' = out1 /\ same_unmasked s1 s1' /\
    tables_of s1 npub k km /\ tables_of s1' npub k' km'.
Proof.
  induction fuel as [|fuel IH]; intros s s' m len acc Hn HR T1 T2 Hm Hl.
  - cbn [RomulusM.msg_blocks]. splits; auto.
  - cbn [RomulusM.msg_blocks].
    destruct (Nat.ltb_spec 16 len) as [Hlt|Hge]; [ | splits; auto ].
    destruct (same_schedule_1 E HC HM k km k' km' Hk Hkm Hk' Hkm' Hkey npub s s' Hn T1 T2 HR)
      as (R1 & T1' & T2').
    assert (Hz : is_block (firstn 16 m) = true)
      by (apply is_block_firstn; [ assumption | lia ]).
    destruct (rho_encrypt_same false _ _ m R1 Hz) as [Ey R2].
    assert (T1'' := rho_step_tables false ENCRYPT_MODE (schedule_1_encrypt s) m npub k km T1').
    assert (T2'' := rho_step_tables false ENCRYPT_MODE (schedule_1_encrypt s') m npub k' km' T2').
    destruct (rho_step false ENCRYPT_MODE (schedule_1_encrypt s) m) as [s1 y].
    destruct (rho_step false ENCRYPT_MODE (schedule_1_encrypt s') m) as [s1' y'].
    cbn [fst snd] in *. subst y'.
    apply IH; auto.
    + now apply same_update_ctr.
    + now apply is_bytes_skipn.
    + rewrite length_skipn. lia.
Qed.

Lemma M_process_msg_same npub s s' m mlen :
  is_block npub = true ->
  same_unmasked s s' ->
  tables_of s npub k km -> tables_of s' npub k' km' ->
  is_bytes m = true -> (mlen <= length m)%nat ->
  snd (RomulusM.romulusm_process_msg m mlen s ENCRYPT_MODE) =
  snd (RomulusM.romulusm_process_msg m mlen s' ENCRYPT_MODE).
Proof.
  intros Hn HR T1 T2 Hm Hl.
  unfold RomulusM.romulusm_process_msg.
  change (ENCRYPT_MODE =? ENCRYPT_MODE) with true. cbv iota.
  destruct (Nat.ltb_spec 0 mlen) as [Hpos|Hz]; [ | reflexivity ].
  assert (R0 : same_unmasked (set_domain (set_tk1 s tk1_init) 36)
                             (set_domain (set_tk1 s' tk1_init) 36)).
  { apply same_set_domain; [ reflexivity | ].
    apply same_set_tk1; [ apply is_block_tk1_init | assumption ]. }
  assert (Hloop := M_msg_blocks_length mlen ENCRYPT_MODE
                     (set_domain (set_tk1 s tk1_init) 36) m mlen []
                     (Nat.le_refl _) Hl).
  assert (Hs := M_msg_blocks_same npub mlen _ _ m mlen [] Hn R0 T1 T2 Hm Hl).
  destruct (RomulusM.msg_blocks mlen ENCRYPT_MODE (set_domain (set_tk1 s tk1_init) 36)
              m mlen []) as [[[s1 m1] l1] out1].
  destruct (RomulusM.msg_blocks mlen ENCRYPT_MODE (set_domain (set_tk1 s' tk1_init) 36)
              m mlen []) as [[[s1' m1'] l1'] out1'].
  destruct Hs as (-> & -> & -> & R1 & T1' & T2').
  destruct (same_schedule_1 E HC HM k km k' km' Hk Hkm Hk' Hkm' Hkey npub s1 s1' Hn T1' T2' R1)
    as (R2 & _ & _).
  destruct R2 as (_ & _ & C1 & C2 & C3 & C4 & C5). unfold unmasked in C5.
  apply is_block_length in C1, C2, C3, C4.
  assert (Hlast := last_block_in_same l1 _ _ _ _ m1 C5
                     ltac:(congruence) ltac:(congruence) ltac:(congruence)).
  destruct (last_block_in l1 (state (schedule_1_encrypt s1))
              (state_m (schedule_1_encrypt s1)) m1) as [st o].
  destruct (last_block_in l1 (state (schedule_1_encrypt s1'))
              (state_m (schedule_1_encrypt s1')) m1) as [st' o'].
  cbn [snd] in *. now subst o'.
Qed.

End SameKey.

(** X13.  The ciphertext and the tag of Romulus-M do not depend on how the
    key is shared: for every cipher that stores blocks and meets the masking
    contract, two calls of [crypto_aead_encrypt_shared] on the same message,
    associated data and nonce, with two sharings of the same key, leave the
    same return value, length and ciphertext array. *)
Theorem romulusm_encrypt_mask_independent {C : Skinny128}
    (E : list Z -> list Z -> list Z -> list Z -> list Z)
    (cs0 ms ads npubs : list Z) (mlen adlen : nat) (ks ks' : list (Z * Z)) :
  cipher_blocks C -> masking_correct C E ->
  is_bytes ms = true -> is_bytes ads = true -> is_block npubs = true ->
  (mlen <= length ms)%nat -> (adlen <= length ads)%nat ->
  xor_bytes (fst (shares_to_bytearr_2 ks)) (snd (shares_to_bytearr_2 ks)) =
  xor_bytes (fst (shares_to_bytearr_2 ks')) (snd (shares_to_bytearr_2 ks')) ->
  RomulusM.crypto_aead_encrypt_shared cs0 ms mlen ads adlen npubs ks =
  RomulusM.crypto_aead_encrypt_shared cs0 ms mlen ads adlen npubs ks'.
Proof.
  intros HC HM Hms Hads Hn Hlm Hla Hkey.
  destruct (shares_to_bytearr_2_blocks ks) as [Bk Bkm].
  destruct (shares_to_bytearr_2_blocks ks') as [Bk' Bkm'].
  unfold RomulusM.crypto_aead_encrypt_shared.
  destruct (shares_to_bytearr_2 ks) as [k km].
  destruct (shares_to_bytearr_2 ks') as [k' km'].
  cbn [fst snd] in *. cbv zeta.
  set (s0 := RomulusM.romulusm_init RomulusM.locals).
  assert (R0 : same_unmasked s0 s0).
  { unfold same_unmasked, unmasked. cbn. splits; reflexivity. }
  destruct (same_process_ad E HC HM k km k' km' Bk Bkm Bk' Bkm' Hkey
              s0 s0 ads adlen ms mlen npubs R0 Hads Hms Hla Hlm Hn) as (RA & TA & TA').
  set (sA := RomulusM.romulusm_process_ad s0 ads adlen ms mlen npubs k km) in *.
  set (sA' := RomulusM.romulusm_process_ad s0 ads adlen ms mlen npubs k' km') in *.
  assert (RA' := RA). destruct RA' as (A1 & A2 & A3 & A4 & A5 & A6 & A7).
  unfold unmasked in A7.
  unfold RomulusM.romulusm_generate_tag, generate_tag.
  rewrite (G_bytes _ A3), (G_bytes _ A4), (G_bytes _ A5), (G_bytes _ A6).
  assert (Htag : xor_bytes (map G_byte (state sA)) (map G_byte (state_m sA)) =
                 xor_bytes (map G_byte (state sA')) (map G_byte (state_m sA'))).
  { rewrite <- !map_G_byte_xor. now rewrite A7. }
  rewrite <- Htag.
  set (sG := mkctx (map G_byte (state sA)) (map G_byte (state_m sA)) (tk1 sA)
                   (rtk sA) (rtk_m sA)).
  set (sG' := mkctx (map G_byte (state sA')) (map G_byte (state_m sA')) (tk1 sA')
                    (rtk sA') (rtk_m sA')).
  assert (RG : same_unmasked sG sG').
  { unfold same_unmasked, unmasked, sG, sG'. cbn [tk1 state state_m].
    splits; auto using is_block_G. }
  assert (Hout := M_process_msg_same E HC HM k km k' km' Bk Bkm Bk' Bkm' Hkey
                    npubs sG sG' ms mlen Hn RG TA TA' Hms Hlm).
  destruct (RomulusM.romulusm_process_msg ms mlen sG ENCRYPT_MODE) as [sE c].
  destruct (RomulusM.romulusm_process_msg ms mlen sG' ENCRYPT_MODE) as [sE' c'].
  cbn [snd] in Hout. now subst c'.
Qed.

Lemma romulusm_encrypt_mask_independent_witness :
  let ms := [0x52; 0x6F; 0x6D; 0x75; 0x6C; 0x75; 0x73; 0x2D; 0x4D; 0x20;
             0x6D; 0x61; 0x73; 0x6B; 0x65; 0x64; 0x21; 0x00; 0xFF] in
  let ads := [0xA0; 0xA1; 0xA2] in
  let npubs := [0; 1; 2; 3; 4; 5; 6; 7; 8; 9; 10; 11; 12; 13; 14; 15] in
  RomulusM.crypto_aead_encrypt_shared (C := Toy.cipher) (zeros 40) ms 19 ads 3 npubs
    [(1, 2); (3, 4); (5, 6); (7, 8)] =
  RomulusM.crypto_aead_encrypt_shared (C := Toy.cipher) (zeros 40) ms 19 ads 3 npubs
    [(9, 10); (0, 7); (5, 6); (8, 7)].
Proof.
  apply (romulusm_encrypt_mask_independent (C := Toy.cipher) Toy.E (zeros 40)
           [0x52; 0x6F; 0x6D; 0x75; 0x6C; 0x75; 0x73; 0x2D; 0x4D; 0x20;
            0x6D; 0x61; 0x73; 0x6B; 0x65; 0x64; 0x21; 0x00; 0xFF]
           [0xA0; 0xA1; 0xA2]
           [0; 1; 2; 3; 4; 5; 6; 7; 8; 9; 10; 11; 12; 13; 14; 15]
           19 3 [(1, 2); (3, 4); (5, 6); (7, 8)] [(9, 10); (0, 7); (5, 6); (8, 7)]
           toy_cipher_blocks).
  - exact toy_masking_correct.
  - reflexivity.
  - reflexivity.
  - reflexivity.
  - cbn. lia.
  - cbn. lia.
  - reflexivity.
Defined.

(** ** The core reads its inputs up to their lengths *)

Lemma firstn_prefix (n len : nat) (p p' : list Z) :
  (n <= len)%nat -> firstn len p = firstn len p' -> firstn n p = firstn n p'.
Proof.
  intros Hn H.
  replace n with (Nat.min n len) by lia.
  rewrite <- !firstn_firstn. now rewrite H.
Qed.

Lemma skipn_prefix (a len : nat) (p p' : list Z) :
  (a <= len)%nat -> firstn len p = firstn len p' ->
  firstn (len - a) (skipn a p) = firstn (len - a) (skipn a p').
Proof.
  intros Ha H. rewrite !firstn_skipn_comm.
  replace (a + (len - a))%nat with len by lia. now rewrite H.
Qed.

Lemma xor_prefix_prefix n :
  forall st p p', firstn n p = firstn n p' -> xor_prefix n st p = xor_prefix n st p'.
Proof.
  induction n as [|n IH]; intros st p p' H; [ reflexivity | ].
  destruct st as [|x st]; [ reflexivity | ].
  destruct p as [|y p], p' as [|y' p']; try discriminate; [ reflexivity | ].
  cbn [firstn] in H. injection H as -> H.
  cbn [xor_prefix]. f_equal. now apply IH.
Qed.

Section Prefix.
Context {C : Skinny128}.

Lemma xor_state_prefix s (p p' : list Z) len :
  (16 <= len)%nat -> firstn len p = firstn len p' -> xor_state s p = xor_state s p'.
Proof. intros Hl H. unfold xor_state. now rewrite (firstn_prefix 16 len p p'). Qed.

Lemma xor_partial_prefix s (p p' : list Z) n :
  firstn n p = firstn n p' -> xor_partial s p n = xor_partial s p' n.
Proof. intros H. unfold xor_partial. now rewrite (xor_prefix_prefix n _ p p'). Qed.

Lemma pad_block_prefix (p p' : list Z) n :
  firstn n p = firstn n p' -> pad_block p n = pad_block p' n.
Proof. intros H. unfold pad_block. now rewrite H. Qed.

Lemma second_block_prefix (p p' : list Z) len :
  (32 <= len)%nat -> firstn len p = firstn len p' ->
  firstn 16 (skipn 16 p) = firstn 16 (skipn 16 p').
Proof.
  intros Hl H.
  apply (firstn_prefix 16 (len - 16)); [ lia | ].
  apply skipn_prefix; [ lia | assumption ].
Qed.

Lemma double_blocks_prefix fuel k km :
  forall s p p' len,
    firstn len p = firstn len p' ->
    let '(s1, p1, l1) := double_blocks fuel s p len k km in
    let '(s1', p1', l1') := double_blocks fuel s p' len k km in
    s1' = s1 /\ l1' = l1 /\ firstn l1 p1 = firstn l1 p1'.
Proof.
  induction fuel as [|fuel IH]; intros s p p' len H; cbn [double_blocks].
  - auto.
  - destruct (Nat.ltb_spec 32 len) as [Hlt|Hge]; [ | auto ].
    rewrite (xor_state_prefix _ p p' len) by (lia || assumption).
    rewrite (second_block_prefix p p' len) by (lia || assumption).
    apply IH. apply skipn_prefix; [ lia | assumption ].
Qed.

End Prefix.

(** Take the two loops of the goal through [double_blocks_prefix]. *)
Ltac prefix_loop :=
  match goal with
  | |- context [double_blocks ?f ?s ?p ?l ?k ?km] =>
      match goal with
      | |- context [double_blocks f s ?p' l k km] =>
          lazymatch p' with
          | p => fail
          | _ =>
              let H := fresh "H" in
              assert (H : firstn l p = firstn l p') by
                (first [ assumption
                       | reflexivity
                       | apply skipn_prefix; [ lia | assumption ] ]);
              generalize (double_blocks_prefix f k km s p p' l H);
              destruct (double_blocks f s p l k km) as [[? ?] ?];
              destruct (double_blocks f s p' l k km) as [[? ?] ?];
              intros (? & ? & ?); subst
          end
      end
  end.

(** The blocks left after a loop, read from two buffers with the same
    first bytes. *)
Ltac prefix_leaves :=
  repeat match goal with
    | H : firstn ?n ?p = firstn ?n ?q |- context [xor_state ?s ?p] =>
        rewrite (xor_state_prefix s p q n) by (lia || exact H)
    | H : firstn ?n ?p = firstn ?n ?q |- context [xor_partial ?s ?p ?n] =>
        rewrite (xor_partial_prefix s p q n) by exact H
    | H : firstn ?n ?p = firstn ?n ?q |- context [firstn 16 (skipn 16 ?p)] =>
        rewrite (second_block_prefix p q n) by (lia || exact H)
    | H : firstn ?n ?p = firstn ?n ?q |- context [pad_block (skipn 16 ?p) (?n - 16)] =>
        rewrite (pad_block_prefix (skipn 16 p) (skipn 16 q) (n - 16))
          by (apply skipn_prefix; [ lia | exact H ])
    | H : firstn ?n ?p = firstn ?n ?q |- context [pad_block ?p ?n] =>
        rewrite (pad_block_prefix p q n) by exact H
    | H : firstn ?n ?p = firstn ?n ?q |- context [firstn 16 ?p] =>
        rewrite (firstn_prefix 16 n p q) by (lia || exact H)
    end.

Lemma process_ad_prefix {C : Skinny128} s ad ad' adlen m m' mlen npub k km :
  firstn adlen ad = firstn adlen ad' ->
  firstn mlen m = firstn mlen m' ->
  RomulusM.romulusm_process_ad s ad adlen m mlen npub k km =
  RomulusM.romulusm_process_ad s ad' adlen m' mlen npub k km.
Proof.
  intros Ha Hm.
  unfold RomulusM.romulusm_process_ad. cbv zeta.
  prefix_loop.
  match goal with
  | |- context [(?n =? 32)%nat] =>
      destruct (Nat.eqb_spec n 32);
      [ | destruct (Nat.ltb_spec 16 n);
          [ | destruct (Nat.eqb_spec n 16);
              (destruct (Nat.leb_spec 16 mlen); [ destruct (Nat.ltb_spec 16 mlen) | ]) ] ]
  end.
  all: cbv beta iota; prefix_leaves.
  all: prefix_loop.
  all: match goal with
       | |- context [(?a =? 32)%nat] =>
           destruct (Nat.eqb_spec a 32);
           [ | destruct (Nat.ltb_spec 16 a);
               [ | destruct (Nat.eqb_spec a 16); [ | destruct (Nat.ltb_spec 0 a) ] ] ]
       end.
  all: cbv beta iota; prefix_leaves; reflexivity.
Qed.

(** ** The byte interface: from bytes to shares, through the cipher, and back *)

Lemma is_bytes_block_of_words a b c d : is_bytes (block_of_words a b c d) = true.
Proof.
  unfold block_of_words. repeat apply is_bytes_app; apply bytes_of_u32_bytes.
Qed.

Lemma rho_step_out_bytes ip mode s p :
  is_bytes (snd (rho_step ip mode s p)) = true.
Proof.
  destruct (rho_step_shape ip mode s p) as (a & b & c & ->). cbn [snd].
  apply is_bytes_block_of_words.
Qed.

Lemma last_block_in_bytes n :
  forall st stm inb, is_bytes (snd (last_block_in n st stm inb)) = true.
Proof.
  induction n as [|n IH]; intros st stm inb; [ reflexivity | ].
  destruct st as [|s st], stm as [|sm stm], inb as [|x inb]; try reflexivity.
  cbn [last_block_in]. specialize (IH st stm inb).
  destruct (last_block_in n st stm inb) as [st1 o]. cbn [snd] in *.
  cbn [is_bytes forallb]. apply andb_true_intro. split; [ | exact IH ].
  unfold out_byte. apply is_u8_u8.
Qed.

Lemma M_msg_blocks_bytes {C : Skinny128} fuel mode :
  forall s inb inlen out,
    is_bytes out = true ->
    is_bytes (snd (RomulusM.msg_blocks fuel mode s inb inlen out)) = true.
Proof.
  induction fuel as [|fuel IH]; intros s inb inlen out Ho; cbn [RomulusM.msg_blocks].
  - exact Ho.
  - destruct (16 <? inlen)%nat; [ | exact Ho ].
    assert (Hy := rho_step_out_bytes false mode (schedule_1_encrypt s) inb).
    destruct (rho_step false mode (schedule_1_encrypt s) inb) as [s1 y]. cbn [snd] in Hy.
    apply IH. now apply is_bytes_app.
Qed.

Lemma M_process_msg_bytes {C : Skinny128} inb inlen s mode :
  is_bytes (snd (RomulusM.romulusm_process_msg inb inlen s mode)) = true.
Proof.
  unfold RomulusM.romulusm_process_msg.
  set (s0 := if mode =? ENCRYPT_MODE then _ else _).
  destruct (0 <? inlen)%nat; [ | reflexivity ].
  assert (Hb := M_msg_blocks_bytes inlen mode (set_domain s0 36) inb inlen [] eq_refl).
  destruct (RomulusM.msg_blocks inlen mode (set_domain s0 36) inb inlen [])
    as [[[s1 inb1] inlen1] out1]. cbn [snd] in Hb.
  assert (Hl := last_block_in_bytes inlen1 (state (schedule_1_encrypt s1))
                  (state_m (schedule_1_encrypt s1)) inb1).
  destruct (last_block_in inlen1 (state (schedule_1_encrypt s1))
              (state_m (schedule_1_encrypt s1)) inb1) as [st o].
  cbn [snd] in *. now apply is_bytes_app.
Qed.

(** The round trip of Romulus-M on buffers longer than the message and the
    associated data, the decrypting call being handed another buffer with the
    same associated data. *)
Lemma romulusm_round_trip_buffers {C : Skinny128}
    (E : list Z -> list Z -> list Z -> list Z -> list Z)
    (ms ads ads' npubs : list Z) (ks ks' : list (Z * Z))
    (cs0 ms0 : list Z) (mlen adlen mlen0 : nat) :
  cipher_blocks C -> masking_correct C E ->
  is_bytes ms = true -> is_bytes ads = true -> is_block npubs = true ->
  xor_bytes (fst (shares_to_bytearr_2 ks)) (snd (shares_to_bytearr_2 ks)) =
  xor_bytes (fst (shares_to_bytearr_2 ks')) (snd (shares_to_bytearr_2 ks')) ->
  (mlen <= length ms)%nat -> (adlen <= length ads)%nat ->
  firstn adlen ads = firstn adlen ads' ->
  (mlen + 16 <= length cs0)%nat -> (mlen <= length ms0)%nat ->
  let r := RomulusM.crypto_aead_encrypt_shared cs0 ms mlen ads adlen npubs ks in
  ret r = 0 /\ outlen r = (mlen + 16)%nat /\ length (outbuf r) = length cs0 /\
  is_bytes (firstn (mlen + 16) (outbuf r)) = true /\
  skipn (mlen + 16) (outbuf r) = skipn (mlen + 16) cs0 /\
  forall junk,
    RomulusM.crypto_aead_decrypt_shared ms0 mlen0
      (firstn (mlen + 16) (outbuf r) ++ junk) (outlen r) ads' adlen npubs ks' =
    mkout 0 mlen (firstn mlen ms ++ skipn mlen ms0).
Proof.
  intros HC HM Hms Hads Hn Hkey Hlm Hla Hpre Hcs Hms0.
  destruct (shares_to_bytearr_2_blocks ks) as [Bk Bkm].
  destruct (shares_to_bytearr_2_blocks ks') as [Bk' Bkm'].
  unfold RomulusM.crypto_aead_encrypt_shared, RomulusM.crypto_aead_decrypt_shared,
    RomulusM.decrypt_passes.
  destruct (shares_to_bytearr_2 ks) as [k km].
  destruct (shares_to_bytearr_2 ks') as [k' km'].
  cbn [fst snd] in *. cbv zeta.
  set (s0 := RomulusM.romulusm_init RomulusM.locals).
  (* encryption: the pass over the associated data and the message *)
  assert (R0 : same_unmasked s0 s0).
  { unfold same_unmasked, unmasked. cbn. splits; reflexivity. }
  destruct (same_process_ad E HC HM k km k km Bk Bkm Bk Bkm eq_refl
              s0 s0 ads adlen ms mlen npubs R0 Hads Hms Hla Hlm Hn) as (RA & TA & _).
  set (sA := RomulusM.romulusm_process_ad s0 ads adlen ms mlen npubs k km) in *.
  destruct RA as (_ & BA0 & BA1 & BA2 & _ & _ & _).
  unfold RomulusM.romulusm_generate_tag, generate_tag.
  rewrite (G_bytes _ BA1), (G_bytes _ BA2).
  set (tag := xor_bytes (map G_byte (state sA)) (map G_byte (state_m sA))).
  set (sG := mkctx (map G_byte (state sA)) (map G_byte (state_m sA)) (tk1 sA) (rtk sA) (rtk_m sA)).
  assert (Htag : is_block tag = true) by (unfold tag; auto using is_block_xor, is_block_G).
  (* the decrypting run, up to its message pass *)
  destruct (tk_schedule_23 npubs k' km') as [r23 r3m] eqn:ET.
  set (sD0 := mkctx (state s0) (state_m s0) (tk1 s0) r23 r3m).
  assert (Hrt := M_process_msg_round_trip E HC HM k km k' km' Bk Bkm Bk' Bkm' Hkey
                   npubs sG sD0 ms mlen tag (skipn (mlen + 16) cs0) Hn
                   (is_block_G _ BA1) (is_block_G _ BA2) eq_refl TA
                   eq_refl eq_refl (eq_sym ET) Hms Hlm).
  assert (Hcb := M_process_msg_bytes ms mlen sG ENCRYPT_MODE).
  destruct (RomulusM.romulusm_process_msg ms mlen sG ENCRYPT_MODE) as [sE c] eqn:EE.
  destruct Hrt as (Hc & Hrt).
  cbn [ret outlen outbuf].
  (* the ciphertext buffer *)
  assert (Hbuf : write_bytes (write_bytes cs0 mlen tag) 0 c = c ++ tag ++ skipn (mlen + 16) cs0).
  { rewrite write_bytes_front. f_equal. unfold write_bytes.
    rewrite skipn_app, length_firstn, Hc.
    replace (Init.Nat.min mlen (length cs0)) with mlen by lia.
    rewrite Nat.sub_diag, skipn_O.
    rewrite (skipn_all2 (firstn mlen cs0)) by (rewrite length_firstn; lia).
    cbn [app]. do 2 f_equal. apply is_block_length in Htag. now rewrite Htag. }
  rewrite Hbuf.
  assert (Ltag := is_block_length tag Htag).
  split; [ reflexivity | ]. split; [ reflexivity | ].
  split.
  { rewrite !length_app, length_skipn, Hc, Ltag. lia. }
  split.
  { rewrite app_assoc, firstn_app, length_app, Hc, Ltag, Nat.sub_diag, firstn_O, app_nil_r.
    rewrite firstn_all2 by (rewrite length_app, Hc, Ltag; lia).
    apply is_bytes_app; [ | now apply is_block_bytes ].
    exact Hcb. }
  split.
  { rewrite app_assoc, skipn_app, length_app, Hc, Ltag, Nat.sub_diag, skipn_O.
    rewrite skipn_all2 by (rewrite length_app, Hc, Ltag; lia). reflexivity. }
  intros junk.
  assert (Hfront : firstn (mlen + 16) (c ++ tag ++ skipn (mlen + 16) cs0) = c ++ tag).
  { rewrite app_assoc, firstn_app, length_app, Hc, Ltag, Nat.sub_diag, firstn_O, app_nil_r.
    apply firstn_all2. rewrite length_app, Hc, Ltag. lia. }
  rewrite Hfront, <- app_assoc.
  assert (Hrt' := M_process_msg_round_trip E HC HM k km k' km' Bk Bkm Bk' Bkm' Hkey
                    npubs sG sD0 ms mlen tag junk Hn
                    (is_block_G _ BA1) (is_block_G _ BA2) eq_refl TA
                    eq_refl eq_refl (eq_sym ET) Hms Hlm).
  rewrite EE in Hrt'. destruct Hrt' as (_ & Hrt'). clear Hrt. rename Hrt' into Hrt.
  unfold TAGBYTES.
  replace (mlen + 16 <? 16)%nat with false by (symmetry; apply Nat.ltb_ge; lia).
  replace (mlen + 16 - 16)%nat with mlen by lia.
  destruct (RomulusM.romulusm_process_msg (c ++ tag ++ junk) mlen sD0
              DECRYPT_MODE) as [sD out] eqn:ED.
  cbn [snd] in Hrt. subst out.
  assert (Hw : write_bytes ms0 0 (firstn mlen ms) = firstn mlen ms ++ skipn mlen ms0).
  { rewrite write_bytes_front. now rewrite length_firstn, Nat.min_l by lia. }
  rewrite Hw.
  (* decryption: the pass over the associated data and the plaintext *)
  rewrite (process_ad_prefix (RomulusM.romulusm_init sD) ads' ads adlen
             (firstn mlen ms ++ skipn mlen ms0) ms mlen npubs k' km').
  2: { now symmetry. }
  2: { rewrite firstn_app, length_firstn, Nat.min_l, Nat.sub_diag, firstn_O, app_nil_r by lia.
       now rewrite firstn_firstn, Nat.min_id. }
  assert (R1 : same_unmasked s0 (RomulusM.romulusm_init sD)).
  { unfold same_unmasked, unmasked. cbn. splits; reflexivity. }
  destruct (same_process_ad E HC HM k km k' km' Bk Bkm Bk' Bkm' Hkey
              s0 (RomulusM.romulusm_init sD) ads adlen ms mlen npubs R1 Hads Hms
              Hla Hlm Hn) as (RB & _ & _).
  fold sA in RB.
  set (sB := RomulusM.romulusm_process_ad (RomulusM.romulusm_init sD) ads adlen ms
               mlen npubs k' km') in *.
  destruct RB as (_ & _ & _ & _ & BB1 & BB2 & HU). unfold unmasked in HU.
  unfold RomulusM.romulusm_verify_tag, verify_tag.
  rewrite (G_bytes _ BB1), (G_bytes _ BB2).
  f_equal.
  rewrite accumulate_diff_firstn.
  replace (firstn 16 (skipn mlen (c ++ tag ++ junk))) with tag.
  - apply accumulate_diff_zero; auto using is_block_G.
    unfold tag. rewrite <- !map_G_byte_xor. now rewrite HU.
  - rewrite skipn_app, Hc, Nat.sub_diag, skipn_O.
    rewrite <- Hc at 1. rewrite skipn_all. cbn [app].
    symmetry. apply firstn_block_app. now apply is_block_length.
Qed.

(** *** Arrays of words and their bytes *)

Lemma length_bytes_of_words ws : length (bytes_of_words ws) = (4 * length ws)%nat.
Proof.
  unfold bytes_of_words. induction ws as [|w ws IH]; [ reflexivity | ].
  cbn [flat_map length]. rewrite length_app, IH. cbn [bytes_of_u32 length]. lia.
Qed.

Lemma is_bytes_bytes_of_words ws : is_bytes (bytes_of_words ws) = true.
Proof.
  unfold bytes_of_words. induction ws as [|w ws IH]; [ reflexivity | ].
  cbn [flat_map]. apply is_bytes_app; [ apply bytes_of_u32_bytes | exact IH ].
Qed.

Lemma bytes_of_words_app a b :
  bytes_of_words (a ++ b) = bytes_of_words a ++ bytes_of_words b.
Proof. unfold bytes_of_words. apply flat_map_app. Qed.

Lemma firstn_app_exact (a b : list Z) n : length a = n -> firstn n (a ++ b) = a.
Proof.
  intros <-. rewrite firstn_app, Nat.sub_diag, firstn_O, app_nil_r. apply firstn_all.
Qed.

Lemma firstn_app_more (a b : list Z) n r :
  length a = n -> firstn (n + r) (a ++ b) = a ++ firstn r b.
Proof.
  intros <-. rewrite firstn_app. f_equal.
  - apply firstn_all2. lia.
  - f_equal. lia.
Qed.

(** The first [r] bytes of a stored word, as the two loops over the last
    word read them. *)
Lemma firstn_bytes_of_u32 w r :
  (r < 4)%nat ->
  firstn r (bytes_of_u32 w) =
  map (fun i => u8 (Z.land (Z.shiftr w (8 * Z.of_nat i)) 0xff)) (seq 0 r).
Proof.
  intros Hr. unfold bytes_of_u32.
  assert (U : forall x, u8 (Z.land x 255) = Z.land x 255).
  { intros x. rewrite u8_land. change 255 with (Z.ones 8). Z.bitblast. }
  destruct r as [|[|[|[|r]]]]; try lia;
    cbn [firstn seq map Z.of_nat Z.mul Pos.of_succ_nat Pos.succ Pos.mul];
    rewrite ?U, ?Z.shiftr_0_r; reflexivity.
Qed.

Lemma shares_to_bytearr_image ws n :
  (n / 4 <= length ws)%nat ->
  ((n mod 4 <> 0)%nat -> (n / 4 < length ws)%nat) ->
  shares_to_bytearr ws n = firstn n (bytes_of_words ws).
Proof.
  intros Hq Hr. unfold shares_to_bytearr. cbv zeta.
  set (q := (n / 4)%nat) in *. set (r := (n mod 4)%nat) in *.
  assert (Hdiv : n = (4 * q + r)%nat) by apply Nat.div_mod_eq.
  assert (Hlt : (r < 4)%nat) by (apply Nat.mod_upper_bound; lia).
  rewrite stored_bytes_ext.
  assert (Ews := firstn_skipn q ws).
  assert (Lq : length (firstn q ws) = q) by (rewrite length_firstn; lia).
  revert Ews Lq. generalize (firstn q ws), (skipn q ws). intros A B Ews Lq.
  subst ws.
  rewrite (flat_map_word_at bytes_of_u32) by exact Lq.
  rewrite bytes_of_words_app.
  assert (Lb : length (bytes_of_words A) = (4 * q)%nat)
    by (rewrite length_bytes_of_words, Lq; reflexivity).
  rewrite Hdiv. rewrite (firstn_app_more _ _ (4 * q) r) by exact Lb.
  unfold bytes_of_words at 1. f_equal.
  destruct (Nat.eqb_spec r 0) as [E|E].
  - rewrite E. reflexivity.
  - specialize (Hr E). rewrite length_app in Hr.
    destruct B as [|w B]; [ cbn [length] in Hr; lia | ].
    rewrite word_at_app_here by exact Lq.
    unfold bytes_of_words. cbn [flat_map].
    rewrite firstn_app.
    replace (r - length (bytes_of_u32 w))%nat with 0%nat
      by (cbn [bytes_of_u32 length]; lia).
    rewrite firstn_O, app_nil_r.
    symmetry. now apply firstn_bytes_of_u32.
Qed.

Lemma words_of_bytes_image b :
  is_bytes b = true -> (length b mod 4 = 0)%nat ->
  bytes_of_words (words_of_bytes b) = b.
Proof.
  intros Hb Hl. unfold bytes_of_words, words_of_bytes.
  assert (Hdiv := Nat.div_mod_eq (length b) 4).
  rewrite bytes_of_loaded_words by (assumption || lia).
  apply firstn_all2. lia.
Qed.

(** The bytes of a packed array begin with the bytes packed. *)
Lemma packed_image m ms0 :
  is_bytes m = true -> room_for (length m) ms0 ->
  firstn (length m) (bytes_of_words (pack_bytes m ms0)) = m /\
  (length m <= length (bytes_of_words (pack_bytes m ms0)))%nat.
Proof.
  intros Hm [Hl Hr].
  rewrite pack_bytes_value by (try assumption; intros E; now apply Hr).
  cbv zeta.
  set (q := (length m / 4)%nat) in *. set (r := (length m mod 4)%nat) in *.
  assert (Hdiv : length m = (4 * q + r)%nat) by apply Nat.div_mod_eq.
  assert (Hlt : (r < 4)%nat) by (apply Nat.mod_upper_bound; lia).
  rewrite bytes_of_words_app.
  assert (EA : bytes_of_words (map (load32 m) (seq 0 q)) = firstn (4 * q) m)
    by (apply bytes_of_loaded_words; [ assumption | lia ]).
  assert (LA : length (bytes_of_words (map (load32 m) (seq 0 q))) = (4 * q)%nat)
    by (rewrite length_bytes_of_words, length_map, length_seq; reflexivity).
  rewrite length_app, LA.
  destruct (Nat.eqb_spec r 0) as [E|E].
  - split; [ | lia ].
    replace (length m) with (4 * q)%nat at 1 by lia.
    rewrite (firstn_app_exact _ _ (4 * q)) by exact LA.
    rewrite EA. apply firstn_all2. lia.
  - destruct (Hr E) as [Hroom Hw].
    split.
    + rewrite Hdiv at 1. rewrite (firstn_app_more _ _ (4 * q) r) by exact LA.
      rewrite EA.
      transitivity (firstn (4 * q) m ++ skipn (4 * q) m); [ | apply firstn_skipn ].
      f_equal. unfold bytes_of_words. cbn [flat_map].
      rewrite firstn_app.
      replace (r - length (bytes_of_u32 (or_tail m q r (word_at ms0 q))))%nat
        with 0%nat by (cbn [bytes_of_u32 length]; lia).
      rewrite firstn_O, app_nil_r.
      rewrite firstn_bytes_of_u32 by exact Hlt.
      rewrite or_tail_bytes by assumption.
      now apply map_byte_at_skipn.
    + rewrite length_bytes_of_words. cbn [length]. lia.
Qed.

Lemma packed_npub_image npub npubs0 :
  is_block npub = true -> length npubs0 = 4%nat ->
  bytes_of_words (pack_npub npub npubs0) = npub.
Proof.
  intros Hn Hl. rewrite pack_npub_value by (assumption || lia).
  rewrite skipn_all2 by lia. rewrite app_nil_r.
  unfold bytes_of_words.
  rewrite bytes_of_loaded_words
    by (try (now apply is_block_bytes); rewrite (is_block_length npub Hn); lia).
  apply firstn_all2. rewrite (is_block_length npub Hn). lia.
Qed.

Lemma split_shares_xor k rnd :
  is_block k = true -> is_block rnd = true ->
  xor_bytes (fst (shares_to_bytearr_2 (split_shares k rnd)))
            (snd (shares_to_bytearr_2 (split_shares k rnd))) = k.
Proof.
  intros Hk Hr.
  assert (E2 : snd (shares_to_bytearr_2 (split_shares k rnd)) = rnd).
  { unfold shares_to_bytearr_2, split_shares. cbn [snd seq map flat_map nth fst].
    rewrite app_nil_r. apply (block_words rnd Hr). }
  assert (E1 : fst (shares_to_bytearr_2 (split_shares k rnd)) = xor_bytes rnd k).
  { rewrite <- (XOR_BLOCK_bytes rnd k Hr Hk).
    unfold shares_to_bytearr_2, split_shares, Macros.XOR_BLOCK, block_of_words.
    cbn [snd seq map flat_map nth fst]. rewrite app_nil_r. reflexivity. }
  rewrite E1, E2, (xor_bytes_comm rnd k).
  apply xor_bytes_cancel.
  now rewrite (is_block_length rnd Hr), (is_block_length k Hk).
Qed.

(** X15.  Round trip of Romulus-M through the byte interface.  The key is
    split with any random bytes on either side; the arrays handed to
    [generate_shares_encrypt] and [generate_shares_decrypt] have room for the
    bytes packed into them, the array for the ciphertext has [mlen + 16]
    bytes and the array for the plaintext [mlen].  Then encryption returns 0
    and [combine_shares_encrypt] yields [mlen + 16] bytes; packed again and
    decrypted with the same nonce and associated data they give return
    value 0, length [mlen], and [combine_shares_decrypt] yields the
    message. *)
Theorem romulusm_api_round_trip {C : Skinny128}
    (E : list Z -> list Z -> list Z -> list Z -> list Z)
    (m ad npub k rnd rnd' : list Z)
    (ms0 ads0 npubs0 cs0 cs1 ads1 npubs1 ms1 : list Z) (mlen0 : nat) :
  cipher_blocks C -> masking_correct C E ->
  is_bytes m = true -> is_bytes ad = true -> is_block npub = true ->
  is_block k = true -> is_block rnd = true -> is_block rnd' = true ->
  room_for (length m) ms0 -> room_for (length ad) ads0 -> length npubs0 = 4%nat ->
  (length m + 16 <= 4 * length cs0)%nat ->
  room_for (length m + 16) cs1 -> room_for (length ad) ads1 ->
  length npubs1 = 4%nat -> (length m <= 4 * length ms1)%nat ->
  let sh := generate_shares_encrypt m ms0 ad ads0 npub npubs0 k rnd in
  let r := RomulusM.crypto_aead_encrypt_shared (bytes_of_words cs0)
             (bytes_of_words (sh_ms sh)) (length m)
             (bytes_of_words (sh_ads sh)) (length ad)
             (bytes_of_words (sh_npubs sh)) (sh_ks sh) in
  let c := combine_shares_encrypt (words_of_bytes (outbuf r)) (outlen r) in
  let sh' := generate_shares_decrypt c cs1 ad ads1 npub npubs1 k rnd' in
  let r' := RomulusM.crypto_aead_decrypt_shared (bytes_of_words ms1) mlen0
              (bytes_of_words (sh_ms sh')) (length c)
              (bytes_of_words (sh_ads sh')) (length ad)
              (bytes_of_words (sh_npubs sh')) (sh_ks sh') in
  ret r = 0 /\ length c = (length m + 16)%nat /\
  ret r' = 0 /\ outlen r' = length m /\
  combine_shares_decrypt (words_of_bytes (outbuf r')) (outlen r') = m.
Proof.
  intros HC HM Hm Had Hn Hk Hrnd Hrnd' Rm Ra Ln Lcs Rc Ra1 Ln1 Lms1.
  cbv zeta. unfold generate_shares_encrypt, generate_shares_decrypt.
  cbn [sh_ms sh_ads sh_npubs sh_ks].
  rewrite !packed_npub_image by assumption.
  destruct (packed_image m ms0 Hm Rm) as [Pm Lm].
  destruct (packed_image ad ads0 Had Ra) as [Pa La].
  destruct (packed_image ad ads1 Had Ra1) as [Pa1 La1].
  set (msI := bytes_of_words (pack_bytes m ms0)) in *.
  set (adsI := bytes_of_words (pack_bytes ad ads0)) in *.
  set (adsI1 := bytes_of_words (pack_bytes ad ads1)) in *.
  assert (Hkey : xor_bytes (fst (shares_to_bytearr_2 (split_shares k rnd)))
                           (snd (shares_to_bytearr_2 (split_shares k rnd))) =
                 xor_bytes (fst (shares_to_bytearr_2 (split_shares k rnd')))
                           (snd (shares_to_bytearr_2 (split_shares k rnd'))))
    by (now rewrite !split_shares_xor).
  assert (RT := romulusm_round_trip_buffers E msI adsI adsI1 npub
                  (split_shares k rnd) (split_shares k rnd')
                  (bytes_of_words cs0) (bytes_of_words ms1) (length m) (length ad) mlen0
                  HC HM (is_bytes_bytes_of_words _) (is_bytes_bytes_of_words _) Hn Hkey
                  Lm La ltac:(now rewrite Pa, Pa1)
                  ltac:(rewrite length_bytes_of_words; lia)
                  ltac:(rewrite length_bytes_of_words; lia)).
  cbv zeta in RT.
  set (r := RomulusM.crypto_aead_encrypt_shared (bytes_of_words cs0) msI (length m)
              adsI (length ad) npub (split_shares k rnd)) in *.
  destruct RT as (R0 & R1 & R2 & R3 & R4 & RD).
  (* the ciphertext bytes *)
  assert (Bout : is_bytes (outbuf r) = true).
  { rewrite <- (firstn_skipn (length m + 16) (outbuf r)).
    apply is_bytes_app; [ exact R3 | ].
    rewrite R4. apply is_bytes_skipn, is_bytes_bytes_of_words. }
  assert (Lout : length (outbuf r) = (4 * length cs0)%nat)
    by (now rewrite R2, length_bytes_of_words).
  assert (Ec : combine_shares_encrypt (words_of_bytes (outbuf r)) (outlen r) =
               firstn (length m + 16) (outbuf r)).
  { unfold combine_shares_encrypt. rewrite R1.
    assert (Lw : length (words_of_bytes (outbuf r)) = length cs0).
    { unfold words_of_bytes. rewrite length_map, length_seq, Lout.
      rewrite Nat.mul_comm. apply Nat.div_mul. lia. }
    assert (Hdiv := Nat.div_mod_eq (length m + 16) 4).
    assert (Hlt := Nat.mod_upper_bound (length m + 16) 4 ltac:(lia)).
    rewrite shares_to_bytearr_image by (rewrite Lw; lia).
    rewrite words_of_bytes_image; [ reflexivity | exact Bout | ].
    rewrite Lout, Nat.mul_comm. apply Nat.Div0.mod_mul. }
  rewrite Ec.
  set (c := firstn (length m + 16) (outbuf r)) in *.
  assert (Lc : length c = (length m + 16)%nat)
    by (unfold c; rewrite length_firstn; lia).
  rewrite Lc.
  assert (Rc' : room_for (length c) cs1) by now rewrite Lc.
  destruct (packed_image c cs1 R3 Rc') as [Pc Lcc].
  rewrite Lc in Pc.
  (* the decrypting call *)
  specialize (RD (skipn (length m + 16) (bytes_of_words (pack_bytes c cs1)))).
  rewrite <- Pc in RD at 1. rewrite firstn_skipn, R1 in RD.
  rewrite RD. cbn [ret outlen outbuf].
  split; [ exact R0 | ]. split; [ reflexivity | ]. split; [ reflexivity | ].
  split; [ reflexivity | ].
  (* the plaintext bytes *)
  rewrite Pm.
  unfold combine_shares_decrypt.
  set (o := m ++ skipn (length m) (bytes_of_words ms1)).
  assert (Lo : length o = (4 * length ms1)%nat).
  { unfold o. rewrite length_app, length_skipn, length_bytes_of_words. lia. }
  assert (Bo : is_bytes o = true).
  { unfold o. apply is_bytes_app; [ assumption | ].
    apply is_bytes_skipn, is_bytes_bytes_of_words. }
  assert (Lw : length (words_of_bytes o) = length ms1).
  { unfold words_of_bytes. rewrite length_map, length_seq, Lo.
    rewrite Nat.mul_comm. apply Nat.div_mul. lia. }
  assert (Hdiv := Nat.div_mod_eq (length m) 4).
  assert (Hlt := Nat.mod_upper_bound (length m) 4 ltac:(lia)).
  rewrite shares_to_bytearr_image by (rewrite Lw; lia).
  rewrite words_of_bytes_image;
    [ | exact Bo | rewrite Lo, Nat.mul_comm; apply Nat.Div0.mod_mul ].
  unfold o. now apply firstn_app_exact.
Qed.

Lemma romulusm_api_round_trip_witness :
  let m := [0x52; 0x6F; 0x6D; 0x75; 0x6C; 0x75; 0x73; 0x2D; 0x4D; 0x20;
            0x6D; 0x61; 0x73; 0x6B; 0x65; 0x64; 0x21; 0x00; 0xFF] in
  let ad := [0xA0; 0xA1; 0xA2] in
  let npub := [0; 1; 2; 3; 4; 5; 6; 7; 8; 9; 10; 11; 12; 13; 14; 15] in
  let k := repeat 0x11 16 in
  let sh := generate_shares_encrypt m [1; 2; 3; 4; 0; 6; 0x77] ad [0xAB000000; 5; 6]
              npub [9; 9; 9; 9] k (repeat 0x5A 16) in
  let r := RomulusM.crypto_aead_encrypt_shared (C := Toy.cipher)
             (bytes_of_words (repeat 0xDEADBEEF 9))
             (bytes_of_words (sh_ms sh)) (length m)
             (bytes_of_words (sh_ads sh)) (length ad)
             (bytes_of_words (sh_npubs sh)) (sh_ks sh) in
  let c := combine_shares_encrypt (words_of_bytes (outbuf r)) (outlen r) in
  let sh' := generate_shares_decrypt c (repeat 0 10) ad [0; 1; 2] npub [1; 2; 3; 4] k
               (repeat 0xC3 16) in
  let r' := RomulusM.crypto_aead_decrypt_shared (C := Toy.cipher)
              (bytes_of_words (repeat 0x01020304 5)) 77
              (bytes_of_words (sh_ms sh')) (length c)
              (bytes_of_words (sh_ads sh')) (length ad)
              (bytes_of_words (sh_npubs sh')) (sh_ks sh') in
  ret r = 0 /\ length c = (length m + 16)%nat /\
  ret r' = 0 /\ outlen r' = length m /\
  combine_shares_decrypt (words_of_bytes (outbuf r')) (outlen r') = m.
Proof.
  apply (romulusm_api_round_trip (C := Toy.cipher) Toy.E
           [0x52; 0x6F; 0x6D; 0x75; 0x6C; 0x75; 0x73; 0x2D; 0x4D; 0x20;
            0x6D; 0x61; 0x73; 0x6B; 0x65; 0x64; 0x21; 0x00; 0xFF]
           [0xA0; 0xA1; 0xA2]
           [0; 1; 2; 3; 4; 5; 6; 7; 8; 9; 10; 11; 12; 13; 14; 15]
           (repeat 0x11 16) (repeat 0x5A 16) (repeat 0xC3 16)
           [1; 2; 3; 4; 0; 6; 0x77] [0xAB000000; 5; 6] [9; 9; 9; 9]
           (repeat 0xDEADBEEF 9) (repeat 0 10) [0; 1; 2] [1; 2; 3; 4]
           (repeat 0x01020304 5) 77%nat
           toy_cipher_blocks toy_masking_correct).
  - reflexivity.
  - reflexivity.
  - reflexivity.
  - reflexivity.
  - reflexivity.
  - reflexivity.
  - split; [ cbn; lia | intros _; split; [ cbn; lia | reflexivity ] ].
  - split; [ cbn; lia | intros _; split; [ cbn; lia | reflexivity ] ].
  - reflexivity.
  - cbn. lia.
  - split; [ cbn; lia | intros _; split; [ cbn; lia | reflexivity ] ].
  - split; [ cbn; lia | intros _; split; [ cbn; lia | reflexivity ] ].
  - reflexivity.
  - cbn. lia.
Defined.

Lemma last_block_in_prefix n :
  forall st stm (inb inb' : list Z),
    firstn n inb = firstn n inb' ->
    last_block_in n st stm inb = last_block_in n st stm inb'.
Proof.
  induction n as [|n IH]; intros st stm inb inb' H; [ reflexivity | ].
  destruct st as [|s st], stm as [|sm stm]; try reflexivity.
  destruct inb as [|x inb], inb' as [|x' inb']; try discriminate; [ reflexivity | ].
  cbn [firstn] in H. injection H as -> H.
  cbn [last_block_in]. now rewrite (IH st stm inb inb' H).
Qed.

Lemma rho_step_prefix ip mode s (p p' : list Z) len :
  (16 <= len)%nat -> firstn len p = firstn len p' ->
  rho_step ip mode s p = rho_step ip mode s p'.
Proof.
  intros Hl H. unfold rho_step, rho_store.
  now rewrite (firstn_prefix 16 len p p').
Qed.

Lemma M_msg_blocks_prefix {C : Skinny128} fuel mode :
  forall s (inb inb' : list Z) inlen out,
    firstn inlen inb = firstn inlen inb' ->
    let '(s1, p1, l1, o1) := RomulusM.msg_blocks fuel mode s inb inlen out in
    let '(s1', p1', l1', o1') := RomulusM.msg_blocks fuel mode s inb' inlen out in
    s1' = s1 /\ l1' = l1 /\ o1' = o1 /\ firstn l1 p1 = firstn l1 p1'.
Proof.
  induction fuel as [|fuel IH]; intros s inb inb' inlen out H; cbn [RomulusM.msg_blocks].
  - auto.
  - destruct (Nat.ltb_spec 16 inlen) as [Hlt|Hge]; [ | auto ].
    rewrite (rho_step_prefix false mode _ inb inb' inlen) by (lia || assumption).
    destruct (rho_step false mode (schedule_1_encrypt s) inb') as [s1 y].
    apply IH. apply skipn_prefix; [ lia | assumption ].
Qed.

Lemma M_process_msg_prefix {C : Skinny128} (inb inb' : list Z) inlen s mode :
  firstn (inlen + 16) inb = firstn (inlen + 16) inb' ->
  RomulusM.romulusm_process_msg inb inlen s mode =
  RomulusM.romulusm_process_msg inb' inlen s mode.
Proof.
  intros H. unfold RomulusM.romulusm_process_msg.
  assert (Ht : firstn TAGBYTES (skipn inlen inb) = firstn TAGBYTES (skipn inlen inb')).
  { unfold TAGBYTES. replace 16%nat with (inlen + 16 - inlen)%nat by lia.
    apply skipn_prefix; [ lia | assumption ]. }
  rewrite Ht.
  set (s0 := if mode =? ENCRYPT_MODE then _ else _).
  destruct (0 <? inlen)%nat; [ | reflexivity ].
  assert (Hp : firstn inlen inb = firstn inlen inb')
    by (apply (firstn_prefix inlen (inlen + 16)); [ lia | assumption ]).
  assert (Hb := M_msg_blocks_prefix inlen mode (set_domain s0 36) inb inb' inlen [] Hp).
  destruct (RomulusM.msg_blocks inlen mode (set_domain s0 36) inb inlen [])
    as [[[s1 p1] l1] o1].
  destruct (RomulusM.msg_blocks inlen mode (set_domain s0 36) inb' inlen [])
    as [[[s1' p1'] l1'] o1'].
  destruct Hb as (-> & -> & -> & Hq).
  now rewrite (last_block_in_prefix l1 _ _ p1 p1' Hq).
Qed.

Lemma M_process_msg_encrypt_prefix {C : Skinny128} (inb inb' : list Z) inlen s :
  firstn inlen inb = firstn inlen inb' ->
  RomulusM.romulusm_process_msg inb inlen s ENCRYPT_MODE =
  RomulusM.romulusm_process_msg inb' inlen s ENCRYPT_MODE.
Proof.
  intros Hp. unfold RomulusM.romulusm_process_msg.
  change (ENCRYPT_MODE =? ENCRYPT_MODE) with true. cbv iota.
  destruct (0 <? inlen)%nat; [ | reflexivity ].
  assert (Hb := M_msg_blocks_prefix inlen ENCRYPT_MODE
                  (set_domain (set_tk1 s tk1_init) 36) inb inb' inlen [] Hp).
  destruct (RomulusM.msg_blocks inlen ENCRYPT_MODE (set_domain (set_tk1 s tk1_init) 36)
              inb inlen []) as [[[s1 p1] l1] o1].
  destruct (RomulusM.msg_blocks inlen ENCRYPT_MODE (set_domain (set_tk1 s tk1_init) 36)
              inb' inlen []) as [[[s1' p1'] l1'] o1'].
  destruct Hb as (-> & -> & -> & Hq).
  now rewrite (last_block_in_prefix l1 _ _ p1 p1' Hq).
Qed.

(** X16.  The wrapper of Romulus-M reads its input arrays up to the lengths
    it is given and no further: [crypto_aead_encrypt_shared] on two message
    arrays with the same first [mlen] bytes and two arrays with the same
    first [adlen] bytes of associated data leaves the same outcome, and so
    does [crypto_aead_decrypt_shared] on two ciphertext arrays with the same
    first [clen] bytes. *)
Theorem romulusm_reads_up_to_lengths {C : Skinny128}
    (cs0 ms ms' ads ads' npubs : list Z) (mlen adlen : nat) (ks : list (Z * Z))
    (ms0 cs cs' : list Z) (mlen0 clen : nat) :
  firstn mlen ms = firstn mlen ms' ->
  firstn adlen ads = firstn adlen ads' ->
  firstn clen cs = firstn clen cs' ->
  RomulusM.crypto_aead_encrypt_shared cs0 ms mlen ads adlen npubs ks =
  RomulusM.crypto_aead_encrypt_shared cs0 ms' mlen ads' adlen npubs ks /\
  RomulusM.crypto_aead_decrypt_shared ms0 mlen0 cs clen ads adlen npubs ks =
  RomulusM.crypto_aead_decrypt_shared ms0 mlen0 cs' clen ads' adlen npubs ks.
Proof.
  intros Hm Ha Hc. split.
  - unfold RomulusM.crypto_aead_encrypt_shared.
    destruct (shares_to_bytearr_2 ks) as [k km]. cbv zeta.
    rewrite (process_ad_prefix _ ads ads' adlen ms ms' mlen npubs k km Ha Hm).
    destruct (RomulusM.romulusm_generate_tag _) as [sG tag].
    now rewrite (M_process_msg_encrypt_prefix ms ms' mlen sG Hm).
  - unfold RomulusM.crypto_aead_decrypt_shared.
    destruct (Nat.ltb_spec clen TAGBYTES) as [Hlt|Hge]; [ reflexivity | ].
    unfold TAGBYTES in *. cbv zeta.
    unfold RomulusM.decrypt_passes.
    destruct (shares_to_bytearr_2 ks) as [k km]. cbv zeta.
    destruct (tk_schedule_23 npubs k km) as [r23 r3m].
    rewrite (M_process_msg_prefix cs cs' (clen - 16))
      by (replace (clen - 16 + 16)%nat with clen by lia; exact Hc).
    destruct (RomulusM.romulusm_process_msg cs' (clen - 16) _ DECRYPT_MODE) as [sD out].
    rewrite (process_ad_prefix _ ads ads' adlen _ _ (clen - 16) npubs k km Ha eq_refl).
    unfold RomulusM.romulusm_verify_tag, verify_tag.
    rewrite (accumulate_diff_firstn _ _ (skipn (clen - 16) cs)),
      (accumulate_diff_firstn _ _ (skipn (clen - 16) cs')).
    replace (firstn 16 (skipn (clen - 16) cs)) with (firstn 16 (skipn (clen - 16) cs'));
      [ reflexivity | ].
    symmetry. replace 16%nat with (clen - (clen - 16))%nat at 1 3 by lia.
    apply skipn_prefix; [ lia | exact Hc ].
Qed.

Lemma romulusm_reads_up_to_lengths_witness :
  RomulusM.crypto_aead_encrypt_shared (C := Toy.cipher) (zeros 24) [1; 2; 3; 4; 5; 99] 5
    [7; 8; 9; 0xEE] 3 (zeros 16) [(1, 2); (3, 4); (5, 6); (7, 8)] =
  RomulusM.crypto_aead_encrypt_shared (C := Toy.cipher) (zeros 24) [1; 2; 3; 4; 5] 5
    [7; 8; 9] 3 (zeros 16) [(1, 2); (3, 4); (5, 6); (7, 8)] /\
  RomulusM.crypto_aead_decrypt_shared (C := Toy.cipher) (zeros 4) 0
    (ramp 3 1 20 ++ [0xAA; 0xBB]) 20 [7; 8; 9; 0xEE] 3 (zeros 16)
    [(1, 2); (3, 4); (5, 6); (7, 8)] =
  RomulusM.crypto_aead_decrypt_shared (C := Toy.cipher) (zeros 4) 0
    (ramp 3 1 20) 20 [7; 8; 9] 3 (zeros 16) [(1, 2); (3, 4); (5, 6); (7, 8)].
Proof.
  apply (romulusm_reads_up_to_lengths (C := Toy.cipher) (zeros 24)
           [1; 2; 3; 4; 5; 99] [1; 2; 3; 4; 5] [7; 8; 9; 0xEE] [7; 8; 9] (zeros 16)
           5 3 [(1, 2); (3, 4); (5, 6); (7, 8)] (zeros 4)
           (ramp 3 1 20 ++ [0xAA; 0xBB]) (ramp 3 1 20) 0 20);
    reflexivity.
Defined.

(** *** Romulus-N *)

Lemma last_block_in_same_state n :
  forall st stm st' stm' m,
    xor_bytes st stm = xor_bytes st' stm' ->
    length st = length stm -> length st' = length stm' -> length st = length st' ->
    Forall (fun x => is_u8 x = true) st -> Forall (fun x => is_u8 x = true) st' ->
    let '(stE, o) := last_block_in n st stm m in
    let '(stE', o') := last_block_in n st' stm' m in
    o' = o /\ xor_bytes stE stm = xor_bytes stE' stm' /\
    length stE = length st /\ length stE' = length st' /\
    Forall (fun x => is_u8 x = true) stE /\ Forall (fun x => is_u8 x = true) stE'.
Proof.
  induction n as [|n IH]; intros st stm st' stm' m HU L1 L2 L3 F1 F3.
  - cbn. repeat split; auto.
  - destruct st as [|s st], stm as [|sm stm], st' as [|s' st'], stm' as [|sm' stm'];
      try discriminate; try (cbn; repeat split; auto; fail).
    destruct m as [|x m]; [ cbn [last_block_in]; repeat split; auto | ].
    cbn [xor_bytes] in HU. injection HU as Hh Ht.
    inversion F1; inversion F3; subst.
    cbn [length] in *.
    specialize (IH st stm st' stm' m Ht ltac:(lia) ltac:(lia) ltac:(lia)
                  ltac:(assumption) ltac:(assumption)).
    cbn [last_block_in].
    destruct (last_block_in n st stm m) as [st1 o].
    destruct (last_block_in n st' stm' m) as [st1' o'].
    destruct IH as (-> & I3 & I4 & I5 & I6 & I7).
    cbn [xor_bytes length].
    rewrite !out_byte_value, Hh.
    assert (Hx : is_u8 (u8 x) = true) by apply is_u8_u8.
    rewrite !(u8_id (Z.lxor _ (u8 x))) by (apply is_u8_lxor; assumption).
    split; [ reflexivity | ].
    split.
    { f_equal; [ | assumption ].
      rewrite !(Z.lxor_comm _ (u8 x)), !Z.lxor_assoc. now f_equal. }
    split; [ now f_equal | ]. split; [ now f_equal | ].
    split; constructor; auto using is_u8_lxor.
Qed.

Section SameKeyN.
Context {C : Skinny128} (E : list Z -> list Z -> list Z -> list Z -> list Z).
Hypothesis HC : cipher_blocks C.
Hypothesis HM : masking_correct C E.
Variables k km k' km' : list Z.
Hypothesis Hk : is_block k = true.
Hypothesis Hkm : is_block km = true.
Hypothesis Hk' : is_block k' = true.
Hypothesis Hkm' : is_block km' = true.
Hypothesis Hkey : xor_bytes k km = xor_bytes k' km'.

Lemma N_msg_blocks_same ip npub fuel :
  forall s s' m len acc,
    is_block npub = true ->
    same_unmasked s s' ->
    tables_of s npub k km -> tables_of s' npub k' km' ->
    is_bytes m = true -> (len <= length m)%nat ->
    let '(s1, m1, l1, out1) := RomulusN.msg_blocks ip fuel ENCRYPT_MODE s m len acc in
    let '(s1', m1', l1', out1') := RomulusN.msg_blocks ip fuel ENCRYPT_MODE s' m len acc in
    m1' = m1 /\ l1' = l1 /\ out1' = out1 /\ same_unmasked s1 s1' /\
    tables_of s1 npub k km /\ tables_of s1' npub k' km' /\
    is_bytes m1 = true /\ (l1 <= length m1)%nat /\
    ((len <= fuel)%nat -> (l1 <= 16)%nat).
Proof.
  induction fuel as [|fuel IH]; intros s s' m len acc Hn HR T1 T2 Hm Hl.
  - cbn [RomulusN.msg_blocks]. splits; auto. lia.
  - cbn [RomulusN.msg_blocks].
    destruct (Nat.ltb_spec 16 len) as [Hlt|Hge]; [ | splits; auto; lia ].
    assert (Hz : is_block (firstn 16 m) = true)
      by (apply is_block_firstn; [ assumption | lia ]).
    destruct (rho_encrypt_same ip s s' m HR Hz) as [Ey R2].
    assert (T1' := rho_step_tables ip ENCRYPT_MODE s m npub k km T1).
    assert (T2' := rho_step_tables ip ENCRYPT_MODE s' m npub k' km' T2).
    destruct (rho_step ip ENCRYPT_MODE s m) as [s1 y].
    destruct (rho_step ip ENCRYPT_MODE s' m) as [s1' y'].
    cbn [fst snd] in *. subst y'.
    destruct (same_schedule_1 E HC HM k km k' km' Hk Hkm Hk' Hkm' Hkey npub
                (update_ctr s1) (update_ctr s1') Hn T1' T2'
                (same_update_ctr _ _ R2)) as (R3 & T3 & T4).
    specialize (IH _ _ (skipn 16 m) (len - 16)%nat (acc ++ y) Hn R3 T3 T4
                  (is_bytes_skipn 16 m Hm)).
    rewrite length_skipn in IH. specialize (IH ltac:(lia)).
    destruct (RomulusN.msg_blocks ip fuel ENCRYPT_MODE (schedule_1_encrypt (update_ctr s1))
                (skipn 16 m) (len - 16) (acc ++ y)) as [[[sa ma] la] oa].
    destruct (RomulusN.msg_blocks ip fuel ENCRYPT_MODE (schedule_1_encrypt (update_ctr s1'))
                (skipn 16 m) (len - 16) (acc ++ y)) as [[[sb mb] lb] ob].
    destruct IH as (? & ? & ? & ? & ? & ? & ? & ? & ?).
    splits; auto. lia.
Qed.

Lemma N_process_msg_same ip npub s s' m mlen :
  is_block npub = true ->
  same_unmasked s s' ->
  tables_of s npub k km -> tables_of s' npub k' km' ->
  is_bytes m = true -> (mlen <= length m)%nat ->
  snd (RomulusN.romulusn_process_msg ip m mlen s ENCRYPT_MODE) =
  snd (RomulusN.romulusn_process_msg ip m mlen s' ENCRYPT_MODE) /\
  same_unmasked (fst (RomulusN.romulusn_process_msg ip m mlen s ENCRYPT_MODE))
                (fst (RomulusN.romulusn_process_msg ip m mlen s' ENCRYPT_MODE)).
Proof.
  intros Hn HR T1 T2 Hm Hl.
  unfold RomulusN.romulusn_process_msg.
  change (ENCRYPT_MODE =? ENCRYPT_MODE) with true. cbv zeta.
  assert (R0 := same_set_tk1 tk1_init s s' is_block_tk1_init HR).
  assert (T1' : tables_of (set_tk1 s tk1_init) npub k km) by exact T1.
  assert (T2' : tables_of (set_tk1 s' tk1_init) npub k' km') by exact T2.
  set (s0 := set_tk1 s tk1_init) in *. set (s0' := set_tk1 s' tk1_init) in *.
  destruct (Nat.eqb_spec mlen 0) as [Hz|Hpos].
  - cbn [fst snd]. split; [ reflexivity | ].
    apply (same_schedule_1 E HC HM k km k' km' Hk Hkm Hk' Hkm' Hkey npub _ _ Hn);
      [ exact T1' | exact T2' | ].
    now apply same_set_domain, same_update_ctr.
  - assert (R1 := same_set_domain 4 s0 s0' eq_refl R0).
    assert (T1'' : tables_of (set_domain s0 4) npub k km) by exact T1'.
    assert (T2'' : tables_of (set_domain s0' 4) npub k' km') by exact T2'.
    assert (Hs := N_msg_blocks_same ip npub mlen _ _ m mlen [] Hn R1 T1'' T2'' Hm Hl).
    destruct (RomulusN.msg_blocks ip mlen ENCRYPT_MODE (set_domain s0 4) m mlen [])
      as [[[s1 m1] l1] out1].
    destruct (RomulusN.msg_blocks ip mlen ENCRYPT_MODE (set_domain s0' 4) m mlen [])
      as [[[s1' m1'] l1'] out1'].
    destruct Hs as (-> & -> & -> & R2 & T3 & T4 & Hm1 & Hl1 & Hle).
    specialize (Hle (Nat.le_refl _)).
    assert (R3 := same_update_ctr _ _ R2).
    destruct (Nat.ltb_spec l1 16) as [Hpart|Hfull].
    + assert (R3' := R3).
      destruct R3' as (K1 & K2 & C1 & C2 & C3 & C4 & C5). unfold unmasked in C5.
      assert (C1' := C1). assert (C2' := C2). assert (C3' := C3). assert (C4' := C4).
      apply is_block_inv in C1', C2', C3', C4'.
      destruct C1' as [L1 F1], C2' as [L2 F2], C3' as [L3 F3], C4' as [L4 F4].
      assert (Hlast := last_block_in_same_state l1
                         (state (update_ctr s1)) (state_m (update_ctr s1))
                         (state (update_ctr s1')) (state_m (update_ctr s1'))
                         m1 C5 ltac:(congruence) ltac:(congruence) ltac:(congruence)
                         F1 F3).
      destruct (last_block_in l1 (state (update_ctr s1)) (state_m (update_ctr s1)) m1)
        as [stE o].
      destruct (last_block_in l1 (state (update_ctr s1')) (state_m (update_ctr s1')) m1)
        as [stE' o'].
      destruct Hlast as (-> & HU & LE & LE' & FE & FE').
      cbn [fst snd]. split; [ reflexivity | ].
      apply (same_schedule_1 E HC HM k km k' km' Hk Hkm Hk' Hkm' Hkey npub _ _ Hn);
        [ exact T3 | exact T4 | ].
      apply same_set_domain; [ reflexivity | ].
      apply same_xor_len.
      unfold same_unmasked, unmasked, set_state.
      cbn [tk1 state state_m rtk rtk_m].
      splits; auto; apply is_block_intro; auto; congruence.
    + assert (l1 = 16)%nat by lia. subst l1.
      assert (Hz : is_block (firstn 16 m1) = true)
        by (apply is_block_firstn; assumption).
      destruct (rho_encrypt_same ip _ _ m1 R3 Hz) as [Ey R4].
      assert (T5 := rho_step_tables ip ENCRYPT_MODE (update_ctr s1) m1 npub k km T3).
      assert (T6 := rho_step_tables ip ENCRYPT_MODE (update_ctr s1') m1 npub k' km' T4).
      destruct (rho_step ip ENCRYPT_MODE (update_ctr s1) m1) as [s2 y].
      destruct (rho_step ip ENCRYPT_MODE (update_ctr s1') m1) as [s2' y'].
      cbn [fst snd] in *. subst y'. split; [ reflexivity | ].
      apply (same_schedule_1 E HC HM k km k' km' Hk Hkm Hk' Hkm' Hkey npub _ _ Hn);
        [ exact T5 | exact T6 | ].
      apply same_set_domain; [ reflexivity | assumption ].
Qed.

End SameKeyN.

(** X17.  The ciphertext and the tag of the Romulus-N core do not depend on
    how the key is shared, nor on what the buffers held before
    [romulusn_init]: for every cipher that stores blocks and meets the
    masking contract, [romulusn_process_ad], [romulusn_process_msg] in
    [ENCRYPT_MODE] and [romulusn_generate_tag], run with two sharings of the
    same key, store the same ciphertext and the same tag.  This holds in
    place as well as with an output buffer of its own. *)
Theorem romulusn_encrypt_mask_independent {C : Skinny128}
    (E : list Z -> list Z -> list Z -> list Z -> list Z) (in_place : bool)
    (m ad npub k km k' km' : list Z) (mlen adlen : nat) (s0 s0' : ctx) :
  cipher_blocks C -> masking_correct C E ->
  is_bytes m = true -> is_bytes ad = true -> is_block npub = true ->
  (mlen <= length m)%nat -> (adlen <= length ad)%nat ->
  is_block k = true -> is_block km = true ->
  is_block k' = true -> is_block km' = true ->
  xor_bytes k km = xor_bytes k' km' ->
  let sA := RomulusN.romulusn_process_ad (RomulusN.romulusn_init s0) ad adlen npub k km in
  let sA' := RomulusN.romulusn_process_ad (RomulusN.romulusn_init s0') ad adlen npub
               k' km' in
  let r := RomulusN.romulusn_process_msg in_place m mlen sA ENCRYPT_MODE in
  let r' := RomulusN.romulusn_process_msg in_place m mlen sA' ENCRYPT_MODE in
  snd r' = snd r /\
  snd (RomulusN.romulusn_generate_tag (fst r')) =
  snd (RomulusN.romulusn_generate_tag (fst r)).
Proof.
  intros HC HM Hm Had Hn Hlm Hla Bk Bkm Bk' Bkm' Hkey. cbv zeta.
  assert (R0 : same_unmasked (RomulusN.romulusn_init s0) (RomulusN.romulusn_init s0')).
  { unfold same_unmasked, unmasked. cbn. splits; reflexivity. }
  destruct (N_same_process_ad E HC HM k km k' km' Bk Bkm Bk' Bkm' Hkey
              _ _ ad adlen npub R0 Had Hla Hn) as (RA & TA & TA').
  destruct (N_process_msg_same E HC HM k km k' km' Bk Bkm Bk' Bkm' Hkey
              in_place npub _ _ m mlen Hn RA TA TA' Hm Hlm) as [Ho RB].
  split; [ now symmetry | ].
  destruct RB as (_ & _ & B1 & B2 & B3 & B4 & HU). unfold unmasked in HU.
  unfold RomulusN.romulusn_generate_tag, generate_tag. cbn [snd].
  rewrite (G_bytes _ B1), (G_bytes _ B2), (G_bytes _ B3), (G_bytes _ B4).
  rewrite <- !map_G_byte_xor. now rewrite HU.
Qed.

Lemma romulusn_encrypt_mask_independent_witness :
  let m := [0x52; 0x6F; 0x6D; 0x75; 0x6C; 0x75; 0x73; 0x2D; 0x4E; 0x20;
            0x6D; 0x61; 0x73; 0x6B; 0x65; 0x64; 0x21; 0x00; 0xFF] in
  let ad := [0xA0; 0xA1; 0xA2] in
  let npub := [0; 1; 2; 3; 4; 5; 6; 7; 8; 9; 10; 11; 12; 13; 14; 15] in
  let sA := RomulusN.romulusn_process_ad (C := Toy.cipher)
              (RomulusN.romulusn_init RomulusM.locals) ad 3 npub
              (repeat 0x11 16) (repeat 0x22 16) in
  let sA' := RomulusN.romulusn_process_ad (C := Toy.cipher)
               (RomulusN.romulusn_init RomulusM.locals) ad 3 npub
               (repeat 0x30 16) (repeat 0x03 16) in
  let r := RomulusN.romulusn_process_msg (C := Toy.cipher) true m 19 sA ENCRYPT_MODE in
  let r' := RomulusN.romulusn_process_msg (C := Toy.cipher) true m 19 sA' ENCRYPT_MODE in
  snd r' = snd r /\
  snd (RomulusN.romulusn_generate_tag (fst r')) =
  snd (RomulusN.romulusn_generate_tag (fst r)).
Proof.
  apply (romulusn_encrypt_mask_independent (C := Toy.cipher) Toy.E true
           [0x52; 0x6F; 0x6D; 0x75; 0x6C; 0x75; 0x73; 0x2D; 0x4E; 0x20;
            0x6D; 0x61; 0x73; 0x6B; 0x65; 0x64; 0x21; 0x00; 0xFF]
           [0xA0; 0xA1; 0xA2]
           [0; 1; 2; 3; 4; 5; 6; 7; 8; 9; 10; 11; 12; 13; 14; 15]
           (repeat 0x11 16) (repeat 0x22 16) (repeat 0x30 16) (repeat 0x03 16)
           19 3 RomulusM.locals RomulusM.locals
           toy_cipher_blocks toy_masking_correct).
  - reflexivity.
  - reflexivity.
  - reflexivity.
  - cbn. lia.
  - cbn. lia.
  - reflexivity.
  - reflexivity.
  - reflexivity.
  - reflexivity.
  - reflexivity.
Defined.

(** ** The masked Skinny-128-384+: registers and macros *)

Lemma reg_eqb_refl a : Asm.reg_eqb a a = true.
Proof. unfold Asm.reg_eqb. apply Nat.eqb_refl. Qed.

Lemma reg_index_inj a b : Asm.reg_index a = Asm.reg_index b -> a = b.
Proof. destruct a, b; cbn; intros H; first [ reflexivity | discriminate H ]. Qed.

Lemma reg_eqb_neq a b : a <> b -> Asm.reg_eqb a b = false.
Proof.
  intros H. unfold Asm.reg_eqb. apply Nat.eqb_neq. intros E. apply H.
  now apply reg_index_inj.
Qed.

Lemma R_set m rd v r :
  Asm.R (Asm.set m rd v) r = if Asm.reg_eqb r rd then v else Asm.R m r.
Proof. reflexivity. Qed.

(** Resolve the register comparisons of the goal from the hypotheses. *)
Ltac neq := first [ assumption | apply not_eq_sym; assumption | discriminate ].
Ltac regs :=
  cbn [Asm.R Asm.sp60 Asm.sp64 Asm.set Asm.shifted];
  repeat match goal with
         | |- context [Asm.reg_eqb ?a ?a] => rewrite (reg_eqb_refl a)
         | |- context [Asm.reg_eqb ?a ?b] => rewrite (reg_eqb_neq a b) by neq
         end;
  cbv iota.

Ltac open_macro :=
  unfold Asm.swpmv, Asm.secorr, Asm.secxor, Asm.secand, Asm.mixcol_reg,
    Asm.eor, Asm.and_, Asm.orr, Asm.orn, Asm.mvn, Asm.movw, Asm.movt.

(** *** [swpmv] *)

Section Swpmv.
Variables (in0 in1 tmp mask : Asm.reg) (sh0 sh1 : Z) (m : Asm.cpu).
Hypothesis H01 : in0 <> in1.
Hypothesis Ht0 : tmp <> in0.
Hypothesis Ht1 : tmp <> in1.
Hypothesis Htm : tmp <> mask.

Lemma swpmv_in0 :
  Asm.R (Asm.swpmv in0 in1 tmp mask sh0 sh1 m) in0 =
  swp_a (Asm.R m in0) (Asm.R m in1) (Asm.R m mask) sh0 sh1.
Proof. open_macro. regs. reflexivity. Qed.

Lemma swpmv_in1 :
  Asm.R (Asm.swpmv in0 in1 tmp mask sh0 sh1 m) in1 =
  swp_b (Asm.R m in0) (Asm.R m in1) (Asm.R m mask) sh0 sh1.
Proof. open_macro. regs. reflexivity. Qed.

Lemma swpmv_other r :
  r <> in0 -> r <> in1 -> r <> tmp ->
  Asm.R (Asm.swpmv in0 in1 tmp mask sh0 sh1 m) r = Asm.R m r.
Proof. intros. open_macro. regs. reflexivity. Qed.

End Swpmv.

Lemma swpmv_self x tmp mask sh0 sh1 m :
  tmp <> x -> tmp <> mask ->
  Asm.R (Asm.swpmv x x tmp mask sh0 sh1 m) x =
  swp_s (Asm.R m x) (Asm.R m mask) sh0 sh1.
Proof. intros. open_macro. regs. reflexivity. Qed.

Lemma swpmv_self_other x tmp mask sh0 sh1 m r :
  r <> x -> r <> tmp ->
  Asm.R (Asm.swpmv x x tmp mask sh0 sh1 m) r = Asm.R m r.
Proof. intros. open_macro. regs. reflexivity. Qed.

Lemma swpmv_sp in0 in1 tmp mask sh0 sh1 m :
  Asm.sp60 (Asm.swpmv in0 in1 tmp mask sh0 sh1 m) = Asm.sp60 m /\
  Asm.sp64 (Asm.swpmv in0 in1 tmp mask sh0 sh1 m) = Asm.sp64 m.
Proof. split; reflexivity. Qed.

(** *** [secorr], [secxor], [mvn] *)

Section Secorr.
Variables (z1 z2 x1 x2 y1 y2 tmp : Asm.reg) (m : Asm.cpu).
Hypothesis Hz1 : z1 <> x2 /\ z1 <> y1 /\ z1 <> y2 /\ z1 <> tmp.
Hypothesis Hz2 : z2 <> z1 /\ z2 <> tmp.
Hypothesis Htmp : tmp <> x1 /\ tmp <> x2 /\ tmp <> y1 /\ tmp <> y2.

Lemma secorr_z1 :
  Asm.R (Asm.secorr z1 z2 x1 x2 y1 y2 tmp m) z1 =
  fst (Gadgets.secorr (Asm.R m x1) (Asm.R m x2) (Asm.R m y1) (Asm.R m y2)).
Proof.
  destruct Hz1 as (? & ? & ? & ?), Htmp as (? & ? & ? & ?), Hz2 as (? & ?).
  open_macro. regs. reflexivity.
Qed.

Lemma secorr_z2 :
  Asm.R (Asm.secorr z1 z2 x1 x2 y1 y2 tmp m) z2 =
  snd (Gadgets.secorr (Asm.R m x1) (Asm.R m x2) (Asm.R m y1) (Asm.R m y2)).
Proof.
  destruct Hz1 as (? & ? & ? & ?), Htmp as (? & ? & ? & ?), Hz2 as (? & ?).
  open_macro. regs. reflexivity.
Qed.

Lemma secorr_other r :
  r <> z1 -> r <> z2 -> r <> tmp ->
  Asm.R (Asm.secorr z1 z2 x1 x2 y1 y2 tmp m) r = Asm.R m r.
Proof. intros. open_macro. regs. reflexivity. Qed.

End Secorr.

(** [secxor a, am, a, am, t, tm]: the call of the S-box, in place. *)
Section Secxor.
Variables (a am t tm : Asm.reg) (m : Asm.cpu).
Hypothesis Ha : a <> am /\ a <> tm.

Lemma secxor_z1 :
  Asm.R (Asm.secxor a am a am t tm m) a = Z.lxor (Asm.R m a) (Asm.R m t).
Proof. destruct Ha. open_macro. regs. reflexivity. Qed.

Lemma secxor_z2 :
  Asm.R (Asm.secxor a am a am t tm m) am = Z.lxor (Asm.R m am) (Asm.R m tm).
Proof. destruct Ha. open_macro. regs. reflexivity. Qed.

Lemma secxor_other r :
  r <> a -> r <> am -> Asm.R (Asm.secxor a am a am t tm m) r = Asm.R m r.
Proof. intros. open_macro. regs. reflexivity. Qed.

End Secxor.

Lemma mvn_same a m : Asm.R (Asm.mvn a a m) a = u32 (Z.lnot (Asm.R m a)).
Proof. open_macro. regs. reflexivity. Qed.

Lemma mvn_other a m r : r <> a -> Asm.R (Asm.mvn a a m) r = Asm.R m r.
Proof. intros. open_macro. regs. reflexivity. Qed.

(** *** [mixcol] *)

Lemma mix_pair_same rx i j m :
  rx <> Asm.r7 -> rx <> Asm.r8 ->
  Asm.R (Asm.eor rx rx Asm.r8 (Asm.ror j) (Asm.and_ Asm.r8 Asm.r7 rx (Asm.ror i) m)) rx =
  mix1 (Asm.R m Asm.r7) i j (Asm.R m rx).
Proof. intros. unfold Asm.eor, Asm.and_. regs. reflexivity. Qed.

Lemma mix_pair_other rx i j m r :
  r <> rx -> r <> Asm.r8 ->
  Asm.R (Asm.eor rx rx Asm.r8 (Asm.ror j) (Asm.and_ Asm.r8 Asm.r7 rx (Asm.ror i) m)) r =
  Asm.R m r.
Proof. intros. unfold Asm.eor, Asm.and_. regs. reflexivity. Qed.

Lemma mixcol_reg_same rx i0 i1 i2 i3 i4 i5 m :
  rx <> Asm.r7 -> rx <> Asm.r8 ->
  Asm.R (Asm.mixcol_reg rx i0 i1 i2 i3 i4 i5 m) rx =
  mixv (Asm.R m Asm.r7) i0 i1 i2 i3 i4 i5 (Asm.R m rx).
Proof.
  intros. unfold Asm.mixcol_reg, mixv. cbv zeta.
  rewrite !mix_pair_same by assumption.
  rewrite !mix_pair_other by neq. reflexivity.
Qed.

Lemma mixcol_reg_other rx i0 i1 i2 i3 i4 i5 m r :
  r <> rx -> r <> Asm.r8 ->
  Asm.R (Asm.mixcol_reg rx i0 i1 i2 i3 i4 i5 m) r = Asm.R m r.
Proof.
  intros. unfold Asm.mixcol_reg. cbv zeta.
  now rewrite !mix_pair_other by assumption.
Qed.

(** *** 32-bit values *)

Lemma is_u32_range x : is_u32 x = true <-> 0 <= x < 2 ^ 32.
Proof. unfold is_u32. rewrite andb_true_iff, Z.leb_le, Z.ltb_lt. tauto. Qed.

Lemma is_u32_land_ones x : is_u32 x = true -> x = Z.land x (Z.ones 32).
Proof. intros H. apply is_u32_range in H. now apply small_land. Qed.

Lemma is_u32_u32 x : is_u32 (u32 x) = true.
Proof. apply is_u32_range. unfold u32. apply Z.mod_pos_bound. lia. Qed.

Lemma is_u32_masked x : is_u32 (Z.land x (Z.ones 32)) = true.
Proof. rewrite <- u32_land. apply is_u32_u32. Qed.

Lemma is_u32_lxor a b :
  is_u32 a = true -> is_u32 b = true -> is_u32 (Z.lxor a b) = true.
Proof.
  intros Ha Hb. rewrite (is_u32_land_ones a Ha), (is_u32_land_ones b Hb).
  replace (Z.lxor _ _) with (Z.land (Z.lxor a b) (Z.ones 32)) by Z.bitblast.
  apply is_u32_masked.
Qed.

Lemma is_u32_lor a b :
  is_u32 a = true -> is_u32 b = true -> is_u32 (Z.lor a b) = true.
Proof.
  intros Ha Hb. rewrite (is_u32_land_ones a Ha), (is_u32_land_ones b Hb).
  replace (Z.lor _ _) with (Z.land (Z.lor a b) (Z.ones 32)) by Z.bitblast.
  apply is_u32_masked.
Qed.

Lemma is_u32_land_l a b : is_u32 a = true -> is_u32 (Z.land a b) = true.
Proof.
  intros Ha. rewrite (is_u32_land_ones a Ha).
  replace (Z.land _ _) with (Z.land (Z.land a b) (Z.ones 32)) by Z.bitblast.
  apply is_u32_masked.
Qed.

Lemma is_u32_land_r a b : is_u32 b = true -> is_u32 (Z.land a b) = true.
Proof. intros. rewrite Z.land_comm. now apply is_u32_land_l. Qed.

Lemma is_u32_shiftr a n :
  is_u32 a = true -> 0 <= n -> is_u32 (Z.shiftr a n) = true.
Proof.
  intros Ha Hn. apply is_u32_range in Ha. apply is_u32_range.
  rewrite Z.shiftr_div_pow2 by lia.
  assert (0 < 2 ^ n) by (apply Z.pow_pos_nonneg; lia).
  split; [ apply Z.div_pos; lia | ].
  apply Z.le_lt_trans with a; [ | lia ].
  apply Z.div_le_upper_bound; nia.
Qed.

Lemma is_u32_rorv x n : is_u32 x = true -> 0 <= n -> is_u32 (rorv x n) = true.
Proof.
  intros. unfold rorv. apply is_u32_lor; [ now apply is_u32_shiftr | apply is_u32_u32 ].
Qed.

Lemma is_u32_mix1 k i j x :
  is_u32 x = true -> 0 <= i -> 0 <= j -> is_u32 (mix1 k i j x) = true.
Proof.
  intros. unfold mix1. apply is_u32_lxor; [ assumption | ].
  apply is_u32_rorv; [ | assumption ].
  apply is_u32_land_r. now apply is_u32_rorv.
Qed.

Lemma is_u32_mixv k i0 i1 i2 i3 i4 i5 x :
  is_u32 x = true ->
  0 <= i0 -> 0 <= i1 -> 0 <= i2 -> 0 <= i3 -> 0 <= i4 -> 0 <= i5 ->
  is_u32 (mixv k i0 i1 i2 i3 i4 i5 x) = true.
Proof. intros. unfold mixv. repeat apply is_u32_mix1; assumption. Qed.

Lemma is_u32_swp_a a b k s0 s1 :
  is_u32 a = true -> is_u32 (swp_a a b k s0 s1) = true.
Proof. intros. unfold swp_a. apply is_u32_lxor; [ assumption | apply is_u32_u32 ]. Qed.

Lemma is_u32_swp_b a b k s0 s1 :
  is_u32 a = true -> is_u32 b = true -> 0 <= s0 ->
  is_u32 (swp_b a b k s0 s1) = true.
Proof.
  intros. unfold swp_b, swp_t. apply is_u32_lxor; [ assumption | ].
  apply is_u32_land_l. apply is_u32_lxor; [ assumption | now apply is_u32_shiftr ].
Qed.

Lemma is_u32_swp_s x k s0 s1 :
  is_u32 x = true -> 0 <= s0 -> is_u32 (swp_s x k s0 s1) = true.
Proof.
  intros. unfold swp_s. cbv zeta. apply is_u32_lxor; [ | apply is_u32_u32 ].
  apply is_u32_lxor; [ assumption | ].
  apply is_u32_land_l. apply is_u32_lxor; [ assumption | now apply is_u32_shiftr ].
Qed.

Lemma is_u32_secorr x1 x2 y1 y2 :
  is_u32 x1 = true -> is_u32 x2 = true -> is_u32 y1 = true -> is_u32 y2 = true ->
  is_u32 (fst (Gadgets.secorr x1 x2 y1 y2)) = true /\
  is_u32 (snd (Gadgets.secorr x1 x2 y1 y2)) = true.
Proof.
  intros. unfold Gadgets.secorr. cbn [fst snd].
  split; apply is_u32_lxor; auto using is_u32_lor, is_u32_land_l.
Qed.

Lemma is_u32_secorr_fst x1 x2 y1 y2 :
  is_u32 x1 = true -> is_u32 x2 = true -> is_u32 y1 = true -> is_u32 y2 = true ->
  is_u32 (fst (Gadgets.secorr x1 x2 y1 y2)) = true.
Proof. intros. now apply is_u32_secorr. Qed.

Lemma is_u32_secorr_snd x1 x2 y1 y2 :
  is_u32 x1 = true -> is_u32 x2 = true -> is_u32 y1 = true -> is_u32 y2 = true ->
  is_u32 (snd (Gadgets.secorr x1 x2 y1 y2)) = true.
Proof. intros. now apply is_u32_secorr. Qed.

(** *** The macros are linear apart from [secorr] *)

Lemma swp_t_linear a b a' b' k s0 s1 :
  Z.lxor (swp_t a b k s0 s1) (swp_t a' b' k s0 s1) =
  swp_t (Z.lxor a a') (Z.lxor b b') k s0 s1.
Proof. unfold swp_t. Z.bitblast. Qed.

Lemma swp_a_linear a b a' b' k s0 s1 :
  Z.lxor (swp_a a b k s0 s1) (swp_a a' b' k s0 s1) =
  swp_a (Z.lxor a a') (Z.lxor b b') k s0 s1.
Proof.
  unfold swp_a. rewrite <- swp_t_linear. rewrite !u32_land. Z.bitblast.
Qed.

Lemma swp_b_linear a b a' b' k s0 s1 :
  Z.lxor (swp_b a b k s0 s1) (swp_b a' b' k s0 s1) =
  swp_b (Z.lxor a a') (Z.lxor b b') k s0 s1.
Proof. unfold swp_b. rewrite <- swp_t_linear. Z.bitblast. Qed.

Lemma swp_s_linear x x' k s0 s1 :
  Z.lxor (swp_s x k s0 s1) (swp_s x' k s0 s1) = swp_s (Z.lxor x x') k s0 s1.
Proof.
  unfold swp_s. cbv zeta.
  change (Z.land (Z.lxor (Z.lxor x x') (Z.shiftr (Z.lxor x x') s0)) (Z.shiftr k s1))
    with (swp_t (Z.lxor x x') (Z.lxor x x') k s0 s1).
  change (Z.land (Z.lxor x (Z.shiftr x s0)) (Z.shiftr k s1)) with (swp_t x x k s0 s1).
  change (Z.land (Z.lxor x' (Z.shiftr x' s0)) (Z.shiftr k s1)) with (swp_t x' x' k s0 s1).
  rewrite <- swp_t_linear.
  generalize (swp_t x x k s0 s1), (swp_t x' x' k s0 s1). intros t t'.
  rewrite !u32_land. Z.bitblast.
Qed.

Lemma rorv_lxor x n :
  is_u32 x = true -> 0 <= n <= 32 ->
  rorv x n = Z.lxor (Z.shiftr x n) (u32 (Z.shiftl x (32 - n))).
Proof.
  intros Hx Hn. unfold rorv. symmetry. apply Z.lxor_lor.
  rewrite (is_u32_land_ones x Hx), u32_land. Z.bitblast.
Qed.

Lemma rorv_linear x y n :
  is_u32 x = true -> is_u32 y = true -> 0 <= n <= 32 ->
  Z.lxor (rorv x n) (rorv y n) = rorv (Z.lxor x y) n.
Proof.
  intros Hx Hy Hn.
  rewrite !rorv_lxor by auto using is_u32_lxor.
  rewrite !u32_land. Z.bitblast.
Qed.

Lemma mix1_linear k i j x y :
  is_u32 x = true -> is_u32 y = true -> 0 <= i <= 32 -> 0 <= j <= 32 ->
  Z.lxor (mix1 k i j x) (mix1 k i j y) = mix1 k i j (Z.lxor x y).
Proof.
  intros Hx Hy Hi Hj. unfold mix1.
  rewrite <- (rorv_linear x y i) by assumption.
  replace (Z.land k (Z.lxor (rorv x i) (rorv y i)))
    with (Z.lxor (Z.land k (rorv x i)) (Z.land k (rorv y i))) by Z.bitblast.
  rewrite <- rorv_linear
    by (try lia; apply is_u32_land_r; apply is_u32_rorv; (assumption || lia)).
  generalize (rorv (Z.land k (rorv x i)) j), (rorv (Z.land k (rorv y i)) j).
  intros u v. Z.bitblast.
Qed.

Lemma mixv_linear k i0 i1 i2 i3 i4 i5 x y :
  is_u32 x = true -> is_u32 y = true ->
  0 <= i0 <= 32 -> 0 <= i1 <= 32 -> 0 <= i2 <= 32 ->
  0 <= i3 <= 32 -> 0 <= i4 <= 32 -> 0 <= i5 <= 32 ->
  Z.lxor (mixv k i0 i1 i2 i3 i4 i5 x) (mixv k i0 i1 i2 i3 i4 i5 y) =
  mixv k i0 i1 i2 i3 i4 i5 (Z.lxor x y).
Proof.
  intros. unfold mixv.
  rewrite mix1_linear by (try assumption; repeat apply is_u32_mix1; (assumption || lia)).
  rewrite mix1_linear by (try assumption; repeat apply is_u32_mix1; (assumption || lia)).
  rewrite mix1_linear by assumption. reflexivity.
Qed.

(** *** The nonlinear step of the S-box *)

Lemma secorr_xor x1 x2 y1 y2 :
  Z.lxor (fst (Gadgets.secorr x1 x2 y1 y2)) (snd (Gadgets.secorr x1 x2 y1 y2)) =
  Z.lor (Z.lxor x1 x2) (Z.lxor y1 y2).
Proof. unfold Gadgets.secorr. cbn [fst snd]. Z.bitblast. Qed.

(** [i3 ^= t; i3m ^= tm; i3 = ~i3] on the two shares. *)
Lemma not_xor_shares a am t tm :
  is_u32 am = true -> is_u32 tm = true ->
  Z.lxor (u32 (Z.lnot (Z.lxor a t))) (Z.lxor am tm) =
  u32 (Z.lnot (Z.lxor (Z.lxor a am) (Z.lxor t tm))).
Proof.
  intros Ha Ht. rewrite (is_u32_land_ones am Ha), (is_u32_land_ones tm Ht).
  rewrite !u32_land. Z.bitblast.
Qed.

Lemma xor_shares a am t tm :
  Z.lxor (Z.lxor a t) (Z.lxor am tm) = Z.lxor (Z.lxor a am) (Z.lxor t tm).
Proof. Z.bitblast. Qed.

Lemma secorr_fold a am x1 x2 y1 y2 :
  Z.lxor (Z.lxor a (fst (Gadgets.secorr x1 x2 y1 y2)))
         (Z.lxor am (snd (Gadgets.secorr x1 x2 y1 y2))) =
  Z.lxor (Z.lxor a am) (Z.lor (Z.lxor x1 x2) (Z.lxor y1 y2)).
Proof. rewrite xor_shares. now rewrite secorr_xor. Qed.

Lemma secorr_not_fold a am x1 x2 y1 y2 :
  is_u32 am = true ->
  is_u32 x1 = true -> is_u32 x2 = true -> is_u32 y1 = true -> is_u32 y2 = true ->
  Z.lxor (u32 (Z.lnot (Z.lxor a (fst (Gadgets.secorr x1 x2 y1 y2)))))
         (Z.lxor am (snd (Gadgets.secorr x1 x2 y1 y2))) =
  u32 (Z.lnot (Z.lxor (Z.lxor a am) (Z.lor (Z.lxor x1 x2) (Z.lxor y1 y2)))).
Proof.
  intros. rewrite not_xor_shares; [ now rewrite secorr_xor | assumption | ].
  now apply is_u32_secorr.
Qed.

(** *** Two runs of the macros stay together *)

Lemma sp60_swpmv a b t k s0 s1 m : Asm.sp60 (Asm.swpmv a b t k s0 s1 m) = Asm.sp60 m.
Proof. reflexivity. Qed.
Lemma sp64_swpmv a b t k s0 s1 m : Asm.sp64 (Asm.swpmv a b t k s0 s1 m) = Asm.sp64 m.
Proof. reflexivity. Qed.
Lemma sp60_secorr z1 z2 x1 x2 y1 y2 t m :
  Asm.sp60 (Asm.secorr z1 z2 x1 x2 y1 y2 t m) = Asm.sp60 m.
Proof. reflexivity. Qed.
Lemma sp64_secorr z1 z2 x1 x2 y1 y2 t m :
  Asm.sp64 (Asm.secorr z1 z2 x1 x2 y1 y2 t m) = Asm.sp64 m.
Proof. reflexivity. Qed.
Lemma sp60_secxor z1 z2 x1 x2 y1 y2 m :
  Asm.sp60 (Asm.secxor z1 z2 x1 x2 y1 y2 m) = Asm.sp60 m.
Proof. reflexivity. Qed.
Lemma sp64_secxor z1 z2 x1 x2 y1 y2 m :
  Asm.sp64 (Asm.secxor z1 z2 x1 x2 y1 y2 m) = Asm.sp64 m.
Proof. reflexivity. Qed.
Lemma sp60_mvn a b m : Asm.sp60 (Asm.mvn a b m) = Asm.sp60 m.
Proof. reflexivity. Qed.
Lemma sp64_mvn a b m : Asm.sp64 (Asm.mvn a b m) = Asm.sp64 m.
Proof. reflexivity. Qed.
Lemma sp60_mixcol_reg rx i0 i1 i2 i3 i4 i5 m :
  Asm.sp60 (Asm.mixcol_reg rx i0 i1 i2 i3 i4 i5 m) = Asm.sp60 m.
Proof. reflexivity. Qed.
Lemma sp64_mixcol_reg rx i0 i1 i2 i3 i4 i5 m :
  Asm.sp64 (Asm.mixcol_reg rx i0 i1 i2 i3 i4 i5 m) = Asm.sp64 m.
Proof. reflexivity. Qed.

(** Every register read of the goal, through the macros. *)
Ltac norm1 :=
  match goal with
  | |- context [Asm.R (Asm.swpmv ?a ?a ?t ?k ?s0 ?s1 ?m) ?a] =>
      rewrite (swpmv_self a t k s0 s1 m) by neq
  | |- context [Asm.R (Asm.swpmv ?a ?a ?t ?k ?s0 ?s1 ?m) ?r] =>
      rewrite (swpmv_self_other a t k s0 s1 m r) by neq
  | |- context [Asm.R (Asm.swpmv ?a ?b ?t ?k ?s0 ?s1 ?m) ?a] =>
      rewrite (swpmv_in0 a b t k s0 s1 m) by neq
  | |- context [Asm.R (Asm.swpmv ?a ?b ?t ?k ?s0 ?s1 ?m) ?b] =>
      rewrite (swpmv_in1 a b t k s0 s1 m) by neq
  | |- context [Asm.R (Asm.swpmv ?a ?b ?t ?k ?s0 ?s1 ?m) ?r] =>
      rewrite (swpmv_other a b t k s0 s1 m r) by neq
  | |- context [Asm.R (Asm.secorr ?z1 ?z2 ?x1 ?x2 ?y1 ?y2 ?t ?m) ?z1] =>
      rewrite (secorr_z1 z1 z2 x1 x2 y1 y2 t m) by (repeat split; neq)
  | |- context [Asm.R (Asm.secorr ?z1 ?z2 ?x1 ?x2 ?y1 ?y2 ?t ?m) ?z2] =>
      rewrite (secorr_z2 z1 z2 x1 x2 y1 y2 t m) by (repeat split; neq)
  | |- context [Asm.R (Asm.secorr ?z1 ?z2 ?x1 ?x2 ?y1 ?y2 ?t ?m) ?r] =>
      rewrite (secorr_other z1 z2 x1 x2 y1 y2 t m r) by neq
  | |- context [Asm.R (Asm.secxor ?a ?am ?a ?am ?t ?tm ?m) ?a] =>
      rewrite (secxor_z1 a am t tm m) by (repeat split; neq)
  | |- context [Asm.R (Asm.secxor ?a ?am ?a ?am ?t ?tm ?m) ?am] =>
      rewrite (secxor_z2 a am t tm m) by (repeat split; neq)
  | |- context [Asm.R (Asm.secxor ?a ?am ?a ?am ?t ?tm ?m) ?r] =>
      rewrite (secxor_other a am t tm m r) by neq
  | |- context [Asm.R (Asm.mvn ?a ?a ?m) ?a] => rewrite (mvn_same a m)
  | |- context [Asm.R (Asm.mvn ?a ?a ?m) ?r] => rewrite (mvn_other a m r) by neq
  | |- context [Asm.R (Asm.mixcol_reg ?x ?i0 ?i1 ?i2 ?i3 ?i4 ?i5 ?m) ?x] =>
      rewrite (mixcol_reg_same x i0 i1 i2 i3 i4 i5 m) by neq
  | |- context [Asm.R (Asm.mixcol_reg ?x ?i0 ?i1 ?i2 ?i3 ?i4 ?i5 ?m) ?r] =>
      rewrite (mixcol_reg_other x i0 i1 i2 i3 i4 i5 m r) by neq
  end.

Ltac norm :=
  rewrite ?sp60_swpmv, ?sp64_swpmv, ?sp60_secorr, ?sp64_secorr, ?sp60_secxor,
    ?sp64_secxor, ?sp60_mvn, ?sp64_mvn, ?sp60_mixcol_reg, ?sp64_mixcol_reg;
  repeat norm1.

Ltac range1 :=
  match goal with
  | |- is_u32 (swp_a _ _ _ _ _) = true => apply is_u32_swp_a
  | |- is_u32 (swp_b _ _ _ _ _) = true => apply is_u32_swp_b
  | |- is_u32 (swp_s _ _ _ _) = true => apply is_u32_swp_s
  | |- is_u32 (mixv _ _ _ _ _ _ _ _) = true => apply is_u32_mixv
  | |- is_u32 (u32 _) = true => apply is_u32_u32
  | |- is_u32 (Z.lxor _ _) = true => apply is_u32_lxor
  | |- is_u32 (fst (Gadgets.secorr _ _ _ _)) = true => apply is_u32_secorr_fst
  | |- is_u32 (snd (Gadgets.secorr _ _ _ _)) = true => apply is_u32_secorr_snd
  | |- _ <= _ => lia
  | |- _ <= _ <= _ => lia
  | _ => assumption
  end.
Ltac range := repeat range1.

Ltac fold_lin :=
  repeat match goal with
         | |- context [Z.lxor (swp_a ?a ?b ?k ?s ?t) (swp_a ?a' ?b' ?k ?s ?t)] =>
             rewrite (swp_a_linear a b a' b' k s t)
         | |- context [Z.lxor (swp_b ?a ?b ?k ?s ?t) (swp_b ?a' ?b' ?k ?s ?t)] =>
             rewrite (swp_b_linear a b a' b' k s t)
         | |- context [Z.lxor (swp_s ?a ?k ?s ?t) (swp_s ?a' ?k ?s ?t)] =>
             rewrite (swp_s_linear a a' k s t)
         | |- context [Z.lxor (mixv ?k ?i0 ?i1 ?i2 ?i3 ?i4 ?i5 ?x)
                              (mixv ?k ?i0 ?i1 ?i2 ?i3 ?i4 ?i5 ?y)] =>
             rewrite (mixv_linear k i0 i1 i2 i3 i4 i5 x y) by range
         end.

Ltac fold_shares :=
  rewrite ?secorr_not_fold by assumption;
  rewrite ?secorr_fold;
  fold_lin.

Ltac sim_solve_with fld :=
  let P2 := fresh "P2" in let P3 := fresh "P3" in
  let P4 := fresh "P4" in let P5 := fresh "P5" in
  let C1 := fresh "C1" in let C6 := fresh "C6" in let C7 := fresh "C7" in
  intros ((P2 & P3 & P4 & P5) & (C1 & C6 & C7 & ? & ? & ?) &
          (? & ? & ? & ? & ? & ? & ? & ?) & (? & ? & ? & ? & ? & ? & ? & ?));
  unfold sim, paired, same_control, in_range;
  repeat match goal with |- _ /\ _ => split end;
  norm;
  first
    [ assumption
    | solve [ range ]
    | fld; rewrite ?P2, ?P3, ?P4, ?P5, ?C6, ?C7; reflexivity ].

Ltac sim_solve := sim_solve_with fold_shares.
Ltac sim_solve_lin := sim_solve_with fold_lin.

(** Cut the goal [sim (G X) (G Y)] at [sim X Y]. *)
Ltac cut_at X Y :=
  cut (sim X Y); [ generalize X, Y; let A := fresh "A" in let B := fresh "B" in
                   intros A B; sim_solve | ].

Ltac peel_swp4 :=
  match goal with
  | |- sim (Asm.swpmv _ _ _ _ _ _ (Asm.swpmv _ _ _ _ _ _
              (Asm.swpmv _ _ _ _ _ _ (Asm.swpmv _ _ _ _ _ _ ?X))))
           (Asm.swpmv _ _ _ _ _ _ (Asm.swpmv _ _ _ _ _ _
              (Asm.swpmv _ _ _ _ _ _ (Asm.swpmv _ _ _ _ _ _ ?Y)))) =>
      cut_at X Y
  end.

Ltac peel_swp2 :=
  match goal with
  | |- sim (Asm.swpmv _ _ _ _ _ _ (Asm.swpmv _ _ _ _ _ _ ?X))
           (Asm.swpmv _ _ _ _ _ _ (Asm.swpmv _ _ _ _ _ _ ?Y)) =>
      cut_at X Y
  end.

Ltac peel_nl :=
  match goal with
  | |- sim (Asm.mvn _ _ (Asm.secxor _ _ _ _ _ _ (Asm.secorr _ _ _ _ _ _ _ ?X)))
           (Asm.mvn _ _ (Asm.secxor _ _ _ _ _ _ (Asm.secorr _ _ _ _ _ _ _ ?Y))) =>
      cut_at X Y
  end.

Ltac peel_nl4 :=
  match goal with
  | |- sim (Asm.secxor _ _ _ _ _ _ (Asm.secorr _ _ _ _ _ _ _ ?X))
           (Asm.secxor _ _ _ _ _ _ (Asm.secorr _ _ _ _ _ _ _ ?Y)) =>
      cut_at X Y
  end.

Ltac sbox_sim :=
  unfold Asm.sbox; cbv zeta;
  peel_swp2; peel_nl4;
  peel_swp4; peel_nl;
  peel_swp4; peel_nl;
  peel_swp4; peel_nl.

Lemma sim_sbox_a A B :
  sim A B ->
  sim (Asm.sbox Asm.r2 Asm.r3 Asm.r4 Asm.r5 Asm.r10 Asm.r11 Asm.r12 Asm.r14
         Asm.r8 Asm.r9 Asm.r6 A)
      (Asm.sbox Asm.r2 Asm.r3 Asm.r4 Asm.r5 Asm.r10 Asm.r11 Asm.r12 Asm.r14
         Asm.r8 Asm.r9 Asm.r6 B).
Proof. intros H. sbox_sim. exact H. Qed.

Lemma sim_sbox_b A B :
  sim A B ->
  sim (Asm.sbox Asm.r4 Asm.r5 Asm.r2 Asm.r3 Asm.r12 Asm.r14 Asm.r10 Asm.r11
         Asm.r8 Asm.r9 Asm.r6 A)
      (Asm.sbox Asm.r4 Asm.r5 Asm.r2 Asm.r3 Asm.r12 Asm.r14 Asm.r10 Asm.r11
         Asm.r8 Asm.r9 Asm.r6 B).
Proof. intros H. sbox_sim. exact H. Qed.

(** *** Words of the tables *)

Lemma is_u32_mem32 a o : is_bytes a = true -> is_u32 (Asm.mem32 a o) = true.
Proof.
  intros H. unfold Asm.mem32. cbv zeta.
  set (i := Z.to_nat o).
  rewrite (is_u8_land _ (is_u8_byte_at_bytes a i H)),
    (is_u8_land _ (is_u8_byte_at_bytes a (i + 1) H)),
    (is_u8_land _ (is_u8_byte_at_bytes a (i + 2) H)),
    (is_u8_land _ (is_u8_byte_at_bytes a (i + 3) H)).
  generalize (byte_at a i), (byte_at a (i + 1)), (byte_at a (i + 2)), (byte_at a (i + 3)).
  intros b0 b1 b2 b3.
  match goal with |- is_u32 ?v = true =>
    replace v with (Z.land v (Z.ones 32)) by Z.bitblast end.
  apply is_u32_masked.
Qed.

Lemma byte_at_xor a b i :
  length a = length b ->
  byte_at (xor_bytes a b) i = Z.lxor (byte_at a i) (byte_at b i).
Proof.
  unfold byte_at. revert b i.
  induction a as [|x a IH]; intros [|y b] i Hl; try discriminate.
  - destruct i; reflexivity.
  - destruct i as [|i]; cbn [xor_bytes nth]; [ reflexivity | ].
    apply IH. now injection Hl.
Qed.

Lemma xor_lor_step x y u v n :
  0 <= n -> x = Z.land x (Z.ones n) -> y = Z.land y (Z.ones n) ->
  Z.lor (Z.lxor x y) (Z.shiftl (Z.lxor u v) n) =
  Z.lxor (Z.lor x (Z.shiftl u n)) (Z.lor y (Z.shiftl v n)).
Proof. intros Hn Hx Hy. rewrite Hx, Hy. bitblast_neg. Qed.

Lemma lor_step_range x u n :
  0 <= n -> x = Z.land x (Z.ones n) -> u = Z.land u (Z.ones 8) ->
  Z.lor x (Z.shiftl u n) = Z.land (Z.lor x (Z.shiftl u n)) (Z.ones (n + 8)).
Proof. intros Hn Hx Hu. rewrite Hx, Hu. bitblast_neg. Qed.

Lemma mem32_xor a b o :
  is_bytes a = true -> is_bytes b = true -> length a = length b ->
  Asm.mem32 (xor_bytes a b) o = Z.lxor (Asm.mem32 a o) (Asm.mem32 b o).
Proof.
  intros Ha Hb Hl. unfold Asm.mem32. cbv zeta. rewrite !byte_at_xor by assumption.
  set (i := Z.to_nat o).
  assert (A0 := is_u8_land _ (is_u8_byte_at_bytes a i Ha)).
  assert (A1 := is_u8_land _ (is_u8_byte_at_bytes a (i + 1) Ha)).
  assert (A2 := is_u8_land _ (is_u8_byte_at_bytes a (i + 2) Ha)).
  assert (B0 := is_u8_land _ (is_u8_byte_at_bytes b i Hb)).
  assert (B1 := is_u8_land _ (is_u8_byte_at_bytes b (i + 1) Hb)).
  assert (B2 := is_u8_land _ (is_u8_byte_at_bytes b (i + 2) Hb)).
  revert A0 A1 A2 B0 B1 B2.
  generalize (byte_at a i), (byte_at a (i + 1)), (byte_at a (i + 2)),
    (byte_at a (i + 3)), (byte_at b i), (byte_at b (i + 1)),
    (byte_at b (i + 2)), (byte_at b (i + 3)).
  intros a0 a1 a2 a3 b0 b1 b2 b3 A0 A1 A2 B0 B1 B2.
  rewrite (xor_lor_step a0 b0 a1 b1 8) by (lia || assumption).
  assert (A01 := lor_step_range a0 a1 8 ltac:(lia) A0 A1).
  assert (B01 := lor_step_range b0 b1 8 ltac:(lia) B0 B1).
  rewrite (xor_lor_step _ _ a2 b2 16) by (lia || assumption).
  assert (A012 := lor_step_range _ a2 16 ltac:(lia) A01 A2).
  assert (B012 := lor_step_range _ b2 16 ltac:(lia) B01 B2).
  rewrite (xor_lor_step _ _ a3 b3 24) by (lia || assumption).
  reflexivity.
Qed.

(** *** Adding the round tweakeys *)

Lemma rtk_123_effect rtk rtk1 m :
  let m' := Asm.rtk_123 rtk rtk1 m in
  Asm.R m' Asm.r2 =
    Z.lxor (Z.lxor (Asm.R m Asm.r2) (Asm.mem32 rtk (Asm.R m Asm.r1)))
           (Asm.mem32 rtk1 (Asm.sp64 m)) /\
  Asm.R m' Asm.r3 =
    Z.lxor (Z.lxor (Asm.R m Asm.r3) (Asm.mem32 rtk (Asm.R m Asm.r1 + 4)))
           (Asm.mem32 rtk1 (Asm.sp64 m + 4)) /\
  Asm.R m' Asm.r4 =
    Z.lxor (Z.lxor (Asm.R m Asm.r4) (Asm.mem32 rtk (Asm.R m Asm.r1 + 8)))
           (Asm.mem32 rtk1 (Asm.sp64 m + 8)) /\
  Asm.R m' Asm.r5 =
    Z.lxor (Z.lxor (Asm.R m Asm.r5) (Asm.mem32 rtk (Asm.R m Asm.r1 + 12)))
           (Asm.mem32 rtk1 (Asm.sp64 m + 12)) /\
  Asm.R m' Asm.r1 = Asm.R m Asm.r1 + 16 /\
  Asm.sp64 m' = Asm.sp64 m + 16 /\
  Asm.sp60 m' = Asm.sp60 m /\
  (forall r, r <> Asm.r0 -> r <> Asm.r1 -> r <> Asm.r2 -> r <> Asm.r3 ->
             r <> Asm.r4 -> r <> Asm.r5 -> r <> Asm.r8 -> r <> Asm.r9 ->
             Asm.R m' r = Asm.R m r).
Proof.
  cbv zeta.
  repeat split;
    try (intros r ? ? ? ? ? ? ? ?; destruct r; try congruence);
    lazy beta iota zeta delta
      [Asm.rtk_123 Asm.ldr_post Asm.ldr_sp64 Asm.str_sp64 Asm.eor Asm.R Asm.sp60
       Asm.sp64 Asm.set Asm.shifted Asm.reg_eqb Asm.reg_index Nat.eqb];
    try reflexivity; try lia;
    repeat match goal with
           | |- context [Asm.mem32 ?t (?a + 4 + 4 + 4)] =>
               replace (a + 4 + 4 + 4) with (a + 12) by lia
           | |- context [Asm.mem32 ?t (?a + 4 + 4)] =>
               replace (a + 4 + 4) with (a + 8) by lia
           | |- context [Asm.mem32 ?t (?a + 8 + 4)] =>
               replace (a + 8 + 4) with (a + 12) by lia
           end;
    reflexivity.
Qed.

Lemma rtk_3m_effect rtk_m m :
  let m' := Asm.rtk_3m rtk_m m in
  Asm.R m' Asm.r10 = Z.lxor (Asm.R m Asm.r10) (Asm.mem32 rtk_m (Asm.sp60 m)) /\
  Asm.R m' Asm.r11 = Z.lxor (Asm.R m Asm.r11) (Asm.mem32 rtk_m (Asm.sp60 m + 4)) /\
  Asm.R m' Asm.r12 = Z.lxor (Asm.R m Asm.r12) (Asm.mem32 rtk_m (Asm.sp60 m + 8)) /\
  Asm.R m' Asm.r14 = Z.lxor (Asm.R m Asm.r14) (Asm.mem32 rtk_m (Asm.sp60 m + 12)) /\
  Asm.sp60 m' = Asm.sp60 m + 16 /\
  Asm.sp64 m' = Asm.sp64 m /\
  (forall r, r <> Asm.r0 -> r <> Asm.r8 -> r <> Asm.r9 -> r <> Asm.r10 ->
             r <> Asm.r11 -> r <> Asm.r12 -> r <> Asm.r14 ->
             Asm.R m' r = Asm.R m r).
Proof.
  cbv zeta.
  repeat split;
    try (intros r ? ? ? ? ? ? ?; destruct r; try congruence);
    lazy beta iota zeta delta
      [Asm.rtk_3m Asm.ldr_post Asm.ldr Asm.ldr_sp60 Asm.str_sp60 Asm.eor Asm.R
       Asm.sp60 Asm.sp64 Asm.set Asm.shifted Asm.reg_eqb Asm.reg_index Nat.eqb];
    try reflexivity; try lia;
    repeat match goal with
           | |- context [Asm.mem32 ?t (?a + 4 + 4 + 4)] =>
               replace (a + 4 + 4 + 4) with (a + 12) by lia
           | |- context [Asm.mem32 ?t (?a + 4 + 4)] =>
               replace (a + 4 + 4) with (a + 8) by lia
           | |- context [Asm.mem32 ?t (?a + 8 + 4)] =>
               replace (a + 8 + 4) with (a + 12) by lia
           end;
    reflexivity.
Qed.

Lemma dec_rtk1_effect m :
  let m' := Asm.dec_rtk1 m in
  Asm.sp64 m' = Asm.sp64 m - 256 /\ Asm.sp60 m' = Asm.sp60 m /\
  (forall r, r <> Asm.r9 -> Asm.R m' r = Asm.R m r).
Proof.
  cbv zeta. repeat split.
  intros r Hr. destruct r; try congruence; reflexivity.
Qed.

Lemma key_fold a am w wm w1 :
  Z.lxor (Z.lxor (Z.lxor a w) w1) (Z.lxor am wm) =
  Z.lxor (Z.lxor (Z.lxor a am) (Z.lxor w wm)) w1.
Proof. Z.bitblast. Qed.

Section Rounds.
Variables rtk rtk_m rtk' rtk_m' rtk1 : list Z.
Hypothesis HT : tables_agree rtk rtk_m rtk' rtk_m' rtk1.

Lemma sim_rtk A B :
  sim A B ->
  sim (Asm.rtk_3m rtk_m (Asm.rtk_123 rtk rtk1 A))
      (Asm.rtk_3m rtk_m' (Asm.rtk_123 rtk' rtk1 B)).
Proof.
  destruct HT as (T & T1 & T2 & T3 & T4 & T5).
  intros ((P2 & P3 & P4 & P5) & (C1 & C6 & C7 & C60 & C60' & C64) &
          (? & ? & ? & ? & ? & ? & ? & ?) & (? & ? & ? & ? & ? & ? & ? & ?)).
  destruct (rtk_123_effect rtk rtk1 A) as (a2 & a3 & a4 & a5 & a1 & a64 & a60 & aF).
  destruct (rtk_123_effect rtk' rtk1 B) as (b2 & b3 & b4 & b5 & b1 & b64 & b60 & bF).
  cbv zeta in *.
  destruct (rtk_3m_effect rtk_m (Asm.rtk_123 rtk rtk1 A))
    as (a10 & a11 & a12 & a14 & a60' & a64' & aF').
  destruct (rtk_3m_effect rtk_m' (Asm.rtk_123 rtk' rtk1 B))
    as (b10 & b11 & b12 & b14 & b60' & b64' & bF').
  cbv zeta in *.
  unfold sim, paired, same_control, in_range.
  rewrite a10, a11, a12, a14, b10, b11, b12, b14, a60', b60', a64', b64'.
  rewrite !aF', !bF' by discriminate.
  rewrite a2, a3, a4, a5, b2, b3, b4, b5, a1, b1, a64, b64, a60, b60.
  rewrite !aF, !bF by discriminate.
  rewrite C60, C60', C64, C1.
  repeat match goal with |- _ /\ _ => split end;
    try assumption; try reflexivity;
    try solve [ repeat (apply is_u32_lxor || apply is_u32_mem32 || assumption) ].
  all: rewrite key_fold, T; rewrite ?P2, ?P3, ?P4, ?P5; rewrite <- !key_fold; reflexivity.
Qed.

End Rounds.

(** *** The linear layer *)

Lemma sim_mixcol i0 i1 i2 i3 i4 i5 A B :
  0 <= i0 <= 32 -> 0 <= i1 <= 32 -> 0 <= i2 <= 32 ->
  0 <= i3 <= 32 -> 0 <= i4 <= 32 -> 0 <= i5 <= 32 ->
  sim A B ->
  sim (Asm.mixcol Asm.r10 Asm.r11 Asm.r12 Asm.r14 i0 i1 i2 i3 i4 i5
         (Asm.mixcol Asm.r2 Asm.r3 Asm.r4 Asm.r5 i0 i1 i2 i3 i4 i5 A))
      (Asm.mixcol Asm.r10 Asm.r11 Asm.r12 Asm.r14 i0 i1 i2 i3 i4 i5
         (Asm.mixcol Asm.r2 Asm.r3 Asm.r4 Asm.r5 i0 i1 i2 i3 i4 i5 B)).
Proof.
  intros ? ? ? ? ? ?. unfold Asm.mixcol. cbv zeta. sim_solve_lin.
Qed.

Lemma sim_dec_rtk1 A B : sim A B -> sim (Asm.dec_rtk1 A) (Asm.dec_rtk1 B).
Proof.
  intros ((P2 & P3 & P4 & P5) & (C1 & C6 & C7 & C60 & C60' & C64) &
          (? & ? & ? & ? & ? & ? & ? & ?) & (? & ? & ? & ? & ? & ? & ? & ?)).
  destruct (dec_rtk1_effect A) as (a64 & a60 & aF).
  destruct (dec_rtk1_effect B) as (b64 & b60 & bF).
  cbv zeta in *.
  unfold sim, paired, same_control, in_range.
  rewrite a64, b64, a60, b60, !aF, !bF by discriminate.
  rewrite C64.
  repeat match goal with |- _ /\ _ => split end; assumption || reflexivity.
Qed.

Section Rounds.
Variables rtk rtk_m rtk' rtk_m' rtk1 : list Z.
Hypothesis HT : tables_agree rtk rtk_m rtk' rtk_m' rtk1.

Lemma sim_quadruple_round A B :
  sim A B ->
  sim (Asm.quadruple_round rtk rtk_m rtk1 A)
      (Asm.quadruple_round rtk' rtk_m' rtk1 B).
Proof.
  intros H. unfold Asm.quadruple_round. cbv zeta.
  repeat lazymatch goal with
    | |- sim (Asm.mixcol _ _ _ _ ?i0 ?i1 ?i2 ?i3 ?i4 ?i5 (Asm.mixcol _ _ _ _ _ _ _ _ _ _ ?X))
             (Asm.mixcol _ _ _ _ _ _ _ _ _ _ (Asm.mixcol _ _ _ _ _ _ _ _ _ _ ?Y)) =>
        refine (sim_mixcol i0 i1 i2 i3 i4 i5 X Y _ _ _ _ _ _ _); [ lia .. | ]
    | |- sim (Asm.rtk_3m _ (Asm.rtk_123 _ _ ?X)) (Asm.rtk_3m _ (Asm.rtk_123 _ _ ?Y)) =>
        refine (sim_rtk rtk rtk_m rtk' rtk_m' rtk1 HT X Y _)
    | |- sim (Asm.sbox Asm.r2 _ _ _ _ _ _ _ _ _ _ ?X) (Asm.sbox _ _ _ _ _ _ _ _ _ _ _ ?Y) =>
        refine (sim_sbox_a X Y _)
    | |- sim (Asm.sbox Asm.r4 _ _ _ _ _ _ _ _ _ _ ?X) (Asm.sbox _ _ _ _ _ _ _ _ _ _ _ ?Y) =>
        refine (sim_sbox_b X Y _)
    end.
  exact H.
Qed.

Lemma sim_rounds A B :
  sim A B ->
  sim (Asm.rounds rtk rtk_m rtk1 A) (Asm.rounds rtk' rtk_m' rtk1 B).
Proof.
  intros H. unfold Asm.rounds. cbv zeta.
  repeat lazymatch goal with
    | |- sim (Asm.quadruple_round _ _ _ ?X) (Asm.quadruple_round _ _ _ ?Y) =>
        refine (sim_quadruple_round X Y _)
    | |- sim (Asm.dec_rtk1 ?X) (Asm.dec_rtk1 ?Y) => refine (sim_dec_rtk1 X Y _)
    end.
  exact H.
Qed.

End Rounds.

(** *** Packing and unpacking *)

Lemma pack_frame_1 m r :
  r <> Asm.r2 -> r <> Asm.r3 -> r <> Asm.r4 -> r <> Asm.r5 -> r <> Asm.r8 ->
  Asm.R (Asm.pack Asm.r2 Asm.r3 Asm.r4 Asm.r5 m) r = Asm.R m r.
Proof. intros. unfold Asm.pack. cbv zeta. norm. reflexivity. Qed.

Lemma pack_frame_2 m r :
  r <> Asm.r10 -> r <> Asm.r11 -> r <> Asm.r12 -> r <> Asm.r14 -> r <> Asm.r8 ->
  Asm.R (Asm.pack Asm.r10 Asm.r11 Asm.r12 Asm.r14 m) r = Asm.R m r.
Proof. intros. unfold Asm.pack. cbv zeta. norm. reflexivity. Qed.

Lemma unpack_frame_1 m r :
  r <> Asm.r2 -> r <> Asm.r3 -> r <> Asm.r4 -> r <> Asm.r5 -> r <> Asm.r8 ->
  Asm.R (Asm.unpack Asm.r2 Asm.r3 Asm.r4 Asm.r5 m) r = Asm.R m r.
Proof. intros. unfold Asm.unpack. cbv zeta. norm. reflexivity. Qed.

Lemma unpack_frame_2 m r :
  r <> Asm.r10 -> r <> Asm.r11 -> r <> Asm.r12 -> r <> Asm.r14 -> r <> Asm.r8 ->
  Asm.R (Asm.unpack Asm.r10 Asm.r11 Asm.r12 Asm.r14 m) r = Asm.R m r.
Proof. intros. unfold Asm.unpack. cbv zeta. norm. reflexivity. Qed.

(** First the registers of the first share, which the second group of
    [swpmv] leaves alone, then those of the second share. *)
Ltac two_shares frame1 frame2 open :=
  let P2 := fresh "P2" in let P3 := fresh "P3" in
  let P4 := fresh "P4" in let P5 := fresh "P5" in
  let C1 := fresh "C1" in let C6 := fresh "C6" in let C7 := fresh "C7" in
  intros ((P2 & P3 & P4 & P5) & (C1 & C6 & C7 & ? & ? & ?) &
          (? & ? & ? & ? & ? & ? & ? & ?) & (? & ? & ? & ? & ? & ? & ? & ?));
  unfold sim, paired, same_control, in_range;
  repeat match goal with |- _ /\ _ => split end;
  try reflexivity;
  rewrite ?(frame2 _ Asm.r1), ?(frame2 _ Asm.r2), ?(frame2 _ Asm.r3),
    ?(frame2 _ Asm.r4), ?(frame2 _ Asm.r5), ?(frame2 _ Asm.r6),
    ?(frame2 _ Asm.r7) by discriminate;
  match goal with
  | |- context [Asm.R (_ _ _ _ _ (?f ?X)) _] =>
      let X1 := fresh "X" in let E := fresh "E" in
      remember (f X) as X1 eqn:E; open; norm; rewrite E; clear E X1
  | _ => idtac
  end;
  match goal with
  | |- context [Asm.R (_ _ _ _ _ (?f ?X)) _] =>
      let X1 := fresh "X" in let E := fresh "E" in
      remember (f X) as X1 eqn:E; open; norm; rewrite E; clear E X1
  | _ => idtac
  end;
  rewrite ?(frame1 _ Asm.r1), ?(frame1 _ Asm.r10), ?(frame1 _ Asm.r11),
    ?(frame1 _ Asm.r12), ?(frame1 _ Asm.r14), ?(frame1 _ Asm.r6),
    ?(frame1 _ Asm.r7) by discriminate;
  open; norm;
  first
    [ assumption
    | solve [ range ]
    | fold_lin; rewrite ?P2, ?P3, ?P4, ?P5, ?C6, ?C7; reflexivity ].

Lemma sim_pack A B :
  sim A B ->
  sim (Asm.pack Asm.r10 Asm.r11 Asm.r12 Asm.r14 (Asm.pack Asm.r2 Asm.r3 Asm.r4 Asm.r5 A))
      (Asm.pack Asm.r10 Asm.r11 Asm.r12 Asm.r14 (Asm.pack Asm.r2 Asm.r3 Asm.r4 Asm.r5 B)).
Proof.
  two_shares pack_frame_1 pack_frame_2 ltac:(unfold Asm.pack; cbv zeta).
Qed.

Lemma sim_unpack A B :
  sim A B ->
  sim (Asm.unpack Asm.r10 Asm.r11 Asm.r12 Asm.r14 (Asm.unpack Asm.r2 Asm.r3 Asm.r4 Asm.r5 A))
      (Asm.unpack Asm.r10 Asm.r11 Asm.r12 Asm.r14 (Asm.unpack Asm.r2 Asm.r3 Asm.r4 Asm.r5 B)).
Proof.
  two_shares unpack_frame_1 unpack_frame_2 ltac:(unfold Asm.unpack; cbv zeta).
Qed.

(** *** The constants, the prologue and the epilogue *)

Lemma sim_const6 lo hi A B :
  sim A B ->
  sim (Asm.movt Asm.r6 hi (Asm.movw Asm.r6 lo A))
      (Asm.movt Asm.r6 hi (Asm.movw Asm.r6 lo B)).
Proof.
  intros ((P2 & P3 & P4 & P5) & (C1 & C6 & C7 & ? & ? & ?) &
          (? & ? & ? & ? & ? & ? & ? & ?) & (? & ? & ? & ? & ? & ? & ? & ?)).
  unfold sim, paired, same_control, in_range.
  repeat match goal with |- _ /\ _ => split end;
    lazy beta iota zeta delta
      [Asm.movt Asm.movw Asm.R Asm.sp60 Asm.sp64 Asm.set Asm.reg_eqb
       Asm.reg_index Nat.eqb];
    assumption || reflexivity.
Qed.

Lemma sim_prologue p p_m p' p_m' :
  is_block p = true -> is_block p_m = true ->
  is_block p' = true -> is_block p_m' = true ->
  xor_bytes p p_m = xor_bytes p' p_m' ->
  sim (Asm.load_and_pack p p_m) (Asm.load_and_pack p' p_m').
Proof.
  intros Hp Hm Hp' Hm' Hx.
  assert (W : forall o, Z.lxor (Asm.mem32 p o) (Asm.mem32 p_m o) =
                        Z.lxor (Asm.mem32 p' o) (Asm.mem32 p_m' o)).
  { intros o.
    rewrite <- !mem32_xor
      by (auto using is_block_bytes; rewrite !is_block_length by assumption; reflexivity).
    now rewrite Hx. }
  apply is_block_bytes in Hp, Hm, Hp', Hm'.
  unfold Asm.load_and_pack. cbv zeta.
  apply sim_const6, sim_pack.
  unfold sim, paired, same_control, in_range.
  repeat match goal with |- _ /\ _ => split end;
    lazy beta iota zeta delta
      [Asm.movt Asm.movw Asm.ldr Asm.entry Asm.R Asm.sp60 Asm.sp64 Asm.set
       Asm.reg_eqb Asm.reg_index Nat.eqb];
    rewrite ?Z.add_0_l;
    first [ reflexivity | apply W | apply is_u32_mem32; assumption ].
Qed.

Lemma sim_epilogue A B : sim A B -> sim (Asm.unpack_shares A) (Asm.unpack_shares B).
Proof.
  intros H. unfold Asm.unpack_shares. cbv zeta.
  apply sim_unpack, sim_const6, H.
Qed.

Lemma block_of_words_xor a b c d a' b' c' d' :
  xor_bytes (block_of_words a b c d) (block_of_words a' b' c' d') =
  block_of_words (Z.lxor a a') (Z.lxor b b') (Z.lxor c c') (Z.lxor d d').
Proof.
  unfold block_of_words.
  rewrite !xor_bytes_app, !bytes_of_u32_xor by reflexivity. reflexivity.
Qed.

Lemma tables_agree_xor rtk rtk_m rtk' rtk_m' rtk1 :
  is_bytes rtk = true -> is_bytes rtk_m = true ->
  is_bytes rtk' = true -> is_bytes rtk_m' = true -> is_bytes rtk1 = true ->
  length rtk = length rtk_m -> length rtk' = length rtk_m' ->
  xor_bytes rtk rtk_m = xor_bytes rtk' rtk_m' ->
  tables_agree rtk rtk_m rtk' rtk_m' rtk1.
Proof.
  intros H1 H2 H3 H4 H5 L L' Hx. unfold tables_agree.
  repeat split; try assumption.
  intros o. rewrite <- !mem32_xor by assumption. now rewrite Hx.
Qed.

(** ** The masked block cipher computes a function of the unmasked inputs *)

(** X9.  Two calls of [skinny128_384_plus_m] on two sharings of the same
    plaintext block, with tables [rtk], [rtk_m] whose exclusive or is the
    same and with the same [rtk1], return sharings of the same block: the
    exclusive or of the two outputs [c] and [c_m] does not depend on the
    masks. *)
Theorem skinny128_384_plus_m_mask_independent
    (p p_m p' p_m' rtk rtk_m rtk' rtk_m' rtk1 : list Z) :
  is_block p = true -> is_block p_m = true ->
  is_block p' = true -> is_block p_m' = true ->
  is_bytes rtk = true -> is_bytes rtk_m = true ->
  is_bytes rtk' = true -> is_bytes rtk_m' = true -> is_bytes rtk1 = true ->
  length rtk = 640%nat -> length rtk_m = 640%nat ->
  length rtk' = 640%nat -> length rtk_m' = 640%nat -> length rtk1 = 256%nat ->
  xor_bytes p p_m = xor_bytes p' p_m' ->
  xor_bytes rtk rtk_m = xor_bytes rtk' rtk_m' ->
  xor_bytes (fst (Asm.skinny128_384_plus_m p p_m rtk rtk_m rtk1))
            (snd (Asm.skinny128_384_plus_m p p_m rtk rtk_m rtk1)) =
  xor_bytes (fst (Asm.skinny128_384_plus_m p' p_m' rtk' rtk_m' rtk1))
            (snd (Asm.skinny128_384_plus_m p' p_m' rtk' rtk_m' rtk1)).
Proof.
  intros Hp Hm Hp' Hm' B1 B2 B3 B4 B5 L1 L2 L3 L4 L5 Hx Hk.
  assert (HT : tables_agree rtk rtk_m rtk' rtk_m' rtk1)
    by (apply tables_agree_xor; congruence).
  assert (S := sim_epilogue _ _
                 (sim_rounds rtk rtk_m rtk' rtk_m' rtk1 HT _ _
                    (sim_prologue p p_m p' p_m' Hp Hm Hp' Hm' Hx))).
  destruct S as ((P2 & P3 & P4 & P5) & _).
  unfold Asm.skinny128_384_plus_m. cbv zeta. cbn [fst snd].
  rewrite !block_of_words_xor, P2, P3, P4, P5. reflexivity.
Qed.

Lemma skinny128_384_plus_m_mask_independent_witness :
  let p := ramp 7 1 16 in
  let p_m := ramp 13 5 16 in
  let d := ramp 29 3 16 in
  let rtk := ramp 3 1 640 in
  let rtk_m := ramp 5 2 640 in
  let e := ramp 11 7 640 in
  let rtk1 := ramp 9 4 256 in
  xor_bytes (fst (Asm.skinny128_384_plus_m p p_m rtk rtk_m rtk1))
            (snd (Asm.skinny128_384_plus_m p p_m rtk rtk_m rtk1)) =
  xor_bytes (fst (Asm.skinny128_384_plus_m (xor_bytes p d) (xor_bytes p_m d)
                    (xor_bytes rtk e) (xor_bytes rtk_m e) rtk1))
            (snd (Asm.skinny128_384_plus_m (xor_bytes p d) (xor_bytes p_m d)
                    (xor_bytes rtk e) (xor_bytes rtk_m e) rtk1)).
Proof.
  apply (skinny128_384_plus_m_mask_independent
           (ramp 7 1 16) (ramp 13 5 16)
           (xor_bytes (ramp 7 1 16) (ramp 29 3 16))
           (xor_bytes (ramp 13 5 16) (ramp 29 3 16))
           (ramp 3 1 640) (ramp 5 2 640)
           (xor_bytes (ramp 3 1 640) (ramp 11 7 640))
           (xor_bytes (ramp 5 2 640) (ramp 11 7 640))
           (ramp 9 4 256));
    vm_compute; reflexivity.
Defined.

(** *** Unpacking undoes packing *)

(** [Z.bitblast], with the bits of shifted operands opened as well. *)
Ltac bitblast_deep :=
  apply Z.bits_inj'; intros ?i ?Hi;
  repeat (progress Z.rewrite_bitwise);
  Z.discover_equal_testbit_indices;
  Z.destruct_ltbs;
  try (exfalso; lia);
  repeat match goal with
         | |- context [Z.testbit ?a ?l] => rewrite (Z.testbit_neg_r a l) by lia
         end;
  try btauto.

Lemma swp_invol a b k s0 s1 :
  0 <= s0 <= 32 ->
  Z.shiftr k s1 = Z.land (Z.shiftr k s1) (Z.ones (32 - s0)) ->
  swp_a (swp_a a b k s0 s1) (swp_b a b k s0 s1) k s0 s1 = a /\
  swp_b (swp_a a b k s0 s1) (swp_b a b k s0 s1) k s0 s1 = b.
Proof.
  intros Hs HK. unfold swp_a, swp_b, swp_t. rewrite !u32_land.
  revert HK. generalize (Z.shiftr k s1). intros K HK. rewrite HK.
  split; bitblast_deep.
Qed.

Lemma swp_s_invol x : swp_s (swp_s x 0x0a0a0a0a 3 0) 0x0a0a0a0a 3 0 = x.
Proof.
  unfold swp_s. cbv zeta. rewrite !Z.shiftr_0_r, !u32_land.
  apply (bits_eq_below 32).
  - intros i Hi. change 0x0a0a0a0a with (Z.land 0x0a0a0a0a (Z.ones 32)).
    cbn [Z.of_nat Pos.of_succ_nat Pos.succ] in Hi.
    repeat (progress Z.rewrite_bitwise).
    Z.destruct_ltbs; try (exfalso; lia); btauto.
  - intros j Hj. enum_nat j Hj;
      cbn [Z.of_nat Pos.of_succ_nat Pos.succ];
      testbits; cbn; try reflexivity; btauto.
Qed.

Lemma reg_eq_dec (a b : Asm.reg) : {a = b} + {a <> b}.
Proof. decide equality. Qed.

Lemma agree_on_refl l m : agree_on l m m.
Proof. intros r _. reflexivity. Qed.

Lemma agree_on_trans l a b c : agree_on l a b -> agree_on l b c -> agree_on l a c.
Proof. intros H1 H2 r Hr. now rewrite (H1 r Hr), (H2 r Hr). Qed.

Lemma agree_on_sym l a b : agree_on l a b -> agree_on l b a.
Proof. intros H r Hr. now rewrite (H r Hr). Qed.

Lemma not_in_neq (l : list Asm.reg) a b : In a l -> ~ In b l -> b <> a.
Proof. intros Ha Hb E. apply Hb. now rewrite E. Qed.

Section Swap.
Variables (l : list Asm.reg) (x y k : Asm.reg) (s0 s1 : Z).
Hypothesis Hx : In x l.
Hypothesis Hy : In y l.
Hypothesis Hk : In k l.
Hypothesis H8 : ~ In Asm.r8 l.

Lemma swpmv_agree m m' :
  x <> y -> agree_on l m m' ->
  agree_on l (Asm.swpmv x y Asm.r8 k s0 s1 m) (Asm.swpmv x y Asm.r8 k s0 s1 m').
Proof.
  intros Hxy H r Hr.
  assert (N1 := not_in_neq l x _ Hx H8). assert (N2 := not_in_neq l y _ Hy H8).
  assert (N3 := not_in_neq l k _ Hk H8). assert (N4 := not_in_neq l r _ Hr H8).
  destruct (reg_eq_dec r x) as [->|Nx];
    [ rewrite !swpmv_in0 by neq; now rewrite !H | ].
  destruct (reg_eq_dec r y) as [->|Ny];
    [ rewrite !swpmv_in1 by neq; now rewrite !H | ].
  rewrite !swpmv_other by neq. now apply H.
Qed.

Lemma swpmv_self_agree m m' :
  agree_on l m m' ->
  agree_on l (Asm.swpmv x x Asm.r8 k s0 s1 m) (Asm.swpmv x x Asm.r8 k s0 s1 m').
Proof.
  intros H r Hr.
  assert (N1 := not_in_neq l x _ Hx H8).
  assert (N3 := not_in_neq l k _ Hk H8). assert (N4 := not_in_neq l r _ Hr H8).
  destruct (reg_eq_dec r x) as [->|Nx];
    [ rewrite !swpmv_self by neq; now rewrite !H | ].
  rewrite !swpmv_self_other by neq. now apply H.
Qed.

Lemma swpmv_cancel_on m :
  x <> y -> k <> x -> k <> y -> 0 <= s0 <= 32 ->
  Z.shiftr (Asm.R m k) s1 =
    Z.land (Z.shiftr (Asm.R m k) s1) (Z.ones (32 - s0)) ->
  agree_on l (Asm.swpmv x y Asm.r8 k s0 s1 (Asm.swpmv x y Asm.r8 k s0 s1 m)) m.
Proof.
  intros Hxy Hkx Hky Hs HK r Hr.
  assert (N1 := not_in_neq l x _ Hx H8). assert (N2 := not_in_neq l y _ Hy H8).
  assert (N3 := not_in_neq l k _ Hk H8). assert (N4 := not_in_neq l r _ Hr H8).
  destruct (swp_invol (Asm.R m x) (Asm.R m y) (Asm.R m k) s0 s1 Hs HK) as [Ia Ib].
  destruct (reg_eq_dec r x) as [->|Nx].
  { rewrite swpmv_in0, swpmv_in0, swpmv_in1, swpmv_other by neq. exact Ia. }
  destruct (reg_eq_dec r y) as [->|Ny].
  { rewrite swpmv_in1, swpmv_in0, swpmv_in1, swpmv_other by neq. exact Ib. }
  now rewrite !swpmv_other by neq.
Qed.

Lemma swpmv_self_cancel_on m :
  k <> x -> s0 = 3 -> s1 = 0 -> Asm.R m k = 0x0a0a0a0a ->
  agree_on l (Asm.swpmv x x Asm.r8 k s0 s1 (Asm.swpmv x x Asm.r8 k s0 s1 m)) m.
Proof.
  intros Hkx -> -> HK r Hr.
  assert (N1 := not_in_neq l x _ Hx H8).
  assert (N3 := not_in_neq l k _ Hk H8). assert (N4 := not_in_neq l r _ Hr H8).
  destruct (reg_eq_dec r x) as [->|Nx].
  { rewrite swpmv_self, swpmv_self, swpmv_self_other by neq. rewrite HK.
    apply swp_s_invol. }
  now rewrite !swpmv_self_other by neq.
Qed.

End Swap.

Ltac in_list := cbn [In]; tauto.
Ltac not_in_list := cbn [In]; intuition discriminate.

(** Remove the innermost pair of equal [swpmv] of the left-hand side. *)
Ltac cancel_pair H6 H7 :=
  lazymatch goal with
  | |- agree_on ?l ?L ?m =>
      lazymatch L with
      | context C [Asm.swpmv ?x ?y ?t ?k ?s0 ?s1 (Asm.swpmv ?x ?y ?t ?k ?s0 ?s1 ?X)] =>
          let L' := context C [X] in
          apply (agree_on_trans l L L' m);
          [ repeat lazymatch goal with
              | |- agree_on _ (Asm.swpmv ?a ?a _ _ _ _ (Asm.swpmv ?a ?a _ _ _ _ ?Y)) ?Y =>
                  apply swpmv_self_cancel_on;
                  [ in_list | in_list | not_in_list | discriminate | reflexivity
                  | reflexivity | norm; exact H6 ]
              | |- agree_on _ (Asm.swpmv ?a ?b _ _ _ _ (Asm.swpmv ?a ?b _ _ _ _ ?Y)) ?Y =>
                  apply swpmv_cancel_on;
                  [ in_list | in_list | in_list | not_in_list | discriminate
                  | discriminate | discriminate | lia
                  | norm; rewrite H7; reflexivity ]
              | |- agree_on _ (Asm.swpmv ?a ?a _ _ _ _ _) (Asm.swpmv ?a ?a _ _ _ _ _) =>
                  apply swpmv_self_agree; [ in_list | in_list | not_in_list | ]
              | |- agree_on _ (Asm.swpmv _ _ _ _ _ _ _) (Asm.swpmv _ _ _ _ _ _ _) =>
                  apply swpmv_agree; [ in_list | in_list | in_list | not_in_list
                                     | discriminate | ]
              end
          | ]
      end
  end.

Lemma unpack_pack_1 m :
  Asm.R m Asm.r6 = 0x0a0a0a0a -> Asm.R m Asm.r7 = 0x30303030 ->
  agree_on [Asm.r2; Asm.r3; Asm.r4; Asm.r5; Asm.r6; Asm.r7]
    (Asm.unpack Asm.r2 Asm.r3 Asm.r4 Asm.r5 (Asm.pack Asm.r2 Asm.r3 Asm.r4 Asm.r5 m)) m.
Proof.
  intros H6 H7. unfold Asm.unpack, Asm.pack. cbv zeta.
  do 10 cancel_pair H6 H7. apply agree_on_refl.
Qed.

Lemma unpack_pack_2 m :
  Asm.R m Asm.r6 = 0x0a0a0a0a -> Asm.R m Asm.r7 = 0x30303030 ->
  agree_on [Asm.r10; Asm.r11; Asm.r12; Asm.r14; Asm.r6; Asm.r7]
    (Asm.unpack Asm.r10 Asm.r11 Asm.r12 Asm.r14
       (Asm.pack Asm.r10 Asm.r11 Asm.r12 Asm.r14 m)) m.
Proof.
  intros H6 H7. unfold Asm.unpack, Asm.pack. cbv zeta.
  do 10 cancel_pair H6 H7. apply agree_on_refl.
Qed.

Ltac agree_steps :=
  repeat lazymatch goal with
    | |- agree_on _ (Asm.swpmv ?a ?a _ _ _ _ _) (Asm.swpmv ?a ?a _ _ _ _ _) =>
        apply swpmv_self_agree; [ in_list | in_list | not_in_list | ]
    | |- agree_on _ (Asm.swpmv _ _ _ _ _ _ _) (Asm.swpmv _ _ _ _ _ _ _) =>
        apply swpmv_agree; [ in_list | in_list | in_list | not_in_list
                           | discriminate | ]
    end.

Lemma unpack_agree_1 A B :
  agree_on [Asm.r2; Asm.r3; Asm.r4; Asm.r5; Asm.r6; Asm.r7] A B ->
  agree_on [Asm.r2; Asm.r3; Asm.r4; Asm.r5; Asm.r6; Asm.r7]
    (Asm.unpack Asm.r2 Asm.r3 Asm.r4 Asm.r5 A) (Asm.unpack Asm.r2 Asm.r3 Asm.r4 Asm.r5 B).
Proof. intros H. unfold Asm.unpack. cbv zeta. agree_steps. exact H. Qed.

Lemma unpack_agree_2 A B :
  agree_on [Asm.r10; Asm.r11; Asm.r12; Asm.r14; Asm.r6; Asm.r7] A B ->
  agree_on [Asm.r10; Asm.r11; Asm.r12; Asm.r14; Asm.r6; Asm.r7]
    (Asm.unpack Asm.r10 Asm.r11 Asm.r12 Asm.r14 A)
    (Asm.unpack Asm.r10 Asm.r11 Asm.r12 Asm.r14 B).
Proof. intros H. unfold Asm.unpack. cbv zeta. agree_steps. exact H. Qed.

Lemma const6_other lo hi m r :
  r <> Asm.r6 -> Asm.R (Asm.movt Asm.r6 hi (Asm.movw Asm.r6 lo m)) r = Asm.R m r.
Proof. intros. unfold Asm.movt, Asm.movw. regs. reflexivity. Qed.

Lemma const6_same lo hi m :
  Asm.R (Asm.movt Asm.r6 hi (Asm.movw Asm.r6 lo m)) Asm.r6 =
  Z.lor (Z.land lo 0xffff) (Z.shiftl hi 16).
Proof. unfold Asm.movt, Asm.movw. regs. reflexivity. Qed.

(** X14.  The instructions before the rounds and the instructions after
    them are inverse to each other: on the registers the packing leaves, the
    unpacking and the eight stores give the two input blocks back, word for
    word.  With the forty rounds left out the function would copy [p] to [c]
    and [p_m] to [c_m]. *)
Theorem unpack_shares_load_and_pack (p p_m : list Z) :
  is_block p = true -> is_block p_m = true ->
  let m := Asm.unpack_shares (Asm.load_and_pack p p_m) in
  block_of_words (Asm.R m Asm.r2) (Asm.R m Asm.r4) (Asm.R m Asm.r3) (Asm.R m Asm.r5) = p /\
  block_of_words (Asm.R m Asm.r10) (Asm.R m Asm.r12) (Asm.R m Asm.r11) (Asm.R m Asm.r14)
    = p_m.
Proof.
  intros Hp Hm. cbv zeta.
  unfold Asm.unpack_shares, Asm.load_and_pack. cbv zeta.
  match goal with
  | |- context [Asm.pack Asm.r2 Asm.r3 Asm.r4 Asm.r5 ?X] => set (L := X)
  end.
  assert (L6 : Asm.R L Asm.r6 = 0x0a0a0a0a) by reflexivity.
  assert (L7 : Asm.R L Asm.r7 = 0x30303030) by reflexivity.
  assert (V2 : Asm.R L Asm.r2 = load32 p 0) by reflexivity.
  assert (V3 : Asm.R L Asm.r3 = load32 p 2) by reflexivity.
  assert (V4 : Asm.R L Asm.r4 = load32 p 1) by reflexivity.
  assert (V5 : Asm.R L Asm.r5 = load32 p 3) by reflexivity.
  assert (V10 : Asm.R L Asm.r10 = load32 p_m 0) by reflexivity.
  assert (V11 : Asm.R L Asm.r11 = load32 p_m 2) by reflexivity.
  assert (V12 : Asm.R L Asm.r12 = load32 p_m 1) by reflexivity.
  assert (V14 : Asm.R L Asm.r14 = load32 p_m 3) by reflexivity.
  clearbody L.
  set (L1 := Asm.pack Asm.r2 Asm.r3 Asm.r4 Asm.r5 L).
  set (Y := Asm.pack Asm.r10 Asm.r11 Asm.r12 Asm.r14 L1).
  set (Y' := Asm.movt Asm.r6 2570 (Asm.movw Asm.r6 2570
               (Asm.movt Asm.r6 21845 (Asm.movw Asm.r6 21845 Y)))).
  set (l1 := [Asm.r2; Asm.r3; Asm.r4; Asm.r5; Asm.r6; Asm.r7]).
  set (l2 := [Asm.r10; Asm.r11; Asm.r12; Asm.r14; Asm.r6; Asm.r7]).
  assert (K6 : Asm.R L1 Asm.r6 = 0x0a0a0a0a)
    by (unfold L1; rewrite pack_frame_1 by discriminate; exact L6).
  assert (K7 : Asm.R L1 Asm.r7 = 0x30303030)
    by (unfold L1; rewrite pack_frame_1 by discriminate; exact L7).
  assert (Y6 : Asm.R Y' Asm.r6 = 0x0a0a0a0a) by (unfold Y'; now rewrite const6_same).
  assert (Yo : forall r, r <> Asm.r6 -> Asm.R Y' r = Asm.R Y r)
    by (intros r Hr; unfold Y'; now rewrite !const6_other by exact Hr).
  (* the first share *)
  assert (A1 : agree_on l1 Y' L1).
  { intros r Hr. destruct (reg_eq_dec r Asm.r6) as [->|N6]; [ congruence | ].
    rewrite (Yo r N6). unfold Y. apply pack_frame_2;
      cbn [In l1] in Hr; intuition (subst; discriminate). }
  assert (S1 : agree_on l1 (Asm.unpack Asm.r2 Asm.r3 Asm.r4 Asm.r5 Y') L).
  { apply (agree_on_trans _ _ (Asm.unpack Asm.r2 Asm.r3 Asm.r4 Asm.r5 L1)).
    - now apply unpack_agree_1.
    - now apply unpack_pack_1. }
  (* the second share *)
  assert (A2 : agree_on l2 (Asm.unpack Asm.r2 Asm.r3 Asm.r4 Asm.r5 Y') Y).
  { intros r Hr.
    rewrite unpack_frame_1 by (cbn [In l2] in Hr; intuition (subst; discriminate)).
    destruct (reg_eq_dec r Asm.r6) as [->|N6]; [ | now apply Yo ].
    rewrite Y6. unfold Y. rewrite pack_frame_2 by discriminate. now rewrite K6. }
  assert (S2 : agree_on l2
                 (Asm.unpack Asm.r10 Asm.r11 Asm.r12 Asm.r14
                    (Asm.unpack Asm.r2 Asm.r3 Asm.r4 Asm.r5 Y')) L1).
  { apply (agree_on_trans _ _ (Asm.unpack Asm.r10 Asm.r11 Asm.r12 Asm.r14 Y)).
    - now apply unpack_agree_2.
    - now apply unpack_pack_2. }
  split.
  - rewrite !unpack_frame_2 by discriminate.
    rewrite (S1 Asm.r2), (S1 Asm.r3), (S1 Asm.r4), (S1 Asm.r5) by (cbn; tauto).
    rewrite V2, V3, V4, V5. now apply block_words.
  - rewrite (S2 Asm.r10), (S2 Asm.r11), (S2 Asm.r12), (S2 Asm.r14) by (cbn; tauto).
    unfold L1. rewrite !pack_frame_1 by discriminate.
    rewrite V10, V11, V12, V14. now apply block_words.
Qed.

Lemma unpack_shares_load_and_pack_witness :
  let m := Asm.unpack_shares (Asm.load_and_pack (ramp 7 1 16) (ramp 13 5 16)) in
  block_of_words (Asm.R m Asm.r2) (Asm.R m Asm.r4) (Asm.R m Asm.r3) (Asm.R m Asm.r5)
    = ramp 7 1 16 /\
  block_of_words (Asm.R m Asm.r10) (Asm.R m Asm.r12) (Asm.R m Asm.r11) (Asm.R m Asm.r14)
    = ramp 13 5 16.
Proof.
  apply (unpack_shares_load_and_pack (ramp 7 1 16) (ramp 13 5 16)); reflexivity.
Defined.
